(** * CodexPoker: the hand orchestration engine

    A shallow embedding of [codexpoker_backend/engine/service.py]
    ([PokerEngineService]) together with the records of
    [engine/models.py] and [engine/internal.py].

    The rules library (pokerkit) is an external collaborator: it is taken
    as a parameter, the class [Provider], whose operations are exactly the
    ones the service calls.  The bot policy, the seed derivation (SHA-256),
    the deck shuffle (Mersenne twister) and the stable hash enter the same
    way, through the class [Environment].

    Python integers are [Z] where a caller or the rules library supplies
    them (chips, action sequence numbers) and [nat] where the service
    counts from zero itself (seat ids, player indices, event sequence
    numbers, hand ids).  Dictionaries are [gmap]s, except the two whose
    keys are [range(n)] by construction and whose iteration order the
    service relies on ([TableRuntime.seats], [player_index_to_seat]):
    those are lists indexed by key.  Wall-clock timestamps of envelopes
    are left out. *)

From Stdlib Require Import ZArith List String Bool Lia.
From stdpp Require Import base option list gmap strings sorting pretty.

Local Open Scope Z_scope.

(** ** engine/models.py *)

Definition Card := string.

Inductive PlayerType := HUMAN | BOT.

Inductive SessionOutcome := RUNNING | HUMAN_WON | HUMAN_LOST.

Inductive Street := PREFLOP | FLOP | TURN | RIVER | SHOWDOWN | HAND_ENDED.

Inductive ClientActionType := FOLD | CHECK | CALL | BET | RAISE | ALL_IN.

Inductive EventType :=
| HAND_START | POST_BLIND | DEAL_CARD | ACTION | STREET_END_COLLECT
| BOARD_REVEAL | SHOWDOWN_REVEAL | POT_AWARD | STACK_UPDATE | HAND_END
| SESSION_END.

Definition ENGINE_VERSION := "0.1.0".
Definition RULESET_VERSION := "nlhe-cash-v1".

#[global] Instance PlayerType_eq_dec : EqDecision PlayerType.
Proof. solve_decision. Defined.
#[global] Instance SessionOutcome_eq_dec : EqDecision SessionOutcome.
Proof. solve_decision. Defined.
#[global] Instance Street_eq_dec : EqDecision Street.
Proof. solve_decision. Defined.
#[global] Instance ClientActionType_eq_dec : EqDecision ClientActionType.
Proof. solve_decision. Defined.
#[global] Instance EventType_eq_dec : EqDecision EventType.
Proof. solve_decision. Defined.

Module TableConfig.
Record t := mk {
    num_seats : nat;
    small_blind : Z;
    big_blind : Z;
    starting_stack : Z;
    ante : Z;
    no_rake : bool;
    seed : option Z;
  }.
End TableConfig.

(** A [{"seat": ..., "amount": ...}] dictionary, as found in the winners
    of a pot award and in its odd chip award. *)
Module SeatAmount.
Record t := mk { seat : nat; amount : Z }.
End SeatAmount.

(** The [pot_payload] dictionary of [_advance_locked], which is both the
    POT_AWARD payload and the row kept in [hand.pot_awards]
    ([PotAwardHistoryRow] has the same fields). *)
Module PotAward.
Record t := mk {
    pot_id : nat;
    amount : Z;
    winners : list SeatAmount.t;
    eligible_seats : list nat;
    odd_chip_award : option SeatAmount.t;
  }.
End PotAward.

Module ActionHistoryRow.
Record t := mk {
    step_index : nat;
    action_seq : Z;
    seat_id : nat;
    action : ClientActionType;
    amount_to : option Z;
    street : Street;
  }.
End ActionHistoryRow.

Module ActionLogEntry.
Record t := mk {
    event_seq : nat;
    seat_id : nat;
    action : ClientActionType;
    amount_to : option Z;
    street : Street;
  }.
End ActionLogEntry.

Module ShowdownRow.
Record t := mk {
    seat_id : nat;
    player_name : string;
    hole_cards : list Card;
    best_hand_name : string;
    hand_rank_value : Z;
    amount_won : Z;
  }.
End ShowdownRow.

Module ShowdownPayload.
Record t := mk { winners : list ShowdownRow.t; losers : list ShowdownRow.t }.
End ShowdownPayload.

(** The payload dictionaries of the eleven event kinds. *)
Inductive Payload :=
| PHandStart (dealer_button_seat sb_seat bb_seat : nat)
             (starting_stacks : gmap nat Z)
| PPostBlind (seat : nat) (amount : Z)
| PDealCard (to_seat card_index : nat) (card : option Card)
| PAction (seat : nat) (action_type : ClientActionType)
          (amount_to : option Z) (bot_think_delay_ms : option Z)
| PStreetEndCollect (collected : list Z)
| PBoardReveal (street : Street) (cards : list Card)
| PShowdownReveal (seats_revealed : list nat) (hole_cards : list Card)
| PPotAward (award : PotAward.t)
| PStackUpdate (seat : nat) (new_stack : Z)
| PHandEnd (reason : string) (final_stacks_by_seat : gmap nat Z)
| PSessionEnd (outcome : SessionOutcome).

Module EventEnvelope.
Record t := mk {
    table_id : string;
    hand_id : nat;
    event_seq : nat;
    event_type : EventType;
    payload : Payload;
  }.
End EventEnvelope.

Module SeatState.
Record t := mk {
    seat_id : nat;
    player_type : PlayerType;
    display_name : string;
    stack : Z;
    has_folded : bool;
    is_all_in : bool;
    is_busted : bool;
    role_badge : option string;
    is_dealer_button : bool;
    cards : list (option Card);
  }.
End SeatState.

Module PotView.
Record t := mk {
    pot_id : nat;
    amount : Z;
    eligible_seats : list nat;
    label : string;
  }.
End PotView.

Module AllowedActions.
Record t := mk {
    can_fold : bool;
    can_check : bool;
    can_call : bool;
    can_bet : bool;
    can_raise : bool;
    can_all_in : bool;
    call_amount : Z;
    min_bet_to : option Z;
    min_raise_to : option Z;
    max_raise_to : option Z;
    pot_size : Z;
    effective_stack : Z;
  }.
  (** [AllowedActions()] with every field at its default. *)
Definition default (pot stack : Z) : t :=
    mk false false false false false false 0 None None None pot stack.
End AllowedActions.

(** The dictionary [_invariant_payload] returns. *)
Module InvariantPayload.
Record t := mk {
    chip_conservation : bool;
    no_negative_stacks : bool;
    hand_status_valid : bool;
    in_front : Z;
  }.
End InvariantPayload.

(** The [raw_state] dictionary that [_build_view_state] hashes. *)
Module RawState.
Record t := mk {
    table_id : string;
    hand_id : option nat;
    outcome : SessionOutcome;
    seats : list SeatState.t;
    board : list Card;
    pots : list PotView.t;
    chips_in_front : list Z;
    actor : option nat;
    allowed : AllowedActions.t;
  }.
End RawState.

Module ViewState.
Record t := mk {
    table_id : string;
    hand_id : option nat;
    session_outcome : SessionOutcome;
    seats : list SeatState.t;
    board_cards : list Card;
    pots : list PotView.t;
    chips_in_front : list Z;
    action_on_seat : option nat;
    turn_index : option nat;
    action_log : list ActionLogEntry.t;
    server_action_seq : Z;
    allowed_actions : AllowedActions.t;
    showdown_payload : option ShowdownPayload.t;
    state_hash : string;
    invariant_hash : string;
  }.
End ViewState.

Module EngineError.
Record t := mk { code : string; message : string }.
End EngineError.

Module SubmitActionResponse.
Record t := mk {
    accepted : bool;
    error : option EngineError.t;
    view_state : ViewState.t;
    event_queue_delta : list EventEnvelope.t;
    server_action_seq : Z;
  }.
End SubmitActionResponse.

Module StartHandResponse.
Record t := mk {
    view_state : ViewState.t;
    event_queue : list EventEnvelope.t;
  }.
End StartHandResponse.

Module HandHistory.
Record t := mk {
    hand_id : nat;
    table_id : string;
    config : TableConfig.t;
    initial_stacks_by_seat : gmap nat Z;
    final_stacks_by_seat : gmap nat Z;
    active_seats : list nat;
    player_index_to_seat : list nat;
    dealer_button_seat : nat;
    sb_seat : nat;
    bb_seat : nat;
    deal_seed : Z;
    bot_decision_seed : Z;
    bot_delay_seed : Z;
    engine_version : string;
    ruleset_version : string;
    hole_cards_by_seat : gmap nat (list (option Card));
    board_cards : list Card;
    actions : list ActionHistoryRow.t;
    pot_breakdown : list PotAward.t;
    showdown : option ShowdownPayload.t;
    hand_end_reason : string;
    event_count : nat;
    events : list EventEnvelope.t;
  }.
End HandHistory.

(** [ReplayResult]: the [terminal_state] and [invariant_checks]
    dictionaries, flattened. *)
Module ReplayResult.
Record t := mk {
    hand_id : nat;
    final_stacks_by_seat : gmap nat Z;
    board_cards : list Card;
    showdown : option ShowdownPayload.t;
    hand_end_reason : string;
    chip_conservation : bool;
    hand_terminated : bool;
    action_replay_match : bool;
    event_seq_monotonic : bool;
  }.
End ReplayResult.

(** bots/policy.py *)
Module BotDecision.
Record t := mk {
    action : ClientActionType;
    amount_to : option Z;
    think_delay_ms : Z;
  }.
End BotDecision.

(** ** The rules primitive provider (pokerkit's [State])

    Every state-changing call of the service is a [Request]; [perform]
    answers [None] where pokerkit raises [ValueError].  The named tuples
    pokerkit returns are flattened into one [Operation] record, of which
    each call site reads the fields its operation has. *)

Inductive Request :=
| PostAnte
| PostBlindOrStraddle
| DealHole (card : Card)
| CollectBets
| SelectRunoutCount (count : nat)
| BurnCard (card : Card)
| DealBoard (cards : list Card)
| ShowOrMuckHoleCards (show : bool)
| KillHand
| PushChips
| PullChips
| NoOperate
| Fold
| CheckOrCall
| CompleteBetOrRaiseTo (amount : Z).

Module Operation.
Record t := mk {
    player_index : nat;
    amount : Z;
    pot_index : nat;
    amounts : list Z;
    hole_cards : list Card;
  }.
End Operation.

Module Pot.
Record t := mk { amount : Z; player_indices : list nat }.
End Pot.

Class Provider (State : Type) := {
  (** [NoLimitTexasHoldem.create_state((), True, ante, (sb, bb), min_bet,
      stacks, player_count, mode=CASH_GAME, rake=no rake)] *)
  create_state : Z -> Z -> Z -> Z -> list Z -> nat -> State;
  perform : State -> Request -> option (State * Operation.t);
  status : State -> bool;
  actor_index : State -> option nat;
  stacks : State -> list Z;
  bets : State -> list Z;
  pots : State -> list Pot.t;
  _pots : State -> list Pot.t;
  total_pot_amount : State -> Z;
  get_board_cards : State -> list Card;
  get_dealable_cards : State -> list Card;
  board_dealing_count : State -> nat;
  (** [get_hand(i, 0, 0)]: the label and the index of the entry. *)
  get_hand : State -> nat -> option (string * Z);
  checking_or_calling_amount : State -> option Z;
  min_completion_betting_or_raising_to_amount : State -> option Z;
  max_completion_betting_or_raising_to_amount : State -> option Z;
  can_post_ante : State -> bool;
  can_post_blind_or_straddle : State -> bool;
  can_deal_hole : State -> bool;
  can_collect_bets : State -> bool;
  can_select_runout_count : State -> bool;
  can_burn_card : State -> bool;
  can_deal_board : State -> bool;
  can_show_or_muck_hole_cards : State -> bool;
  can_kill_hand : State -> bool;
  can_push_chips : State -> bool;
  can_pull_chips : State -> bool;
  can_no_operate : State -> bool;
  can_fold : State -> bool;
  can_check_or_call : State -> bool;
  can_complete_bet_or_raise_to : State -> bool;
}.

(** ** What else the service takes from outside

    [sha256_first8] is the first eight bytes of a SHA-256 digest read as a
    big-endian integer; [shuffle] is [random.Random(seed).shuffle];
    [choose_action] is the pluggable [BotPolicy], its generator given by
    the seed it is created from; the two hashes are [stable_hash] at the
    two dictionaries it is used on. *)
Class Environment := {
  sha256_first8 : string -> Z;
  shuffle : Z -> list Card -> list Card;
  choose_action : AllowedActions.t -> Z -> Z -> BotDecision.t;
  stable_hash_state : RawState.t -> string;
  stable_hash_invariant : InvariantPayload.t -> string;
}.

(** ** engine/internal.py *)

(** One value of [TableRuntime.seats]: the dictionary with the keys
    [seat_id], [player_type], [display_name] and [stack]. *)
Module Seat.
Record t := mk {
    seat_id : nat;
    player_type : PlayerType;
    display_name : string;
    stack : Z;
  }.
Definition set_stack (v : Z) (s : t) : t :=
    mk (seat_id s) (player_type s) (display_name s) v.
End Seat.

(** One value of [HandRuntime.showdown_rows_by_seat]: the dictionary with
    the keys [hole_cards] and [amount_won]. *)
Module SeatShowdown.
Record t := mk { hole_cards : list (option Card); amount_won : Z }.
End SeatShowdown.

(** [HandRuntime]; an assignment [hand.f = v] is [set_f v hand]. *)
Module HandRuntime.
Record t {State : Type} := mk {
    hand_id : nat;
    dealer_button_seat : nat;
    sb_seat : nat;
    bb_seat : nat;
    active_seats : list nat;
    player_index_to_seat : list nat;
    seat_to_player_index : gmap nat nat;
    pokerkit_state : State;
    deck : list Card;
    deck_index : nat;
    deal_seed : Z;
    bot_decision_seed : Z;
    bot_delay_seed : Z;
    action_seq : Z;
    next_step_index : nat;
    action_log_internal : list ActionHistoryRow.t;
    event_log : list EventEnvelope.t;
    event_cursor : nat;
    committed_this_street_by_seat : gmap nat Z;
    total_committed_by_seat : gmap nat Z;
    hand_start_stacks_by_seat : gmap nat Z;
    idempotency_cache : gmap string SubmitActionResponse.t;
    showdown_revealed_seats : gset nat;
    showdown_rows_by_seat : gmap nat SeatShowdown.t;
    pot_awards : list PotAward.t;
    folded_seats : gset nat;
    all_in_seats : gset nat;
    ended : bool;
    hand_end_reason : string;
    event_seq : nat;
  }.
Arguments t : clear implicits.
Arguments mk {State}.
Section update.
Context {State : Type}.
Definition set_pokerkit_state (v : State) (r : t State) : t State :=
      mk (hand_id r) (dealer_button_seat r) (sb_seat r) (bb_seat r)
        (active_seats r) (player_index_to_seat r) (seat_to_player_index r) v
        (deck r) (deck_index r) (deal_seed r) (bot_decision_seed r)
        (bot_delay_seed r) (action_seq r) (next_step_index r)
        (action_log_internal r) (event_log r) (event_cursor r)
        (committed_this_street_by_seat r) (total_committed_by_seat r)
        (hand_start_stacks_by_seat r) (idempotency_cache r)
        (showdown_revealed_seats r) (showdown_rows_by_seat r) (pot_awards r)
        (folded_seats r) (all_in_seats r) (ended r) (hand_end_reason r)
        (event_seq r).
Definition set_deck_index (v : nat) (r : t State) : t State :=
      mk (hand_id r) (dealer_button_seat r) (sb_seat r) (bb_seat r)
        (active_seats r) (player_index_to_seat r) (seat_to_player_index r)
        (pokerkit_state r) (deck r) v (deal_seed r) (bot_decision_seed r)
        (bot_delay_seed r) (action_seq r) (next_step_index r)
        (action_log_internal r) (event_log r) (event_cursor r)
        (committed_this_street_by_seat r) (total_committed_by_seat r)
        (hand_start_stacks_by_seat r) (idempotency_cache r)
        (showdown_revealed_seats r) (showdown_rows_by_seat r) (pot_awards r)
        (folded_seats r) (all_in_seats r) (ended r) (hand_end_reason r)
        (event_seq r).
Definition set_action_seq (v : Z) (r : t State) : t State :=
      mk (hand_id r) (dealer_button_seat r) (sb_seat r) (bb_seat r)
        (active_seats r) (player_index_to_seat r) (seat_to_player_index r)
        (pokerkit_state r) (deck r) (deck_index r) (deal_seed r)
        (bot_decision_seed r) (bot_delay_seed r) v (next_step_index r)
        (action_log_internal r) (event_log r) (event_cursor r)
        (committed_this_street_by_seat r) (total_committed_by_seat r)
        (hand_start_stacks_by_seat r) (idempotency_cache r)
        (showdown_revealed_seats r) (showdown_rows_by_seat r) (pot_awards r)
        (folded_seats r) (all_in_seats r) (ended r) (hand_end_reason r)
        (event_seq r).
Definition set_next_step_index (v : nat) (r : t State) : t State :=
      mk (hand_id r) (dealer_button_seat r) (sb_seat r) (bb_seat r)
        (active_seats r) (player_index_to_seat r) (seat_to_player_index r)
        (pokerkit_state r) (deck r) (deck_index r) (deal_seed r)
        (bot_decision_seed r) (bot_delay_seed r) (action_seq r) v
        (action_log_internal r) (event_log r) (event_cursor r)
        (committed_this_street_by_seat r) (total_committed_by_seat r)
        (hand_start_stacks_by_seat r) (idempotency_cache r)
        (showdown_revealed_seats r) (showdown_rows_by_seat r) (pot_awards r)
        (folded_seats r) (all_in_seats r) (ended r) (hand_end_reason r)
        (event_seq r).
Definition set_action_log_internal (v : list ActionHistoryRow.t) (r : t State) : t State :=
      mk (hand_id r) (dealer_button_seat r) (sb_seat r) (bb_seat r)
        (active_seats r) (player_index_to_seat r) (seat_to_player_index r)
        (pokerkit_state r) (deck r) (deck_index r) (deal_seed r)
        (bot_decision_seed r) (bot_delay_seed r) (action_seq r)
        (next_step_index r) v (event_log r) (event_cursor r)
        (committed_this_street_by_seat r) (total_committed_by_seat r)
        (hand_start_stacks_by_seat r) (idempotency_cache r)
        (showdown_revealed_seats r) (showdown_rows_by_seat r) (pot_awards r)
        (folded_seats r) (all_in_seats r) (ended r) (hand_end_reason r)
        (event_seq r).
Definition set_event_log (v : list EventEnvelope.t) (r : t State) : t State :=
      mk (hand_id r) (dealer_button_seat r) (sb_seat r) (bb_seat r)
        (active_seats r) (player_index_to_seat r) (seat_to_player_index r)
        (pokerkit_state r) (deck r) (deck_index r) (deal_seed r)
        (bot_decision_seed r) (bot_delay_seed r) (action_seq r)
        (next_step_index r) (action_log_internal r) v (event_cursor r)
        (committed_this_street_by_seat r) (total_committed_by_seat r)
        (hand_start_stacks_by_seat r) (idempotency_cache r)
        (showdown_revealed_seats r) (showdown_rows_by_seat r) (pot_awards r)
        (folded_seats r) (all_in_seats r) (ended r) (hand_end_reason r)
        (event_seq r).
Definition set_committed_this_street_by_seat (v : gmap nat Z) (r : t State) : t State :=
      mk (hand_id r) (dealer_button_seat r) (sb_seat r) (bb_seat r)
        (active_seats r) (player_index_to_seat r) (seat_to_player_index r)
        (pokerkit_state r) (deck r) (deck_index r) (deal_seed r)
        (bot_decision_seed r) (bot_delay_seed r) (action_seq r)
        (next_step_index r) (action_log_internal r) (event_log r)
        (event_cursor r) v (total_committed_by_seat r)
        (hand_start_stacks_by_seat r) (idempotency_cache r)
        (showdown_revealed_seats r) (showdown_rows_by_seat r) (pot_awards r)
        (folded_seats r) (all_in_seats r) (ended r) (hand_end_reason r)
        (event_seq r).
Definition set_total_committed_by_seat (v : gmap nat Z) (r : t State) : t State :=
      mk (hand_id r) (dealer_button_seat r) (sb_seat r) (bb_seat r)
        (active_seats r) (player_index_to_seat r) (seat_to_player_index r)
        (pokerkit_state r) (deck r) (deck_index r) (deal_seed r)
        (bot_decision_seed r) (bot_delay_seed r) (action_seq r)
        (next_step_index r) (action_log_internal r) (event_log r)
        (event_cursor r) (committed_this_street_by_seat r) v
        (hand_start_stacks_by_seat r) (idempotency_cache r)
        (showdown_revealed_seats r) (showdown_rows_by_seat r) (pot_awards r)
        (folded_seats r) (all_in_seats r) (ended r) (hand_end_reason r)
        (event_seq r).
Definition set_idempotency_cache (v : gmap string SubmitActionResponse.t) (r : t State) : t State :=
      mk (hand_id r) (dealer_button_seat r) (sb_seat r) (bb_seat r)
        (active_seats r) (player_index_to_seat r) (seat_to_player_index r)
        (pokerkit_state r) (deck r) (deck_index r) (deal_seed r)
        (bot_decision_seed r) (bot_delay_seed r) (action_seq r)
        (next_step_index r) (action_log_internal r) (event_log r)
        (event_cursor r) (committed_this_street_by_seat r)
        (total_committed_by_seat r) (hand_start_stacks_by_seat r) v
        (showdown_revealed_seats r) (showdown_rows_by_seat r) (pot_awards r)
        (folded_seats r) (all_in_seats r) (ended r) (hand_end_reason r)
        (event_seq r).
Definition set_showdown_revealed_seats (v : gset nat) (r : t State) : t State :=
      mk (hand_id r) (dealer_button_seat r) (sb_seat r) (bb_seat r)
        (active_seats r) (player_index_to_seat r) (seat_to_player_index r)
        (pokerkit_state r) (deck r) (deck_index r) (deal_seed r)
        (bot_decision_seed r) (bot_delay_seed r) (action_seq r)
        (next_step_index r) (action_log_internal r) (event_log r)
        (event_cursor r) (committed_this_street_by_seat r)
        (total_committed_by_seat r) (hand_start_stacks_by_seat r)
        (idempotency_cache r) v (showdown_rows_by_seat r) (pot_awards r)
        (folded_seats r) (all_in_seats r) (ended r) (hand_end_reason r)
        (event_seq r).
Definition set_showdown_rows_by_seat (v : gmap nat SeatShowdown.t) (r : t State) : t State :=
      mk (hand_id r) (dealer_button_seat r) (sb_seat r) (bb_seat r)
        (active_seats r) (player_index_to_seat r) (seat_to_player_index r)
        (pokerkit_state r) (deck r) (deck_index r) (deal_seed r)
        (bot_decision_seed r) (bot_delay_seed r) (action_seq r)
        (next_step_index r) (action_log_internal r) (event_log r)
        (event_cursor r) (committed_this_street_by_seat r)
        (total_committed_by_seat r) (hand_start_stacks_by_seat r)
        (idempotency_cache r) (showdown_revealed_seats r) v (pot_awards r)
        (folded_seats r) (all_in_seats r) (ended r) (hand_end_reason r)
        (event_seq r).
Definition set_pot_awards (v : list PotAward.t) (r : t State) : t State :=
      mk (hand_id r) (dealer_button_seat r) (sb_seat r) (bb_seat r)
        (active_seats r) (player_index_to_seat r) (seat_to_player_index r)
        (pokerkit_state r) (deck r) (deck_index r) (deal_seed r)
        (bot_decision_seed r) (bot_delay_seed r) (action_seq r)
        (next_step_index r) (action_log_internal r) (event_log r)
        (event_cursor r) (committed_this_street_by_seat r)
        (total_committed_by_seat r) (hand_start_stacks_by_seat r)
        (idempotency_cache r) (showdown_revealed_seats r)
        (showdown_rows_by_seat r) v (folded_seats r) (all_in_seats r) (ended
        r) (hand_end_reason r) (event_seq r).
Definition set_folded_seats (v : gset nat) (r : t State) : t State :=
      mk (hand_id r) (dealer_button_seat r) (sb_seat r) (bb_seat r)
        (active_seats r) (player_index_to_seat r) (seat_to_player_index r)
        (pokerkit_state r) (deck r) (deck_index r) (deal_seed r)
        (bot_decision_seed r) (bot_delay_seed r) (action_seq r)
        (next_step_index r) (action_log_internal r) (event_log r)
        (event_cursor r) (committed_this_street_by_seat r)
        (total_committed_by_seat r) (hand_start_stacks_by_seat r)
        (idempotency_cache r) (showdown_revealed_seats r)
        (showdown_rows_by_seat r) (pot_awards r) v (all_in_seats r) (ended
        r) (hand_end_reason r) (event_seq r).
Definition set_all_in_seats (v : gset nat) (r : t State) : t State :=
      mk (hand_id r) (dealer_button_seat r) (sb_seat r) (bb_seat r)
        (active_seats r) (player_index_to_seat r) (seat_to_player_index r)
        (pokerkit_state r) (deck r) (deck_index r) (deal_seed r)
        (bot_decision_seed r) (bot_delay_seed r) (action_seq r)
        (next_step_index r) (action_log_internal r) (event_log r)
        (event_cursor r) (committed_this_street_by_seat r)
        (total_committed_by_seat r) (hand_start_stacks_by_seat r)
        (idempotency_cache r) (showdown_revealed_seats r)
        (showdown_rows_by_seat r) (pot_awards r) (folded_seats r) v (ended
        r) (hand_end_reason r) (event_seq r).
Definition set_ended (v : bool) (r : t State) : t State :=
      mk (hand_id r) (dealer_button_seat r) (sb_seat r) (bb_seat r)
        (active_seats r) (player_index_to_seat r) (seat_to_player_index r)
        (pokerkit_state r) (deck r) (deck_index r) (deal_seed r)
        (bot_decision_seed r) (bot_delay_seed r) (action_seq r)
        (next_step_index r) (action_log_internal r) (event_log r)
        (event_cursor r) (committed_this_street_by_seat r)
        (total_committed_by_seat r) (hand_start_stacks_by_seat r)
        (idempotency_cache r) (showdown_revealed_seats r)
        (showdown_rows_by_seat r) (pot_awards r) (folded_seats r)
        (all_in_seats r) v (hand_end_reason r) (event_seq r).
Definition set_hand_end_reason (v : string) (r : t State) : t State :=
      mk (hand_id r) (dealer_button_seat r) (sb_seat r) (bb_seat r)
        (active_seats r) (player_index_to_seat r) (seat_to_player_index r)
        (pokerkit_state r) (deck r) (deck_index r) (deal_seed r)
        (bot_decision_seed r) (bot_delay_seed r) (action_seq r)
        (next_step_index r) (action_log_internal r) (event_log r)
        (event_cursor r) (committed_this_street_by_seat r)
        (total_committed_by_seat r) (hand_start_stacks_by_seat r)
        (idempotency_cache r) (showdown_revealed_seats r)
        (showdown_rows_by_seat r) (pot_awards r) (folded_seats r)
        (all_in_seats r) (ended r) v (event_seq r).
Definition set_event_seq (v : nat) (r : t State) : t State :=
      mk (hand_id r) (dealer_button_seat r) (sb_seat r) (bb_seat r)
        (active_seats r) (player_index_to_seat r) (seat_to_player_index r)
        (pokerkit_state r) (deck r) (deck_index r) (deal_seed r)
        (bot_decision_seed r) (bot_delay_seed r) (action_seq r)
        (next_step_index r) (action_log_internal r) (event_log r)
        (event_cursor r) (committed_this_street_by_seat r)
        (total_committed_by_seat r) (hand_start_stacks_by_seat r)
        (idempotency_cache r) (showdown_revealed_seats r)
        (showdown_rows_by_seat r) (pot_awards r) (folded_seats r)
        (all_in_seats r) (ended r) (hand_end_reason r) v.
End update.
End HandRuntime.

(** [TableRuntime], without its lock.  [subscriber_feed] is not a field of
    the dataclass: it records, in order, every envelope that [_emit_event]
    offers to the queues of [PokerEngineService._subscriptions], that is
    what a subscriber with an unbounded queue attached since the table was
    created has received. *)
Module TableRuntime.
Record t {State : Type} := mk {
    table_id : string;
    config : TableConfig.t;
    seats : list Seat.t;
    dealer_button_seat : nat;
    next_hand_id : nat;
    table_seed : Z;
    event_seq : nat;
    outcome : SessionOutcome;
    current_hand : option (HandRuntime.t State);
    completed_hands : gmap nat HandHistory.t;
    subscriber_feed : list EventEnvelope.t;
  }.
Arguments t : clear implicits.
Arguments mk {State}.
Section update.
Context {State : Type}.
Definition set_seats (v : list Seat.t) (r : t State) : t State :=
      mk (table_id r) (config r) v (dealer_button_seat r) (next_hand_id r)
        (table_seed r) (event_seq r) (outcome r) (current_hand r)
        (completed_hands r) (subscriber_feed r).
Definition set_dealer_button_seat (v : nat) (r : t State) : t State :=
      mk (table_id r) (config r) (seats r) v (next_hand_id r) (table_seed r)
        (event_seq r) (outcome r) (current_hand r) (completed_hands r)
        (subscriber_feed r).
Definition set_next_hand_id (v : nat) (r : t State) : t State :=
      mk (table_id r) (config r) (seats r) (dealer_button_seat r) v
        (table_seed r) (event_seq r) (outcome r) (current_hand r)
        (completed_hands r) (subscriber_feed r).
Definition set_event_seq (v : nat) (r : t State) : t State :=
      mk (table_id r) (config r) (seats r) (dealer_button_seat r)
        (next_hand_id r) (table_seed r) v (outcome r) (current_hand r)
        (completed_hands r) (subscriber_feed r).
Definition set_outcome (v : SessionOutcome) (r : t State) : t State :=
      mk (table_id r) (config r) (seats r) (dealer_button_seat r)
        (next_hand_id r) (table_seed r) (event_seq r) v (current_hand r)
        (completed_hands r) (subscriber_feed r).
Definition set_current_hand (v : option (HandRuntime.t State)) (r : t State) : t State :=
      mk (table_id r) (config r) (seats r) (dealer_button_seat r)
        (next_hand_id r) (table_seed r) (event_seq r) (outcome r) v
        (completed_hands r) (subscriber_feed r).
Definition set_completed_hands (v : gmap nat HandHistory.t) (r : t State) : t State :=
      mk (table_id r) (config r) (seats r) (dealer_button_seat r)
        (next_hand_id r) (table_seed r) (event_seq r) (outcome r)
        (current_hand r) v (subscriber_feed r).
Definition set_subscriber_feed (v : list EventEnvelope.t) (r : t State) : t State :=
      mk (table_id r) (config r) (seats r) (dealer_button_seat r)
        (next_hand_id r) (table_seed r) (event_seq r) (outcome r)
        (current_hand r) (completed_hands r) v.
End update.
End TableRuntime.

(** ** The service monad

    The service mutates the table and its current hand in place and
    leaves by [return], by raising [EngineRejectedAction] or by raising
    anything else ([RuntimeError], [AssertionError], [KeyError],
    [IndexError], pokerkit's [ValueError]).  A computation therefore
    takes the table and gives the table as the call left it together
    with the way it left; what was mutated before an exception stays
    mutated.  [Diverged] is a loop of the source that has no guard and
    was cut off by the model's fuel. *)

Inductive Outcome (A : Type) :=
| Returned (a : A)
| Rejected (code message : string)
| Crashed (what : string)
| Diverged.
Arguments Returned {A} a.
Arguments Rejected {A} code message.
Arguments Crashed {A} what.
Arguments Diverged {A}.

Definition sumZ (l : list Z) : Z := foldr Z.add 0 l.

(** [sum(d.values())] *)
Definition sum_values (d : gmap nat Z) : Z := sumZ ((map_to_list d).*2).

(** [{k: f(k) for k in range(n)}] *)
Definition dict_from_range {A} (n : nat) (f : nat -> A) : gmap nat A :=
  list_to_map ((λ k, (k, f k)) <$> seq 0 n).

(** [sorted(rows, key=..., reverse=True)]: descending, and stable. *)
Fixpoint insert_desc {A} (key : A -> Z) (x : A) (l : list A) : list A :=
  match l with
  | [] => [x]
  | y :: l' => if key y <=? key x then x :: y :: l'
               else y :: insert_desc key x l'
  end.
Definition sorted_desc {A} (key : A -> Z) (l : list A) : list A :=
  foldr (insert_desc key) [] l.

Definition nat_leb_rel : relation nat := λ a b, (a <= b)%nat.

(** utils/cards.py *)
Definition RANKS : list string :=
  ["2"; "3"; "4"; "5"; "6"; "7"; "8"; "9"; "T"; "J"; "Q"; "K"; "A"].
Definition SUITS : list string := ["c"; "d"; "h"; "s"].

Definition ordered_deck : list Card :=
  flat_map (λ rank, (λ suit, rank +:+ suit) <$> SUITS) RANKS.

Section Service.
Context {State : Type} `{!Provider State} `{!Environment}.

Abbreviation Table := (TableRuntime.t State).
Abbreviation Hand := (HandRuntime.t State).

Definition build_shuffled_deck (seed : Z) : list Card :=
    shuffle seed ordered_deck.

Definition derive_seed (base_seed hand_id : Z) (label : string) : Z :=
    sha256_first8 (pretty base_seed +:+ ":" +:+ pretty hand_id +:+ ":" +:+ label).

Definition M (A : Type) : Type := Table -> Table * Outcome A.

Definition ret {A} (a : A) : M A := λ table, (table, Returned a).

Definition bind {A B} (m : M A) (k : A -> M B) : M B :=
    λ table,
      match m table with
      | (table', Returned a) => k a table'
      | (table', Rejected code message) => (table', Rejected code message)
      | (table', Crashed what) => (table', Crashed what)
      | (table', Diverged) => (table', Diverged)
      end.

  (** [raise EngineRejectedAction(code, message)] *)
Definition reject {A} (code message : string) : M A :=
    λ table, (table, Rejected code message).

Definition crash {A} (what : string) : M A := λ table, (table, Crashed what).

Definition diverge {A} : M A := λ table, (table, Diverged).

Definition get_table : M Table := λ table, (table, Returned table).

Definition modify_table (f : Table -> Table) : M unit :=
    λ table, (f table, Returned tt).

  (** Every private method that takes [(table, hand)] is called with
      [hand] being the object [table.current_hand] refers to; the model
      reaches the hand through the table. *)
Definition the_hand : M Hand :=
    λ table,
      match TableRuntime.current_hand table with
      | Some hand => (table, Returned hand)
      | None => (table, Crashed "no current hand")
      end.

Definition modify_hand (f : Hand -> Hand) : M unit :=
    λ table,
      match TableRuntime.current_hand table with
      | Some hand =>
          (TableRuntime.set_current_hand (Some (f hand)) table, Returned tt)
      | None => (table, Crashed "no current hand")
      end.

  (** A lookup that raises where the key or index is missing. *)
Definition from_option {A} (what : string) (o : option A) : M A :=
    match o with Some a => ret a | None => crash what end.

Declare Scope engine_scope.
Notation "x ← y ; z" := (bind y (λ x, z))
    (at level 20, y at level 100, z at level 200, only parsing) : engine_scope.
Notation "' x ← y ; z" := (bind y (λ x, z))
    (at level 20, x pattern, y at level 100, z at level 200, only parsing)
    : engine_scope.
Notation "x ;; z" := (bind x (λ _, z))
    (at level 100, z at level 200, only parsing, right associativity)
    : engine_scope.
Local Open Scope engine_scope.

Fixpoint for_each {A} (l : list A) (body : A -> M unit) : M unit :=
    match l with
    | [] => ret tt
    | x :: l' => body x;; for_each l' body
    end.

  (** A state-changing call on [hand.pokerkit_state]. *)
Definition provider (request : Request) : M Operation.t :=
    hand ← the_hand;
    match perform (HandRuntime.pokerkit_state hand) request with
    | Some (state', op) =>
        modify_hand (HandRuntime.set_pokerkit_state state');;
        ret op
    | None => crash "ValueError"
    end.


(** *** Small helpers of the service *)

Definition _emit_event (event_type : EventType) (payload : Payload) : M unit :=
  modify_table (λ table,
    TableRuntime.set_event_seq (S (TableRuntime.event_seq table)) table);;
  table ← get_table;
  modify_hand (HandRuntime.set_event_seq (TableRuntime.event_seq table));;
  hand ← the_hand;
  let envelope :=
    EventEnvelope.mk (TableRuntime.table_id table) (HandRuntime.hand_id hand)
      (TableRuntime.event_seq table) event_type payload in
  modify_hand (λ hand,
    HandRuntime.set_event_log (HandRuntime.event_log hand ++ [envelope]) hand);;
  modify_table (λ table,
    TableRuntime.set_subscriber_feed
      (TableRuntime.subscriber_feed table ++ [envelope]) table).

Definition _active_seats (table : Table) : list nat :=
  (filter (λ p : nat * Seat.t, 0 < Seat.stack p.2)
     (imap pair (TableRuntime.seats table))).*1.

(** The [for _ in range(total_seats)] loop of [_next_active_after];
    [None] is its [RuntimeError]. *)
Fixpoint next_active_scan (active : list nat) (total_seats cursor : nat)
    (rounds : nat) : option nat :=
  match rounds with
  | O => None
  | S rounds' =>
      let cursor := ((cursor + 1) mod total_seats)%nat in
      if decide (cursor ∈ active) then Some cursor
      else next_active_scan active total_seats cursor rounds'
  end.

Definition _next_active_after (seat_id : nat) (active : list nat)
    (total_seats : nat) : option nat :=
  next_active_scan active total_seats seat_id total_seats.

Definition next_active (seat_id : nat) (active : list nat)
    (total_seats : nat) : M nat :=
  from_option "failed to find active seat"
    (_next_active_after seat_id active total_seats).

Definition _refresh_outcome : M unit :=
  table ← get_table;
  seat0 ← from_option "KeyError" (TableRuntime.seats table !! 0%nat);
  let human_stack := Seat.stack seat0 in
  let bot_stacks := Seat.stack <$> drop 1 (TableRuntime.seats table) in
  if decide (human_stack <= 0) then
    modify_table (TableRuntime.set_outcome HUMAN_LOST)
  else if forallb (λ stack, stack <=? 0) bot_stacks then
    modify_table (TableRuntime.set_outcome HUMAN_WON)
  else
    modify_table (TableRuntime.set_outcome RUNNING).

(** [_actor_seat]; the outer [None] is the [KeyError] of the lookup. *)
Definition actor_seat_of (hand : Hand) : option (option nat) :=
  match actor_index (HandRuntime.pokerkit_state hand) with
  | None => Some None
  | Some actor =>
      match HandRuntime.player_index_to_seat hand !! actor with
      | Some seat => Some (Some seat)
      | None => None
      end
  end.

Definition _actor_seat : M (option nat) :=
  hand ← the_hand;
  from_option "KeyError" (actor_seat_of hand).

(** [table.seats[seat]["stack"] = stack] *)
Definition set_seat_stack (seat : nat) (stack : Z) : M unit :=
  table ← get_table;
  match TableRuntime.seats table !! seat with
  | Some raw =>
      modify_table (TableRuntime.set_seats
        (<[seat := Seat.set_stack stack raw]> (TableRuntime.seats table)))
  | None => crash "KeyError"
  end.

Definition _sync_table_stacks_from_state : M unit :=
  hand ← the_hand;
  for_each (imap pair (HandRuntime.player_index_to_seat hand))
    (λ '(player_index, seat),
       hand ← the_hand;
       stack ← from_option "IndexError"
                 (stacks (HandRuntime.pokerkit_state hand) !! player_index);
       set_seat_stack seat stack).

Definition _street_from_state (state : State) : Street :=
  let board_count := length (get_board_cards state) in
  if decide (board_count = 0%nat) then PREFLOP
  else if decide (board_count = 3%nat) then FLOP
  else if decide (board_count = 4%nat) then TURN
  else if bool_decide (board_count = 5%nat) && status state then RIVER
  else SHOWDOWN.

Definition _street_for_board_count (count : nat) : Street :=
  if decide (count = 3%nat) then FLOP
  else if decide (count = 4%nat) then TURN
  else if decide (count = 5%nat) then RIVER
  else PREFLOP.

Definition _normalize_hole_cards (cards : list (option Card))
    : list (option Card) :=
  let normalized := take 2 cards in
  normalized ++ replicate (2 - length normalized) None.

(** [hand.committed_this_street_by_seat[seat] += amount] followed by
    [hand.total_committed_by_seat[seat] += amount]. *)
Definition commit (seat : nat) (amount : Z) : M unit :=
  hand ← the_hand;
  this_street ← from_option "KeyError"
    (HandRuntime.committed_this_street_by_seat hand !! seat);
  modify_hand (HandRuntime.set_committed_this_street_by_seat
    (<[seat := this_street + amount]>
       (HandRuntime.committed_this_street_by_seat hand)));;
  hand ← the_hand;
  total ← from_option "KeyError"
    (HandRuntime.total_committed_by_seat hand !! seat);
  modify_hand (HandRuntime.set_total_committed_by_seat
    (<[seat := total + amount]> (HandRuntime.total_committed_by_seat hand))).

(** [HandRuntime.next_card] *)
Definition next_card : M Card :=
  hand ← the_hand;
  card ← from_option "IndexError"
    (HandRuntime.deck hand !! HandRuntime.deck_index hand);
  modify_hand (λ hand,
    HandRuntime.set_deck_index (S (HandRuntime.deck_index hand)) hand);;
  ret card.


(** *** Starting a hand *)

Definition _post_single_blind_locked : M unit :=
  op ← provider PostBlindOrStraddle;
  hand ← the_hand;
  seat ← from_option "KeyError"
    (HandRuntime.player_index_to_seat hand !! Operation.player_index op);
  commit seat (Operation.amount op);;
  _emit_event POST_BLIND (PPostBlind seat (Operation.amount op)).

Fixpoint _post_blinds_locked (fuel : nat) : M unit :=
  hand ← the_hand;
  if can_post_blind_or_straddle (HandRuntime.pokerkit_state hand) then
    match fuel with
    | O => diverge
    | S fuel' => _post_single_blind_locked;; _post_blinds_locked fuel'
    end
  else ret tt.

Definition _deal_single_hole_card_locked : M unit :=
  card ← next_card;
  op ← provider (DealHole card);
  hand ← the_hand;
  seat ← from_option "KeyError"
    (HandRuntime.player_index_to_seat hand !! Operation.player_index op);
  let seat_row :=
    default (SeatShowdown.mk [] 0)
      (HandRuntime.showdown_rows_by_seat hand !! seat) in
  let hole_cards := SeatShowdown.hole_cards seat_row ++ [Some card] in
  modify_hand (HandRuntime.set_showdown_rows_by_seat
    (<[seat := SeatShowdown.mk hole_cards (SeatShowdown.amount_won seat_row)]>
       (HandRuntime.showdown_rows_by_seat hand)));;
  let card_index := (length hole_cards - 1)%nat in
  _emit_event DEAL_CARD
    (PDealCard seat card_index
       (if decide (seat = 0%nat) then Some card else None)).

Fixpoint _deal_hole_cards_locked (fuel : nat) : M unit :=
  hand ← the_hand;
  if can_deal_hole (HandRuntime.pokerkit_state hand) then
    match fuel with
    | O => diverge
    | S fuel' => _deal_single_hole_card_locked;; _deal_hole_cards_locked fuel'
    end
  else ret tt.

(** The [while len(ordered) < len(active_seats)] loop of
    [_start_hand_locked]. *)
Fixpoint order_seats (fuel : nat) (active_seats : list nat)
    (total_seats : nat) (ordered : list nat) (cursor : nat) : M (list nat) :=
  if decide (length ordered < length active_seats)%nat then
    match fuel with
    | O => diverge
    | S fuel' =>
        cursor ← next_active cursor active_seats total_seats;
        order_seats fuel' active_seats total_seats
          (if decide (cursor ∉ ordered) then ordered ++ [cursor] else ordered)
          cursor
    end
  else ret ordered.

(** [{seat: index for index, seat in player_index_to_seat.items()}] *)
Definition invert_mapping (player_index_to_seat : list nat) : gmap nat nat :=
  foldl (λ (d : gmap nat nat) (item : nat * nat), <[item.2 := item.1]> d) ∅
    (imap pair player_index_to_seat).

Definition _start_hand_locked (fuel : nat) : M unit :=
  table ← get_table;
  let config := TableRuntime.config table in
  let num_seats := TableConfig.num_seats config in
  let active_seats := _active_seats table in
  if decide (length active_seats < 2)%nat then
    _refresh_outcome;;
    reject "NOT_ENOUGH_PLAYERS" "Not enough players with chips."
  else
    dealer ←
      (if decide (TableRuntime.dealer_button_seat table ∉ active_seats) then
         next_active (TableRuntime.dealer_button_seat table) active_seats
           num_seats
       else ret (TableRuntime.dealer_button_seat table));
    '(sb_seat, bb_seat, player_index_to_seat) ←
      (if decide (length active_seats = 2)%nat then
         let sb_seat := dealer in
         bb_seat ← from_option "IndexError"
           (head (filter (λ seat, seat ≠ dealer) active_seats));
         ret (sb_seat, bb_seat, [bb_seat; sb_seat])
       else
         sb_seat ← next_active dealer active_seats num_seats;
         bb_seat ← next_active sb_seat active_seats num_seats;
         ordered ← order_seats fuel active_seats num_seats
                     [sb_seat; bb_seat] bb_seat;
         ret (sb_seat, bb_seat, ordered));
    let seat_to_player_index := invert_mapping player_index_to_seat in
    starting_stacks ← from_option "KeyError"
      (mapM (λ i, player_index_to_seat !! i ≫= λ seat,
                  Seat.stack <$> TableRuntime.seats table !! seat)
            (seq 0 (length active_seats)));
    let hand_id := TableRuntime.next_hand_id table in
    modify_table (TableRuntime.set_next_hand_id (S hand_id));;
    button ← next_active dealer active_seats num_seats;
    modify_table (TableRuntime.set_dealer_button_seat button);;
    let deal_seed :=
      derive_seed (TableRuntime.table_seed table) (Z.of_nat hand_id) "deal" in
    let bot_seed :=
      derive_seed (TableRuntime.table_seed table) (Z.of_nat hand_id)
        "bot_decision" in
    let bot_delay_seed :=
      derive_seed (TableRuntime.table_seed table) (Z.of_nat hand_id)
        "bot_delay" in
    let state :=
      create_state (TableConfig.ante config) (TableConfig.small_blind config)
        (TableConfig.big_blind config) (TableConfig.big_blind config)
        starting_stacks (length active_seats) in
    hand_start_stacks ← from_option "KeyError"
      (mapM (λ seat, (λ raw, (seat, Seat.stack raw)) <$>
                     TableRuntime.seats table !! seat)
            (seq 0 num_seats));
    let hand :=
      HandRuntime.mk hand_id dealer sb_seat bb_seat active_seats
        player_index_to_seat seat_to_player_index state
        (build_shuffled_deck deal_seed) 0%nat deal_seed bot_seed
        bot_delay_seed 0 1%nat [] [] 0%nat
        (dict_from_range num_seats (λ _, 0))
        (dict_from_range num_seats (λ _, 0))
        (list_to_map hand_start_stacks)
        ∅ ∅
        (list_to_map ((λ seat, (seat, SeatShowdown.mk [] 0)) <$> active_seats))
        [] ∅ ∅ false "" 0%nat in
    modify_table (TableRuntime.set_current_hand (Some hand));;
    _emit_event HAND_START
      (PHandStart dealer sb_seat bb_seat
         (HandRuntime.hand_start_stacks_by_seat hand));;
    _post_blinds_locked fuel;;
    _deal_hole_cards_locked fuel;;
    _sync_table_stacks_from_state.


(** *** Ending a hand *)

Definition player_name_of (seat : nat) : string :=
  if decide (seat = 0%nat) then "You" else "Bot " +:+ pretty seat.

(** [_build_showdown_payload]; the outer [None] is the [KeyError] of
    [hand.seat_to_player_index[seat]]. *)
Definition _build_showdown_payload (hand : Hand)
    : option (option ShowdownPayload.t) :=
  if decide (HandRuntime.showdown_revealed_seats hand = ∅) then Some None
  else
    let state := HandRuntime.pokerkit_state hand in
    let row_of (seat : nat) : option (list ShowdownRow.t) :=
      HandRuntime.seat_to_player_index hand !! seat ≫= λ player_index,
      match get_hand state player_index with
      | None => Some []
      | Some (label, index) =>
          let seat_row := HandRuntime.showdown_rows_by_seat hand !! seat in
          Some [ShowdownRow.mk seat (player_name_of seat)
                  (omap id (_normalize_hole_cards
                     (default [] (SeatShowdown.hole_cards <$> seat_row))))
                  label index
                  (default 0 (SeatShowdown.amount_won <$> seat_row))]
      end in
    mapM row_of
      (merge_sort nat_leb_rel
         (elements (HandRuntime.showdown_revealed_seats hand)))
    ≫= λ rows,
    let rows := concat rows in
    let winners :=
      sorted_desc ShowdownRow.amount_won
        (filter (λ row, 0 < ShowdownRow.amount_won row) rows) in
    let losers :=
      sorted_desc ShowdownRow.hand_rank_value
        (filter (λ row, ShowdownRow.amount_won row = 0) rows) in
    Some (Some (ShowdownPayload.mk winners losers)).

(** [{seat: data["stack"] for seat, data in table.seats.items()}] *)
Definition stacks_by_seat (table : Table) : gmap nat Z :=
  list_to_map (imap (λ seat raw, (seat, Seat.stack raw))
                 (TableRuntime.seats table)).

(** The [HandHistory] that [_complete_hand_locked] files.  The model
    takes [actions] and [events] as they are when the record is built
    (pydantic validates the lists into the record). *)
Definition history_of (table : Table) (hand : Hand)
    (showdown : option ShowdownPayload.t) : HandHistory.t :=
  HandHistory.mk
    (HandRuntime.hand_id hand)
    (TableRuntime.table_id table)
    (TableRuntime.config table)
    (HandRuntime.hand_start_stacks_by_seat hand)
    (stacks_by_seat table)
    (HandRuntime.active_seats hand)
    (HandRuntime.player_index_to_seat hand)
    (HandRuntime.dealer_button_seat hand)
    (HandRuntime.sb_seat hand)
    (HandRuntime.bb_seat hand)
    (HandRuntime.deal_seed hand)
    (HandRuntime.bot_decision_seed hand)
    (HandRuntime.bot_delay_seed hand)
    ENGINE_VERSION
    RULESET_VERSION
    (dict_from_range (TableConfig.num_seats (TableRuntime.config table))
       (λ seat, _normalize_hole_cards
          (default [] (SeatShowdown.hole_cards <$>
                       HandRuntime.showdown_rows_by_seat hand !! seat))))
    (get_board_cards (HandRuntime.pokerkit_state hand))
    (HandRuntime.action_log_internal hand)
    (HandRuntime.pot_awards hand)
    showdown
    (HandRuntime.hand_end_reason hand)
    (length (HandRuntime.event_log hand))
    (HandRuntime.event_log hand).

Definition _complete_hand_locked : M unit :=
  modify_hand (HandRuntime.set_ended true);;
  modify_hand (λ hand,
    HandRuntime.set_hand_end_reason
      (if decide (HandRuntime.showdown_revealed_seats hand = ∅)
       then "all_folded" else "showdown") hand);;
  hand ← the_hand;
  showdown ← from_option "KeyError" (_build_showdown_payload hand);
  _sync_table_stacks_from_state;;
  table ← get_table;
  _emit_event HAND_END
    (PHandEnd (HandRuntime.hand_end_reason hand) (stacks_by_seat table));;
  table ← get_table;
  hand ← the_hand;
  let history := history_of table hand showdown in
  modify_table (TableRuntime.set_completed_hands
    (<[HandRuntime.hand_id hand := history]>
       (TableRuntime.completed_hands table)));;
  _refresh_outcome;;
  table ← get_table;
  if decide (TableRuntime.outcome table ≠ RUNNING) then
    _emit_event SESSION_END (PSessionEnd (TableRuntime.outcome table))
  else ret tt.


(** *** The lifecycle loop *)

(** The three local variables the push-chips branch accumulates. *)
Record PushTally := mk_tally {
  winners : list SeatAmount.t;
  total_awarded : Z;
  winner_seats : list nat;
}.

(** [for player_index, amount in enumerate(op.amounts)] *)
Fixpoint tally_winners (items : list (nat * Z)) (tally : PushTally)
    : M PushTally :=
  match items with
  | [] => ret tally
  | (player_index, amount) :: items' =>
      if decide (amount <= 0) then tally_winners items' tally
      else
        hand ← the_hand;
        seat ← from_option "KeyError"
          (HandRuntime.player_index_to_seat hand !! player_index);
        let row :=
          default (SeatShowdown.mk [None; None] 0)
            (HandRuntime.showdown_rows_by_seat hand !! seat) in
        modify_hand (HandRuntime.set_showdown_rows_by_seat
          (<[seat := SeatShowdown.mk (SeatShowdown.hole_cards row)
                       (SeatShowdown.amount_won row + amount)]>
             (HandRuntime.showdown_rows_by_seat hand)));;
        tally_winners items'
          (mk_tally (winners tally ++ [SeatAmount.mk seat amount])
                    (total_awarded tally + amount)
                    (winner_seats tally ++ [seat]))
  end.

Definition odd_chip_award_of (tally : PushTally) : option SeatAmount.t :=
  match winner_seats tally with
  | first :: _ =>
      if decide (1 < length (winner_seats tally))%nat then
        let count := Z.of_nat (length (winner_seats tally)) in
        let even_share := total_awarded tally `div` count in
        let remainder := total_awarded tally - even_share * count in
        if decide (0 < remainder) then Some (SeatAmount.mk first remainder)
        else None
      else None
  | [] => None
  end.

(** The [pot_payload] dictionary; [None] is the [KeyError] of a player
    index of the pot that has no seat. *)
Definition pot_payload (player_index_to_seat : list nat) (op : Operation.t)
    (pot : option Pot.t) (tally : PushTally) : option PotAward.t :=
  mapM (λ i, player_index_to_seat !! i)
       (match pot with Some pot => Pot.player_indices pot | None => [] end)
  ≫= λ eligible_seats,
  Some (PotAward.mk (Operation.pot_index op) (total_awarded tally)
          (winners tally) eligible_seats (odd_chip_award_of tally)).

Inductive LoopExit := Continue | Break | Return.

(** [[hand.next_card() for _ in range(count)]] *)
Fixpoint draw_cards (count : nat) : M (list Card) :=
  match count with
  | O => ret []
  | S count' =>
      card ← next_card; rest ← draw_cards count'; ret (card :: rest)
  end.

(** The branch [if state.can_push_chips()] of [_advance_locked]. *)
Definition award_pot : M unit :=
  op ← provider PushChips;
  hand ← the_hand;
  let all_pots := _pots (HandRuntime.pokerkit_state hand) in
  pot ← (match all_pots with
         | [] => ret None
         | _ => p ← from_option "IndexError"
                      (all_pots !! Operation.pot_index op);
                ret (Some p)
         end);
  tally ← tally_winners (imap pair (Operation.amounts op)) (mk_tally [] 0 []);
  payload ← from_option "KeyError"
    (pot_payload (HandRuntime.player_index_to_seat hand) op pot tally);
  modify_hand (λ hand,
    HandRuntime.set_pot_awards (HandRuntime.pot_awards hand ++ [payload])
      hand);;
  _emit_event POT_AWARD (PPotAward payload).

(** The chain of [if state.can_...()] tests in the body of the
    [while True] of [_advance_locked], below the test of
    [state.status]; [hand] is the hand as the pass found it. *)
Definition forced_step (hand : Hand) : M LoopExit :=
  let state := HandRuntime.pokerkit_state hand in
  if can_post_ante state then
    op ← provider PostAnte;
    match HandRuntime.player_index_to_seat hand !! Operation.player_index op with
    | Some seat => commit seat (Operation.amount op)
    | None => ret tt
    end;;
    ret Continue
  else if can_post_blind_or_straddle state then
    _post_single_blind_locked;; ret Continue
  else if can_deal_hole state then
    _deal_single_hole_card_locked;; ret Continue
  else if bool_decide (actor_index state ≠ None) then
    _sync_table_stacks_from_state;; ret Return
  else if can_collect_bets state then
    let collected := bets state in
    provider CollectBets;;
    modify_hand (λ hand,
      HandRuntime.set_committed_this_street_by_seat
        ((λ _, 0) <$> HandRuntime.committed_this_street_by_seat hand) hand);;
    _emit_event STREET_END_COLLECT (PStreetEndCollect collected);;
    ret Continue
  else if can_select_runout_count state then
    provider (SelectRunoutCount 1);; ret Continue
  else if can_burn_card state then
    card ← next_card;
    provider (BurnCard card);; ret Continue
  else if can_deal_board state then
    let count := board_dealing_count state in
    cards ← draw_cards count;
    provider (DealBoard cards);;
    hand ← the_hand;
    _emit_event BOARD_REVEAL
      (PBoardReveal
         (_street_for_board_count
            (length (get_board_cards (HandRuntime.pokerkit_state hand))))
         cards);;
    ret Continue
  else if can_show_or_muck_hole_cards state then
    op ← provider (ShowOrMuckHoleCards true);
    seat ← from_option "KeyError"
      (HandRuntime.player_index_to_seat hand !! Operation.player_index op);
    modify_hand (λ hand,
      HandRuntime.set_showdown_revealed_seats
        ({[seat]} ∪ HandRuntime.showdown_revealed_seats hand) hand);;
    let cards := Operation.hole_cards op in
    hand ← the_hand;
    row ← from_option "KeyError"
      (HandRuntime.showdown_rows_by_seat hand !! seat);
    modify_hand (HandRuntime.set_showdown_rows_by_seat
      (<[seat := SeatShowdown.mk (Some <$> cards)
                   (SeatShowdown.amount_won row)]>
         (HandRuntime.showdown_rows_by_seat hand)));;
    _emit_event SHOWDOWN_REVEAL (PShowdownReveal [seat] cards);;
    ret Continue
  else if can_kill_hand state then
    provider KillHand;; ret Continue
  else if can_push_chips state then
    award_pot;; ret Continue
  else if can_pull_chips state then
    op ← provider PullChips;
    seat ← from_option "KeyError"
      (HandRuntime.player_index_to_seat hand !! Operation.player_index op);
    _sync_table_stacks_from_state;;
    table ← get_table;
    raw ← from_option "KeyError" (TableRuntime.seats table !! seat);
    _emit_event STACK_UPDATE (PStackUpdate seat (Seat.stack raw));;
    ret Continue
  else if can_no_operate state then
    provider NoOperate;; ret Continue
  else ret Break.

(** One pass through the body of the [while True] of [_advance_locked],
    after the guard. *)
Definition advance_iteration : M LoopExit :=
  hand ← the_hand;
  if negb (status (HandRuntime.pokerkit_state hand)) then ret Break
  else forced_step hand.

(** The [while True] loop under its guard of 500 passes; it leaves with
    [Break] or [Return]. *)
Fixpoint advance_loop (passes_left : nat) : M LoopExit :=
  match passes_left with
  | O => crash "advance loop exceeded guard limit"
  | S passes_left' =>
      exit ← advance_iteration;
      match exit with
      | Continue => advance_loop passes_left'
      | _ => ret exit
      end
  end.

Definition _advance_locked : M unit :=
  exit ← advance_loop 500;
  match exit with
  | Return => ret tt
  | _ =>
      _sync_table_stacks_from_state;;
      hand ← the_hand;
      if negb (status (HandRuntime.pokerkit_state hand))
         && negb (HandRuntime.ended hand)
      then _complete_hand_locked
      else ret tt
  end.


(** *** Applying one action *)

Definition add_all_in (seat : nat) : M unit :=
  modify_hand (λ hand,
    HandRuntime.set_all_in_seats ({[seat]} ∪ HandRuntime.all_in_seats hand)
      hand).

(** [state.bets[state.actor_index]] *)
Definition actor_bet (state : State) : option Z :=
  actor_index state ≫= λ actor, bets state !! actor.

(** The [if]/[elif] chain of [_apply_player_action]: it performs the
    action on the rules state and gives [(action_to_log, amount_logged)]. *)
Definition perform_action (seat : nat) (action : ClientActionType)
    (amount_to : option Z) : M (ClientActionType * option Z) :=
  hand ← the_hand;
  let state := HandRuntime.pokerkit_state hand in
  match action with
  | FOLD =>
      if negb (can_fold state) then
        reject "ACTION_NOT_ALLOWED" "Fold is not allowed."
      else
        provider Fold;;
        modify_hand (λ hand,
          HandRuntime.set_folded_seats
            ({[seat]} ∪ HandRuntime.folded_seats hand) hand);;
        ret (action, amount_to)
  | CHECK | CALL =>
      if negb (can_check_or_call state) then
        reject "ACTION_NOT_ALLOWED" "Check/call is not allowed."
      else
        let call_amount := default 0 (checking_or_calling_amount state) in
        provider CheckOrCall;;
        let amount_logged :=
          if decide (0 < call_amount) then Some call_amount else None in
        table ← get_table;
        action_to_log ←
          (if decide (0 < call_amount) then
             raw ← from_option "KeyError" (TableRuntime.seats table !! seat);
             if decide (Seat.stack raw = call_amount) then
               add_all_in seat;; ret ALL_IN
             else ret CALL
           else if decide (call_amount = 0) then ret CHECK
           else ret CALL);
        commit seat call_amount;;
        ret (action_to_log, amount_logged)
  | BET | RAISE =>
      match amount_to with
      | None => reject "MISSING_AMOUNT" "bet/raise requires amount_to."
      | Some amount =>
          if negb (can_complete_bet_or_raise_to state) then
            reject "ACTION_NOT_ALLOWED" "Bet/raise is not allowed."
          else
            match min_completion_betting_or_raising_to_amount state,
                  max_completion_betting_or_raising_to_amount state with
            | Some min_to, Some max_to =>
                if decide (amount < min_to ∨ max_to < amount) then
                  reject "INVALID_SIZING"
                    ("Amount " +:+ pretty amount +:+ " outside ["
                     +:+ pretty min_to +:+ ", " +:+ pretty max_to +:+ "].")
                else
                  before ← from_option "IndexError" (actor_bet state);
                  provider (CompleteBetOrRaiseTo amount);;
                  let delta := amount - before in
                  commit seat delta;;
                  if decide (amount = max_to) then
                    add_all_in seat;; ret (ALL_IN, amount_to)
                  else ret (action, amount_to)
            | _, _ => reject "ACTION_NOT_ALLOWED" "Bet/raise not available."
            end
      end
  | ALL_IN =>
      let max_to := max_completion_betting_or_raising_to_amount state in
      '(amount_logged) ←
        (match can_complete_bet_or_raise_to state, max_to with
         | true, Some max_to =>
             before ← from_option "IndexError" (actor_bet state);
             provider (CompleteBetOrRaiseTo max_to);;
             let delta := max_to - before in
             commit seat delta;;
             ret (Some max_to)
         | _, _ =>
             if can_check_or_call state then
               let call_amount :=
                 default 0 (checking_or_calling_amount state) in
               provider CheckOrCall;;
               commit seat call_amount;;
               ret (if decide (0 < call_amount) then Some call_amount
                    else None)
             else
               reject "ACTION_NOT_ALLOWED" "All-in is not currently allowed."
         end);
      add_all_in seat;;
      ret (ALL_IN, amount_logged)
  end.

Definition _apply_player_action (seat : nat) (action : ClientActionType)
    (amount_to : option Z) (think_delay_ms : option Z) : M unit :=
  actor_seat ← _actor_seat;
  if decide (actor_seat ≠ Some seat) then
    reject "NOT_TURN" "Action does not match current actor."
  else
    '(action_to_log, amount_logged) ← perform_action seat action amount_to;
    modify_hand (λ hand,
      HandRuntime.set_action_seq (HandRuntime.action_seq hand + 1) hand);;
    hand ← the_hand;
    let entry :=
      ActionHistoryRow.mk (HandRuntime.next_step_index hand)
        (HandRuntime.action_seq hand) seat action_to_log amount_logged
        (_street_from_state (HandRuntime.pokerkit_state hand)) in
    modify_hand (λ hand,
      HandRuntime.set_next_step_index (S (HandRuntime.next_step_index hand))
        hand);;
    modify_hand (λ hand,
      HandRuntime.set_action_log_internal
        (HandRuntime.action_log_internal hand ++ [entry]) hand);;
    _sync_table_stacks_from_state;;
    _emit_event ACTION
      (PAction seat action_to_log amount_logged think_delay_ms).


(** *** What a viewer is shown *)

(** [max(state.bets)]; [None] is the [ValueError] on an empty list. *)
Definition max_of (l : list Z) : option Z :=
  match l with
  | [] => None
  | x :: l' => Some (foldl Z.max x l')
  end.

Definition _allowed_actions_for_seat (table : Table) (hand : Hand)
    (seat : nat) : option AllowedActions.t :=
  let state := HandRuntime.pokerkit_state hand in
  actor_seat_of hand ≫= λ actor_seat,
  TableRuntime.seats table !! seat ≫= λ raw,
  if decide (actor_seat ≠ Some seat) then
    Some (AllowedActions.default (total_pot_amount state) (Seat.stack raw))
  else
    let call_amount := default 0 (checking_or_calling_amount state) in
    let can_complete := can_complete_bet_or_raise_to state in
    let min_to :=
      if can_complete then min_completion_betting_or_raising_to_amount state
      else None in
    let max_to :=
      if can_complete then max_completion_betting_or_raising_to_amount state
      else None in
    max_of (bets state) ≫= λ highest,
    let has_live_bet := bool_decide (0 < highest) in
    Some (AllowedActions.mk
            (can_fold state)
            (can_check_or_call state && bool_decide (call_amount = 0))
            (can_check_or_call state && bool_decide (0 < call_amount))
            (can_complete && negb has_live_bet)
            (can_complete && has_live_bet)
            ((can_check_or_call state || can_complete)
             && bool_decide (0 < Seat.stack raw))
            call_amount
            (if negb has_live_bet then min_to else None)
            (if has_live_bet then min_to else None)
            max_to
            (total_pot_amount state)
            (Seat.stack raw)).

Definition _allowed_actions_for_viewer (table : Table) (viewer_id : string)
    : option AllowedActions.t :=
  if decide (viewer_id ≠ "human") then Some (AllowedActions.default 0 0)
  else
    match TableRuntime.current_hand table with
    | None => Some (AllowedActions.default 0 0)
    | Some hand => _allowed_actions_for_seat table hand 0
    end.

Definition _invariant_payload (table : Table) : InvariantPayload.t :=
  let seat_chips := sumZ (Seat.stack <$> TableRuntime.seats table) in
  let '(total_chips, in_front) :=
    match TableRuntime.current_hand table with
    | Some hand =>
        let state := HandRuntime.pokerkit_state hand in
        let in_front := sumZ (bets state) in
        (seat_chips + (in_front + sumZ (Pot.amount <$> pots state)), in_front)
    | None => (seat_chips, 0)
    end in
  InvariantPayload.mk
    (bool_decide
       (total_chips =
          TableConfig.starting_stack (TableRuntime.config table)
          * Z.of_nat (TableConfig.num_seats (TableRuntime.config table))))
    (forallb (λ raw, 0 <=? Seat.stack raw) (TableRuntime.seats table))
    true
    in_front.

(** The body of [for player_index, seat_id in
    hand.player_index_to_seat.items()] in [_build_view_state]. *)
Definition view_seat (table : Table) (hand : Hand)
    (acc : list Z * list SeatState.t) (item : nat * nat)
    : option (list Z * list SeatState.t) :=
  let '(chips_in_front, seats) := acc in
  let '(player_index, seat_id) := item in
  bets (HandRuntime.pokerkit_state hand) !! player_index ≫= λ bet,
  seats !! seat_id ≫= λ seat,
  TableRuntime.seats table !! seat_id ≫= λ raw,
  let cards :=
    default [None; None]
      (SeatShowdown.hole_cards <$>
       HandRuntime.showdown_rows_by_seat hand !! seat_id) in
  let seat' :=
    SeatState.mk (SeatState.seat_id seat) (SeatState.player_type seat)
      (SeatState.display_name seat)
      (Seat.stack raw)
      (bool_decide (seat_id ∈ HandRuntime.folded_seats hand))
      (bool_decide (seat_id ∈ HandRuntime.all_in_seats hand))
      (SeatState.is_busted seat)
      (if decide (seat_id = HandRuntime.sb_seat hand) then Some "SB"
       else if decide (seat_id = HandRuntime.bb_seat hand) then Some "BB"
       else SeatState.role_badge seat)
      (bool_decide (seat_id = HandRuntime.dealer_button_seat hand))
      (if decide (seat_id = 0%nat) then _normalize_hole_cards cards
       else if decide (seat_id ∈ HandRuntime.showdown_revealed_seats hand)
       then _normalize_hole_cards cards
       else [None; None]) in
  Some (<[seat_id := bet]> chips_in_front, <[seat_id := seat']> seats).

Fixpoint view_seats (table : Table) (hand : Hand)
    (acc : list Z * list SeatState.t) (items : list (nat * nat))
    : option (list Z * list SeatState.t) :=
  match items with
  | [] => Some acc
  | item :: items' =>
      view_seat table hand acc item ≫= λ acc', view_seats table hand acc' items'
  end.

Definition pot_views (hand : Hand) : option (list PotView.t) :=
  mapM (λ '(index, pot),
          mapM (λ i, HandRuntime.player_index_to_seat hand !! i)
               (Pot.player_indices pot) ≫= λ seat_list,
          Some (PotView.mk index (Pot.amount pot) seat_list
                  (if decide (index = 0%nat) then "POT"
                   else "SIDE POT " +:+ pretty index)))
       (imap pair (pots (HandRuntime.pokerkit_state hand))).

Definition recent_actions (hand : Hand) : list ActionLogEntry.t :=
  let rows := HandRuntime.action_log_internal hand in
  imap (λ index row,
          ActionLogEntry.mk (index + 1)%nat (ActionHistoryRow.seat_id row)
            (ActionHistoryRow.action row) (ActionHistoryRow.amount_to row)
            (ActionHistoryRow.street row))
       (drop (length rows - 12) rows).

(** [_build_view_state]; [None] where the source raises. *)
Definition _build_view_state (table : Table) (viewer_id : string)
    : option ViewState.t :=
  let seats0 :=
    imap (λ seat_id raw,
            SeatState.mk seat_id (Seat.player_type raw)
              (Seat.display_name raw) (Seat.stack raw) false false
              (bool_decide (Seat.stack raw <= 0)) None false [None; None])
         (TableRuntime.seats table) in
  let chips0 := (λ _, 0) <$> TableRuntime.seats table in
  (match TableRuntime.current_hand table with
   | None => Some (None, seats0, [], [], chips0, None, [], None, 0)
   | Some hand =>
       view_seats table hand (chips0, seats0)
         (imap pair (HandRuntime.player_index_to_seat hand))
       ≫= λ '(chips_in_front, seats),
       pot_views hand ≫= λ pots,
       actor_seat_of hand ≫= λ action_on_seat,
       _build_showdown_payload hand ≫= λ showdown_payload,
       Some (Some (HandRuntime.hand_id hand), seats,
             get_board_cards (HandRuntime.pokerkit_state hand), pots,
             chips_in_front, action_on_seat, recent_actions hand,
             showdown_payload, HandRuntime.action_seq hand)
   end)
  ≫= λ '(hand_id, seats, board_cards, pots, chips_in_front, action_on_seat,
          action_log, showdown_payload, server_action_seq),
  _allowed_actions_for_viewer table viewer_id ≫= λ allowed,
  let raw_state :=
    RawState.mk (TableRuntime.table_id table) hand_id
      (TableRuntime.outcome table) seats board_cards pots chips_in_front
      action_on_seat allowed in
  Some (ViewState.mk (TableRuntime.table_id table) hand_id
          (TableRuntime.outcome table) seats board_cards pots chips_in_front
          action_on_seat action_on_seat action_log server_action_seq allowed
          showdown_payload (stable_hash_state raw_state)
          (stable_hash_invariant (_invariant_payload table))).

Definition build_view (viewer_id : string) : M ViewState.t :=
  table ← get_table;
  from_option "view" (_build_view_state table viewer_id).


(** *** The public operations

    Each runs under the table's lock, so it is one computation on the
    table.  [create_table] takes the identifier and the seed that the
    source draws from [uuid4] and [random.randrange]. *)

Definition create_table (table_id : string) (random_seed : Z)
    (config : TableConfig.t) : Table :=
  let table_seed := default random_seed (TableConfig.seed config) in
  let seats :=
    (λ seat_id,
       Seat.mk seat_id
         (if decide (seat_id = 0%nat) then HUMAN else BOT)
         (if decide (seat_id = 0%nat) then "You"
          else "Bot " +:+ pretty seat_id)
         (TableConfig.starting_stack config))
    <$> seq 0 (TableConfig.num_seats config) in
  TableRuntime.mk table_id config seats
    (TableConfig.num_seats config - 1)%nat 1%nat table_seed 0%nat RUNNING
    None ∅ [].

Definition start_new_hand (fuel : nat) : M StartHandResponse.t :=
  table ← get_table;
  if decide (TableRuntime.current_hand table ≠ None) then
    reject "HAND_ALREADY_RUNNING" "A hand is already in progress."
  else
    _refresh_outcome;;
    table ← get_table;
    if decide (TableRuntime.outcome table ≠ RUNNING) then
      view ← build_view "human";
      ret (StartHandResponse.mk view [])
    else
      _start_hand_locked fuel;;
      _advance_locked;;
      view ← build_view "human";
      hand ← the_hand;
      ret (StartHandResponse.mk view (HandRuntime.event_log hand)).

Definition get_view_state (viewer_id : string) : M ViewState.t :=
  build_view viewer_id.

Definition get_allowed_actions (viewer_id : string) : M AllowedActions.t :=
  table ← get_table;
  from_option "allowed" (_allowed_actions_for_viewer table viewer_id).

(** [try: body / except EngineRejectedAction as exc: handler] *)
Definition try_except {A} (body : M A) (handler : string -> string -> M A)
    : M A :=
  λ table,
    match body table with
    | (table', Rejected code message) => handler code message table'
    | other => other
    end.

Definition submit_action (viewer_id : string) (action : ClientActionType)
    (action_seq : Z) (idempotency_key : string) (amount_to : option Z)
    : M SubmitActionResponse.t :=
  table ← get_table;
  match TableRuntime.current_hand table with
  | None => reject "NO_ACTIVE_HAND" "No active hand to act in."
  | Some hand =>
      match HandRuntime.idempotency_cache hand !! idempotency_key with
      | Some cached => ret cached
      | None =>
          if decide (viewer_id ≠ "human") then
            reject "UNAUTHORIZED_VIEWER"
              "Only the human viewer can submit actions."
          else if decide (action_seq ≠ HandRuntime.action_seq hand + 1) then
            reject "BAD_ACTION_SEQ"
              ("Expected action_seq "
               +:+ pretty (HandRuntime.action_seq hand + 1)
               +:+ ", got " +:+ pretty action_seq +:+ ".")
          else
            actor_seat ← _actor_seat;
            if decide (actor_seat ≠ Some 0%nat) then
              reject "NOT_YOUR_TURN" "It is not the human seat's turn."
            else
              let start_index := length (HandRuntime.event_log hand) in
              refused ←
                try_except
                  (_apply_player_action 0 action amount_to None;; ret None)
                  (λ code message,
                     view ← build_view viewer_id;
                     hand ← the_hand;
                     ret (Some (SubmitActionResponse.mk false
                                  (Some (EngineError.mk code message))
                                  view [] (HandRuntime.action_seq hand))));
              match refused with
              | Some response => ret response
              | None =>
                  _advance_locked;;
                  view ← build_view viewer_id;
                  hand ← the_hand;
                  let response :=
                    SubmitActionResponse.mk true None view
                      (drop start_index (HandRuntime.event_log hand))
                      (HandRuntime.action_seq hand) in
                  modify_hand (λ hand,
                    HandRuntime.set_idempotency_cache
                      (<[idempotency_key := response]>
                         (HandRuntime.idempotency_cache hand)) hand);;
                  ret response
              end
      end
  end.

Definition advance : M (ViewState.t * list EventEnvelope.t) :=
  table ← get_table;
  match TableRuntime.current_hand table with
  | None => view ← build_view "human"; ret (view, [])
  | Some hand =>
      let start := length (HandRuntime.event_log hand) in
      _advance_locked;;
      view ← build_view "human";
      hand ← the_hand;
      ret (view, drop start (HandRuntime.event_log hand))
  end.

(** [table.current_hand = None] followed by [_refresh_outcome(table)];
    the value is the event log of the hand that was current. *)
Definition retire_hand : M (list EventEnvelope.t) :=
  hand ← the_hand;
  modify_table (TableRuntime.set_current_hand None);;
  _refresh_outcome;;
  ret (HandRuntime.event_log hand).

(** The [while True] of [run_bots_until_human_turn] under its guard of
    2000 passes; the value is [hand.event_log] when the loop is left. *)
Fixpoint run_bots_loop (passes_left : nat) : M (list EventEnvelope.t) :=
  match passes_left with
  | O => crash "bot runner exceeded guard limit"
  | S passes_left' =>
      actor_seat ← _actor_seat;
      match actor_seat with
      | None =>
          _advance_locked;;
          hand ← the_hand;
          if HandRuntime.ended hand then retire_hand
          else run_bots_loop passes_left'
      | Some actor_seat =>
          if decide (actor_seat = 0%nat) then
            hand ← the_hand; ret (HandRuntime.event_log hand)
          else
            table ← get_table;
            hand ← the_hand;
            allowed ← from_option "allowed"
              (_allowed_actions_for_seat table hand actor_seat);
            raw ← from_option "KeyError"
              (TableRuntime.seats table !! actor_seat);
            let rng_seed :=
              derive_seed (HandRuntime.bot_decision_seed hand)
                (HandRuntime.action_seq hand + Z.of_nat actor_seat)
                "decision" in
            let decision := choose_action allowed (Seat.stack raw) rng_seed in
            _apply_player_action actor_seat (BotDecision.action decision)
              (BotDecision.amount_to decision)
              (Some (BotDecision.think_delay_ms decision));;
            _advance_locked;;
            hand ← the_hand;
            if HandRuntime.ended hand then retire_hand
            else run_bots_loop passes_left'
      end
  end.

Definition run_bots_until_human_turn
    : M (ViewState.t * list EventEnvelope.t) :=
  table ← get_table;
  match TableRuntime.current_hand table with
  | None => view ← build_view "human"; ret (view, [])
  | Some hand =>
      let event_start := length (HandRuntime.event_log hand) in
      event_log ← run_bots_loop 2000;
      view ← build_view "human";
      ret (view, drop event_start event_log)
  end.

(** [export_hand_history]; the value stands for the JSON dictionary. *)
Definition mask_hole_cards (history : HandHistory.t)
    : gmap nat (list (option Card)) :=
  map_imap (λ seat_key cards,
              Some (if decide (seat_key ≠ 0%nat) then
                      match HandHistory.showdown history with
                      | None => [None; None]
                      | Some _ => cards
                      end
                    else cards))
           (HandHistory.hole_cards_by_seat history).

Definition with_hole_cards (cards : gmap nat (list (option Card)))
    (h : HandHistory.t) : HandHistory.t :=
  HandHistory.mk (HandHistory.hand_id h) (HandHistory.table_id h)
    (HandHistory.config h) (HandHistory.initial_stacks_by_seat h)
    (HandHistory.final_stacks_by_seat h) (HandHistory.active_seats h)
    (HandHistory.player_index_to_seat h) (HandHistory.dealer_button_seat h)
    (HandHistory.sb_seat h) (HandHistory.bb_seat h) (HandHistory.deal_seed h)
    (HandHistory.bot_decision_seed h) (HandHistory.bot_delay_seed h)
    (HandHistory.engine_version h) (HandHistory.ruleset_version h)
    cards (HandHistory.board_cards h) (HandHistory.actions h)
    (HandHistory.pot_breakdown h) (HandHistory.showdown h)
    (HandHistory.hand_end_reason h) (HandHistory.event_count h)
    (HandHistory.events h).

Definition export_hand_history (hand_id : nat) (mode : string)
    : M HandHistory.t :=
  table ← get_table;
  match TableRuntime.completed_hands table !! hand_id with
  | None =>
      reject "HAND_NOT_FOUND"
        ("Hand " +:+ pretty hand_id +:+ " does not exist.")
  | Some history =>
      if decide (mode = "viewer") then
        ret (with_hole_cards (mask_hole_cards history) history)
      else ret history
  end.

Definition restart_session (fuel : nat) : M StartHandResponse.t :=
  modify_table (λ table,
    TableRuntime.set_seats
      (Seat.set_stack (TableConfig.starting_stack (TableRuntime.config table))
       <$> TableRuntime.seats table) table);;
  modify_table (TableRuntime.set_outcome RUNNING);;
  modify_table (TableRuntime.set_current_hand None);;
  modify_table (TableRuntime.set_completed_hands ∅);;
  modify_table (λ table,
    TableRuntime.set_dealer_button_seat
      (TableConfig.num_seats (TableRuntime.config table) - 1)%nat table);;
  modify_table (TableRuntime.set_next_hand_id 1%nat);;
  _start_hand_locked fuel;;
  _advance_locked;;
  view ← build_view "human";
  hand ← the_hand;
  ret (StartHandResponse.mk view (HandRuntime.event_log hand)).

Definition get_server_action_seq : M Z :=
  table ← get_table;
  match TableRuntime.current_hand table with
  | None => ret 0
  | Some hand => ret (HandRuntime.action_seq hand)
  end.


(** *** Replay

    [_replay_from_history] owns a rules state of its own and no table:
    it is a function of the history.  The deck index is a [nat]; the
    subtraction in [_deck_index_after_advance] is not negative as long
    as the rules state has at most 52 dealable cards. *)

Definition obind {A B} (o : Outcome A) (k : A -> Outcome B) : Outcome B :=
  match o with
  | Returned a => k a
  | Rejected code message => Rejected code message
  | Crashed what => Crashed what
  | Diverged => Diverged
  end.

Definition call (state : State) (request : Request) : Outcome State :=
  match perform state request with
  | Some (state', _) => Returned state'
  | None => Crashed "ValueError"
  end.

Definition item {A} (what : string) (o : option A) : Outcome A :=
  match o with Some a => Returned a | None => Crashed what end.

(** One forced sub-step of the replay loops, in their common order;
    [None] when no branch applies. *)
Definition replay_forced_step (state : State) (deck : list Card)
    (deck_idx : nat) : option (Outcome (State * nat)) :=
  let same (o : Outcome State) := obind o (λ s, Returned (s, deck_idx)) in
  if can_collect_bets state then Some (same (call state CollectBets))
  else if can_select_runout_count state then
    Some (same (call state (SelectRunoutCount 1)))
  else if can_burn_card state then
    Some (obind (item "IndexError" (deck !! deck_idx)) (λ card,
          obind (call state (BurnCard card)) (λ s,
          Returned (s, S deck_idx))))
  else if can_deal_board state then
    let count := board_dealing_count state in
    Some (obind (call state (DealBoard (take count (drop deck_idx deck))))
            (λ s, Returned (s, (deck_idx + count)%nat)))
  else if can_show_or_muck_hole_cards state then
    Some (same (call state (ShowOrMuckHoleCards true)))
  else if can_kill_hand state then Some (same (call state KillHand))
  else if can_push_chips state then Some (same (call state PushChips))
  else if can_pull_chips state then Some (same (call state PullChips))
  else if can_no_operate state then Some (same (call state NoOperate))
  else None.

Fixpoint replay_advance_loop (passes_left : nat) (state : State)
    (deck : list Card) (deck_idx : nat) : Outcome State :=
  if bool_decide (actor_index state = None) && status state then
    match passes_left with
    | O => Crashed "replay advance exceeded guard limit"
    | S passes_left' =>
        match replay_forced_step state deck deck_idx with
        | Some step =>
            obind step (λ '(state', deck_idx'),
              replay_advance_loop passes_left' state' deck deck_idx')
        | None => Returned state
        end
    end
  else Returned state.

Definition _replay_advance (state : State) (deck : list Card)
    (deck_idx : nat) : Outcome State :=
  replay_advance_loop 500 state deck deck_idx.

Definition _deck_index_after_advance (state : State) : nat :=
  (52 - length (get_dealable_cards state))%nat.

Definition replay_row (state : State) (row : ActionHistoryRow.t)
    : Outcome State :=
  match ActionHistoryRow.action row with
  | FOLD => call state Fold
  | CHECK | CALL => call state CheckOrCall
  | BET | RAISE =>
      match ActionHistoryRow.amount_to row with
      | None => Crashed "missing amount_to during replay raise"
      | Some amount => call state (CompleteBetOrRaiseTo amount)
      end
  | ALL_IN =>
      if can_complete_bet_or_raise_to state then
        match max_completion_betting_or_raising_to_amount state with
        | None => Crashed "max_to missing for all-in"
        | Some max_to => call state (CompleteBetOrRaiseTo max_to)
        end
      else call state CheckOrCall
  end.

(** [for row in hand_history.actions] *)
Fixpoint replay_rows (rows : list ActionHistoryRow.t)
    (player_index_to_seat : list nat) (deck : list Card)
    (state : State) (deck_idx : nat) : Outcome (State * nat) :=
  match rows with
  | [] => Returned (state, deck_idx)
  | row :: rows' =>
      obind
        (if bool_decide (actor_index state = None) then
           obind (_replay_advance state deck deck_idx) (λ state',
             Returned (state', _deck_index_after_advance state'))
         else Returned (state, deck_idx))
        (λ '(state, deck_idx),
           match actor_index state with
           | None => replay_rows rows' player_index_to_seat deck state deck_idx
           | Some actor =>
               obind (item "KeyError" (player_index_to_seat !! actor))
                 (λ seat,
                    if decide (seat ≠ ActionHistoryRow.seat_id row) then
                      Crashed "replay seat mismatch"
                    else
                      obind (replay_row state row) (λ state',
                        replay_rows rows' player_index_to_seat deck state'
                          deck_idx))
           end)
  end.

(** The closing [while state.status] loop under its guard of 1000. *)
Fixpoint replay_finish (passes_left : nat) (state : State)
    (deck : list Card) (deck_idx : nat) : Outcome State :=
  if status state then
    match passes_left with
    | O => Crashed "replay loop exceeded guard limit"
    | S passes_left' =>
        if bool_decide (actor_index state ≠ None) then
          obind (call state CheckOrCall) (λ state',
            replay_finish passes_left' state' deck deck_idx)
        else
          match replay_forced_step state deck deck_idx with
          | Some step =>
              obind step (λ '(state', deck_idx'),
                replay_finish passes_left' state' deck deck_idx')
          | None => Returned state
          end
    end
  else Returned state.

Fixpoint replay_post_blinds (fuel : nat) (state : State) : Outcome State :=
  if can_post_blind_or_straddle state then
    match fuel with
    | O => Diverged
    | S fuel' =>
        obind (call state PostBlindOrStraddle) (replay_post_blinds fuel')
    end
  else Returned state.

Fixpoint replay_deal_hole (fuel : nat) (state : State) (deck : list Card)
    (deck_idx : nat) : Outcome (State * nat) :=
  if can_deal_hole state then
    match fuel with
    | O => Diverged
    | S fuel' =>
        obind (item "IndexError" (deck !! deck_idx)) (λ card,
        obind (call state (DealHole card)) (λ state',
        replay_deal_hole fuel' state' deck (S deck_idx)))
    end
  else Returned (state, deck_idx).

(** The dictionary [final_stacks] of the replay. *)
Definition replay_final_stacks (history : HandHistory.t) (state : State)
    : option (gmap nat Z) :=
  mapM (λ '(player_index, seat),
          (λ stack, (seat, stack)) <$> stacks state !! player_index)
       (imap pair (HandHistory.player_index_to_seat history))
  ≫= λ played,
  let final_stacks : gmap nat Z :=
    foldl (λ d '(seat, stack), <[seat := stack]> d) ∅ played in
  Some (foldl (λ (d : gmap nat Z) seat,
                 match d !! seat with
                 | Some _ => d
                 | None =>
                     <[seat := default 0
                         (HandHistory.initial_stacks_by_seat history !! seat)]>
                       d
                 end)
              final_stacks
              (seq 0 (TableConfig.num_seats (HandHistory.config history)))).

Fixpoint strictly_increasing (l : list nat) : bool :=
  match l with
  | a :: (b :: _) as l' => bool_decide (a < b)%nat && strictly_increasing l'
  | _ => true
  end.

Definition _replay_from_history (fuel : nat) (history : HandHistory.t)
    : Outcome ReplayResult.t :=
  let config := HandHistory.config history in
  let active_seats := HandHistory.active_seats history in
  let total_chips_target :=
    sum_values (HandHistory.initial_stacks_by_seat history) in
  let player_index_to_seat := HandHistory.player_index_to_seat history in
  obind (item "KeyError"
           (mapM (λ i, player_index_to_seat !! i ≫= λ seat,
                       HandHistory.initial_stacks_by_seat history !! seat)
                 (seq 0 (length active_seats))))
    (λ starting_stacks,
  let state :=
    create_state (TableConfig.ante config) (TableConfig.small_blind config)
      (TableConfig.big_blind config) (TableConfig.big_blind config)
      starting_stacks (length active_seats) in
  let deck := build_shuffled_deck (HandHistory.deal_seed history) in
  obind (replay_post_blinds fuel state) (λ state,
  obind (replay_deal_hole fuel state deck 0) (λ '(state, deck_idx),
  obind (replay_rows (HandHistory.actions history) player_index_to_seat deck
           state deck_idx) (λ '(state, deck_idx),
  obind (replay_finish 1000 state deck deck_idx) (λ state,
  obind (item "IndexError" (replay_final_stacks history state))
    (λ final_stacks,
  Returned
    (ReplayResult.mk
       (HandHistory.hand_id history)
       final_stacks
       (get_board_cards state)
       (HandHistory.showdown history)
       (HandHistory.hand_end_reason history)
       (bool_decide (sum_values final_stacks = total_chips_target))
       (negb (status state))
       (bool_decide (final_stacks = HandHistory.final_stacks_by_seat history))
       (strictly_increasing
          (EventEnvelope.event_seq <$> HandHistory.events history))))))))).

Definition replay_hand_history (fuel : nat) (hand_history : HandHistory.t)
    : Outcome ReplayResult.t :=
  _replay_from_history fuel hand_history.

End Service.

Arguments M : clear implicits.

(** ** A reference provider

    The theorems below hold for every provider that keeps the chips it
    is given.  To run the service, and to have such a provider at hand,
    this module gives a small one: hold'em reduced to a single betting
    round followed by the run-out of the board, with the highest hole
    card winning.  It goes through pokerkit's phases in pokerkit's
    order (antes, their collection, blinds, hole cards, betting,
    collection, burn and board cards, showdown, pushing and pulling of
    chips), nothing being automated, as the service creates its states
    with the empty tuple of automations. *)

Module Reference.

Inductive Phase :=
| AntePosting | AnteCollection | BlindPosting | HoleDealing | Betting
| BetCollection | Runout | Showing | ChipsPushing | ChipsPulling | Finished.

#[global] Instance Phase_eq_dec : EqDecision Phase.
Proof. solve_decision. Defined.

Record Player := mk_player {
  stack : Z;
  bet : Z;
  folded : bool;
  hole : list Card;
  shown : bool;
}.

Record t := mk {
  players : list Player;
  pot : Z;
  phase : Phase;
  ante : Z;
  small_blind : Z;
  big_blind : Z;
  posted : nat;
  to_act : list nat;
  board : list Card;
  burned : bool;
  dealt : list Card;
}.

Definition with_players (ps : list Player) (s : t) : t :=
  mk ps (pot s) (phase s) (ante s) (small_blind s) (big_blind s) (posted s)
     (to_act s) (board s) (burned s) (dealt s).
Definition with_pot (v : Z) (s : t) : t :=
  mk (players s) v (phase s) (ante s) (small_blind s) (big_blind s)
     (posted s) (to_act s) (board s) (burned s) (dealt s).
Definition with_phase (v : Phase) (s : t) : t :=
  mk (players s) (pot s) v (ante s) (small_blind s) (big_blind s) (posted s)
     (to_act s) (board s) (burned s) (dealt s).
Definition with_posted (v : nat) (s : t) : t :=
  mk (players s) (pot s) (phase s) (ante s) (small_blind s) (big_blind s) v
     (to_act s) (board s) (burned s) (dealt s).
Definition with_to_act (v : list nat) (s : t) : t :=
  mk (players s) (pot s) (phase s) (ante s) (small_blind s) (big_blind s)
     (posted s) v (board s) (burned s) (dealt s).
Definition with_board (v : list Card) (s : t) : t :=
  mk (players s) (pot s) (phase s) (ante s) (small_blind s) (big_blind s)
     (posted s) (to_act s) v (burned s) (dealt s).
Definition with_burned (v : bool) (s : t) : t :=
  mk (players s) (pot s) (phase s) (ante s) (small_blind s) (big_blind s)
     (posted s) (to_act s) (board s) v (dealt s).
Definition with_dealt (v : list Card) (s : t) : t :=
  mk (players s) (pot s) (phase s) (ante s) (small_blind s) (big_blind s)
     (posted s) (to_act s) (board s) (burned s) v.

(** Moving [amount] chips of a player from the stack to the bet. *)
Definition put_in (amount : Z) (p : Player) : Player :=
  mk_player (stack p - amount) (bet p + amount) (folded p) (hole p) (shown p).

Definition create (ante small_blind big_blind : Z) (stacks : list Z) : t :=
  mk ((λ chips, mk_player chips 0 false [] false) <$> stacks) 0
     (if decide (0 < ante) then AntePosting else BlindPosting)
     ante small_blind big_blind 0 [] [] false [].

Definition highest_bet (s : t) : Z := foldr Z.max 0 (bet <$> players s).

Definition live (p : Player) : bool := negb (folded p).

Definition live_count (s : t) : nat := length (filter (λ p, live p = true) (players s)).

Definition can_act (s : t) (i : nat) : bool :=
  match players s !! i with
  | Some p => live p && bool_decide (0 < stack p)
  | None => false
  end.

(** The players after [actor], cyclically, who can still act. *)
Definition others_to_act (s : t) (actor : nat) : list nat :=
  let n := length (players s) in
  filter (λ i, can_act s i = true)
         ((λ k, (actor + 1 + k) mod n)%nat <$> seq 0 (n - 1)).

(** The order of the betting round: it opens left of the big blind
    (heads-up: with the player who posted the small blind). *)
Definition first_to_act (s : t) : list nat :=
  let n := length (players s) in
  let big_blind_index := (if decide (n = 2)%nat then 0 else 1)%nat in
  others_to_act s big_blind_index
  ++ filter (λ i, can_act s i = true) [big_blind_index].

Definition rank_value (card : Card) : Z :=
  match card with
  | String c _ =>
      match list_find (λ r, r = String c EmptyString) RANKS with
      | Some (i, _) => Z.of_nat i + 2
      | None => 0
      end
  | EmptyString => 0
  end.

Definition strength (p : Player) : Z := foldr Z.max 0 (rank_value <$> hole p).

Definition best_strength (s : t) : Z :=
  foldr Z.max 0 (strength <$> filter (λ p, live p = true) (players s)).

Definition wins (s : t) (p : Player) : bool :=
  live p && bool_decide (strength p = best_strength s).

(** Every winner is given [share] into the bet, the first one [extra]
    on top; the second component lists what each player was given. *)
Fixpoint award (s : t) (share extra : Z) (ps : list Player)
    : list Player * list Z :=
  match ps with
  | [] => ([], [])
  | p :: ps' =>
      if wins s p then
        let '(ps'', amounts) := award s share 0 ps' in
        (mk_player (stack p) (bet p + (share + extra)) (folded p) (hole p)
           (shown p) :: ps'',
         (share + extra) :: amounts)
      else
        let '(ps'', amounts) := award s share extra ps' in
        (p :: ps'', 0 :: amounts)
  end.

Definition collected (p : Player) : Player :=
  mk_player (stack p) 0 (folded p) (hole p) (shown p).

Definition pulled (p : Player) : Player :=
  mk_player (stack p + bet p) 0 (folded p) (hole p) (shown p).

Definition with_fold (p : Player) : Player :=
  mk_player (stack p) (bet p) true (hole p) (shown p).

Definition with_card (card : Card) (p : Player) : Player :=
  mk_player (stack p) (bet p) (folded p) (hole p ++ [card]) (shown p).

Definition with_shown (p : Player) : Player :=
  mk_player (stack p) (bet p) (folded p) (hole p) true.

Definition no_bets (s : t) : bool :=
  forallb (λ p, bool_decide (bet p = 0)) (players s).

Definition actor (s : t) : option nat :=
  if decide (phase s = Betting) then head (to_act s) else None.

Definition call_amount (s : t) (p : Player) : Z :=
  Z.max 0 (Z.min (stack p) (highest_bet s - bet p)).

(** The betting round is over when nobody is left to act. *)
Definition close_round (s : t) : t :=
  match to_act s with
  | [] => with_phase BetCollection s
  | _ => s
  end.

Definition blind_of (s : t) (index : nat) : Z :=
  if decide (length (players s) = 2)%nat then
    if decide (index = 0)%nat then big_blind s else small_blind s
  else
    if decide (index = 0)%nat then small_blind s else big_blind s.

Definition dealee (s : t) : option (nat * Player) :=
  match list_find (λ p, length (hole p) = 0%nat) (players s) with
  | Some found => Some found
  | None => list_find (λ p, length (hole p) = 1%nat) (players s)
  end.

Definition plain (player_index : nat) (amount : Z) : Operation.t :=
  Operation.mk player_index amount 0 [] [].

Definition step (s : t) (request : Request) : option (t * Operation.t) :=
  match request, phase s with
  | PostAnte, AntePosting =>
      players s !! posted s ≫= λ p,
      let amount := Z.max 0 (Z.min (ante s) (stack p)) in
      let s := with_players (alter (put_in amount) (posted s) (players s)) s in
      Some (if decide (S (posted s) < length (players s))%nat
            then with_posted (S (posted s)) s
            else with_posted 0 (with_phase AnteCollection s),
            plain (posted s) amount)
  | CollectBets, AnteCollection =>
      Some (with_phase BlindPosting
              (with_pot (pot s + sumZ (bet <$> players s))
                 (with_players (collected <$> players s) s)),
            plain 0 0)
  | CollectBets, BetCollection =>
      Some (with_phase
              (if decide (live_count s <= 1)%nat then ChipsPushing else Runout)
              (with_pot (pot s + sumZ (bet <$> players s))
                 (with_players (collected <$> players s) s)),
            plain 0 0)
  | PostBlindOrStraddle, BlindPosting =>
      players s !! posted s ≫= λ p,
      let amount := Z.max 0 (Z.min (blind_of s (posted s)) (stack p)) in
      let s' := with_players (alter (put_in amount) (posted s) (players s)) s in
      Some (if decide (posted s = 0)%nat
            then with_posted 1 s'
            else with_posted 0 (with_phase HoleDealing s'),
            plain (posted s) amount)
  | DealHole card, HoleDealing =>
      dealee s ≫= λ '(index, _),
      let s := with_dealt (dealt s ++ [card])
                 (with_players (alter (with_card card) index (players s)) s) in
      Some (match dealee s with
            | Some _ => s
            | None =>
                close_round (with_to_act (first_to_act s) (with_phase Betting s))
            end,
            plain index 0)
  | Fold, Betting =>
      head (to_act s) ≫= λ index,
      players s !! index ≫= λ p,
      if decide (0 < call_amount s p) then
        let s := with_players (alter with_fold index (players s)) s in
        Some (close_round
                (with_to_act (if decide (live_count s <= 1)%nat then []
                              else tail (to_act s)) s),
              plain index 0)
      else None
  | CheckOrCall, Betting =>
      head (to_act s) ≫= λ index,
      players s !! index ≫= λ p,
      let amount := call_amount s p in
      Some (close_round
              (with_to_act (tail (to_act s))
                 (with_players (alter (put_in amount) index (players s)) s)),
            plain index amount)
  | CompleteBetOrRaiseTo amount, Betting =>
      head (to_act s) ≫= λ index,
      players s !! index ≫= λ p,
      let max_to := bet p + stack p in
      let min_to := Z.min max_to (highest_bet s + big_blind s) in
      if decide (highest_bet s < max_to ∧ min_to <= amount <= max_to) then
        let s := with_players
                   (alter (put_in (amount - bet p)) index (players s)) s in
        Some (close_round (with_to_act (others_to_act s index) s),
              plain index amount)
      else None
  | BurnCard card, Runout =>
      if burned s then None
      else Some (with_burned true (with_dealt (dealt s ++ [card]) s),
                 plain 0 0)
  | DealBoard cards, Runout =>
      if burned s then
        let s := with_burned false
                   (with_dealt (dealt s ++ cards)
                      (with_board (board s ++ cards) s)) in
        Some (if decide (5 <= length (board s))%nat then with_phase Showing s
              else s,
              plain 0 0)
      else None
  | ShowOrMuckHoleCards _, Showing =>
      list_find (λ p, live p && negb (shown p) = true) (players s)
      ≫= λ '(index, p),
      let s := with_players (alter with_shown index (players s)) s in
      Some (match list_find (λ p, live p && negb (shown p) = true)
                    (players s) with
            | Some _ => s
            | None => with_phase ChipsPushing s
            end,
            Operation.mk index 0 0 [] (hole p))
  | PushChips, ChipsPushing =>
      let count := Z.of_nat (length (filter (λ p, wins s p = true) (players s))) in
      if decide (0 < count) then
        let share := pot s `div` count in
        let extra := pot s - share * count in
        let '(ps, amounts) := award s share extra (players s) in
        let s := with_pot (pot s - sumZ amounts) (with_players ps s) in
        Some (with_phase (if no_bets s then Finished else ChipsPulling) s,
              Operation.mk 0 0 0 amounts [])
      else None
  | PullChips, ChipsPulling =>
      list_find (λ p, bet p ≠ 0) (players s) ≫= λ '(index, p),
      let s := with_players (alter pulled index (players s)) s in
      Some (if no_bets s then with_phase Finished s else s,
            plain index (bet p))
  | _, _ => None
  end.

Definition can (request : Request) (s : t) : bool :=
  bool_decide (is_Some (step s request)).

Definition running (s : t) : bool :=
  negb (bool_decide (phase s = Finished) && bool_decide (pot s = 0)
        && no_bets s).

Definition acting_player (s : t) : option Player :=
  actor s ≫= λ index, players s !! index.

Definition live_indices (s : t) : list nat :=
  (filter (λ item : nat * Player, live item.2 = true)
     (imap pair (players s))).*1.

Definition pot_list (s : t) : list Pot.t :=
  if decide (pot s = 0) then [] else [Pot.mk (pot s) (live_indices s)].

Definition provider : Provider t := {|
  create_state ante small_blind big_blind _ stacks _ :=
    create ante small_blind big_blind stacks;
  perform := step;
  status := running;
  actor_index := actor;
  stacks s := stack <$> players s;
  bets s := bet <$> players s;
  pots := pot_list;
  _pots := pot_list;
  total_pot_amount s := pot s + sumZ (bet <$> players s);
  get_board_cards := board;
  get_dealable_cards s := filter (λ card, card ∉ dealt s) ordered_deck;
  board_dealing_count s := if decide (board s = []) then 3%nat else 1%nat;
  get_hand s i :=
    players s !! i ≫= λ p,
    if live p then Some ("High card", strength p) else None;
  checking_or_calling_amount s := call_amount s <$> acting_player s;
  min_completion_betting_or_raising_to_amount s :=
    (λ p, Z.min (bet p + stack p) (highest_bet s + big_blind s))
    <$> acting_player s;
  max_completion_betting_or_raising_to_amount s :=
    (λ p, bet p + stack p) <$> acting_player s;
  can_post_ante := can PostAnte;
  can_post_blind_or_straddle := can PostBlindOrStraddle;
  can_deal_hole := can (DealHole "");
  can_collect_bets := can CollectBets;
  can_select_runout_count := can (SelectRunoutCount 1);
  can_burn_card := can (BurnCard "");
  can_deal_board := can (DealBoard []);
  can_show_or_muck_hole_cards := can (ShowOrMuckHoleCards true);
  can_kill_hand := can KillHand;
  can_push_chips := can PushChips;
  can_pull_chips := can PullChips;
  can_no_operate := can NoOperate;
  can_fold := can Fold;
  can_check_or_call := can CheckOrCall;
  can_complete_bet_or_raise_to s :=
    match acting_player s with
    | Some p => bool_decide (highest_bet s < bet p + stack p)
    | None => false
    end;
|}.

(** [BotPolicy.choose_action] of bots/policy.py for a generator whose
    every draw of [random()] is at least 0.55 (so the policy is never
    aggressive and folds to a call it finds expensive) and whose every
    [randint(a, b)] is [a]; a rotation for the shuffle and the length of
    the text for the digest. *)
Definition bot_policy (allowed : AllowedActions.t) (stack : Z)
    : BotDecision.t :=
  let call_amount := AllowedActions.call_amount allowed in
  if AllowedActions.can_call allowed
     && bool_decide (call_amount <= Z.max 200 (stack `div` 6))
  then BotDecision.mk CALL None 650
  else if AllowedActions.can_check allowed then BotDecision.mk CHECK None 650
  else if AllowedActions.can_call allowed && AllowedActions.can_fold allowed
  then BotDecision.mk FOLD None 650
  else if AllowedActions.can_all_in allowed then
    BotDecision.mk ALL_IN (AllowedActions.max_raise_to allowed) 900
  else if AllowedActions.can_fold allowed then BotDecision.mk FOLD None 650
  else if AllowedActions.can_call allowed then BotDecision.mk CALL None 650
  else BotDecision.mk CHECK None 650.

Definition environment : Environment := {|
  sha256_first8 text := Z.of_nat (String.length text);
  shuffle seed deck := rotate (Z.to_nat (seed `mod` 52) + 1) deck;
  choose_action allowed stack _ := bot_policy allowed stack;
  stable_hash_state _ := "";
  stable_hash_invariant payload :=
    if InvariantPayload.chip_conservation payload then "ok" else "drift";
|}.

End Reference.

(** ** Calls and reachable tables

    A table is reachable when it was created by [create_table] and has
    since gone through calls of the public operations that came back,
    with a value or with a rejection.  (A call that raises anything else
    is an engine-integrity failure; one that does not return is not
    observed.) *)

Inductive Call :=
| StartNewHand (fuel : nat)
| SubmitAction (viewer_id : string) (action : ClientActionType)
               (action_seq : Z) (idempotency_key : string)
               (amount_to : option Z)
| Advance
| RunBotsUntilHumanTurn
| RestartSession (fuel : nat)
| GetViewState (viewer_id : string)
| ExportHandHistory (hand_id : nat) (mode : string).

Definition came_back {A} (o : Outcome A) : bool :=
  match o with
  | Returned _ | Rejected _ _ => true
  | Crashed _ | Diverged => false
  end.

Section Reachability.
Context {State : Type} `{!Provider State} `{!Environment}.

Definition forget {A} (m : M State A) : M State unit := bind m (λ _, ret tt).

Definition perform_call (c : Call) : M State unit :=
  match c with
  | StartNewHand fuel => forget (start_new_hand fuel)
  | SubmitAction viewer_id action action_seq idempotency_key amount_to =>
      forget (submit_action viewer_id action action_seq idempotency_key
                amount_to)
  | Advance => forget advance
  | RunBotsUntilHumanTurn => forget run_bots_until_human_turn
  | RestartSession fuel => forget (restart_session fuel)
  | GetViewState viewer_id => forget (get_view_state viewer_id)
  | ExportHandHistory hand_id mode => forget (export_hand_history hand_id mode)
  end.

Inductive reachable : TableRuntime.t State -> Prop :=
| reachable_create table_id random_seed config :
    reachable (create_table table_id random_seed config)
| reachable_call c table :
    reachable table ->
    came_back (perform_call c table).2 = true ->
    reachable (perform_call c table).1.

(** The tables a list of calls leads through, for running examples. *)
Fixpoint perform_calls (calls : list Call) (table : TableRuntime.t State)
    : option (TableRuntime.t State) :=
  match calls with
  | [] => Some table
  | c :: calls' =>
      let '(table', o) := perform_call c table in
      if came_back o then perform_calls calls' table' else None
  end.

End Reachability.
(** ** Vocabulary of the specifications *)

Section Vocabulary.
Context {State : Type} `{!Provider State} `{!Environment}.

Abbreviation Table := (TableRuntime.t State).

(** [hoare P m Q R]: from a table that satisfies [P], when [m] returns
    [a] the table satisfies [Q a], and when it raises
    [EngineRejectedAction] the table satisfies [R]. *)
Definition hoare {A} (P : Table -> Prop) (m : M State A)
    (Q : A -> Table -> Prop) (R : Table -> Prop) : Prop :=
  ∀ table, P table ->
    match m table with
    | (table', Returned a) => Q a table'
    | (table', Rejected _ _) => R table'
    | _ => True
    end.

(** [keeps I R m]: [m] keeps the invariant [I] when it returns and
    leaves [R] when it is rejected. *)
Definition keeps {A} (I R : Table -> Prop) (m : M State A) : Prop :=
  hoare I m (λ _, I) R.

(** The envelopes offered to the subscribers carry the numbers 1, 2, ...
    up to the table's counter. *)
Definition feed_numbered (t : Table) : Prop :=
  EventEnvelope.event_seq <$> TableRuntime.subscriber_feed t
  = seq 1 (TableRuntime.event_seq t).

(** A computation that leaves the table as it found it. *)
Definition read_only {A} (m : M State A) : Prop := ∀ t, (m t).1 = t.

(** A computation that, when it is rejected, leaves the table as it
    found it. *)
Definition clean {A} (m : M State A) : Prop :=
  ∀ t t' code message, m t = (t', Rejected code message) -> t' = t.

(** A submission that was not accepted: the call raised
    [EngineRejectedAction], or it returned a response whose [accepted]
    is false. *)
Definition refused (o : Outcome SubmitActionResponse.t) : Prop :=
  match o with
  | Rejected _ _ => True
  | Returned response => SubmitActionResponse.accepted response = false
  | Crashed _ | Diverged => False
  end.

(** The idempotency cache of the current hand, if there is one. *)
Definition cache_of (t : Table)
    : option (gmap string SubmitActionResponse.t) :=
  HandRuntime.idempotency_cache <$> TableRuntime.current_hand t.

(** The hand is there and its action log is [log]. *)
Definition logged (log : list ActionHistoryRow.t) (t : Table) : Prop :=
  ∃ hand, TableRuntime.current_hand t = Some hand
          ∧ HandRuntime.action_log_internal hand = log.

(** The seats of the button and of the blinds, and the seat of every
    player index, of the current hand. *)
Definition roles_are (roles : nat * nat * nat * list nat) (t : Table)
    (hand : HandRuntime.t State) : Prop :=
  (HandRuntime.dealer_button_seat hand, HandRuntime.sb_seat hand,
   HandRuntime.bb_seat hand, HandRuntime.player_index_to_seat hand) = roles.

Definition hand_roles (roles : nat * nat * nat * list nat) (t : Table) : Prop :=
  ∃ hand, TableRuntime.current_hand t = Some hand ∧ roles_are roles t hand.

(** Whether a call returned a value. *)
Definition has_returned {A} (o : Outcome A) : bool :=
  match o with Returned _ => true | _ => false end.

(** *** Seats in their order from the button, and pot awards *)

Definition steps_after (n dealer seat : nat) : nat :=
  if decide (dealer < seat)%nat then (seat - dealer)%nat
  else (seat + n - dealer)%nat.

Definition clockwise_from (n dealer : nat) (seats : list nat) : Prop :=
  ∀ i j a b,
    (i < j)%nat -> seats !! i = Some a -> seats !! j = Some b ->
    (steps_after n dealer a < steps_after n dealer b)%nat.

(** The position of a seat that a scan starts from: the dealer counts
    as position 0. *)
Definition position (n dealer seat : nat) : nat :=
  if decide (seat = dealer) then 0%nat else steps_after n dealer seat.

(** What the loop of [_start_hand_locked] has gone through when its
    cursor is at [cursor]: the active seats up to there, in their order
    from the button. *)
Definition visited (n dealer : nat) (active ordered : list nat)
    (cursor : nat) : Prop :=
  cursor ∈ ordered
  ∧ clockwise_from n dealer ordered
  ∧ (∀ a, a ∈ ordered ->
       a ∈ active
       ∧ (steps_after n dealer a <= steps_after n dealer cursor)%nat)
  ∧ (∀ a, a ∈ active ->
       (steps_after n dealer a <= steps_after n dealer cursor)%nat ->
       a ∈ ordered).

(** A recorded pot award is settled when its amount is the sum of what
    its winners were given, every winner was given something, the
    winners are listed in their order from the button, and the odd-chip
    entry, there when the amount does not divide by the number of two or
    more winners, names the remainder of that division and the first of
    the winners. *)
Definition award_settled (n dealer : nat) (award : PotAward.t) : Prop :=
  let winners := PotAward.winners award in
  let count := Z.of_nat (length winners) in
  PotAward.amount award = sumZ (SeatAmount.amount <$> winners)
  ∧ Forall (λ winner, 0 < SeatAmount.amount winner) winners
  ∧ clockwise_from n dealer (SeatAmount.seat <$> winners)
  ∧ match PotAward.odd_chip_award award with
    | Some odd =>
        (1 < length winners)%nat
        ∧ 0 < SeatAmount.amount odd
        ∧ SeatAmount.amount odd = PotAward.amount award `mod` count
        ∧ head (SeatAmount.seat <$> winners) = Some (SeatAmount.seat odd)
    | None =>
        (length winners <= 1)%nat ∨ PotAward.amount award `mod` count = 0
    end.

Definition hand_settled (n : nat) (hand : HandRuntime.t State)
    : Prop :=
  clockwise_from n (HandRuntime.dealer_button_seat hand)
    (HandRuntime.player_index_to_seat hand)
  ∧ Forall (award_settled n (HandRuntime.dealer_button_seat hand))
      (HandRuntime.pot_awards hand).

Definition history_settled (history : HandHistory.t) : Prop :=
  Forall (award_settled (TableConfig.num_seats (HandHistory.config history))
            (HandHistory.dealer_button_seat history))
    (HandHistory.pot_breakdown history).

(** The invariant of a table of configuration [config]. *)
Definition awards_settled (config : TableConfig.t) (t : Table) : Prop :=
  TableRuntime.config t = config
  ∧ length (TableRuntime.seats t) = TableConfig.num_seats config
  ∧ (∀ hand, TableRuntime.current_hand t = Some hand ->
       hand_settled (TableConfig.num_seats config) hand)
  ∧ (∀ hand_id history,
       TableRuntime.completed_hands t !! hand_id = Some history ->
       history_settled history).

(** The table is in a hand of the given button, blinds and seats of
    the players, with its awards settled. *)
Definition in_hand (c : TableConfig.t) (dealer sb bb : nat) (p2s : list nat)
    (t : Table) : Prop :=
  awards_settled c t ∧ hand_roles (dealer, sb, bb, p2s) t.

(** The tally of the push-chips branch after the players below [k]. *)
Definition tally_sound (c : TableConfig.t) (dealer : nat) (p2s : list nat)
    (k : nat) (tally : PushTally) : Prop :=
  winner_seats tally = SeatAmount.seat <$> winners tally
  ∧ total_awarded tally = sumZ (SeatAmount.amount <$> winners tally)
  ∧ Forall (λ winner, 0 < SeatAmount.amount winner) (winners tally)
  ∧ clockwise_from (TableConfig.num_seats c) dealer (winner_seats tally)
  ∧ ∀ seat, seat ∈ winner_seats tally ->
            ∃ i, (i < k)%nat ∧ p2s !! i = Some seat.

(** What C7 says of a recorded award, as amended: the amount is the sum
    of what the winners were given, and an odd-chip entry carries the
    remainder of the amount by the number of winners and the seat of the
    winner that comes first after the button. *)
Definition split_as_recorded (n dealer : nat) (award : PotAward.t) : Prop :=
  let winners := PotAward.winners award in
  let count := Z.of_nat (length winners) in
  sumZ (SeatAmount.amount <$> winners) = PotAward.amount award
  ∧ NoDup (SeatAmount.seat <$> winners)
  ∧ ((1 < length winners)%nat -> PotAward.amount award `mod` count ≠ 0 ->
     is_Some (PotAward.odd_chip_award award))
  ∧ ∀ odd, PotAward.odd_chip_award award = Some odd ->
      (1 < length winners)%nat
      ∧ SeatAmount.amount odd = PotAward.amount award `mod` count
      ∧ 0 < SeatAmount.amount odd
      ∧ SeatAmount.seat odd ∈ SeatAmount.seat <$> winners
      ∧ ∀ seat, seat ∈ SeatAmount.seat <$> winners ->
          seat = SeatAmount.seat odd
          ∨ (steps_after n dealer (SeatAmount.seat odd)
             < steps_after n dealer seat)%nat.

(** What C7 says of it as stated. *)
Definition split_as_claimed (award : PotAward.t) : Prop :=
  (1 < length (PotAward.winners award))%nat ->
  sumZ (SeatAmount.amount <$> PotAward.winners award)
  + default 0 (SeatAmount.amount <$> PotAward.odd_chip_award award)
  = PotAward.amount award.

End Vocabulary.

(** The value a call returned, if it returned. *)
Definition value_of {A} (o : Outcome A) : option A :=
  match o with Returned a => Some a | _ => None end.

(** The seats that folded in a hand, and the seats whose cards its
    showdown lists. *)
Definition folded_seats_of (history : HandHistory.t) : list nat :=
  ActionHistoryRow.seat_id <$>
    filter (λ row, ActionHistoryRow.action row = FOLD)
           (HandHistory.actions history).

Definition shown_seats_of (history : HandHistory.t) : list nat :=
  match HandHistory.showdown history with
  | Some payload =>
      ShowdownRow.seat_id <$>
        ShowdownPayload.winners payload ++ ShowdownPayload.losers payload
  | None => []
  end.

(** The viewer's export of a completed hand as C8 wants it: the cards
    of every seat that the showdown does not list are replaced by two
    unknown-card markers. *)
Definition viewer_masks_unrevealed `{!Provider State} `{!Environment}
    (hand_id : nat) (t : TableRuntime.t State) : Prop :=
  ∀ history exported seat,
    TableRuntime.completed_hands t !! hand_id = Some history ->
    value_of (export_hand_history hand_id "viewer" t).2 = Some exported ->
    is_Some (HandHistory.hole_cards_by_seat history !! seat) ->
    seat ∉ shown_seats_of history ->
    HandHistory.hole_cards_by_seat exported !! seat = Some [None; None].

(** ** Sample tables, on the reference provider *)

Section Samples.
#[local] Existing Instance Reference.provider.
#[local] Existing Instance Reference.environment.

Fixpoint after_calls (calls : list Call) (table : TableRuntime.t Reference.t)
    : TableRuntime.t Reference.t :=
  match calls with
  | [] => table
  | c :: calls' => after_calls calls' (perform_call c table).1
  end.

(** A heads-up table (blinds 1 and 2, stacks of 80) on which the first
    hand was played to its end and the second was started. *)
Definition heads_up_config : TableConfig.t :=
  TableConfig.mk 2 1 2 80 0 true (Some 5).

Definition heads_up_new_table : TableRuntime.t Reference.t :=
  create_table "tbl_1" 7 heads_up_config.

Definition heads_up_calls : list Call :=
  [StartNewHand 100; RunBotsUntilHumanTurn;
   SubmitAction "human" CHECK 2 "k1" None; RunBotsUntilHumanTurn;
   StartNewHand 100].

Definition heads_up_table : TableRuntime.t Reference.t :=
  after_calls heads_up_calls heads_up_new_table.

(** The same table in its first hand, when the bot on the button has
    called and it is the human's turn, ... *)
Definition heads_up_turn_table : TableRuntime.t Reference.t :=
  after_calls [StartNewHand 100; RunBotsUntilHumanTurn] heads_up_new_table.

(** ... and after the human's check (sequence number 2, key ["k1"])
    has been accepted. *)
Definition heads_up_checked_table : TableRuntime.t Reference.t :=
  after_calls [SubmitAction "human" CHECK 2 "k1" None] heads_up_turn_table.

(** A three-seat table (blinds 50 and 100, stacks of 10000).  In the
    first hand everybody calls and seat 2 wins.  In the second hand the
    human raises to 1750: seat 1 folds, seat 2 calls, and the human and
    seat 2 show their cards down. *)
Definition three_seat_config : TableConfig.t :=
  TableConfig.mk 3 50 100 10000 0 true (Some 100).

Definition three_seat_new_table : TableRuntime.t Reference.t :=
  create_table "tbl_3" 7 three_seat_config.

Definition three_seat_calls : list Call :=
  [StartNewHand 100; RunBotsUntilHumanTurn;
   SubmitAction "human" CALL 2 "a" None; RunBotsUntilHumanTurn;
   StartNewHand 100; RunBotsUntilHumanTurn;
   SubmitAction "human" RAISE 1 "b" (Some 1750); RunBotsUntilHumanTurn].

Definition three_seat_table : TableRuntime.t Reference.t :=
  after_calls three_seat_calls three_seat_new_table.

(** The same table after a first hand in which the human's raise to
    1800 is folded to: a hand without showdown. *)
Definition foldout_table : TableRuntime.t Reference.t :=
  after_calls
    [StartNewHand 100; RunBotsUntilHumanTurn;
     SubmitAction "human" RAISE 2 "r" (Some 1800); RunBotsUntilHumanTurn]
    three_seat_new_table.

(** A three-seat table with blinds of 1 and 2: in its first hand the
    button (seat 2) calls, the human in the small blind folds, the big
    blind checks, and seats 1 and 2 split the pot of 5. *)
Definition split_table : TableRuntime.t Reference.t :=
  after_calls
    [StartNewHand 100; RunBotsUntilHumanTurn;
     SubmitAction "human" FOLD 2 "f" None; RunBotsUntilHumanTurn]
    (create_table "tbl_5" 7 (TableConfig.mk 3 1 2 80 0 true (Some 5))).

(** The heads-up table of the specification's scenario (blinds 1 and 2,
    stacks of 80, seed 5) with the given ante, after one hand in which
    the bot calls and the human checks. *)
Definition ante_config (ante : Z) : TableConfig.t :=
  TableConfig.mk 2 1 2 80 ante true (Some 5).

Definition ante_table (ante : Z) : TableRuntime.t Reference.t :=
  after_calls
    [StartNewHand 100; RunBotsUntilHumanTurn;
     SubmitAction "human" CHECK 2 "k1" None; RunBotsUntilHumanTurn]
    (create_table "tbl_2" 7 (ante_config ante)).

(** What [replay_hand_history] says of the first hand of a table. *)
Definition replay_of_first_hand (table : TableRuntime.t Reference.t)
    : option ReplayResult.t :=
  TableRuntime.completed_hands table !! 1%nat
  ≫= λ history, value_of (replay_hand_history 100 history).

End Samples.


(** ** The chips of a table *)

Section ChipsVocabulary.
Context {State : Type} `{!Provider State}.

(** Every chip a rules state holds: in the stacks, in front of the
    players and in the pots. *)
Definition chips (state : State) : Z :=
  sumZ (stacks state)
  + (sumZ (bets state) + sumZ (Pot.amount <$> pots state)).

(** What the service relies on from the rules engine as to chips: a
    state is created with the stacks it is given and nothing else; an
    operation is performed on a running state only, moves chips between
    stacks, bets and pots without creating or destroying any, and keeps
    the number of players; a state that has stopped running holds
    nothing in bets or pots. *)
Class ProviderLaws : Prop := {
  created_chips ante small_blind big_blind min_bet starting player_count :
    let state :=
      create_state ante small_blind big_blind min_bet starting player_count in
    stacks state = starting
    ∧ sumZ (bets state) = 0
    ∧ sumZ (Pot.amount <$> pots state) = 0;
  performed_chips state request state' op :
    perform state request = Some (state', op) ->
    status state = true
    ∧ chips state' = chips state
    ∧ length (stacks state') = length (stacks state);
  finished_chips state :
    status state = false ->
    sumZ (bets state) = 0 ∧ sumZ (Pot.amount <$> pots state) = 0;
}.

(** The stack of a seat of the table; 0 where there is no such seat. *)
Definition stack_of (seats : list Seat.t) (seat : nat) : Z :=
  default 0 (Seat.stack <$> seats !! seat).

(** [config.starting_stack * config.num_seats] *)
Definition chips_target (c : TableConfig.t) : Z :=
  TableConfig.starting_stack c * Z.of_nat (TableConfig.num_seats c).

(** The stacks a hand starts from: one for every seat of the table,
    all the chips of the table between them. *)
Definition start_facts (c : TableConfig.t) (start : gmap nat Z) : Prop :=
  sum_values start = chips_target c
  ∧ ∀ seat, is_Some (start !! seat) ↔ (seat < TableConfig.num_seats c)%nat.

(** What holds of a hand at every moment: its players sit in different
    seats of the table; the rules state has a stack for each of them;
    the chips of the seats that are not in the hand and the chips of
    the rules state are the chips of the table; a hand that has been
    completed has a rules state that has stopped. *)
Definition hand_facts (c : TableConfig.t) (seats : list Seat.t)
    (p2s : list nat) (state : State) (ended : bool) (start : gmap nat Z)
    : Prop :=
  NoDup p2s
  ∧ (∀ seat, seat ∈ p2s -> (seat < TableConfig.num_seats c)%nat)
  ∧ length (stacks state) = length p2s
  ∧ sumZ (Seat.stack <$> seats) - sumZ (stack_of seats <$> p2s) + chips state
    = chips_target c
  ∧ (ended = true -> status state = false)
  ∧ start_facts c start.

(** The stacks of the table are those of the rules state. *)
Definition synced (seats : list Seat.t) (p2s : list nat) (state : State)
    : Prop :=
  stack_of seats <$> p2s = stacks state.

Definition history_facts (c : TableConfig.t) (history : HandHistory.t)
    : Prop :=
  HandHistory.config history = c
  ∧ sum_values (HandHistory.final_stacks_by_seat history) = chips_target c
  ∧ start_facts c (HandHistory.initial_stacks_by_seat history)
  ∧ NoDup (HandHistory.player_index_to_seat history)
  ∧ ∀ seat, seat ∈ HandHistory.player_index_to_seat history ->
            (seat < TableConfig.num_seats c)%nat.

(** The invariant of a table of configuration [c]; when [strict] the
    stacks of the table are moreover those of the rules state, as they
    are whenever an operation of the service has returned. *)
Definition balanced (strict : bool) (c : TableConfig.t)
    (t : TableRuntime.t State) : Prop :=
  TableRuntime.config t = c
  ∧ length (TableRuntime.seats t) = TableConfig.num_seats c
  ∧ match TableRuntime.current_hand t with
    | Some hand =>
        hand_facts c (TableRuntime.seats t)
          (HandRuntime.player_index_to_seat hand)
          (HandRuntime.pokerkit_state hand) (HandRuntime.ended hand)
          (HandRuntime.hand_start_stacks_by_seat hand)
        ∧ (strict = true ->
           synced (TableRuntime.seats t)
             (HandRuntime.player_index_to_seat hand)
             (HandRuntime.pokerkit_state hand))
    | None => sumZ (Seat.stack <$> TableRuntime.seats t) = chips_target c
    end
  ∧ ∀ hand_id history,
      TableRuntime.completed_hands t !! hand_id = Some history ->
      history_facts c history.

(** The loop of [_sync_table_stacks_from_state] after [k] players. *)
Definition syncing (c : TableConfig.t) (hand : HandRuntime.t State)
    (k : nat) (t : TableRuntime.t State) : Prop :=
  balanced false c t
  ∧ TableRuntime.current_hand t = Some hand
  ∧ ∀ i seat stack,
      (i < k)%nat ->
      HandRuntime.player_index_to_seat hand !! i = Some seat ->
      stacks (HandRuntime.pokerkit_state hand) !! i = Some stack ->
      stack_of (TableRuntime.seats t) seat = stack.

(** The table after a pass of [_advance_locked] that left with
    [exit]. *)
Definition after_pass (c : TableConfig.t) (exit : LoopExit)
    (t : TableRuntime.t State) : Prop :=
  balanced false c t ∧ (exit = Return -> balanced true c t).

(** A hand that has been completed: its rules state has stopped, and
    the stacks of the table are all the chips. *)
Definition closed (c : TableConfig.t) (t : TableRuntime.t State) : Prop :=
  balanced true c t
  ∧ ∃ hand, TableRuntime.current_hand t = Some hand
            ∧ HandRuntime.ended hand = true.

(** A table between two hands, with the given seats. *)
Definition idle (c : TableConfig.t) (seats : list Seat.t)
    (t : TableRuntime.t State) : Prop :=
  balanced true c t ∧ TableRuntime.current_hand t = None
  ∧ TableRuntime.seats t = seats.

(** The players of a hand sit in different seats of the table, one
    for every seat that has chips. *)
Definition seated (n : nat) (active p2s : list nat) : Prop :=
  NoDup p2s
  ∧ (∀ seat, seat ∈ p2s -> (seat < n)%nat)
  ∧ length p2s = length active.

(** The second state holds the chips of the first, for as many
    players. *)
Definition same_chips (s s' : State) : Prop :=
  chips s' = chips s ∧ length (stacks s') = length (stacks s).

End ChipsVocabulary.

(** What the states of the reference provider hold. *)
Module ReferenceChips.
Import Reference.

(** What a player holds, and what a state holds. *)
Definition holding (p : Player) : Z := stack p + bet p.

Definition total (s : t) : Z := sumZ (holding <$> players s) + pot s.

(** A step that keeps what the state holds, and its players. *)
Definition kept (s s' : t) : Prop :=
  total s' = total s ∧ length (players s') = length (players s).

End ReferenceChips.


(** ** Further vocabulary *)

(** Lists of at most one item each, the one of [k] having the key
    [k]. *)
Definition at_most_one {A K} (key : A -> K) (k : K) (items : list A)
    : Prop :=
  items = [] ∨ ∃ item, items = [item] ∧ key item = k.

(** *** The envelopes of a hand *)

(** A [DEAL_CARD] payload names its card to seat 0 only. *)
Definition payload_hides_cards (payload : Payload) : Prop :=
  match payload with
  | PDealCard to_seat _ (Some _) => to_seat = 0%nat
  | _ => True
  end.

(** An envelope of the hand [hand_id] of the table [table_id]. *)
Definition envelope_of (table_id : string) (hand_id : nat)
    (envelope : EventEnvelope.t) : Prop :=
  payload_hides_cards (EventEnvelope.payload envelope)
  ∧ EventEnvelope.table_id envelope = table_id
  ∧ EventEnvelope.hand_id envelope = hand_id.

(** The event log of a hand: envelopes of the hand, their numbers
    growing. *)
Definition log_of (table_id : string) (hand_id : nat)
    (log : list EventEnvelope.t) : Prop :=
  Forall (envelope_of table_id hand_id) log
  ∧ StronglySorted lt (EventEnvelope.event_seq <$> log).

Section EventsVocabulary.
Context {State : Type}.

(** The invariant of the event logs of the table [table_id]. *)
Definition chronicled (table_id : string) (t : TableRuntime.t State)
    : Prop :=
  TableRuntime.table_id t = table_id
  ∧ Forall (λ envelope, payload_hides_cards (EventEnvelope.payload envelope))
      (TableRuntime.subscriber_feed t)
  ∧ (∀ hand,
       TableRuntime.current_hand t = Some hand ->
       log_of table_id (HandRuntime.hand_id hand) (HandRuntime.event_log hand)
       ∧ Forall (λ envelope,
                   (EventEnvelope.event_seq envelope
                    <= TableRuntime.event_seq t)%nat)
           (HandRuntime.event_log hand))
  ∧ ∀ hand_id history,
      TableRuntime.completed_hands t !! hand_id = Some history ->
      HandHistory.hand_id history = hand_id
      ∧ HandHistory.table_id history = table_id
      ∧ HandHistory.event_count history
        = length (HandHistory.events history)
      ∧ log_of table_id hand_id (HandHistory.events history).

End EventsVocabulary.


(** *** bots/policy.py

    [random.Random] is a generator [G] with the three draws the policy
    makes.  [rng.random()] is [k / 2^53] for an integer [k] of 53 bits:
    [random53] gives [k], and a comparison of the draw with a literal
    is the comparison of [k] with the least integer whose quotient by
    [2^53] is not below the double the literal denotes. *)
Class RandomSource (G : Type) := {
  random53 : G -> Z * G;
  randint : Z -> Z -> G -> Z * G;
  randrange : Z -> Z -> G -> Z * G;
}.

(** [rng.random() < 0.14], [< 0.55] and [< 0.35] *)
Definition below_014 (k : Z) : bool := k <? 1261007895663739.
Definition below_055 (k : Z) : bool := k <? 4953959590107546.
Definition below_035 (k : Z) : bool := k <? 3152519739159347.

(** [items[index]], a negative index counting from the end. *)
Definition list_item {A} (items : list A) (index : Z) : option A :=
  if 0 <=? index then items !! Z.to_nat index
  else if - Z.of_nat (length items) <=? index then
    items !! Z.to_nat (Z.of_nat (length items) + index)
  else None.

(** [a or b] on two optional integers: [None] and [0] are false. *)
Definition or_else (a b : option Z) : option Z :=
  match a with
  | Some v => if decide (v = 0) then b else Some v
  | None => b
  end.

Section BotPolicy.
Context {G : Type} `{!RandomSource G}.

(** [BotPolicy._sample_raise_target]; [None] is its [ValueError]. *)
Definition _sample_raise_target (allowed : AllowedActions.t) (rng : G)
    : option (Z * G) :=
  let min_to :=
    or_else (AllowedActions.min_raise_to allowed)
      (AllowedActions.min_bet_to allowed) in
  let max_to := AllowedActions.max_raise_to allowed in
  match min_to, max_to with
  | Some min_to, Some max_to =>
      if decide (max_to <= min_to) then Some (max_to, rng)
      else
        let anchors :=
          [min_to;
           Z.max min_to (min_to + (max_to - min_to) `div` 3);
           Z.max min_to (min_to + (max_to - min_to) `div` 2);
           max_to] in
        let '(index, rng) := randrange 0 (Z.of_nat (length anchors)) rng in
        (λ target, (target, rng)) <$> list_item anchors index
  | _, _ => None
  end.

(** [BotDecision(action=..., think_delay_ms=rng.randint(low, high))] *)
Definition decide_after (action : ClientActionType) (amount_to : option Z)
    (low high : Z) (rng : G) : option (BotDecision.t * G) :=
  let '(delay, rng) := randint low high rng in
  Some (BotDecision.mk action amount_to delay, rng).

(** [BotPolicy.choose_action]; [None] where it raises. *)
Definition choose_action_with (allowed : AllowedActions.t) (stack : Z)
    (rng : G) : option (BotDecision.t * G) :=
  let '(aggressive_window, rng) :=
    if 0 <? stack then
      let '(k, rng) := random53 rng in (below_014 k, rng)
    else (false, rng) in
  if AllowedActions.can_raise allowed && aggressive_window
     && bool_decide (AllowedActions.max_raise_to allowed ≠ None)
     && (AllowedActions.call_amount allowed <=? 200)
  then
    _sample_raise_target allowed rng ≫= λ '(target, rng),
    decide_after RAISE (Some target) 900 1400 rng
  else if AllowedActions.can_bet allowed && aggressive_window
          && bool_decide (AllowedActions.max_raise_to allowed ≠ None)
  then
    _sample_raise_target allowed rng ≫= λ '(target, rng),
    decide_after BET (Some target) 900 1400 rng
  else if AllowedActions.can_call allowed
          && (AllowedActions.call_amount allowed
              <=? Z.max 200 (stack `div` 6))
  then decide_after CALL None 650 1100 rng
  else if AllowedActions.can_check allowed
  then decide_after CHECK None 650 1100 rng
  else
    let tail (rng : G) :=
      if AllowedActions.can_all_in allowed then
        decide_after ALL_IN (AllowedActions.max_raise_to allowed) 900 1400 rng
      else if AllowedActions.can_fold allowed then
        decide_after FOLD None 650 1100 rng
      else if AllowedActions.can_call allowed then
        decide_after CALL None 650 1100 rng
      else Some (BotDecision.mk CHECK None 650, rng) in
    if AllowedActions.can_call allowed then
      let '(folds, rng) :=
        if (Z.max 450 (stack `div` 3) <? AllowedActions.call_amount allowed)
           && AllowedActions.can_fold allowed
        then let '(k, rng) := random53 rng in (below_055 k, rng)
        else (false, rng) in
      if folds then decide_after FOLD None 650 1100 rng
      else
        let '(k, rng) := random53 rng in
        if below_035 k then decide_after CALL None 650 1100 rng
        else if AllowedActions.can_fold allowed
        then decide_after FOLD None 650 1100 rng
        else tail rng
    else tail rng.

End BotPolicy.

(** A generator whose every draw is the least one: [random()] is 0,
    [randint(a, b)] and [randrange(a, b)] are [a]. *)
Definition least_draws : RandomSource nat := {|
  random53 rng := (0, S rng);
  randint a _ rng := (a, S rng);
  randrange a _ rng := (a, S rng);
|}.

(** *** The numbers of the hands *)

(** What a table holds of the numbers of its hands: the number the next
    hand takes, the histories filed, and the number of the current hand
    with its [ended] flag. *)
Definition HandNumbers : Type :=
  nat * gmap nat HandHistory.t * option (nat * bool).

(** The numbers are in order: the histories are filed under numbers
    from 1 up to the number the next hand takes, the current hand has
    the last number given, 1 or more, and a history is filed under it
    when it has ended, not before.  The histories [kept] are among
    those filed. *)
Definition numbers_in_order (kept : gmap nat HandHistory.t)
    (numbers : HandNumbers) : Prop :=
  let '(next_hand_id, filed, current) := numbers in
  (1 <= next_hand_id)%nat
  ∧ kept ⊆ filed
  ∧ (∀ hand_id history,
       filed !! hand_id = Some history -> (1 <= hand_id < next_hand_id)%nat)
  ∧ ∀ hand_id ended,
      current = Some (hand_id, ended) ->
      (1 <= hand_id)%nat ∧ S hand_id = next_hand_id
      ∧ (filed !! hand_id = None <-> ended = false).

Section HandsVocabulary.
Context {State : Type}.

Definition hand_numbers (t : TableRuntime.t State) : HandNumbers :=
  (TableRuntime.next_hand_id t, TableRuntime.completed_hands t,
   (λ hand, (HandRuntime.hand_id hand, HandRuntime.ended hand))
   <$> TableRuntime.current_hand t).

(** A property of the numbers of the hands of a table. *)
Definition on_numbers (P : HandNumbers -> Prop) (t : TableRuntime.t State)
    : Prop :=
  P (hand_numbers t).

End HandsVocabulary.

(** *** The numbers of the actions *)

(** The rows of an action log in order: the row at index [i] has the
    step index and the action sequence number [i + 1]. *)
Definition rows_in_order (rows : list ActionHistoryRow.t) : Prop :=
  ∀ i row,
    rows !! i = Some row ->
    ActionHistoryRow.step_index row = S i
    ∧ ActionHistoryRow.action_seq row = Z.of_nat (S i).

(** What a table holds of the numbers of its actions: the actions of
    the histories filed, and the action sequence number, the next step
    index and the action log of the current hand. *)
Definition ActionNumbers : Type :=
  gmap nat (list ActionHistoryRow.t)
  * option (Z * nat * list ActionHistoryRow.t).

Definition actions_in_order (numbers : ActionNumbers) : Prop :=
  let '(filed, current) := numbers in
  (∀ hand_id rows, filed !! hand_id = Some rows -> rows_in_order rows)
  ∧ ∀ action_seq next_step_index rows,
      current = Some (action_seq, next_step_index, rows) ->
      action_seq = Z.of_nat (length rows)
      ∧ next_step_index = S (length rows)
      ∧ rows_in_order rows.

Section ActionsVocabulary.
Context {State : Type}.

Definition action_numbers (t : TableRuntime.t State) : ActionNumbers :=
  (HandHistory.actions <$> TableRuntime.completed_hands t,
   (λ hand, (HandRuntime.action_seq hand, HandRuntime.next_step_index hand,
             HandRuntime.action_log_internal hand))
   <$> TableRuntime.current_hand t).

(** A property of the numbers of the actions of a table. *)
Definition on_actions (P : ActionNumbers -> Prop) (t : TableRuntime.t State)
    : Prop :=
  P (action_numbers t).

End ActionsVocabulary.

(** The current hand has the action sequence number [action_seq], and
    the last row of its action log is an action of [seat] with that
    number. *)
Definition last_action (seat : nat) (action_seq : Z)
    (numbers : ActionNumbers) : Prop :=
  ∃ next_step_index rows row,
    numbers.2 = Some (action_seq, next_step_index, rows ++ [row])
    ∧ ActionHistoryRow.seat_id row = seat
    ∧ ActionHistoryRow.action_seq row = action_seq.
(** ** A Hoare logic for the service monad *)

Section Logic.
Context {State : Type} `{!Provider State} `{!Environment}.

Abbreviation Table := (TableRuntime.t State).

Lemma hoare_weaken {A} (P P' : Table -> Prop) (m : M State A)
    (Q Q' : A -> Table -> Prop) (R R' : Table -> Prop) :
  hoare P' m Q' R' ->
  (∀ t, P t -> P' t) -> (∀ a t, Q' a t -> Q a t) -> (∀ t, R' t -> R t) ->
  hoare P m Q R.
Proof.
  intros Hm HP HQ HR t Ht. specialize (Hm t (HP t Ht)).
  destruct (m t) as [t' [a|c msg|w|]]; auto.
Qed.

Lemma hoare_pre {A} (P P' : Table -> Prop) (m : M State A) Q R :
  hoare P' m Q R -> (∀ t, P t -> P' t) -> hoare P m Q R.
Proof. intros Hm HP. eapply hoare_weaken; eauto. Qed.

Lemma hoare_ret {A} (P : Table -> Prop) (a : A) (Q : A -> Table -> Prop) R :
  (∀ t, P t -> Q a t) -> hoare P (ret a) Q R.
Proof. intros HQ t Ht. cbn. auto. Qed.

Lemma hoare_bind {A B} (P : Table -> Prop) (m : M State A)
    (k : A -> M State B) (I : A -> Table -> Prop) Q R :
  hoare P m I R -> (∀ a, hoare (I a) (k a) Q R) -> hoare P (bind m k) Q R.
Proof.
  intros Hm Hk t Ht. unfold bind. specialize (Hm t Ht).
  destruct (m t) as [t' [a|c msg|w|]]; auto.
  apply (Hk a t' Hm).
Qed.

Lemma hoare_reject {A} (P : Table -> Prop) code message
    (Q : A -> Table -> Prop) (R : Table -> Prop) :
  (∀ t, P t -> R t) -> hoare P (reject code message) Q R.
Proof. intros HR t Ht. cbn. auto. Qed.

Lemma hoare_crash {A} (P : Table -> Prop) what (Q : A -> Table -> Prop) R :
  hoare P (crash what) Q R.
Proof. intros t Ht. exact I. Qed.

Lemma hoare_diverge {A} (P : Table -> Prop) (Q : A -> Table -> Prop) R :
  hoare P diverge Q R.
Proof. intros t Ht. exact I. Qed.

Lemma hoare_get_table (P : Table -> Prop) (Q : Table -> Table -> Prop) R :
  (∀ t, P t -> Q t t) -> hoare P get_table Q R.
Proof. intros HQ t Ht. cbn. auto. Qed.

Lemma hoare_modify_table (P : Table -> Prop) f (Q : unit -> Table -> Prop) R :
  (∀ t, P t -> Q tt (f t)) -> hoare P (modify_table f) Q R.
Proof. intros HQ t Ht. cbn. auto. Qed.

Lemma hoare_the_hand (P : Table -> Prop)
    (Q : HandRuntime.t State -> Table -> Prop) R :
  (∀ t hand, P t -> TableRuntime.current_hand t = Some hand -> Q hand t) ->
  hoare P the_hand Q R.
Proof.
  intros HQ t Ht. unfold the_hand.
  destruct (TableRuntime.current_hand t) eqn:E; auto.
Qed.

Lemma hoare_modify_hand (P : Table -> Prop) f (Q : unit -> Table -> Prop) R :
  (∀ t hand, P t -> TableRuntime.current_hand t = Some hand ->
     Q tt (TableRuntime.set_current_hand (Some (f hand)) t)) ->
  hoare P (modify_hand f) Q R.
Proof.
  intros HQ t Ht. unfold modify_hand.
  destruct (TableRuntime.current_hand t) eqn:E; auto.
Qed.

Lemma hoare_from_option {A} (P : Table -> Prop) what (o : option A)
    (Q : A -> Table -> Prop) R :
  (∀ a t, o = Some a -> P t -> Q a t) -> hoare P (from_option what o) Q R.
Proof. intros HQ t Ht. destruct o; cbn; auto. Qed.

Lemma hoare_for_each {A} (I : Table -> Prop) (l : list A)
    (body : A -> M State unit) R :
  (∀ x, x ∈ l -> hoare I (body x) (λ _, I) R) ->
  hoare I (for_each l body) (λ _, I) R.
Proof.
  induction l as [|x l IH]; intros Hbody; cbn [for_each].
  - apply hoare_ret; auto.
  - eapply hoare_bind.
    + apply Hbody. left.
    + intros []. apply IH. intros y Hy. apply Hbody. by right.
Qed.

Lemma hoare_try_except {A} (P : Table -> Prop) (body : M State A) handler
    (Q : A -> Table -> Prop) (R I : Table -> Prop) :
  hoare P body Q I ->
  (∀ code message, hoare I (handler code message) Q R) ->
  hoare P (try_except body handler) Q R.
Proof.
  intros Hb Hh t Ht. unfold try_except. specialize (Hb t Ht).
  destruct (body t) as [t' [a|c msg|w|]]; auto.
  apply (Hh c msg t' Hb).
Qed.

Lemma keeps_bind {A B} (I R : Table -> Prop) (m : M State A) (k : A -> M State B) :
  keeps I R m -> (∀ a, keeps I R (k a)) -> keeps I R (bind m k).
Proof. intros Hm Hk. eapply hoare_bind; [exact Hm | exact Hk]. Qed.

Lemma keeps_ret {A} (I R : Table -> Prop) (a : A) : keeps I R (ret a).
Proof. apply hoare_ret; auto. Qed.

Lemma keeps_reject {A} (I R : Table -> Prop) code message :
  (∀ t, I t -> R t) -> keeps (A:=A) I R (reject code message).
Proof. apply hoare_reject. Qed.

Lemma keeps_crash {A} (I R : Table -> Prop) what : keeps (A:=A) I R (crash what).
Proof. apply hoare_crash. Qed.

Lemma keeps_diverge {A} (I R : Table -> Prop) : keeps (A:=A) I R diverge.
Proof. apply hoare_diverge. Qed.

Lemma keeps_get_table (I R : Table -> Prop) : keeps I R get_table.
Proof. apply hoare_get_table; auto. Qed.

Lemma keeps_the_hand (I R : Table -> Prop) : keeps I R the_hand.
Proof. apply hoare_the_hand; auto. Qed.

Lemma keeps_from_option {A} (I R : Table -> Prop) what (o : option A) :
  keeps I R (from_option what o).
Proof. apply hoare_from_option; auto. Qed.

Lemma keeps_modify_table (I R : Table -> Prop) f :
  (∀ t, I t -> I (f t)) -> keeps I R (modify_table f).
Proof. intros Hf. apply hoare_modify_table. exact Hf. Qed.

Lemma keeps_modify_hand (I R : Table -> Prop) f :
  (∀ t hand, I t -> TableRuntime.current_hand t = Some hand ->
     I (TableRuntime.set_current_hand (Some (f hand)) t)) ->
  keeps I R (modify_hand f).
Proof. intros Hf. apply hoare_modify_hand. exact Hf. Qed.

Lemma keeps_for_each {A} (I R : Table -> Prop) (l : list A) body :
  (∀ x, keeps I R (body x)) -> keeps I R (for_each l body).
Proof. intros Hb. apply hoare_for_each. intros x _. apply Hb. Qed.

Lemma keeps_try_except {A} (I R : Table -> Prop) (body : M State A) handler :
  keeps I I body -> (∀ code message, keeps I R (handler code message)) ->
  keeps I R (try_except body handler).
Proof. intros Hb Hh. eapply hoare_try_except; [exact Hb | exact Hh]. Qed.


Lemma keeps_bind_table {B} (I R : Table -> Prop) (k : Table -> M State B) :
  (∀ table, I table -> keeps I R (k table)) ->
  keeps I R (bind get_table k).
Proof. intros Hk t Ht. exact (Hk t Ht t Ht). Qed.

Lemma keeps_bind_hand {B} (I R : Table -> Prop)
    (k : HandRuntime.t State -> M State B) :
  (∀ table hand,
     I table -> TableRuntime.current_hand table = Some hand ->
     keeps I R (k hand)) ->
  keeps I R (bind the_hand k).
Proof.
  intros Hk t Ht. unfold bind, the_hand.
  destruct (TableRuntime.current_hand t) as [hand|] eqn:E; [|exact Logic.I].
  exact (Hk t hand Ht E t Ht).
Qed.

Lemma keeps_bind_option {A B} (I R : Table -> Prop) what (o : option A)
    (k : A -> M State B) :
  (∀ a, o = Some a -> keeps I R (k a)) ->
  keeps I R (bind (from_option what o) k).
Proof.
  intros Hk t Ht. unfold bind, from_option.
  destruct o as [a|]; [|exact Logic.I]. exact (Hk a eq_refl t Ht).
Qed.

Lemma keeps_bind_next {B} (I R : Table -> Prop) seat_id active n
    (k : nat -> M State B) :
  (∀ seat, _next_active_after seat_id active n = Some seat ->
           keeps I R (k seat)) ->
  keeps I R (bind (next_active seat_id active n) k).
Proof. apply keeps_bind_option. Qed.

Lemma keeps_bind_assoc {A B C} (I R : Table -> Prop) (m : M State A)
    (f : A -> M State B) (g : B -> M State C) :
  keeps I R (bind m (λ a, bind (f a) g)) -> keeps I R (bind (bind m f) g).
Proof.
  intros Hm t Ht. specialize (Hm t Ht). unfold bind in *.
  destruct (m t) as [t1 [a|code msg|w|]]; exact Hm.
Qed.

Lemma keeps_bind_ret {A B} (I R : Table -> Prop) (a : A) (k : A -> M State B) :
  keeps I R (k a) -> keeps I R (bind (ret a) k).
Proof. intros Hk t Ht. exact (Hk t Ht). Qed.

Lemma keeps_bind_run {A B} (I R : Table -> Prop) (m : M State A)
    (k : A -> M State B) :
  keeps I R m ->
  (∀ a, (∃ t t', m t = (t', Returned a)) -> keeps I R (k a)) ->
  keeps I R (bind m k).
Proof.
  intros Hm Hk t Ht. specialize (Hm t Ht). unfold bind.
  destruct (m t) as [t1 [a|code msg|w|]] eqn:E; try exact Hm.
  apply (Hk a); [eauto|exact Hm].
Qed.

Lemma keeps_conj {A} (I1 I2 R1 R2 : Table -> Prop) (m : M State A) :
  keeps I1 R1 m -> keeps I2 R2 m ->
  keeps (λ t, I1 t ∧ I2 t) (λ t, R1 t ∧ R2 t) m.
Proof.
  intros H1 H2 t [Ht1 Ht2]. specialize (H1 t Ht1). specialize (H2 t Ht2).
  destruct (m t) as [t' [a|code msg|w|]]; auto.
Qed.

Lemma hoare_knowing {A} (P : Table -> Prop) (fact : Prop) (m : M State A)
    (Q : A -> Table -> Prop) (R : Table -> Prop) :
  (fact -> hoare P m Q R) -> hoare (λ t, P t ∧ fact) m Q R.
Proof. intros Hm t [Ht Hfact]. exact (Hm Hfact t Ht). Qed.

End Logic.

Create HintDb keeps discriminated.
Create HintDb engine discriminated.

#[global] Hint Unfold next_active _refresh_outcome _actor_seat set_seat_stack
  _sync_table_stacks_from_state commit next_card provider
  _post_single_blind_locked _deal_single_hole_card_locked
  _start_hand_locked _complete_hand_locked award_pot forced_step
  advance_iteration _advance_locked
  add_all_in perform_action _apply_player_action build_view start_new_hand
  get_view_state get_allowed_actions submit_action advance retire_hand
  run_bots_until_human_turn export_hand_history restart_session
  get_server_action_seq forget perform_call : engine.

(** One step through the syntax of a computation. [side] closes the
    conditions on the functions that [modify_table] and [modify_hand]
    apply, and the step from [I] to [R] at a rejection. *)
Ltac keeps_step side :=
  lazymatch goal with
  | |- keeps _ _ (bind _ _) => apply keeps_bind; [| intros ?]
  | |- keeps _ _ (ret _) => apply keeps_ret
  | |- keeps _ _ (reject _ _) => apply keeps_reject; side
  | |- keeps _ _ (crash _) => apply keeps_crash
  | |- keeps _ _ diverge => apply keeps_diverge
  | |- keeps _ _ get_table => apply keeps_get_table
  | |- keeps _ _ the_hand => apply keeps_the_hand
  | |- keeps _ _ (from_option _ _) => apply keeps_from_option
  | |- keeps _ _ (modify_table _) => apply keeps_modify_table; side
  | |- keeps _ _ (modify_hand _) => apply keeps_modify_hand; side
  | |- keeps _ _ (for_each _ _) => apply keeps_for_each; intros ?
  | |- keeps _ _ (try_except _ _) => apply keeps_try_except; [| intros ? ?]
  | |- keeps _ _ (if ?c then _ else _) => destruct c
  | |- keeps _ _ (match ?x with _ => _ end) => destruct x
  | |- keeps _ _ (let _ := _ in _) => cbv zeta
  | |- keeps _ _ _ =>
      first [ solve [eauto with keeps] | progress autounfold with engine ]
  end.

Ltac keeps_auto side := repeat keeps_step side.

(** Closes the conditions of [keeps_step] for an invariant of the form
    "the current hand exists and [J table hand]" at every assignment
    that leaves alone what [J] reads. *)
Ltac frame_side unfolding :=
  try (intros ? (? & ? & ?); eexists; split; [cbn; eassumption|];
       unfolding; cbn; assumption);
  try (intros ? ? (? & ? & ?) ?; eexists; split; [reflexivity|];
       unfolding; cbn;
       match goal with
       | E1 : TableRuntime.current_hand ?t = Some ?h1,
         E2 : TableRuntime.current_hand ?t = Some ?h2 |- _ =>
           rewrite E2 in E1; injection E1 as ->
       end; assumption).

(** [keeps_step], keeping what is known of the values read, and
    unfolding one operation at a time, so that the lemmas of the
    operations below it apply. *)
Ltac unfold_head m :=
  lazymatch m with
  | ?f _ => unfold_head f
  | ?f => unfold f
  end.

Ltac knowing_step side :=
  lazymatch goal with
  | |- keeps _ _ (bind get_table _) => apply keeps_bind_table; intros ? ?
  | |- keeps _ _ (bind the_hand _) => apply keeps_bind_hand; intros ? ? ? ?
  | |- keeps _ _ (bind (from_option _ _) _) =>
      apply keeps_bind_option; intros ? ?
  | |- keeps _ _ (bind (next_active _ _ _) _) =>
      apply keeps_bind_next; intros ? ?
  | |- keeps _ _ (bind (bind _ _) _) => apply keeps_bind_assoc
  | |- keeps _ _ (bind (ret _) _) => apply keeps_bind_ret; cbv beta iota
  | |- keeps _ _ (bind (if decide ?c then _ else _) _) => destruct (decide c)
  | |- keeps _ _ (bind (order_seats _ _ _ _ _) _) =>
      apply keeps_bind_run; [solve [eauto with keeps] | intros ? (? & ? & ?)]
  | |- keeps _ _ (bind _ _) => apply keeps_bind; [| intros ?]
  | |- keeps _ _ (ret _) => apply keeps_ret
  | |- keeps _ _ (reject _ _) => apply keeps_reject; side
  | |- keeps _ _ (crash _) => apply keeps_crash
  | |- keeps _ _ diverge => apply keeps_diverge
  | |- keeps _ _ get_table => apply keeps_get_table
  | |- keeps _ _ the_hand => apply keeps_the_hand
  | |- keeps _ _ (from_option _ _) => apply keeps_from_option
  | |- keeps _ _ (modify_table _) => apply keeps_modify_table; side
  | |- keeps _ _ (modify_hand _) => apply keeps_modify_hand; side
  | |- keeps _ _ (for_each _ _) => apply keeps_for_each; intros ?
  | |- keeps _ _ (try_except _ _) => apply keeps_try_except; [| intros ? ?]
  | |- keeps _ _ (if decide ?c then _ else _) => destruct (decide c)
  | |- keeps _ _ (if ?c then _ else _) => destruct c eqn:?
  | |- keeps _ _ (match ?x with _ => _ end) => destruct x eqn:?
  | |- keeps _ _ (let _ := _ in _) => cbv zeta
  | |- keeps _ _ ?m => first [ solve [eauto with keeps] | unfold_head m ]
  end.

Ltac knowing side := repeat knowing_step side.
(** ** C3: the numbering of the envelopes *)

Section Events.
Context {State : Type} `{!Provider State} `{!Environment}.

Abbreviation Table := (TableRuntime.t State).
Abbreviation numbered := (feed_numbered (State:=State)).

Lemma emit_event_numbered event_type payload :
  keeps numbered numbered (_emit_event event_type payload).
Proof.
  intros t Ht. unfold _emit_event, bind, modify_table, get_table, modify_hand,
    the_hand. cbn -[seq].
  destruct (TableRuntime.current_hand t) eqn:E; cbn -[seq]; [|exact I].
  unfold feed_numbered in *. cbn -[seq].
  rewrite fmap_app, Ht, seq_S. reflexivity.
Qed.

#[local] Hint Resolve emit_event_numbered : keeps.

Ltac numbering :=
  keeps_auto ltac:(try (unfold feed_numbered; intros; cbn; assumption)).

Lemma post_blinds_numbered fuel :
  keeps numbered numbered (_post_blinds_locked fuel).
Proof. induction fuel; cbn [_post_blinds_locked]; numbering. Qed.

Lemma deal_hole_cards_numbered fuel :
  keeps numbered numbered (_deal_hole_cards_locked fuel).
Proof. induction fuel; cbn [_deal_hole_cards_locked]; numbering. Qed.

Lemma order_seats_numbered fuel active n ordered cursor :
  keeps numbered numbered (order_seats fuel active n ordered cursor).
Proof.
  revert ordered cursor.
  induction fuel; intros; cbn [order_seats]; numbering.
Qed.

Lemma draw_cards_numbered count :
  keeps numbered numbered (draw_cards count).
Proof. induction count; cbn [draw_cards]; numbering. Qed.

Lemma tally_winners_numbered items tally :
  keeps numbered numbered (tally_winners items tally).
Proof.
  revert tally.
  induction items as [|[i a] items IH]; intros; cbn [tally_winners]; numbering.
Qed.

#[local] Hint Resolve post_blinds_numbered deal_hole_cards_numbered
  order_seats_numbered draw_cards_numbered tally_winners_numbered : keeps.

Lemma advance_loop_numbered passes :
  keeps numbered numbered (advance_loop passes).
Proof. induction passes; cbn [advance_loop]; numbering. Qed.

#[local] Hint Resolve advance_loop_numbered : keeps.

Lemma run_bots_loop_numbered passes :
  keeps numbered numbered (run_bots_loop passes).
Proof. induction passes; cbn [run_bots_loop]; numbering. Qed.

#[local] Hint Resolve run_bots_loop_numbered : keeps.

Lemma perform_call_numbered c :
  keeps numbered numbered (perform_call c).
Proof. destruct c; numbering. Qed.

Lemma reachable_feed_numbered (t : Table) : reachable t -> feed_numbered t.
Proof.
  induction 1 as [table_id random_seed config | c t Ht IH Hback].
  - reflexivity.
  - pose proof (perform_call_numbered c t IH) as Hc.
    destruct (perform_call c t) as [t' [[]|code msg|w|]]; cbn in *;
      first [exact Hc | discriminate].
Qed.

(** C3.  On every reachable table, whatever hands it has been through,
    the envelopes emitted so far carry exactly the numbers 1, 2, ..., n
    in this order, n being the table's counter [event_seq]: each number
    is one more than the one before, none is missing, none is repeated,
    and the counter is where every number comes from. *)
Theorem event_seq_gapless (t : Table) :
  reachable t ->
  EventEnvelope.event_seq <$> TableRuntime.subscriber_feed t
    = seq 1 (TableRuntime.event_seq t)
  ∧ ∀ i e1 e2,
      TableRuntime.subscriber_feed t !! i = Some e1 ->
      TableRuntime.subscriber_feed t !! S i = Some e2 ->
      EventEnvelope.event_seq e2 = S (EventEnvelope.event_seq e1).
Proof.
  intros Ht. pose proof (reachable_feed_numbered t Ht) as Hn.
  split; [exact Hn|].
  intros i e1 e2 H1 H2. unfold feed_numbered in Hn.
  assert (G1 : (EventEnvelope.event_seq <$> TableRuntime.subscriber_feed t)
                 !! i = Some (EventEnvelope.event_seq e1))
    by (rewrite list_lookup_fmap, H1; reflexivity).
  assert (G2 : (EventEnvelope.event_seq <$> TableRuntime.subscriber_feed t)
                 !! S i = Some (EventEnvelope.event_seq e2))
    by (rewrite list_lookup_fmap, H2; reflexivity).
  rewrite Hn in G1, G2.
  apply lookup_seq in G1 as [-> _]. apply lookup_seq in G2 as [-> _].
  reflexivity.
Qed.

End Events.

Section SampleFacts.
#[local] Existing Instance Reference.provider.
#[local] Existing Instance Reference.environment.

Lemma after_calls_reachable calls (table : TableRuntime.t Reference.t) :
  reachable table ->
  is_Some (perform_calls calls table) ->
  reachable (after_calls calls table).
Proof.
  revert table. induction calls as [|c calls IH]; intros table Ht Hs; [exact Ht|].
  cbn in *. destruct (perform_call c table) as [t' o] eqn:E.
  destruct (came_back o) eqn:B; [|by destruct Hs].
  cbn. apply IH; [|exact Hs].
  replace t' with (perform_call c table).1 by (rewrite E; reflexivity).
  apply reachable_call; [exact Ht|]. rewrite E. exact B.
Defined.

Lemma heads_up_table_reachable : reachable heads_up_table.
Proof.
  apply after_calls_reachable; [apply reachable_create|].
  vm_compute. eexists. reflexivity.
Defined.

Lemma event_seq_gapless_witness :
  reachable heads_up_table
  ∧ (EventEnvelope.event_seq <$> TableRuntime.subscriber_feed heads_up_table
       = seq 1 (TableRuntime.event_seq heads_up_table)
     ∧ ∀ i e1 e2,
         TableRuntime.subscriber_feed heads_up_table !! i = Some e1 ->
         TableRuntime.subscriber_feed heads_up_table !! S i = Some e2 ->
         EventEnvelope.event_seq e2 = S (EventEnvelope.event_seq e1)).
Proof.
  split; [exact heads_up_table_reachable|].
  apply (event_seq_gapless heads_up_table heads_up_table_reachable).
Defined.

Example heads_up_table_events :
  TableRuntime.event_seq heads_up_table = 25%nat
  ∧ length (TableRuntime.subscriber_feed heads_up_table) = 25%nat
  ∧ TableRuntime.next_hand_id heads_up_table = 3%nat.
Proof. vm_compute. auto. Qed.

End SampleFacts.
(** ** C4, C5, C10: submissions that are not applied *)

Section Rejections.
Context {State : Type} `{!Provider State} `{!Environment}.

Abbreviation Table := (TableRuntime.t State).
Abbreviation anything := (λ _ : Table, True).
Abbreviation nothing := (λ _ : Table, False).

(** Past its checks, the service raises no [EngineRejectedAction]. *)
Ltac unrejected := keeps_auto ltac:(try (intros; exact I)).

Lemma emit_event_unrejected event_type payload :
  keeps anything nothing (_emit_event event_type payload).
Proof. unfold _emit_event. unrejected. Qed.

#[local] Hint Resolve emit_event_unrejected : keeps.

Lemma draw_cards_unrejected count : keeps anything nothing (draw_cards count).
Proof. induction count; cbn [draw_cards]; unrejected. Qed.

Lemma tally_winners_unrejected items tally :
  keeps anything nothing (tally_winners items tally).
Proof.
  revert tally.
  induction items as [|[i a] items IH]; intros; cbn [tally_winners];
    unrejected.
Qed.

#[local] Hint Resolve draw_cards_unrejected tally_winners_unrejected : keeps.

Lemma sync_unrejected : keeps anything nothing _sync_table_stacks_from_state.
Proof. unrejected. Qed.

Lemma complete_hand_unrejected : keeps anything nothing _complete_hand_locked.
Proof. unrejected. Qed.

Lemma advance_loop_unrejected passes :
  keeps anything nothing (advance_loop passes).
Proof. induction passes; cbn [advance_loop]; unrejected. Qed.

#[local] Hint Resolve advance_loop_unrejected : keeps.

Lemma advance_unrejected : keeps anything nothing _advance_locked.
Proof. unrejected. Qed.

Lemma build_view_unrejected viewer_id :
  keeps anything nothing (build_view viewer_id).
Proof. unrejected. Qed.

Lemma read_only_from_option {A} what (o : option A) :
  read_only (from_option (State:=State) what o).
Proof. intros t. destruct o; reflexivity. Qed.

Lemma read_only_the_hand : read_only (the_hand (State:=State)).
Proof.
  intros t. unfold the_hand. destruct (TableRuntime.current_hand t); reflexivity.
Qed.

Lemma read_only_actor_seat : read_only (_actor_seat (State:=State)).
Proof.
  intros t. unfold _actor_seat, bind, the_hand.
  destruct (TableRuntime.current_hand t); [|reflexivity].
  apply read_only_from_option.
Qed.

Lemma read_only_build_view viewer_id : read_only (build_view viewer_id).
Proof. intros t. unfold build_view, bind, get_table. apply read_only_from_option. Qed.

Lemma clean_reject {A} code message :
  clean (reject (State:=State) (A:=A) code message).
Proof. intros t t' c msg [= <- _ _]. reflexivity. Qed.

Lemma clean_unrejected {A} (m : M State A) : keeps anything nothing m -> clean m.
Proof.
  intros Hm t t' c msg E. specialize (Hm t I). rewrite E in Hm. destruct Hm.
Qed.

Lemma clean_bind_read {A B} (m : M State A) (k : A -> M State B) :
  read_only m -> (∀ a, clean (k a)) -> clean (bind m k).
Proof.
  intros Hm Hk t t' c msg. unfold bind. specialize (Hm t).
  destruct (m t) as [t1 [a|c1 msg1|w|]]; cbn in Hm; subst t1;
    try (intros [= <- _ _]; reflexivity); try discriminate.
  apply Hk.
Qed.

Lemma clean_bind_tail {A B} (m : M State A) (k : A -> M State B) :
  clean m -> (∀ a, keeps anything nothing (k a)) -> clean (bind m k).
Proof.
  intros Hm Hk t t' c msg. unfold bind. specialize (Hm t).
  destruct (m t) as [t1 [a|c1 msg1|w|]]; try discriminate.
  - intros E. specialize (Hk a t1 I). rewrite E in Hk. destruct Hk.
  - intros [= <- _ _]. eapply Hm. reflexivity.
Qed.

Ltac clean_step :=
  lazymatch goal with
  | |- clean (bind the_hand _) =>
      apply clean_bind_read; [apply read_only_the_hand | intros ?]
  | |- clean (bind _actor_seat _) =>
      apply clean_bind_read; [apply read_only_actor_seat | intros ?]
  | |- clean (bind (from_option _ _) _) =>
      apply clean_bind_read; [apply read_only_from_option | intros ?]
  | |- clean (reject _ _) => apply clean_reject
  | |- clean (if ?c then _ else _) => destruct c
  | |- clean (match ?x with _ => _ end) => destruct x
  | |- clean (let _ := _ in _) => cbv zeta
  | |- clean (bind _ _) =>
      first [ solve [apply clean_unrejected; unrejected]
            | apply clean_bind_tail; [| intros ?; unrejected] ]
  | |- clean _ => solve [apply clean_unrejected; unrejected]
  end.

Lemma perform_action_clean seat action amount_to :
  clean (perform_action seat action amount_to).
Proof. unfold perform_action. repeat clean_step. Qed.

Lemma apply_player_action_clean seat action amount_to think_delay_ms :
  clean (_apply_player_action seat action amount_to think_delay_ms).
Proof.
  unfold _apply_player_action.
  apply clean_bind_read; [apply read_only_actor_seat | intros actor_seat].
  destruct (decide _); [apply clean_reject|].
  apply clean_bind_tail; [apply perform_action_clean|].
  intros [a b]. unrejected.
Qed.

Lemma build_view_run viewer_id (t : Table) :
  build_view viewer_id t
  = (t, match _build_view_state t viewer_id with
        | Some view => Returned view
        | None => Crashed "view"
        end).
Proof.
  unfold build_view, bind, get_table, from_option.
  destruct (_build_view_state t viewer_id); reflexivity.
Qed.

Lemma actor_seat_run (t : Table) :
  _actor_seat t
  = (t, match TableRuntime.current_hand t with
        | Some hand =>
            match actor_seat_of hand with
            | Some seat => Returned seat
            | None => Crashed "KeyError"
            end
        | None => Crashed "no current hand"
        end).
Proof.
  unfold _actor_seat, bind, the_hand, from_option.
  destruct (TableRuntime.current_hand t) as [hand|]; [|reflexivity].
  destruct (actor_seat_of hand); reflexivity.
Qed.

(** What a call of [submit_action] can do to the table: nothing, or
    apply the action and file the accepted response under the key. *)
Lemma submit_action_spec viewer_id action action_seq idempotency_key
    amount_to (t : Table) :
  match submit_action viewer_id action action_seq idempotency_key amount_to t
  with
  | (t', Returned response) =>
      t' = t
      ∨ (SubmitActionResponse.accepted response = true
         ∧ ∃ hand', TableRuntime.current_hand t' = Some hand'
             ∧ HandRuntime.idempotency_cache hand' !! idempotency_key
               = Some response)
  | (t', Rejected _ _) => t' = t
  | _ => True
  end.
Proof.
  unfold submit_action. unfold bind at 1. unfold get_table.
  destruct (TableRuntime.current_hand t) as [hand|] eqn:Ehand; [|reflexivity].
  destruct (HandRuntime.idempotency_cache hand !! idempotency_key) as [cached|];
    [left; reflexivity|].
  destruct (decide (viewer_id ≠ "human")); [reflexivity|].
  destruct (decide (action_seq ≠ HandRuntime.action_seq hand + 1));
    [reflexivity|].
  unfold bind at 1. rewrite actor_seat_run, Ehand.
  destruct (actor_seat_of hand) as [actor_seat|]; [|exact I].
  destruct (decide (actor_seat ≠ Some 0%nat)); [reflexivity|].
  unfold bind at 1. unfold try_except. unfold bind at 1.
  pose proof (apply_player_action_clean 0 action amount_to None t) as Hclean.
  destruct (_apply_player_action 0 action amount_to None t)
    as [t1 [[]|code message|w|]]; try exact I.
  - (* applied *)
    cbn [ret]. unfold bind at 1.
    pose proof (advance_unrejected t1 I) as Hadv.
    destruct (_advance_locked t1) as [t2 [[]|code message|w|]];
      try exact I; [|destruct Hadv].
    unfold bind at 1. rewrite build_view_run.
    destruct (_build_view_state t2 viewer_id) as [view|]; [|exact I].
    unfold bind at 1. unfold the_hand.
    destruct (TableRuntime.current_hand t2) as [hand2|] eqn:Ehand2; [|exact I].
    unfold bind, modify_hand. rewrite Ehand2. cbn [ret].
    right. split; [reflexivity|].
    eexists. split; [reflexivity|]. cbn. apply lookup_insert_eq.
  - (* refused *)
    rewrite (Hclean t1 code message eq_refl).
    unfold bind at 1. rewrite build_view_run.
    destruct (_build_view_state t viewer_id) as [view|]; [|exact I].
    unfold bind at 1. unfold the_hand. rewrite Ehand.
    cbn. left. reflexivity.
Qed.

(** C10.  A submission that is not accepted (the call raises
    [EngineRejectedAction]: no active hand, unauthorized viewer, bad
    action sequence, not the human's turn; or it returns a response with
    [accepted = False]: missing amount, action not allowed, sizing out
    of range) leaves the table, and with it the idempotency cache of the
    hand, exactly as it was; the same call made again is therefore
    validated afresh and gives the same answer. *)
Theorem refused_submission_not_cached viewer_id action action_seq
    idempotency_key amount_to (t : Table) :
  refused
    (submit_action viewer_id action action_seq idempotency_key amount_to t).2
  ->
  (submit_action viewer_id action action_seq idempotency_key amount_to t).1
    = t
  ∧ cache_of
      (submit_action viewer_id action action_seq idempotency_key amount_to t).1
    = cache_of t
  ∧ submit_action viewer_id action action_seq idempotency_key amount_to
      (submit_action viewer_id action action_seq idempotency_key amount_to t).1
    = submit_action viewer_id action action_seq idempotency_key amount_to t.
Proof.
  intros Href.
  pose proof (submit_action_spec viewer_id action action_seq idempotency_key
                amount_to t) as Hspec.
  destruct (submit_action viewer_id action action_seq idempotency_key
              amount_to t) as [t' [response|code message|w|]] eqn:E;
    cbn in *; try (exfalso; exact Href).
  - destruct Hspec as [-> | [Hacc _]];
      [|rewrite Hacc in Href; discriminate].
    rewrite E. auto.
  - subst t'. rewrite E. auto.
Qed.


(** C4, as the code has it.  A submission whose action sequence number
    is not the hand's number plus one is never applied: the table is
    left as it was.  It is rejected with [BAD_ACTION_SEQ] when its key
    is not in the hand's cache and the viewer is the human; a key that
    is in the cache gets the cached response back, and another viewer is
    rejected with [UNAUTHORIZED_VIEWER], both checks coming first. *)
Theorem stale_action_seq_never_applied viewer_id action action_seq
    idempotency_key amount_to (t : Table) (hand : HandRuntime.t State) :
  TableRuntime.current_hand t = Some hand ->
  action_seq ≠ HandRuntime.action_seq hand + 1 ->
  (submit_action viewer_id action action_seq idempotency_key amount_to t).1
    = t
  ∧ (HandRuntime.idempotency_cache hand !! idempotency_key = None ->
     viewer_id = "human" ->
     ∃ message,
       (submit_action viewer_id action action_seq idempotency_key amount_to
          t).2 = Rejected "BAD_ACTION_SEQ" message)
  ∧ (HandRuntime.idempotency_cache hand !! idempotency_key = None ->
     viewer_id ≠ "human" ->
     ∃ message,
       (submit_action viewer_id action action_seq idempotency_key amount_to
          t).2 = Rejected "UNAUTHORIZED_VIEWER" message)
  ∧ (∀ cached,
       HandRuntime.idempotency_cache hand !! idempotency_key = Some cached ->
       (submit_action viewer_id action action_seq idempotency_key amount_to
          t).2 = Returned cached).
Proof.
  intros Hhand Hseq.
  unfold submit_action, bind, get_table. rewrite Hhand.
  destruct (HandRuntime.idempotency_cache hand !! idempotency_key)
    as [cached|] eqn:Hcache.
  - cbn. repeat split; try discriminate.
    intros cached' [= <-]. reflexivity.
  - destruct (decide (viewer_id ≠ "human")) as [Hv|Hv]; cbn.
    + repeat split; try discriminate; try (intros; contradiction).
      intros _ _. eexists. reflexivity.
    + destruct (decide (action_seq ≠ HandRuntime.action_seq hand + 1));
        [|contradiction].
      cbn. repeat split; try discriminate; try (intros; contradiction).
      intros _ _. eexists. reflexivity.
Qed.

End Rejections.

Section SubmissionSamples.
#[local] Existing Instance Reference.provider.
#[local] Existing Instance Reference.environment.

Lemma heads_up_turn_table_reachable : reachable heads_up_turn_table.
Proof.
  apply after_calls_reachable; [apply reachable_create|].
  vm_compute. eexists. reflexivity.
Defined.

Lemma heads_up_checked_table_reachable : reachable heads_up_checked_table.
Proof.
  apply after_calls_reachable; [apply heads_up_turn_table_reachable|].
  vm_compute. eexists. reflexivity.
Defined.

(** The human raises without an amount: [MISSING_AMOUNT], not cached. *)
Lemma refused_submission_not_cached_witness :
  refused (submit_action "human" RAISE 2 "k0" None heads_up_turn_table).2
  ∧ (submit_action "human" RAISE 2 "k0" None heads_up_turn_table).1
    = heads_up_turn_table.
Proof.
  assert (Href : refused
            (submit_action "human" RAISE 2 "k0" None heads_up_turn_table).2)
    by (vm_compute; reflexivity).
  split; [exact Href|].
  exact (proj1 (refused_submission_not_cached "human" RAISE 2 "k0" None
                  heads_up_turn_table Href)).
Defined.

Example refused_submission_code :
  EngineError.code <$>
    match (submit_action "human" RAISE 2 "k0" None heads_up_turn_table).2 with
    | Returned response => SubmitActionResponse.error response
    | _ => None
    end = Some "MISSING_AMOUNT".
Proof. vm_compute. reflexivity. Qed.


(** C4 does not hold as stated: after the human's check with sequence
    number 2 was accepted, the hand's number is 2, so a submission
    numbered 2 is stale; made with the key of the accepted check it is
    not rejected, it returns the accepted response. *)
Lemma stale_action_seq_not_rejected :
  reachable heads_up_checked_table
  ∧ ∃ hand response,
      TableRuntime.current_hand heads_up_checked_table = Some hand
      ∧ 2 ≠ HandRuntime.action_seq hand + 1
      ∧ submit_action "human" CHECK 2 "k1" None heads_up_checked_table
        = (heads_up_checked_table, Returned response)
      ∧ SubmitActionResponse.accepted response = true.
Proof.
  split; [exact heads_up_checked_table_reachable|].
  vm_compute. eexists. eexists.
  split; [reflexivity|]. split; [discriminate|]. split; reflexivity.
Qed.

(** A stale number under a fresh key. *)
Lemma stale_action_seq_never_applied_witness :
  ∃ hand,
    TableRuntime.current_hand heads_up_checked_table = Some hand
    ∧ 2 ≠ HandRuntime.action_seq hand + 1
    ∧ (submit_action "human" CHECK 2 "k2" None heads_up_checked_table).1
      = heads_up_checked_table.
Proof.
  destruct (TableRuntime.current_hand heads_up_checked_table) as [hand|] eqn:E;
    [|vm_compute in E; discriminate].
  assert (Hseq : 2 ≠ HandRuntime.action_seq hand + 1).
  { assert (HandRuntime.action_seq <$>
              TableRuntime.current_hand heads_up_checked_table = Some 2)
      as Hs by (vm_compute; reflexivity).
    rewrite E in Hs. injection Hs as ->. discriminate. }
  exists hand. split; [reflexivity|]. split; [exact Hseq|].
  exact (proj1 (stale_action_seq_never_applied "human" CHECK 2 "k2" None
                  heads_up_checked_table hand E Hseq)).
Defined.

End SubmissionSamples.
(** ** C6: what the action log records *)

Section ActionLog.
Context {State : Type} `{!Provider State} `{!Environment}.

Abbreviation Table := (TableRuntime.t State).

Lemma bind_returned {A B} (m : M State A) (k : A -> M State B) t t' b :
  bind m k t = (t', Returned b) ->
  ∃ a t1, m t = (t1, Returned a) ∧ k a t1 = (t', Returned b).
Proof.
  unfold bind. destruct (m t) as [t1 [a|c msg|w|]]; try discriminate.
  intros E. eauto.
Qed.

Lemma the_hand_returned (t t' : Table) hand :
  the_hand t = (t', Returned hand) ->
  t' = t ∧ TableRuntime.current_hand t = Some hand.
Proof.
  unfold the_hand. destruct (TableRuntime.current_hand t); [|discriminate].
  intros [= <- <-]. auto.
Qed.

Lemma from_option_returned {A} what (o : option A) (t t' : Table) a :
  from_option what o t = (t', Returned a) -> t' = t ∧ o = Some a.
Proof. destruct o; cbn; [|discriminate]. intros [= <- <-]. auto. Qed.

Lemma ret_returned {A} (a b : A) (t t' : Table) :
  ret a t = (t', Returned b) -> t' = t ∧ b = a.
Proof. intros [= <- <-]. auto. Qed.

Ltac logging :=
  keeps_auto ltac:(
    try (intros ? [? [? ?]]; eexists; split; [cbn; eassumption | assumption]);
    try (intros ? ? [? [? ?]] ?; eexists; split; [reflexivity|];
         cbn; congruence)).

Lemma sync_logged log :
  keeps (logged (State:=State) log) (logged log)
    _sync_table_stacks_from_state.
Proof. logging. Qed.

Lemma emit_event_logged log event_type payload :
  keeps (logged (State:=State) log) (logged log)
    (_emit_event event_type payload).
Proof. unfold _emit_event. logging. Qed.

Lemma perform_action_logged log seat action amount_to :
  keeps (logged (State:=State) log) (logged log) (perform_action seat action amount_to).
Proof. logging. Qed.

Lemma provider_returned request (t t' : Table) op hand :
  TableRuntime.current_hand t = Some hand ->
  provider request t = (t', Returned op) ->
  ∃ state',
    perform (HandRuntime.pokerkit_state hand) request = Some (state', op)
    ∧ t' = TableRuntime.set_current_hand
             (Some (HandRuntime.set_pokerkit_state state' hand)) t.
Proof.
  intros Hhand. unfold provider, bind, the_hand. rewrite Hhand.
  destruct (perform _ _) as [[state' op']|]; [|discriminate].
  unfold modify_hand. rewrite Hhand. cbn. intros [= <- <-]. eauto.
Qed.

(** What [perform_action] gives to be logged, in the two cases of the
    normalization. *)
Lemma perform_action_all_in seat action amount_to (t t' : Table) hand
    action_to_log amount_logged :
  TableRuntime.current_hand t = Some hand ->
  perform_action seat action amount_to t
    = (t', Returned (action_to_log, amount_logged)) ->
  let state := HandRuntime.pokerkit_state hand in
  (action = CHECK ∨ action = CALL ->
   ∀ raw,
     0 < default 0 (checking_or_calling_amount state) ->
     TableRuntime.seats t !! seat = Some raw ->
     Seat.stack raw = default 0 (checking_or_calling_amount state) ->
     action_to_log = ALL_IN
     ∧ amount_logged = Some (default 0 (checking_or_calling_amount state)))
  ∧ (action = BET ∨ action = RAISE ->
     ∀ amount,
       amount_to = Some amount ->
       max_completion_betting_or_raising_to_amount state = Some amount ->
       action_to_log = ALL_IN ∧ amount_logged = Some amount).
Proof.
  intros Hhand Hrun state. unfold perform_action in Hrun.
  apply bind_returned in Hrun as (hand0 & t0 & Hh & Hrun).
  apply the_hand_returned in Hh as [-> Hh].
  rewrite Hhand in Hh. injection Hh as <-. fold state in Hrun.
  split.
  - intros Hact raw Hpos Hraw Hstack.
    assert (Hgoal :
      (if negb (can_check_or_call state)
       then reject "ACTION_NOT_ALLOWED" "Check/call is not allowed."
       else
         bind (provider CheckOrCall) (λ _,
         bind get_table (λ table,
         bind (if decide (0 < default 0 (checking_or_calling_amount state))
               then bind (from_option "KeyError"
                            (TableRuntime.seats table !! seat)) (λ raw,
                    if decide (Seat.stack raw
                               = default 0 (checking_or_calling_amount state))
                    then bind (add_all_in seat) (λ _, ret ALL_IN)
                    else ret CALL)
               else if decide (default 0 (checking_or_calling_amount state) = 0)
                    then ret CHECK else ret CALL) (λ action_to_log,
         bind (commit seat (default 0 (checking_or_calling_amount state)))
           (λ _, ret (action_to_log,
                      if decide (0 < default 0 (checking_or_calling_amount state))
                      then Some (default 0 (checking_or_calling_amount state))
                      else None)))))) t
      = (t', Returned (action_to_log, amount_logged))).
    { destruct Hact as [-> | ->]; exact Hrun. }
    clear Hrun. destruct (negb (can_check_or_call state)); [discriminate|].
    apply bind_returned in Hgoal as (op & t1 & Hop & Hgoal).
    apply (provider_returned _ _ _ _ _ Hhand) in Hop as (state' & _ & ->).
    apply bind_returned in Hgoal as (table & t2 & Htab & Hgoal).
    injection Htab as <- <-.
    apply bind_returned in Hgoal as (logged_action & t3 & Hlog & Hgoal).
    apply bind_returned in Hgoal as ([] & t4 & _ & Hgoal).
    apply ret_returned in Hgoal as [_ [= -> ->]].
    destruct (decide (0 < default 0 (checking_or_calling_amount state)));
      [|contradiction].
    split; [|reflexivity].
    apply bind_returned in Hlog as (raw' & t5 & Hraw' & Hlog).
    apply from_option_returned in Hraw' as [-> Hraw'].
    cbn in Hraw'. rewrite Hraw in Hraw'. injection Hraw' as <-.
    destruct (decide (Seat.stack raw
                      = default 0 (checking_or_calling_amount state)));
      [|contradiction].
    apply bind_returned in Hlog as ([] & t6 & _ & Hlog).
    apply ret_returned in Hlog as [_ ->]. reflexivity.
  - intros Hact amount -> Hmax.
    assert (Hgoal :
      (if negb (can_complete_bet_or_raise_to state)
       then reject "ACTION_NOT_ALLOWED" "Bet/raise is not allowed."
       else
         match min_completion_betting_or_raising_to_amount state,
               max_completion_betting_or_raising_to_amount state with
         | Some min_to, Some max_to =>
             if decide (amount < min_to ∨ max_to < amount) then
               reject "INVALID_SIZING"
                 ("Amount " +:+ pretty amount +:+ " outside ["
                  +:+ pretty min_to +:+ ", " +:+ pretty max_to +:+ "].")
             else
               bind (from_option "IndexError" (actor_bet state)) (λ before,
               bind (provider (CompleteBetOrRaiseTo amount)) (λ _,
               bind (commit seat (amount - before)) (λ _,
               if decide (amount = max_to)
               then bind (add_all_in seat) (λ _, ret (ALL_IN, Some amount))
               else ret (action, Some amount))))
         | _, _ => reject "ACTION_NOT_ALLOWED" "Bet/raise not available."
         end) t
      = (t', Returned (action_to_log, amount_logged))).
    { destruct Hact as [-> | ->]; exact Hrun. }
    clear Hrun. destruct (negb (can_complete_bet_or_raise_to state));
      [discriminate|].
    rewrite Hmax in Hgoal.
    destruct (min_completion_betting_or_raising_to_amount state) as [min_to|];
      [|discriminate].
    destruct (decide (amount < min_to ∨ amount < amount)); [discriminate|].
    apply bind_returned in Hgoal as (before & t1 & _ & Hgoal).
    apply bind_returned in Hgoal as (op & t2 & _ & Hgoal).
    apply bind_returned in Hgoal as ([] & t3 & _ & Hgoal).
    destruct (decide (amount = amount)); [|contradiction].
    apply bind_returned in Hgoal as ([] & t4 & _ & Hgoal).
    apply ret_returned in Hgoal as [_ [= -> ->]]. auto.
Qed.

Lemma modify_hand_returned f (t t' : Table) u :
  modify_hand f t = (t', Returned u) ->
  ∃ hand, TableRuntime.current_hand t = Some hand
          ∧ t' = TableRuntime.set_current_hand (Some (f hand)) t.
Proof.
  unfold modify_hand. destruct (TableRuntime.current_hand t); [|discriminate].
  intros [= <- _]. eauto.
Qed.

Lemma keeps_returned {A} (I R : Table -> Prop) (m : M State A) t t' a :
  keeps I R m -> I t -> m t = (t', Returned a) -> I t'.
Proof. intros Hm Ht E. specialize (Hm t Ht). rewrite E in Hm. exact Hm. Qed.

(** C6.  When [_apply_player_action] accepts an action it appends one
    row to the action log, for the acting seat.  If the action was a
    check or call whose call amount, asked of the rules state when the
    action is applied, is positive and equals the stack the table shows
    for the seat, the row records [ALL_IN] (with the call amount); if it
    was a bet or raise to the maximum completion amount asked of the
    rules state at that moment, the row records [ALL_IN] as well. *)
Theorem all_in_normalization seat action amount_to think_delay_ms
    (t t' : Table) (hand : HandRuntime.t State) :
  TableRuntime.current_hand t = Some hand ->
  _apply_player_action seat action amount_to think_delay_ms t
    = (t', Returned tt) ->
  let state := HandRuntime.pokerkit_state hand in
  let call_amount := default 0 (checking_or_calling_amount state) in
  ∃ hand' row,
    TableRuntime.current_hand t' = Some hand'
    ∧ HandRuntime.action_log_internal hand'
      = HandRuntime.action_log_internal hand ++ [row]
    ∧ ActionHistoryRow.seat_id row = seat
    ∧ (action = CHECK ∨ action = CALL ->
       ∀ raw,
         0 < call_amount ->
         TableRuntime.seats t !! seat = Some raw ->
         Seat.stack raw = call_amount ->
         ActionHistoryRow.action row = ALL_IN
         ∧ ActionHistoryRow.amount_to row = Some call_amount)
    ∧ (action = BET ∨ action = RAISE ->
       ∀ amount,
         amount_to = Some amount ->
         max_completion_betting_or_raising_to_amount state = Some amount ->
         ActionHistoryRow.action row = ALL_IN
         ∧ ActionHistoryRow.amount_to row = Some amount).
Proof.
  intros Hhand Hrun state call_amount. unfold _apply_player_action in Hrun.
  apply bind_returned in Hrun as (actor_seat & t0 & Hactor & Hrun).
  pose proof (read_only_actor_seat t) as Hro. rewrite Hactor in Hro.
  cbn in Hro. subst t0. clear Hactor.
  destruct (decide (actor_seat ≠ Some seat)); [discriminate|].
  apply bind_returned in Hrun as ([action_to_log amount_logged] & t1 & Hperf & Hrun).
  assert (Hlog1 : logged (HandRuntime.action_log_internal hand) t1).
  { eapply keeps_returned;
      [apply perform_action_logged | | exact Hperf].
    exists hand. auto. }
  pose proof (perform_action_all_in _ _ _ _ _ _ _ _ Hhand Hperf) as Hvalue.
  apply bind_returned in Hrun as ([] & t2 & Hseq & Hrun).
  apply modify_hand_returned in Hseq as (hand1 & Hhand1 & ->).
  apply bind_returned in Hrun as (hand2 & t3 & Hh2 & Hrun).
  apply the_hand_returned in Hh2 as [-> Hh2]. cbn in Hh2.
  injection Hh2 as <-.
  apply bind_returned in Hrun as ([] & t4 & Hstep & Hrun).
  apply modify_hand_returned in Hstep as (hand3 & Hhand3 & ->).
  cbn in Hhand3. injection Hhand3 as <-.
  apply bind_returned in Hrun as ([] & t5 & Happ & Hrun).
  apply modify_hand_returned in Happ as (hand4 & Hhand4 & ->).
  cbn in Hhand4. injection Hhand4 as <-.
  apply bind_returned in Hrun as ([] & t6 & Hsync & Hemit).
  destruct Hlog1 as (hand1' & Hhand1' & Hlog1).
  rewrite Hhand1 in Hhand1'. injection Hhand1' as <-.
  match type of Hsync with
  | _ ?t5 = _ =>
      assert (Hlog5 : logged (HandRuntime.action_log_internal hand
                              ++ [ActionHistoryRow.mk
                                    (HandRuntime.next_step_index hand1)
                                    (HandRuntime.action_seq hand1 + 1) seat
                                    action_to_log amount_logged
                                    (_street_from_state
                                       (HandRuntime.pokerkit_state hand1))])
                             t5)
  end.
  { eexists. split; [reflexivity|]. cbn. rewrite Hlog1. reflexivity. }
  eapply keeps_returned in Hsync; [| apply sync_logged | exact Hlog5].
  eapply keeps_returned in Hemit; [| apply emit_event_logged | exact Hsync].
  destruct Hemit as (hand' & Hhand' & Hlog').
  exists hand'. eexists. split; [exact Hhand'|]. split; [exact Hlog'|].
  cbn. split; [reflexivity|]. exact Hvalue.
Qed.

End ActionLog.

Section ActionLogSamples.
#[local] Existing Instance Reference.provider.
#[local] Existing Instance Reference.environment.

(** Heads-up, stacks of 80: the human in the big blind raises to 80,
    which is the maximum. *)
Lemma all_in_normalization_witness :
  ∃ hand t',
    TableRuntime.current_hand heads_up_turn_table = Some hand
    ∧ _apply_player_action 0 RAISE (Some 80) None heads_up_turn_table
      = (t', Returned tt)
    ∧ ∃ hand' row,
        TableRuntime.current_hand t' = Some hand'
        ∧ HandRuntime.action_log_internal hand'
          = HandRuntime.action_log_internal hand ++ [row]
        ∧ ActionHistoryRow.action row = ALL_IN.
Proof.
  destruct (TableRuntime.current_hand heads_up_turn_table) as [hand|] eqn:E;
    [|vm_compute in E; discriminate].
  destruct (_apply_player_action 0 RAISE (Some 80) None heads_up_turn_table)
    as [t' o] eqn:Erun.
  assert (Ho : o = Returned tt).
  { change o with (t', o).2. rewrite <- Erun. vm_compute. reflexivity. }
  subst o.
  assert (Hmax : max_completion_betting_or_raising_to_amount
                   (HandRuntime.pokerkit_state hand) = Some 80).
  { assert (Hm : (λ h, max_completion_betting_or_raising_to_amount
                         (HandRuntime.pokerkit_state h))
                 <$> TableRuntime.current_hand heads_up_turn_table
                 = Some (Some 80)) by (vm_compute; reflexivity).
    rewrite E in Hm. injection Hm as Hm. exact Hm. }
  exists hand, t'. split; [reflexivity|]. split; [reflexivity|].
  destruct (all_in_normalization 0 RAISE (Some 80) None heads_up_turn_table
              t' hand E Erun)
    as (hand' & row & Hhand' & Hlog & _ & _ & Hraise).
  exists hand', row. split; [exact Hhand'|]. split; [exact Hlog|].
  exact (proj1 (Hraise (or_intror eq_refl) 80 eq_refl Hmax)).
Defined.

(** The same raise played out: the bot, 78 chips behind and 78 to call,
    calls; the log has the bot's first call, the human's raise recorded
    as all-in, and the bot's second call recorded as all-in. *)
Example short_call_logged_all_in :
  (λ history,
     (λ row, (ActionHistoryRow.seat_id row, ActionHistoryRow.action row,
              ActionHistoryRow.amount_to row))
     <$> HandHistory.actions history)
  <$> TableRuntime.completed_hands
        (after_calls [SubmitAction "human" RAISE 2 "k1" (Some 80);
                      RunBotsUntilHumanTurn] heads_up_turn_table) !! 1%nat
  = Some [(1%nat, CALL, Some 1); (0%nat, ALL_IN, Some 80);
          (1%nat, ALL_IN, Some 78)].
Proof. vm_compute. reflexivity. Qed.

End ActionLogSamples.
(** ** C9: the blinds of a heads-up hand *)

Section Roles.
Context {State : Type} `{!Provider State} `{!Environment}.

Abbreviation Table := (TableRuntime.t State).

Ltac roles := keeps_auto ltac:(frame_side ltac:(unfold roles_are in *)).

Lemma emit_event_roles r event_type payload :
  keeps (hand_roles (State:=State) r) (hand_roles r)
    (_emit_event event_type payload).
Proof. unfold _emit_event. roles. Qed.

#[local] Hint Resolve emit_event_roles : keeps.

Lemma sync_roles r :
  keeps (hand_roles (State:=State) r) (hand_roles r)
    _sync_table_stacks_from_state.
Proof. roles. Qed.

Lemma post_blinds_roles r fuel :
  keeps (hand_roles (State:=State) r) (hand_roles r) (_post_blinds_locked fuel).
Proof. induction fuel; cbn [_post_blinds_locked]; roles. Qed.

Lemma deal_hole_cards_roles r fuel :
  keeps (hand_roles (State:=State) r) (hand_roles r) (_deal_hole_cards_locked fuel).
Proof. induction fuel; cbn [_deal_hole_cards_locked]; roles. Qed.

Lemma draw_cards_roles r count :
  keeps (hand_roles (State:=State) r) (hand_roles r) (draw_cards count).
Proof. induction count; cbn [draw_cards]; roles. Qed.

Lemma tally_winners_roles r items tally :
  keeps (hand_roles (State:=State) r) (hand_roles r) (tally_winners items tally).
Proof.
  revert tally.
  induction items as [|[i a] items IH]; intros; cbn [tally_winners]; roles.
Qed.

#[local] Hint Resolve post_blinds_roles deal_hole_cards_roles draw_cards_roles
  tally_winners_roles : keeps.

Lemma advance_loop_roles r passes :
  keeps (hand_roles (State:=State) r) (hand_roles r) (advance_loop passes).
Proof. induction passes; cbn [advance_loop]; roles. Qed.

#[local] Hint Resolve advance_loop_roles : keeps.

Lemma advance_roles r : keeps (hand_roles (State:=State) r) (hand_roles r) _advance_locked.
Proof. roles. Qed.

Lemma modify_table_returned f (t t' : Table) u :
  modify_table f t = (t', Returned u) -> t' = f t.
Proof. intros [= <- _]. reflexivity. Qed.

Lemma get_table_returned (t t' table : Table) :
  get_table t = (t', Returned table) -> t' = t ∧ table = t.
Proof. intros [= <- <-]. auto. Qed.

Lemma next_active_returned seat_id active n (t t' : Table) seat :
  next_active seat_id active n t = (t', Returned seat) ->
  t' = t ∧ _next_active_after seat_id active n = Some seat.
Proof. apply from_option_returned. Qed.

(** A heads-up hand as [_start_hand_locked] sets it up. *)
Lemma start_hand_heads_up fuel (t t' : Table) :
  length (_active_seats t) = 2%nat ->
  _start_hand_locked fuel t = (t', Returned tt) ->
  ∃ sb bb, bb ≠ sb ∧ hand_roles (sb, sb, bb, [bb; sb]) t'.
Proof.
  intros Hactive Hrun. unfold _start_hand_locked in Hrun.
  apply bind_returned in Hrun as (table & t0 & Htable & Hrun).
  apply get_table_returned in Htable as [-> ->]. cbv zeta in Hrun.
  destruct (decide (length (_active_seats t) < 2)%nat); [lia|].
  apply bind_returned in Hrun as (dealer & t1 & Hdealer & Hrun).
  assert (t1 = t) as ->.
  { destruct (decide _) in Hdealer.
    - apply next_active_returned in Hdealer as [-> _]. reflexivity.
    - apply ret_returned in Hdealer as [-> _]. reflexivity. }
  clear Hdealer.
  apply bind_returned in Hrun as ([[sb bb] p2s] & t2 & Hroles & Hrun).
  destruct (decide (length (_active_seats t) = 2)%nat); [|contradiction].
  apply bind_returned in Hroles as (bb' & t3 & Hbb & Hroles).
  apply from_option_returned in Hbb as [-> Hbb].
  apply ret_returned in Hroles as [-> [= -> -> ->]].
  apply head_Some_elem_of, list_elem_of_filter in Hbb as [Hne _].
  exists dealer, bb'. split; [exact Hne|].
  apply bind_returned in Hrun as (starting_stacks & t4 & Hstacks & Hrun).
  apply from_option_returned in Hstacks as [-> _].
  apply bind_returned in Hrun as ([] & t5 & Hid & Hrun).
  apply modify_table_returned in Hid as ->.
  apply bind_returned in Hrun as (button & t6 & Hbutton & Hrun).
  apply next_active_returned in Hbutton as [-> _].
  apply bind_returned in Hrun as ([] & t7 & Hset & Hrun).
  apply modify_table_returned in Hset as ->.
  apply bind_returned in Hrun as (start_stacks & t8 & Hstart & Hrun).
  apply from_option_returned in Hstart as [-> _].
  apply bind_returned in Hrun as ([] & t9 & Hhand & Hrun).
  apply modify_table_returned in Hhand as ->.
  apply bind_returned in Hrun as ([] & t10 & Hemit & Hrun).
  apply bind_returned in Hrun as ([] & t11 & Hblinds & Hrun).
  apply bind_returned in Hrun as ([] & t12 & Hdeal & Hsync).
  eapply keeps_returned in Hemit;
    [| apply emit_event_roles | eexists; split; reflexivity].
  eapply keeps_returned in Hblinds; [| apply post_blinds_roles | exact Hemit].
  eapply keeps_returned in Hdeal; [| apply deal_hole_cards_roles | exact Hblinds].
  eapply keeps_returned in Hsync; [| apply sync_roles | exact Hdeal].
  exact Hsync.
Qed.

Lemma build_view_actor (t : Table) viewer_id view hand :
  TableRuntime.current_hand t = Some hand ->
  _build_view_state t viewer_id = Some view ->
  actor_seat_of hand = Some (ViewState.action_on_seat view).
Proof.
  intros Hhand. unfold _build_view_state. rewrite Hhand.
  destruct (view_seats _ _ _ _) as [[chips seats]|]; [|discriminate]. cbn.
  destruct (pot_views hand); [|discriminate]. cbn.
  destruct (actor_seat_of hand) as [actor|]; [|discriminate]. cbn.
  destruct (_build_showdown_payload hand); [|discriminate]. cbn.
  destruct (_allowed_actions_for_viewer t viewer_id); [|discriminate]. cbn.
  intros [= <-]. reflexivity.
Qed.


End Roles.

Section RolesSamples.
#[local] Existing Instance Reference.provider.
#[local] Existing Instance Reference.environment.


End RolesSamples.
(** ** C7: split pots *)

Lemma sumZ_app (l k : list Z) : sumZ (l ++ k) = sumZ l + sumZ k.
Proof.
  unfold sumZ. induction l as [|x l IH]; cbn; [reflexivity|].
  rewrite IH. lia.
Qed.

Section Clockwise.
Local Open Scope nat_scope.

Lemma steps_after_mod n dealer s :
  dealer < n -> 1 <= s <= n ->
  steps_after n dealer ((dealer + s) mod n) = s.
Proof.
  intros Hd Hs. unfold steps_after.
  destruct (decide (dealer + s < n)) as [Hlt|Hge].
  - rewrite Nat.mod_small by exact Hlt.
    destruct (decide _); lia.
  - assert ((dealer + s) mod n = dealer + s - n) as ->.
    { symmetry. apply (Nat.mod_unique _ _ 1); lia. }
    destruct (decide _); lia.
Qed.

Lemma mod_steps_after n dealer seat :
  dealer < n -> seat < n ->
  1 <= steps_after n dealer seat <= n
  ∧ (dealer + steps_after n dealer seat) mod n = seat.
Proof.
  intros Hd Hs. unfold steps_after. destruct (decide _).
  - split; [lia|]. rewrite Nat.mod_small; lia.
  - split; [lia|]. symmetry. apply (Nat.mod_unique _ _ 1); lia.
Qed.

Lemma steps_after_dealer n dealer :
  dealer < n -> steps_after n dealer dealer = n.
Proof. intros Hd. unfold steps_after. destruct (decide _); lia. Qed.

Lemma steps_after_inj n dealer a b :
  dealer < n -> a < n -> b < n ->
  steps_after n dealer a = steps_after n dealer b -> a = b.
Proof.
  intros Hd Ha Hb Heq.
  destruct (mod_steps_after n dealer a Hd Ha) as [_ <-].
  destruct (mod_steps_after n dealer b Hd Hb) as [_ <-].
  rewrite Heq. reflexivity.
Qed.

(** What the scan of [_next_active_after] finds: the first active seat
    on the way round from the seat after [cursor]. *)
Lemma next_active_scan_spec active n cursor rounds c :
  next_active_scan active n cursor rounds = Some c ->
  ∃ k, 1 <= k <= rounds ∧ c = (cursor + k) mod n ∧ c ∈ active
       ∧ ∀ j, 1 <= j < k -> (cursor + j) mod n ∉ active.
Proof.
  revert cursor.
  induction rounds as [|rounds IH]; intros cursor; [discriminate|].
  cbn [next_active_scan]. destruct (decide _) as [Hin|Hout].
  - intros [= <-]. exists 1. repeat split; [lia..|exact Hin|]. intros j Hj. lia.
  - intros Hscan. apply IH in Hscan as (k & Hk & Hc & Hin & Hfree).
    assert (Hshift : ∀ j, ((cursor + 1) mod n + j) mod n = (cursor + S j) mod n).
    { intros j. rewrite Nat.Div0.add_mod_idemp_l. f_equal. lia. }
    rewrite Hshift in Hc.
    exists (S k). split; [lia|]. split; [exact Hc|]. split; [exact Hin|].
    intros j Hj. destruct (decide (j = 1)) as [->|Hne]; [exact Hout|].
    replace j with (S (j - 1)) by lia. rewrite <- Hshift. apply Hfree. lia.
Qed.

Lemma position_mod n dealer seat :
  dealer < n -> seat < n ->
  position n dealer seat < n ∧ (dealer + position n dealer seat) mod n = seat.
Proof.
  intros Hd Hs. unfold position. destruct (decide _) as [->|Hne].
  - split; [lia|]. rewrite Nat.add_0_r. apply Nat.mod_small. exact Hd.
  - destruct (mod_steps_after n dealer seat Hd Hs) as [Hr Hm].
    split; [|exact Hm].
    destruct (decide (steps_after n dealer seat = n)) as [E|]; [|lia].
    exfalso. apply Hne. apply (steps_after_inj n dealer); try assumption.
    rewrite E. symmetry. apply steps_after_dealer. exact Hd.
Qed.

Lemma next_active_after_spec active n dealer c0 c1 :
  dealer < n -> dealer ∈ active -> c0 < n ->
  _next_active_after c0 active n = Some c1 ->
  c1 ∈ active ∧ c1 < n
  ∧ position n dealer c0 < steps_after n dealer c1
  ∧ ∀ a, a ∈ active -> a < n ->
         position n dealer c0 < steps_after n dealer a ->
         steps_after n dealer c1 <= steps_after n dealer a.
Proof.
  intros Hd Hdealer Hc0 Hnext.
  apply next_active_scan_spec in Hnext as (k & Hk & -> & Hin & Hfree).
  destruct (position_mod n dealer c0 Hd Hc0) as [Hp Hmod].
  set (p := position n dealer c0) in *.
  assert (Hshift : ∀ j, (c0 + j) mod n = (dealer + (p + j)) mod n).
  { intros j. rewrite <- Hmod at 1. rewrite Nat.Div0.add_mod_idemp_l.
    f_equal. lia. }
  assert (Hbound : p + k <= n).
  { destruct (decide (p + k <= n)) as [|Hover]; [assumption|]. exfalso.
    apply (Hfree (n - p)); [lia|]. rewrite Hshift.
    replace (dealer + (p + (n - p))) with (dealer + 1 * n) by lia.
    rewrite Nat.Div0.mod_add, Nat.mod_small by exact Hd. exact Hdealer. }
  assert (Hsteps : steps_after n dealer ((c0 + k) mod n) = p + k).
  { rewrite Hshift. apply steps_after_mod; lia. }
  split; [exact Hin|]. split; [apply Nat.mod_upper_bound; lia|].
  rewrite Hsteps. split; [lia|].
  intros a Ha Han Hpa.
  destruct (decide (p + k <= steps_after n dealer a)) as [|Hless];
    [assumption|]. exfalso.
  destruct (mod_steps_after n dealer a Hd Han) as [Hr Hma].
  apply (Hfree (steps_after n dealer a - p)); [lia|].
  rewrite Hshift.
  replace (p + (steps_after n dealer a - p)) with (steps_after n dealer a)
    by lia.
  rewrite Hma. exact Ha.
Qed.

End Clockwise.

Section SeatOrder.
Context {State : Type} `{!Provider State} `{!Environment}.
Local Open Scope nat_scope.

Abbreviation Table := (TableRuntime.t State).

Lemma clockwise_from_snoc n dealer ordered c :
  clockwise_from n dealer ordered ->
  (∀ a, a ∈ ordered -> steps_after n dealer a < steps_after n dealer c) ->
  clockwise_from n dealer (ordered ++ [c]).
Proof.
  intros Hcw Hlast i j a b Hij Ha Hb.
  assert (Hj := lookup_lt_Some _ _ _ Hb). rewrite length_app in Hj. cbn in Hj.
  rewrite lookup_app_l in Ha by lia.
  destruct (decide (j < length ordered)) as [Hlt|Hge].
  - rewrite lookup_app_l in Hb by exact Hlt. exact (Hcw i j a b Hij Ha Hb).
  - replace j with (length ordered + 0) in Hb by lia.
    rewrite lookup_app_r, Nat.add_comm, Nat.add_sub in Hb by lia.
    injection Hb as <-. apply Hlast. eapply list_elem_of_lookup_2. exact Ha.
Qed.

Lemma clockwise_from_NoDup n dealer ordered :
  clockwise_from n dealer ordered -> NoDup ordered.
Proof.
  intros Hcw. apply NoDup_alt. intros i j a Hi Hj.
  destruct (Nat.lt_trichotomy i j) as [Hlt|[Heq|Hgt]]; [|exact Heq|].
  - pose proof (Hcw i j a a Hlt Hi Hj). lia.
  - pose proof (Hcw j i a a Hgt Hj Hi). lia.
Qed.

Section Scan.
Variables (n dealer : nat) (active : list nat).
Hypothesis (Hdealer : dealer < n) (Hactive : dealer ∈ active).
Hypothesis (Hdistinct : NoDup active) (Hseats : ∀ a, a ∈ active -> a < n).

Lemma visited_all ordered :
  visited n dealer active ordered dealer -> length active <= length ordered.
Proof.
  intros (_ & _ & _ & Hall). apply submseteq_length.
  apply NoDup_submseteq; [exact Hdistinct|]. intros a Ha. apply Hall; [exact Ha|].
  rewrite steps_after_dealer by exact Hdealer.
  apply (mod_steps_after n dealer a Hdealer (Hseats a Ha)).
Qed.

Lemma visited_next ordered cursor cursor' :
  visited n dealer active ordered cursor ->
  length ordered < length active ->
  _next_active_after cursor active n = Some cursor' ->
  (cursor' ∉ ordered)
  ∧ visited n dealer active (ordered ++ [cursor']) cursor'.
Proof.
  intros Hv Hlen Hnext.
  assert (Hne : cursor ≠ dealer).
  { intros ->. apply visited_all in Hv. lia. }
  destruct Hv as (Hcur & Hcw & Hin & Hall).
  assert (Hc : cursor < n) by (apply Hseats, Hin, Hcur).
  destruct (next_active_after_spec active n dealer cursor cursor'
              Hdealer Hactive Hc Hnext) as (Hin' & Hlt' & Hpos & Hmin).
  unfold position in Hpos, Hmin.
  destruct (decide (cursor = dealer)); [contradiction|].
  assert (Hfresh : ∀ a, a ∈ ordered ->
            steps_after n dealer a < steps_after n dealer cursor').
  { intros a Ha. apply Hin in Ha as [_ Ha]. lia. }
  split.
  { intros Hold. apply Hfresh in Hold. lia. }
  split; [apply elem_of_app; right; apply list_elem_of_singleton; reflexivity|].
  split; [apply clockwise_from_snoc; assumption|].
  split.
  - intros a [Ha| ->%list_elem_of_singleton]%elem_of_app.
    + split; [apply Hin, Ha|]. apply Hfresh in Ha. lia.
    + split; [exact Hin'|]. lia.
  - intros a Ha Hle. apply elem_of_app.
    destruct (decide (steps_after n dealer a <= steps_after n dealer cursor))
      as [Hold|Hnew]; [left; apply Hall; assumption|].
    right. apply list_elem_of_singleton.
    apply (steps_after_inj n dealer); [assumption|apply Hseats, Ha|assumption|].
    assert (steps_after n dealer cursor' <= steps_after n dealer a)
      by (apply Hmin; [exact Ha|apply Hseats, Ha|lia]).
    lia.
Qed.

Lemma order_seats_clockwise fuel ordered cursor (t t' : Table) result :
  visited n dealer active ordered cursor ->
  order_seats fuel active n ordered cursor t = (t', Returned result) ->
  t' = t ∧ clockwise_from n dealer result
  ∧ length result = length active
  ∧ ∀ a, a ∈ result -> a ∈ active.
Proof.
  assert (Hdone : ∀ ordered cursor,
            visited n dealer active ordered cursor ->
            ¬ (length ordered < length active) ->
            clockwise_from n dealer ordered
            ∧ length ordered = length active
            ∧ ∀ a, a ∈ ordered -> a ∈ active).
  { intros ordered' cursor' (_ & Hcw & Hin & _) Hlen.
    split; [exact Hcw|]. split; [|intros a Ha; apply Hin, Ha].
    apply Nat.le_antisymm; [|lia].
    apply submseteq_length, NoDup_submseteq.
    - apply (clockwise_from_NoDup n dealer), Hcw.
    - intros a Ha. apply Hin, Ha. }
  revert ordered cursor.
  induction fuel as [|fuel IH]; intros ordered cursor Hv;
    cbn [order_seats]; destruct (decide _) as [Hlen|Hstop].
  - discriminate.
  - intros [-> ->]%ret_returned. split; [reflexivity|]. eauto.
  - intros (cursor' & t1 & Hnext & Hrun)%bind_returned.
    apply next_active_returned in Hnext as [-> Hnext].
    destruct (visited_next ordered cursor cursor' Hv Hlen Hnext)
      as [Hfresh Hv'].
    destruct (decide (cursor' ∉ ordered)); [|contradiction].
    exact (IH _ _ Hv' Hrun).
  - intros [-> ->]%ret_returned. split; [reflexivity|]. eauto.
Qed.

(** The first two seats of the order, the blinds. *)
Lemma visited_blinds sb bb :
  2 <= length active ->
  _next_active_after dealer active n = Some sb ->
  _next_active_after sb active n = Some bb ->
  visited n dealer active [sb; bb] bb.
Proof.
  intros Hlen Hsb Hbb.
  destruct (next_active_after_spec active n dealer dealer sb
              Hdealer Hactive Hdealer Hsb) as (Hin & Hlt & _ & Hmin).
  unfold position in Hmin. destruct (decide (dealer = dealer)); [|contradiction].
  assert (Hfirst : visited n dealer active [sb] sb).
  { split; [apply list_elem_of_singleton; reflexivity|].
    split; [intros [|i] [|j] a b Hij Ha Hb; try discriminate; lia|].
    split.
    - intros a ->%list_elem_of_singleton. split; [exact Hin|lia].
    - intros a Ha Hle. apply list_elem_of_singleton.
      apply (steps_after_inj n dealer); [assumption|apply Hseats, Ha|assumption|].
      assert (steps_after n dealer sb <= steps_after n dealer a).
      { apply Hmin; [exact Ha|apply Hseats, Ha|].
        apply (mod_steps_after n dealer a Hdealer (Hseats a Ha)). }
      lia. }
  apply (visited_next [sb] sb bb Hfirst); [cbn; lia|exact Hbb].
Qed.

Lemma ring_clockwise fuel sb bb (t t' : Table) ordered :
  ¬ (length active < 2) ->
  _next_active_after dealer active n = Some sb ->
  _next_active_after sb active n = Some bb ->
  order_seats fuel active n [sb; bb] bb t = (t', Returned ordered) ->
  clockwise_from n dealer ordered.
Proof.
  intros Hlen Hsb Hbb Hrun.
  eapply order_seats_clockwise; [|exact Hrun].
  apply visited_blinds; [lia|exact Hsb|exact Hbb].
Qed.

Lemma heads_up_clockwise bb :
  head (filter (λ seat, seat ≠ dealer) active) = Some bb ->
  clockwise_from n dealer [bb; dealer].
Proof.
  intros [Hne Hin]%head_Some_elem_of%list_elem_of_filter.
  intros [|[|i]] [|[|j]] a b Hij Ha Hb; try discriminate; try lia.
  injection Ha as <-. injection Hb as <-.
  rewrite steps_after_dealer by exact Hdealer.
  destruct (mod_steps_after n dealer bb Hdealer (Hseats bb Hin)) as [Hr _].
  destruct (decide (steps_after n dealer bb = n)) as [E|]; [|lia].
  exfalso. apply Hne. apply (steps_after_inj n dealer); auto.
  rewrite E. symmetry. apply steps_after_dealer. exact Hdealer.
Qed.

End Scan.
End SeatOrder.

Section Awards.
Context {State : Type} `{!Provider State} `{!Environment}.

Abbreviation Table := (TableRuntime.t State).
Abbreviation settled := (awards_settled (State:=State)).

Ltac settled_side :=
  try solve
    [ intros; assumption
    | intros ? (Hc & Hn & Hh & Hd); split; [exact Hc|];
      split; [cbn; rewrite ?length_insert, ?length_fmap;
              first [ exact Hn
                    | match goal with
                      | H : awards_settled _ ?t
                        |- length (TableRuntime.seats ?t) = _ =>
                          exact (proj1 (proj2 H))
                      end ]|];
      split; [first [exact Hh | cbn; intros ? [=] ] | first [ exact Hd
               | cbn; intros ? ? Hempty; rewrite lookup_empty in Hempty;
                 discriminate Hempty ] ]
    | intros ? ? (Hc & Hn & Hh & Hd) E; split; [exact Hc|];
      split; [exact Hn|]; split; [|exact Hd];
      cbn; intros ? [= <-]; exact (Hh _ E) ].

Ltac settling := knowing ltac:(settled_side).

Lemma emit_event_settled c event_type payload :
  keeps (settled c) (settled c) (_emit_event event_type payload).
Proof. unfold _emit_event. settling. Qed.

#[local] Hint Resolve emit_event_settled : keeps.

Lemma sync_settled c :
  keeps (settled c) (settled c) _sync_table_stacks_from_state.
Proof. settling. Qed.

Lemma post_blinds_settled c fuel :
  keeps (settled c) (settled c) (_post_blinds_locked fuel).
Proof. induction fuel; cbn [_post_blinds_locked]; settling. Qed.

Lemma deal_hole_cards_settled c fuel :
  keeps (settled c) (settled c) (_deal_hole_cards_locked fuel).
Proof. induction fuel; cbn [_deal_hole_cards_locked]; settling. Qed.

Lemma draw_cards_settled c count :
  keeps (settled c) (settled c) (draw_cards count).
Proof. induction count; cbn [draw_cards]; settling. Qed.

Lemma order_seats_settled c fuel active n ordered cursor :
  keeps (settled c) (settled c) (order_seats fuel active n ordered cursor).
Proof.
  revert ordered cursor.
  induction fuel; intros; cbn [order_seats]; settling.
Qed.

Lemma tally_winners_settled c items tally :
  keeps (settled c) (settled c) (tally_winners items tally).
Proof.
  revert tally.
  induction items as [|[i a] items IH]; intros; cbn [tally_winners]; settling.
Qed.

#[local] Hint Resolve sync_settled post_blinds_settled deal_hole_cards_settled
  draw_cards_settled order_seats_settled tally_winners_settled : keeps.

Lemma refresh_outcome_settled c :
  keeps (settled c) (settled c) _refresh_outcome.
Proof. settling. Qed.

Lemma perform_action_settled c seat action amount_to :
  keeps (settled c) (settled c) (perform_action seat action amount_to).
Proof. settling. Qed.

Lemma apply_player_action_settled c seat action amount_to think_delay_ms :
  keeps (settled c) (settled c)
    (_apply_player_action seat action amount_to think_delay_ms).
Proof. settling. Qed.

(** *** The tally of a pushed pot *)

Section Tally.
Variables (c : TableConfig.t) (dealer sb bb : nat) (p2s : list nat).
Hypothesis Hclockwise : clockwise_from (TableConfig.num_seats c) dealer p2s.

Abbreviation in_this_hand := (in_hand c dealer sb bb p2s).
Abbreviation sound := (tally_sound c dealer p2s).

Lemma tally_sound_later k k' tally :
  (k <= k')%nat -> sound k tally -> sound k' tally.
Proof.
  intros Hk (H1 & H2 & H3 & H4 & H5). repeat split; try assumption.
  intros seat Hseat. destruct (H5 seat Hseat) as (i & Hi & Hp).
  exists i. split; [lia|exact Hp].
Qed.

Lemma tally_sound_winner k tally seat amount :
  0 < amount -> p2s !! k = Some seat -> sound k tally ->
  sound (S k)
    (mk_tally (winners tally ++ [SeatAmount.mk seat amount])
       (total_awarded tally + amount) (winner_seats tally ++ [seat])).
Proof.
  intros Hpos Hseat (H1 & H2 & H3 & H4 & H5). repeat split; cbn.
  - rewrite fmap_app, H1. reflexivity.
  - rewrite fmap_app, sumZ_app, H2. cbn. lia.
  - apply Forall_app. split; [exact H3|]. repeat constructor. exact Hpos.
  - apply clockwise_from_snoc; [exact H4|].
    intros a Ha. destruct (H5 a Ha) as (i & Hi & Hp).
    exact (Hclockwise i k a seat Hi Hp Hseat).
  - intros a [Ha| ->%list_elem_of_singleton]%elem_of_app.
    + destruct (H5 a Ha) as (i & Hi & Hp). exists i. split; [lia|exact Hp].
    + exists k. split; [lia|exact Hseat].
Qed.

Lemma tally_winners_sound items : ∀ k tally,
  (∀ j i a, items !! j = Some (i, a) -> i = (k + j)%nat) ->
  sound k tally ->
  hoare in_this_hand (tally_winners items tally)
    (λ tally' t, in_this_hand t ∧ sound (k + length items) tally')
    (settled c).
Proof.
  induction items as [|[i a] items IH]; intros k tally Hitems Htally;
    cbn [tally_winners].
  - apply hoare_ret. intros t Ht. split; [exact Ht|].
    eapply tally_sound_later; [|exact Htally]. lia.
  - assert (Hi : i = k) by (rewrite (Hitems 0%nat i a eq_refl); lia).
    subst i.
    assert (Hrest : ∀ j i a, items !! j = Some (i, a) -> i = (S k + j)%nat).
    { intros j i' a' Hj. rewrite (Hitems (S j) i' a' Hj). lia. }
    replace (k + length ((k, a) :: items))%nat
      with (S k + length items)%nat by (cbn; lia).
    destruct (decide (a <= 0)) as [Hle|Hpos].
    + apply IH; [exact Hrest|]. eapply tally_sound_later; [|exact Htally]. lia.
    + intros t [Hs (hand & E & Hroles)].
      injection Hroles as Hd Hsb Hbb Hp.
      unfold bind, the_hand, from_option, modify_hand, ret.
      rewrite E, Hp. cbn beta iota.
      destruct (p2s !! k) as [seat|] eqn:Hseat; [|exact Logic.I].
      rewrite E.
      apply IH; [exact Hrest| |].
      * apply tally_sound_winner; [lia|exact Hseat|exact Htally].
      * split.
        -- destruct Hs as (Hc & Hn & Hh & Hcompleted).
           split; [exact Hc|]. split; [exact Hn|]. split; [|exact Hcompleted].
           cbn. intros ? [= <-]. exact (Hh _ E).
        -- eexists. split; [reflexivity|]. unfold roles_are. cbn.
           congruence.
Qed.

Lemma odd_chip_award_settled tally k :
  sound k tally ->
  award_settled (TableConfig.num_seats c) dealer
    (PotAward.mk 0 (total_awarded tally) (winners tally) []
       (odd_chip_award_of tally)).
Proof.
  intros (H1 & H2 & H3 & H4 & _). unfold award_settled. cbn.
  split; [exact H2|]. split; [exact H3|]. split; [rewrite <- H1; exact H4|].
  unfold odd_chip_award_of. rewrite <- H1.
  assert (Hlen : length (winner_seats tally) = length (winners tally))
    by (rewrite H1, length_fmap; reflexivity).
  destruct (winner_seats tally) as [|first rest] eqn:Eseats; cbn [head].
  - left. rewrite <- Hlen. cbn. lia.
  - rewrite <- Hlen. destruct (decide _) as [Hmany|Hone]; [|left; lia].
    cbv zeta.
    assert (Hmod : total_awarded tally
                   - total_awarded tally `div` Z.of_nat (length (first :: rest))
                     * Z.of_nat (length (first :: rest))
                   = total_awarded tally `mod` Z.of_nat (length (first :: rest))).
    { rewrite Z.mod_eq by (cbn [length]; lia). lia. }
    rewrite Hmod.
    destruct (decide _) as [Hodd|Heven];
      cbn [SeatAmount.amount SeatAmount.seat].
    + split; [exact Hmany|]. split; [exact Hodd|]. split; reflexivity.
    + right.
      pose proof (Z.mod_pos_bound (total_awarded tally)
                    (Z.of_nat (length (first :: rest)))
                    ltac:(cbn [length]; lia)). lia.
Qed.

Lemma award_pot_in_hand : keeps in_this_hand (settled c) award_pot.
Proof.
  assert (Hkeep : ∀ {A} (m : M State A),
            keeps (settled c) (settled c) m ->
            keeps (hand_roles (dealer, sb, bb, p2s))
                  (hand_roles (dealer, sb, bb, p2s)) m ->
            hoare in_this_hand m (λ _, in_this_hand) (settled c)).
  { intros A m Hs Hr. eapply hoare_weaken; [exact (keeps_conj _ _ _ _ m Hs Hr)|..].
    - auto.
    - auto.
    - intros t [Ht _]. exact Ht. }
  unfold award_pot.
  eapply hoare_bind; [apply Hkeep|intros op].
  { settling. }
  { keeps_auto ltac:(frame_side ltac:(unfold roles_are in *)). }
  eapply hoare_bind; [apply hoare_the_hand; intros t hand Ht _; exact Ht|].
  intros hand. cbv zeta.
  eapply hoare_bind with (I := λ _, in_this_hand).
  { destruct (_pots _); apply Hkeep; try settling;
      keeps_auto ltac:(frame_side ltac:(unfold roles_are in *)). }
  intros pot.
  eapply hoare_bind.
  { apply (tally_winners_sound _ 0%nat).
    - intros j i a Hj. rewrite list_lookup_imap in Hj.
      destruct (Operation.amounts op !! j); [|discriminate].
      injection Hj as <- _. reflexivity.
    - repeat split; cbn; try constructor.
      + intros i j a b _ Hi. discriminate.
      + intros seat Hseat. apply elem_of_nil in Hseat. contradiction. }
  intros tally. apply hoare_knowing. intros Htally.
  eapply hoare_bind with
    (I := λ payload t, in_this_hand t
            ∧ award_settled (TableConfig.num_seats c) dealer payload).
  { apply hoare_from_option. intros payload t Hpayload Ht.
    split; [exact Ht|]. unfold pot_payload in Hpayload.
    destruct (mapM _ _) as [eligible|]; [|discriminate].
    injection Hpayload as <-.
    pose proof (odd_chip_award_settled tally _ Htally) as Hsettled.
    exact Hsettled. }
  intros payload. apply hoare_knowing. intros Hpayload.
  eapply hoare_bind with (I := λ _, in_this_hand).
  { apply hoare_modify_hand. intros t hand' [Hs (h & E & Hroles)] E'.
    rewrite E in E'. injection E' as <-. split.
    - destruct Hs as (Hc & Hn & Hh & Hcompleted).
      split; [exact Hc|]. split; [exact Hn|]. split; [|exact Hcompleted].
      cbn. intros ? [= <-]. destruct (Hh _ E) as [Hcw Hawards].
      injection Hroles as Hd _ _ _.
      split; cbn; [exact Hcw|]. apply Forall_app. split; [exact Hawards|].
      apply Forall_singleton. rewrite Hd. exact Hpayload.
    - eexists. split; [reflexivity|]. exact Hroles. }
  intros []. apply Hkeep; [settling|apply emit_event_roles].
Qed.

End Tally.

Lemma award_pot_settled c : keeps (settled c) (settled c) award_pot.
Proof.
  intros t Ht.
  destruct (TableRuntime.current_hand t) as [hand|] eqn:E.
  - assert (Hin : in_hand c (HandRuntime.dealer_button_seat hand)
                    (HandRuntime.sb_seat hand) (HandRuntime.bb_seat hand)
                    (HandRuntime.player_index_to_seat hand) t).
    { split; [exact Ht|]. exists hand. split; [exact E|reflexivity]. }
    destruct Ht as (Hc & Hn & Hh & Hcompleted).
    pose proof (award_pot_in_hand c _ _ _ _ (proj1 (Hh _ E)) t Hin) as Haward.
    destruct (award_pot t) as [t' [[]|code msg|w|]]; try exact Logic.I.
    + exact (proj1 Haward).
    + exact Haward.
  - unfold award_pot, provider, bind at 1, bind at 1, the_hand. rewrite E.
    exact Logic.I.
Qed.

#[local] Hint Resolve award_pot_settled refresh_outcome_settled : keeps.

Lemma complete_hand_settled c :
  keeps (settled c) (settled c) _complete_hand_locked.
Proof.
  settling.
  lazymatch goal with
  | Htable : settled c ?table,
    Hsource : settled c ?source,
    Hhand : TableRuntime.current_hand ?source = Some ?hand
    |- context [history_of ?table ?hand] =>
      destruct Htable as (Hconfig & _ & _ & Hcompleted);
      destruct Hsource as (_ & _ & Hcurrent & _);
      destruct (Hcurrent _ Hhand) as [_ Hawards]
  end.
  intros t (Hc & Hn & Hh & Hd). split; [exact Hc|]. split; [exact Hn|].
  split; [exact Hh|]. cbn. intros hand_id history.
  intros [[_ <-]|[_ Hold]]%lookup_insert_Some.
  - unfold history_settled. cbn. rewrite Hconfig. exact Hawards.
  - exact (Hcompleted _ _ Hold).
Qed.

Lemma active_seats_spec (t : Table) :
  NoDup (_active_seats t)
  ∧ ∀ seat, seat ∈ _active_seats t -> (seat < length (TableRuntime.seats t))%nat.
Proof.
  unfold _active_seats. split.
  - apply NoDup_fmap_fst.
    + intros seat x y [_ Hx]%list_elem_of_filter [_ Hy]%list_elem_of_filter.
      apply list_elem_of_lookup in Hx as [i Hi], Hy as [j Hj].
      rewrite list_lookup_imap in Hi, Hj.
      destruct (TableRuntime.seats t !! i) eqn:Ei; [|discriminate].
      destruct (TableRuntime.seats t !! j) eqn:Ej; [|discriminate].
      cbn in Hi, Hj. congruence.
    + apply NoDup_filter, NoDup_alt. intros i j [seat x] Hi Hj.
      rewrite list_lookup_imap in Hi, Hj.
      destruct (TableRuntime.seats t !! i); [|discriminate].
      destruct (TableRuntime.seats t !! j); [|discriminate].
      cbn in Hi, Hj. congruence.
  - intros seat ([seat' x] & -> & [_ Hx]%list_elem_of_filter)%list_elem_of_fmap.
    apply list_elem_of_lookup in Hx as [i Hi].
    rewrite list_lookup_imap in Hi.
    destruct (TableRuntime.seats t !! i) eqn:Ei; [|discriminate].
    injection Hi as <- _. cbn. eapply lookup_lt_Some. exact Ei.
Qed.

Lemma settled_new_hand c (hand : HandRuntime.t State) :
  clockwise_from (TableConfig.num_seats c)
    (HandRuntime.dealer_button_seat hand)
    (HandRuntime.player_index_to_seat hand) ->
  HandRuntime.pot_awards hand = [] ->
  ∀ t, settled c t ->
       settled c (TableRuntime.set_current_hand (Some hand) t).
Proof.
  intros Hcw Hnone t (Hc & Hn & Hh & Hd).
  split; [exact Hc|]. split; [exact Hn|]. split; [|exact Hd].
  cbn. intros ? [= <-]. split; [exact Hcw|]. rewrite Hnone. constructor.
Qed.

Lemma start_hand_settled c fuel :
  keeps (settled c) (settled c) (_start_hand_locked fuel).
Proof.
  unfold _start_hand_locked.
  settling; (apply settled_new_hand; [cbn|reflexivity]);
    lazymatch goal with
    | Hs : settled c ?table,
      Hmany : ¬ (length (_active_seats ?table) < 2)%nat
      |- clockwise_from _ ?dealer _ =>
        destruct (active_seats_spec table) as [Hdistinct Hbound];
        destruct Hs as (Hconfig & Hlen & _);
        rewrite Hlen, <- Hconfig in Hbound; rewrite <- Hconfig;
        assert (Hdealer : dealer ∈ _active_seats table);
        [ first
            [ match goal with
              | Hd : _next_active_after _ _ _ = Some dealer |- _ =>
                  apply next_active_scan_spec in Hd as (? & ? & ? & ? & ?);
                  assumption
              end
            | match goal with
              | Hn : ¬ (_ ∉ _) |- _ => exact (dec_stable Hn)
              end ]
        | lazymatch goal with
          | Hrun : order_seats _ _ _ [?sb; ?bb] _ _ = _ |- _ =>
              eapply (ring_clockwise _ _ (_active_seats table));
                [| | | | | | | exact Hrun]; eauto
          | |- _ =>
              eapply (heads_up_clockwise _ _ (_active_seats table)); eauto
          end ]
    end.
Qed.

#[local] Hint Resolve complete_hand_settled start_hand_settled
  perform_action_settled apply_player_action_settled : keeps.

Lemma advance_loop_settled c passes :
  keeps (settled c) (settled c) (advance_loop passes).
Proof. induction passes; cbn [advance_loop]; settling. Qed.

#[local] Hint Resolve advance_loop_settled : keeps.

Lemma advance_settled c : keeps (settled c) (settled c) _advance_locked.
Proof. settling. Qed.

#[local] Hint Resolve advance_settled : keeps.

Lemma run_bots_loop_settled c passes :
  keeps (settled c) (settled c) (run_bots_loop passes).
Proof. induction passes; cbn [run_bots_loop]; settling. Qed.

#[local] Hint Resolve run_bots_loop_settled : keeps.

Lemma perform_call_settled c call :
  keeps (settled c) (settled c) (perform_call call).
Proof. destruct call; settling. Qed.

Lemma reachable_settled (t : Table) :
  reachable t -> settled (TableRuntime.config t) t.
Proof.
  induction 1 as [table_id random_seed config | call t Ht IH Hback].
  - split; [reflexivity|]. split; [cbn; rewrite length_fmap, length_seq; reflexivity|].
    split; [intros hand [=]|]. intros hand_id history Hnone.
    cbn in Hnone. rewrite lookup_empty in Hnone. discriminate Hnone.
  - pose proof (perform_call_settled _ call t IH) as Hcall.
    destruct (perform_call call t) as [t' [[]|code msg|w|]]; cbn in *;
      try discriminate Hback;
      destruct Hcall as (Hc & Hrest); rewrite Hc; split; auto.
Qed.

End Awards.

Section SplitPots.
Context {State : Type} `{!Provider State} `{!Environment}.

Abbreviation Table := (TableRuntime.t State).

Lemma award_settled_recorded n dealer award :
  award_settled n dealer award -> split_as_recorded n dealer award.
Proof.
  intros (Hsum & _ & Hcw & Hodd). unfold split_as_recorded. cbv zeta.
  split; [symmetry; exact Hsum|].
  split; [exact (clockwise_from_NoDup n dealer _ Hcw)|].
  split.
  - intros Hmany Hrest. destruct (PotAward.odd_chip_award award); [eauto|].
    destruct Hodd as [Hone|Hzero]; [lia|contradiction].
  - intros odd Ho. rewrite Ho in Hodd.
    destruct Hodd as (Hmany & Hpos & Hmod & Hhead).
    split; [exact Hmany|]. split; [exact Hmod|]. split; [exact Hpos|].
    split; [eapply head_Some_elem_of; exact Hhead|].
    intros seat [i Hi]%list_elem_of_lookup.
    destruct i as [|i].
    + left. rewrite <- head_lookup, Hhead in Hi. congruence.
    + right. apply (Hcw 0%nat (S i)); [lia| |exact Hi].
      rewrite <- head_lookup. exact Hhead.
Qed.


End SplitPots.

Section SplitSamples.
#[local] Existing Instance Reference.provider.
#[local] Existing Instance Reference.environment.

Lemma split_table_reachable : reachable split_table.
Proof.
  apply after_calls_reachable; [apply reachable_create|].
  vm_compute. eexists. reflexivity.
Defined.

(** The split pot of the first hand of [split_table], whose button is
    seat 2. *)
Example split_table_award :
  (λ history,
     (HandHistory.dealer_button_seat history,
      HandHistory.pot_breakdown history))
  <$> TableRuntime.completed_hands split_table !! 1%nat
  = Some (2%nat,
          [PotAward.mk 0 5 [SeatAmount.mk 1 3; SeatAmount.mk 2 2] []
             (Some (SeatAmount.mk 1 1))]).
Proof. vm_compute. reflexivity. Qed.



End SplitSamples.
(** ** C8: the viewer's export *)

Section ViewerExport.
Context {State : Type} `{!Provider State} `{!Environment}.

(** Without a showdown the viewer's export masks the cards of every
    seat but seat 0, the viewer's own. *)
Lemma mask_without_showdown (history : HandHistory.t) seat cards :
  HandHistory.showdown history = None ->
  HandHistory.hole_cards_by_seat history !! seat = Some cards ->
  mask_hole_cards history !! seat
  = Some (if decide (seat ≠ 0%nat) then [None; None] else cards).
Proof.
  intros Hshow Hcards. unfold mask_hole_cards.
  rewrite map_lookup_imap, Hcards, Hshow. reflexivity.
Qed.

(** After a showdown it masks nothing at all. *)
Lemma mask_with_showdown (history : HandHistory.t) payload :
  HandHistory.showdown history = Some payload ->
  mask_hole_cards history = HandHistory.hole_cards_by_seat history.
Proof.
  intros Hshow. apply map_eq. intros seat. unfold mask_hole_cards.
  rewrite map_lookup_imap, Hshow.
  destruct (HandHistory.hole_cards_by_seat history !! seat); cbn;
    [destruct (decide _)|]; reflexivity.
Qed.

Lemma export_with_showdown hand_id (t : TableRuntime.t State) history payload :
  TableRuntime.completed_hands t !! hand_id = Some history ->
  HandHistory.showdown history = Some payload ->
  ∀ seat,
    (λ exported, HandHistory.hole_cards_by_seat exported !! seat)
    <$> value_of (export_hand_history hand_id "viewer" t).2
    = Some (HandHistory.hole_cards_by_seat history !! seat).
Proof.
  intros Hhistory Hshow seat.
  unfold export_hand_history, bind, get_table. rewrite Hhistory. cbn.
  rewrite (mask_with_showdown history payload Hshow). reflexivity.
Qed.


End ViewerExport.

Section ExportSamples.
#[local] Existing Instance Reference.provider.
#[local] Existing Instance Reference.environment.

Lemma three_seat_table_reachable : reachable three_seat_table.
Proof.
  apply after_calls_reachable; [apply reachable_create|].
  vm_compute. eexists. reflexivity.
Defined.

Lemma foldout_table_reachable : reachable foldout_table.
Proof.
  apply after_calls_reachable; [apply reachable_create|].
  vm_compute. eexists. reflexivity.
Defined.


Example viewer_export_masks_without_showdown :
  (λ exported, map_to_list (HandHistory.hole_cards_by_seat exported))
  <$> value_of (export_hand_history 1 "viewer" foldout_table).2
  = Some [(2%nat, [None; None]); (1%nat, [None; None]);
          (0%nat, [Some "4s"; Some "5h"])].
Proof. vm_compute. reflexivity. Qed.


(** Nor does its second clause: a defect of the export.  In the second
    hand of the three-seat table seat 1 folds before the showdown of
    seats 0 and 2, so its cards are never revealed (the showdown lists
    seats 0 and 2 only); the export of the hand in "viewer" mode
    nevertheless carries them, its mask being applied only to hands
    that have no showdown at all. *)
Example viewer_export_shows_folded_hand :
  let history := TableRuntime.completed_hands three_seat_table !! 2%nat in
  let exported :=
    value_of (export_hand_history 2 "viewer" three_seat_table).2 in
  folded_seats_of <$> history = Some [1%nat]
  ∧ shown_seats_of <$> history = Some [0%nat; 2%nat]
  ∧ (λ h, HandHistory.hole_cards_by_seat h !! 1%nat) <$> exported
    = Some (Some [Some "4s"; Some "5h"]).
Proof. cbv zeta; split; [|split]; vm_compute; reflexivity. Qed.

End ExportSamples.
(** ** C2: replaying a hand with antes *)

Section Replay.
Context {State : Type} `{!Provider State} `{!Environment}.

(** The replay has no branch that posts an ante (or a blind, or deals a
    hole card, once its two opening loops are over): in a rules state
    that waits for an ante only, none of its loops moves. *)
Lemma replay_stops_at_antes (state : State) deck deck_idx passes :
  status state = true ->
  actor_index state = None ->
  replay_forced_step state deck deck_idx = None ->
  replay_advance_loop (S passes) state deck deck_idx = Returned state
  ∧ replay_finish (S passes) state deck deck_idx = Returned state.
Proof.
  intros Hstatus Hactor Hstep. split.
  - cbn [replay_advance_loop].
    rewrite Hactor, Hstatus, Hstep.
    rewrite bool_decide_eq_true_2 by reflexivity. reflexivity.
  - cbn [replay_finish]. rewrite Hstatus, Hactor, Hstep.
    rewrite bool_decide_eq_false_2 by (intros Hne; apply Hne; reflexivity).
    reflexivity.
Qed.

End Replay.

Section ReplaySamples.
#[local] Existing Instance Reference.provider.
#[local] Existing Instance Reference.environment.

Lemma ante_table_reachable : reachable (ante_table 1).
Proof.
  apply after_calls_reachable; [apply reachable_create|].
  vm_compute. eexists. reflexivity.
Defined.

(** Without antes the hand replays: terminal, and with the stacks
    recorded live. *)
Example replay_without_ante :
  (λ result,
     (map_to_list (ReplayResult.final_stacks_by_seat result),
      ReplayResult.hand_terminated result,
      ReplayResult.action_replay_match result))
  <$> replay_of_first_hand (ante_table 0)
  = Some ([(1%nat, 82); (0%nat, 78)], true, true).
Proof. vm_compute. reflexivity. Qed.


End ReplaySamples.
(** ** The chips of a table *)

Section Sums.

Lemma sumZ_cons (x : Z) (l : list Z) : sumZ (x :: l) = x + sumZ l.
Proof. reflexivity. Qed.

Lemma sumZ_insert {A} (f : A -> Z) (l : list A) i x y :
  l !! i = Some x ->
  sumZ (f <$> <[i := y]> l) = sumZ (f <$> l) - f x + f y.
Proof.
  revert i. induction l as [|a l IH]; intros [|i] Hi; try discriminate.
  - injection Hi as ->.
    change (<[0%nat:=y]> (x :: l)) with (y :: l).
    rewrite !fmap_cons, !sumZ_cons. lia.
  - change (<[S i:=y]> (a :: l)) with (a :: <[i:=y]> l).
    rewrite !fmap_cons, !sumZ_cons, (IH i Hi). lia.
Qed.

(** Changing a function at one point that a duplicate-free list goes
    through once. *)
Lemma sumZ_fmap_update (g g' : nat -> Z) (l : list nat) seat :
  NoDup l -> seat ∈ l ->
  (∀ a, a ≠ seat -> g' a = g a) ->
  sumZ (g' <$> l) = sumZ (g <$> l) - g seat + g' seat.
Proof.
  intros Hnd Hin Hsame.
  assert (Hout : ∀ k : list nat, seat ∉ k -> sumZ (g' <$> k) = sumZ (g <$> k)).
  { induction k as [|a k IH]; intros Ha; [reflexivity|].
    apply not_elem_of_cons in Ha as [Hne Ha].
    rewrite !fmap_cons, !sumZ_cons, (IH Ha), Hsame by congruence.
    reflexivity. }
  induction Hnd as [|a l Ha Hnd IH]; [by apply elem_of_nil in Hin|].
  rewrite !fmap_cons, !sumZ_cons.
  apply elem_of_cons in Hin as [->|Hin].
  - rewrite (Hout l Ha). lia.
  - assert (a ≠ seat) by (intros ->; contradiction).
    rewrite (IH Hin), Hsame by assumption. lia.
Qed.

Lemma sumZ_fmap_same (g g' : nat -> Z) (l : list nat) :
  (∀ a, a ∈ l -> g' a = g a) -> sumZ (g' <$> l) = sumZ (g <$> l).
Proof.
  intros Hsame. f_equal. apply list_fmap_ext. intros i a Hi.
  apply Hsame. eapply list_elem_of_lookup_2. exact Hi.
Qed.

Lemma stack_of_insert seats seat raw a :
  (seat < length seats)%nat ->
  stack_of (<[seat := raw]> seats) a
  = if decide (a = seat) then Seat.stack raw else stack_of seats a.
Proof.
  intros Hlt. unfold stack_of. destruct (decide (a = seat)) as [->|Hne].
  - rewrite list_lookup_insert_eq by exact Hlt. reflexivity.
  - rewrite list_lookup_insert_ne by congruence. reflexivity.
Qed.

End Sums.

Ltac balance_side :=
  try solve
    [ intros; assumption
    | intros ? (Hc & Hn & Hh & Hd);
      split; [exact Hc|]; split; [exact Hn|]; split; [exact Hh|exact Hd]
    | intros ? ? (Hc & Hn & Hh & Hd) E; rewrite E in Hh;
      split; [exact Hc|]; split; [exact Hn|]; split; [exact Hh|exact Hd] ].

Ltac balancing := knowing ltac:(balance_side).

Section Chips.
Context {State : Type} `{!Provider State} `{!Environment} `{!ProviderLaws}.

Abbreviation Table := (TableRuntime.t State).
Abbreviation bal := (balanced (State:=State)).

Lemma emit_event_balanced b c event_type payload :
  keeps (bal b c) (bal b c) (_emit_event event_type payload).
Proof. unfold _emit_event. balancing. Qed.

Lemma commit_balanced b c seat amount :
  keeps (bal b c) (bal b c) (commit seat amount).
Proof. balancing. Qed.

Lemma next_card_balanced b c : keeps (bal b c) (bal b c) next_card.
Proof. balancing. Qed.

Lemma refresh_outcome_balanced b c :
  keeps (bal b c) (bal b c) _refresh_outcome.
Proof. balancing. Qed.

#[local] Hint Resolve emit_event_balanced commit_balanced next_card_balanced
  refresh_outcome_balanced : keeps.

Lemma draw_cards_balanced b c count :
  keeps (bal b c) (bal b c) (draw_cards count).
Proof. induction count; cbn [draw_cards]; balancing. Qed.

Lemma build_view_balanced b c viewer_id :
  keeps (bal b c) (bal b c) (build_view viewer_id).
Proof.
  intros t Ht. pose proof (read_only_build_view viewer_id t) as Hread.
  destruct (build_view viewer_id t) as [t' [view|code msg|w|]]; cbn in Hread;
    subst; exact Ht || exact Logic.I.
Qed.

#[local] Hint Resolve draw_cards_balanced build_view_balanced : keeps.

(** An operation of the rules engine keeps the chips of the table. *)
Lemma provider_balanced c request :
  keeps (bal false c) (bal false c) (provider request).
Proof.
  intros t (Hc & Hn & Hh & Hd). unfold provider, bind, the_hand.
  destruct (TableRuntime.current_hand t) as [hand|] eqn:E; [|exact Logic.I].
  destruct (perform (HandRuntime.pokerkit_state hand) request)
    as [[state' op]|] eqn:Eperform; [|exact Logic.I].
  unfold modify_hand. rewrite E. cbn.
  apply performed_chips in Eperform as (Hrunning & Hchips & Hlen).
  destruct Hh as [(Hnd & Hin & Hstacks & Hsum & Hended & Hstart) _].
  split; [exact Hc|]. split; [exact Hn|]. split; [|exact Hd]. cbn.
  split; [|discriminate].
  split; [exact Hnd|]. split; [exact Hin|]. split; [congruence|].
  split; [rewrite Hchips; exact Hsum|]. split; [|exact Hstart].
  intros Hdone. rewrite (Hended Hdone) in Hrunning. discriminate.
Qed.

#[local] Hint Resolve provider_balanced : keeps.

(** *** The stacks of the table follow the rules state *)

Section Sync.
Variables (c : TableConfig.t) (hand : HandRuntime.t State).

Abbreviation p2s := (HandRuntime.player_index_to_seat hand).
Abbreviation state := (HandRuntime.pokerkit_state hand).

Lemma syncing_step k seat stack raw (t : Table) :
  syncing c hand k t ->
  p2s !! k = Some seat ->
  stacks state !! k = Some stack ->
  TableRuntime.seats t !! seat = Some raw ->
  syncing c hand (S k)
    (TableRuntime.set_seats
       (<[seat := Seat.set_stack stack raw]> (TableRuntime.seats t)) t).
Proof.
  intros ((Hc & Hn & Hh & Hd) & E & Hprefix) Hseat Hstack Hraw.
  rewrite E in Hh.
  destruct Hh as [(Hnd & Hin & Hstacks & Hsum & Hended & Hstart) _].
  assert (Hlt : (seat < length (TableRuntime.seats t))%nat)
    by (eapply lookup_lt_Some; exact Hraw).
  assert (Hold : stack_of (TableRuntime.seats t) seat = Seat.stack raw)
    by (unfold stack_of; rewrite Hraw; reflexivity).
  split; [|split; [exact E|]].
  - split; [exact Hc|]. split; [cbn; rewrite length_insert; exact Hn|].
    split; [|exact Hd]. cbn. rewrite E. split; [|discriminate].
    split; [exact Hnd|]. split; [exact Hin|]. split; [exact Hstacks|].
    split; [|split; [exact Hended|exact Hstart]].
    rewrite (sumZ_insert Seat.stack _ _ raw) by exact Hraw.
    rewrite (sumZ_fmap_update (stack_of (TableRuntime.seats t)) _ p2s seat);
      [| exact Hnd | eapply list_elem_of_lookup_2; exact Hseat
       | intros a Ha; rewrite stack_of_insert by exact Hlt;
         destruct (decide (a = seat)); [contradiction|reflexivity] ].
    rewrite stack_of_insert by exact Hlt.
    destruct (decide (seat = seat)); [|contradiction].
    rewrite Hold. cbn. lia.
  - intros i seat' stack' Hi Hseat' Hstack'. cbn.
    rewrite stack_of_insert by exact Hlt.
    destruct (decide (seat' = seat)) as [->|Hne].
    + assert (i = k) as -> by (eapply NoDup_lookup; eassumption).
      rewrite Hstack in Hstack'. injection Hstack' as <-. reflexivity.
    + apply (Hprefix i); [|assumption..].
      destruct (decide (i = k)) as [->|]; [|lia].
      rewrite Hseat in Hseat'. congruence.
Qed.

Lemma sync_loop items : ∀ k,
  (∀ j i seat, items !! j = Some (i, seat) ->
               i = (k + j)%nat ∧ p2s !! i = Some seat) ->
  hoare (syncing c hand k)
    (for_each items
       (λ '(player_index, seat),
          bind the_hand (λ hand,
          bind (from_option "IndexError"
                  (stacks (HandRuntime.pokerkit_state hand) !! player_index))
            (λ stack, set_seat_stack seat stack))))
    (λ _, syncing c hand (k + length items)) (λ _, False).
Proof.
  induction items as [|[i seat] items IH]; intros k Hitems; cbn [for_each].
  - apply hoare_ret. intros t Ht. rewrite Nat.add_0_r. exact Ht.
  - destruct (Hitems 0%nat i seat eq_refl) as [Hi Hseat].
    rewrite Nat.add_0_r in Hi. subst i.
    replace (k + length ((k, seat) :: items))%nat
      with (S k + length items)%nat by (cbn; lia).
    eapply hoare_bind with (I := λ _, syncing c hand (S k));
      [|intros []; apply IH].
    + intros t Ht. pose proof Ht as (_ & E & _).
      unfold set_seat_stack.
      unfold bind, the_hand, from_option, get_table, modify_table, ret, crash.
      rewrite E. cbn beta iota.
      destruct (stacks state !! k) as [stack|] eqn:Hstack; [|exact Logic.I].
      cbn beta iota.
      destruct (TableRuntime.seats t !! seat) as [raw|] eqn:Hraw;
        cbn beta iota; [|exact Logic.I].
      exact (syncing_step k seat stack raw t Ht Hseat Hstack Hraw).
    + intros j i' seat' Hj. destruct (Hitems (S j) i' seat' Hj) as [-> Hs].
      split; [lia|exact Hs].
Qed.

Lemma syncing_done (t : Table) :
  syncing c hand (length p2s) t ->
  bal true c t ∧ TableRuntime.current_hand t = Some hand.
Proof.
  intros ((Hc & Hn & Hh & Hd) & E & Hprefix). split; [|exact E].
  split; [exact Hc|]. split; [exact Hn|]. split; [|exact Hd].
  rewrite E in *. destruct Hh as [Hfacts _]. split; [exact Hfacts|].
  intros _. destruct Hfacts as (_ & _ & Hstacks & _).
  apply list_eq. intros i. rewrite list_lookup_fmap.
  destruct (p2s !! i) as [seat|] eqn:Hseat; cbn.
  - destruct (lookup_lt_is_Some_2 (stacks state) i) as [stack Hstack].
    { rewrite Hstacks. eapply lookup_lt_Some. exact Hseat. }
    rewrite Hstack. f_equal.
    apply (Hprefix i); [eapply lookup_lt_Some; exact Hseat|assumption..].
  - symmetry. apply lookup_ge_None. rewrite Hstacks.
    apply lookup_ge_None in Hseat. exact Hseat.
Qed.

Lemma sync_pinned :
  hoare (λ t, bal false c t ∧ TableRuntime.current_hand t = Some hand)
    _sync_table_stacks_from_state
    (λ _ t, bal true c t ∧ TableRuntime.current_hand t = Some hand)
    (λ _, False).
Proof.
  unfold _sync_table_stacks_from_state.
  eapply hoare_bind with
    (I := λ hand' t, hand' = hand ∧ syncing c hand 0 t).
  - apply hoare_the_hand. intros t hand' [Ht E] E'.
    split; [congruence|]. split; [exact Ht|]. split; [exact E|].
    intros i seat stack Hi. lia.
  - intros hand'. intros t [-> Ht].
    pose proof (sync_loop (imap pair p2s) 0%nat) as Hloop.
    specialize (Hloop ltac:(intros j i seat Hj;
                            rewrite list_lookup_imap in Hj;
                            destruct (p2s !! j) eqn:Ej; [|discriminate];
                            injection Hj as <- <-; auto) t Ht).
    destruct (for_each _ _ t) as [t' [[]|code msg|w|]]; try exact Hloop.
    apply syncing_done. rewrite length_imap in Hloop. exact Hloop.
Qed.

End Sync.

Lemma sync_balanced b c (R : Table -> Prop) :
  hoare (bal b c) _sync_table_stacks_from_state (λ _, bal true c) R.
Proof.
  intros t Ht.
  assert (Hweak : bal false c t).
  { destruct Ht as (Hc & Hn & Hh & Hd).
    split; [exact Hc|]. split; [exact Hn|]. split; [|exact Hd].
    destruct (TableRuntime.current_hand t); [|exact Hh].
    split; [apply Hh|discriminate]. }
  destruct (TableRuntime.current_hand t) as [hand|] eqn:E.
  - pose proof (sync_pinned c hand t (conj Hweak E)) as Hsync.
    destruct (_sync_table_stacks_from_state t) as [t' [[]|code msg|w|]];
      try exact Logic.I; [apply Hsync|destruct Hsync].
  - unfold _sync_table_stacks_from_state, bind, the_hand. rewrite E.
    exact Logic.I.
Qed.

End Chips.

Section ChipsInPlay.
Context {State : Type} `{!Provider State} `{!Environment} `{!ProviderLaws}.

Abbreviation Table := (TableRuntime.t State).
Abbreviation bal := (balanced (State:=State)).
Abbreviation weak := (balanced (State:=State) false).
Abbreviation strict := (balanced (State:=State) true).

Lemma balanced_weaken b c (t : Table) : bal b c t -> weak c t.
Proof.
  intros (Hc & Hn & Hh & Hd).
  split; [exact Hc|]. split; [exact Hn|]. split; [|exact Hd].
  destruct (TableRuntime.current_hand t); [|exact Hh].
  split; [apply Hh|discriminate].
Qed.

Lemma sync_weak c :
  keeps (weak c) (weak c) _sync_table_stacks_from_state.
Proof.
  eapply hoare_weaken; [apply (sync_balanced false c (weak c))|..].
  - auto.
  - intros [] t Ht. exact (balanced_weaken _ _ _ Ht).
  - auto.
Qed.

#[local] Hint Resolve emit_event_balanced commit_balanced next_card_balanced
  refresh_outcome_balanced draw_cards_balanced build_view_balanced
  provider_balanced sync_weak : keeps.

Lemma post_blinds_weak c fuel :
  keeps (weak c) (weak c) (_post_blinds_locked fuel).
Proof. induction fuel; cbn [_post_blinds_locked]; balancing. Qed.

Lemma deal_hole_cards_weak c fuel :
  keeps (weak c) (weak c) (_deal_hole_cards_locked fuel).
Proof. induction fuel; cbn [_deal_hole_cards_locked]; balancing. Qed.

Lemma tally_winners_weak c items tally :
  keeps (weak c) (weak c) (tally_winners items tally).
Proof.
  revert tally.
  induction items as [|[i a] items IH]; intros; cbn [tally_winners]; balancing.
Qed.

#[local] Hint Resolve post_blinds_weak deal_hole_cards_weak
  tally_winners_weak : keeps.

Lemma award_pot_weak c : keeps (weak c) (weak c) award_pot.
Proof. balancing. Qed.

#[local] Hint Resolve award_pot_weak : keeps.

Lemma forced_step_weak c hand :
  keeps (weak c) (weak c) (forced_step hand).
Proof. balancing. Qed.

Lemma perform_action_weak c seat action amount_to :
  keeps (weak c) (weak c) (perform_action seat action amount_to).
Proof. balancing. Qed.

#[local] Hint Resolve forced_step_weak perform_action_weak : keeps.

Lemma apply_player_action_weak c seat action amount_to think_delay_ms :
  keeps (weak c) (weak c)
    (_apply_player_action seat action amount_to think_delay_ms).
Proof. balancing. Qed.

End ChipsInPlay.

Section DictSums.

Lemma sumZ_Permutation (l k : list Z) : l ≡ₚ k -> sumZ l = sumZ k.
Proof.
  induction 1 as [|x l k _ IH|x y l|l k m _ IH1 _ IH2];
    rewrite ?sumZ_cons; [reflexivity|lia|lia|congruence].
Qed.

Lemma sum_values_list_to_map (l : list (nat * Z)) :
  NoDup l.*1 -> sum_values (list_to_map l) = sumZ l.*2.
Proof.
  intros Hnd. unfold sum_values. apply sumZ_Permutation.
  rewrite (map_to_list_to_map l Hnd). reflexivity.
Qed.

Lemma imap_pair_split {A B} (f : A -> B) (l : list A) : ∀ k,
  (imap (λ i x, ((k + i)%nat, f x)) l).*1 = seq k (length l)
  ∧ (imap (λ i x, ((k + i)%nat, f x)) l).*2 = f <$> l.
Proof.
  induction l as [|x l IH]; intros k; [split; reflexivity|].
  destruct (IH (S k)) as [IH1 IH2].
  assert (Hshift : imap ((λ i x, ((k + i)%nat, f x)) ∘ S) l
                   = imap (λ i x, ((S k + i)%nat, f x)) l).
  { apply imap_ext. intros i y _. cbn. f_equal. lia. }
  cbn [imap fmap list_fmap length seq]. rewrite Hshift.
  change (list_fmap _ _ ?g ?l) with (g <$> l) in *.
  rewrite IH1, IH2, Nat.add_0_r. split; reflexivity.
Qed.

Lemma fst_imap_pair {A B} (f : A -> B) (l : list A) :
  (imap (λ i x, (i, f x)) l).*1 = seq 0 (length l).
Proof. apply (imap_pair_split f l 0). Qed.

Lemma snd_imap_pair {A B} (f : A -> B) (l : list A) :
  (imap (λ i x, (i, f x)) l).*2 = f <$> l.
Proof. apply (imap_pair_split f l 0). Qed.

End DictSums.

Section Advancing.
Context {State : Type} `{!Provider State} `{!Environment} `{!ProviderLaws}.

Abbreviation Table := (TableRuntime.t State).
Abbreviation weak := (balanced (State:=State) false).
Abbreviation strict := (balanced (State:=State) true).

Lemma stacks_by_seat_sum (t : Table) :
  sum_values (stacks_by_seat t) = sumZ (Seat.stack <$> TableRuntime.seats t).
Proof.
  unfold stacks_by_seat. rewrite sum_values_list_to_map.
  - rewrite snd_imap_pair. reflexivity.
  - rewrite fst_imap_pair. apply NoDup_seq.
Qed.

(** When a pass of the loop leaves with [Return], what it did was to
    bring the stacks of the table up to date. *)
Lemma forced_step_return hand (t t' : Table) :
  forced_step hand t = (t', Returned Return) ->
  _sync_table_stacks_from_state t = (t', Returned tt).
Proof.
  unfold forced_step. cbv zeta. intros Hrun.
  repeat
    match type of Hrun with
    | (if ?b then _ else _) _ = _ => destruct b
    end;
    try (repeat (apply bind_returned in Hrun as (? & ? & _ & Hrun));
         apply ret_returned in Hrun as [_ Hrun]; discriminate Hrun).
  apply bind_returned in Hrun as ([] & t1 & Hsync & Hrun).
  apply ret_returned in Hrun as [-> _]. exact Hsync.
Qed.

Lemma advance_iteration_pass c :
  hoare (weak c) advance_iteration (after_pass c) (weak c).
Proof.
  intros t Ht.
  assert (Hkeep : keeps (weak c) (weak c) advance_iteration).
  { unfold advance_iteration. apply keeps_bind; [apply keeps_the_hand|].
    intros hand. destruct (negb _); [apply keeps_ret|].
    apply forced_step_weak. }
  specialize (Hkeep t Ht).
  destruct (advance_iteration t) as [t' [exit|code msg|w|]] eqn:Erun;
    try exact Hkeep.
  split; [exact Hkeep|]. intros ->.
  unfold advance_iteration in Erun.
  apply bind_returned in Erun as (hand & t1 & Hhand & Erun).
  apply the_hand_returned in Hhand as [-> _].
  destruct (negb _); [apply ret_returned in Erun as [_ [=]]|].
  apply forced_step_return in Erun.
  pose proof (sync_balanced false c (weak c) t Ht) as Hsync.
  rewrite Erun in Hsync. exact Hsync.
Qed.

Lemma advance_loop_pass c passes :
  hoare (weak c) (advance_loop passes) (after_pass c) (weak c).
Proof.
  induction passes as [|passes IH]; cbn [advance_loop];
    [apply hoare_crash|].
  eapply hoare_bind; [apply advance_iteration_pass|].
  intros [| |].
  - eapply hoare_pre; [exact IH|]. intros t [Ht _]. exact Ht.
  - apply hoare_ret. auto.
  - apply hoare_ret. auto.
Qed.

Lemma closed_total c (t : Table) :
  closed c t -> sumZ (Seat.stack <$> TableRuntime.seats t) = chips_target c.
Proof.
  intros [(_ & _ & Hh & _) (hand & E & Hended)]. rewrite E in Hh.
  destruct Hh as [(_ & _ & _ & Hsum & Hstopped & _) Hsynced].
  specialize (Hsynced eq_refl). unfold synced in Hsynced.
  rewrite Hsynced in Hsum. unfold chips in Hsum.
  destruct (finished_chips _ (Hstopped Hended)) as [Hbets Hpots]. lia.
Qed.

Ltac closed_side :=
  try solve
    [ intros; assumption
    | intros ? [(Hc & Hn & Hh & Hd) (? & E & He)];
      split; [split; [exact Hc|]; split; [exact Hn|];
              split; [exact Hh|exact Hd]|];
      eexists; split; [exact E|exact He]
    | intros ? ? [(Hc & Hn & Hh & Hd) (? & E' & He)] E;
      rewrite E in E'; injection E' as <-; rewrite E in Hh;
      split; [split; [exact Hc|]; split; [exact Hn|];
              split; [exact Hh|exact Hd]|];
      eexists; split; [reflexivity|exact He] ].

Ltac closing := knowing ltac:(closed_side).

Lemma emit_event_closed c event_type payload :
  keeps (closed c) (closed c) (_emit_event event_type payload).
Proof. unfold _emit_event. closing. Qed.

Lemma refresh_outcome_closed c :
  keeps (closed c) (closed c) _refresh_outcome.
Proof. closing. Qed.

Lemma sync_closed c :
  keeps (closed c) (closed c) _sync_table_stacks_from_state.
Proof.
  intros t [Hs (hand & E & He)].
  pose proof (sync_pinned c hand t (conj (balanced_weaken _ _ _ Hs) E))
    as Hsync.
  destruct (_sync_table_stacks_from_state t) as [t' [[]|code msg|w|]];
    try exact Logic.I; [|destruct Hsync].
  destruct Hsync as [Hs' E']. split; [exact Hs'|]. eauto.
Qed.

#[local] Hint Resolve emit_event_closed refresh_outcome_closed sync_closed
  : keeps.

Lemma history_of_facts c (table source : Table) hand showdown :
  closed c table ->
  closed c source -> TableRuntime.current_hand source = Some hand ->
  history_facts c (history_of table hand showdown).
Proof.
  intros Htable [(_ & _ & Hh & _) _] E. rewrite E in Hh.
  destruct Hh as [(Hnd & Hin & _ & _ & _ & Hstart) _].
  split; [apply Htable|]. cbn.
  split; [rewrite stacks_by_seat_sum; apply closed_total; exact Htable|].
  split; [exact Hstart|]. split; [exact Hnd|exact Hin].
Qed.

Lemma complete_hand_closed c :
  hoare (λ t, strict c t
              ∧ ∃ hand, TableRuntime.current_hand t = Some hand
                        ∧ status (HandRuntime.pokerkit_state hand) = false)
    _complete_hand_locked (λ _, closed c) (closed c).
Proof.
  unfold _complete_hand_locked.
  eapply hoare_bind with (I := λ _, closed c).
  - apply hoare_modify_hand.
    intros t hand [(Hc & Hn & Hh & Hd) (h & E' & Hstopped)] E.
    rewrite E in E'. injection E' as <-. rewrite E in Hh.
    destruct Hh as [(Hnd & Hin & Hstacks & Hsum & _ & Hstart) Hsynced].
    split; [|eexists; split; reflexivity].
    split; [exact Hc|]. split; [exact Hn|]. split; [|exact Hd]. cbn.
    split; [|exact Hsynced].
    split; [exact Hnd|]. split; [exact Hin|]. split; [exact Hstacks|].
    split; [exact Hsum|]. split; [intros _; exact Hstopped|exact Hstart].
  - intros [].
    lazymatch goal with |- hoare ?P ?m _ ?R => change (keeps P R m) end.
    closing.
    lazymatch goal with
    | Htable : closed c ?table,
      Hsource : closed c ?source,
      Hhand : TableRuntime.current_hand ?source = Some ?hand
      |- context [history_of ?table ?hand ?showdown] =>
        pose proof (history_of_facts c table source hand showdown
                      Htable Hsource Hhand) as Hfacts;
        destruct Htable as [(_ & _ & _ & Hcompleted) _]
    end.
    intros t [(Hc & Hn & Hh & Hd) (h & E & He)].
    split; [|eauto]. split; [exact Hc|]. split; [exact Hn|].
    split; [exact Hh|]. cbn. intros hand_id history.
    intros [[_ <-]|[_ Hold]]%lookup_insert_Some; [exact Hfacts|].
    exact (Hcompleted _ _ Hold).
Qed.

Lemma hoare_unrejected {A} (P : Table -> Prop) (m : M State A)
    (Q : A -> Table -> Prop) (R R' : Table -> Prop) :
  keeps (λ _, True) (λ _, False) m -> hoare P m Q R -> hoare P m Q R'.
Proof.
  intros Hnever Hm t Ht. specialize (Hm t Ht).
  specialize (Hnever t Logic.I).
  destruct (m t) as [t' [a|code msg|w|]]; try exact Hm. destruct Hnever.
Qed.

Lemma advance_strict c (R : Table -> Prop) :
  hoare (weak c) _advance_locked (λ _, strict c) R.
Proof.
  apply (hoare_unrejected _ _ _ (weak c)); [apply advance_unrejected|].
  unfold _advance_locked.
  eapply hoare_bind; [apply advance_loop_pass|].
  assert (Hend : hoare (weak c)
            (bind _sync_table_stacks_from_state (λ _,
             bind the_hand (λ hand,
               if negb (status (HandRuntime.pokerkit_state hand))
                  && negb (HandRuntime.ended hand)
               then _complete_hand_locked else ret tt)))
            (λ _, strict c) (weak c)).
  { eapply hoare_bind with (I := λ _, strict c); [apply sync_balanced|].
    intros [].
    eapply hoare_bind with
      (I := λ hand t, strict c t ∧ TableRuntime.current_hand t = Some hand).
    { apply hoare_the_hand. auto. }
    intros hand.
    destruct (negb (status (HandRuntime.pokerkit_state hand))) eqn:Estopped;
      cbn [andb]; [destruct (negb (HandRuntime.ended hand))|].
    - eapply hoare_weaken; [apply complete_hand_closed|..].
      + intros t [Ht E]. split; [exact Ht|]. exists hand. split; [exact E|].
        apply negb_true_iff. exact Estopped.
      + intros [] t [Ht _]. exact Ht.
      + intros t [Ht _]. exact (balanced_weaken _ _ _ Ht).
    - apply hoare_ret. intros t [Ht _]. exact Ht.
    - apply hoare_ret. intros t [Ht _]. exact Ht. }
  intros [| |].
  - eapply hoare_pre; [exact Hend|]. intros t [Ht _]. exact Ht.
  - eapply hoare_pre; [exact Hend|]. intros t [Ht _]. exact Ht.
  - apply hoare_ret. intros t [_ Ht]. apply Ht. reflexivity.
Qed.

End Advancing.

Section Walking.
Context {State : Type} `{!Provider State} `{!Environment}.

Abbreviation Table := (TableRuntime.t State).

Lemma hoare_bind_table {B} (P : Table -> Prop) (k : Table -> M State B)
    (Q : B -> Table -> Prop) (R : Table -> Prop) :
  (∀ table, P table -> hoare P (k table) Q R) ->
  hoare P (bind get_table k) Q R.
Proof. intros Hk t Ht. exact (Hk t Ht t Ht). Qed.

Lemma hoare_bind_option {A B} (P : Table -> Prop) what (o : option A)
    (k : A -> M State B) (Q : B -> Table -> Prop) (R : Table -> Prop) :
  (∀ a, o = Some a -> hoare P (k a) Q R) ->
  hoare P (bind (from_option what o) k) Q R.
Proof.
  intros Hk t Ht. unfold bind, from_option.
  destruct o as [a|]; [|exact Logic.I]. exact (Hk a eq_refl t Ht).
Qed.

Lemma hoare_bind_assoc {A B C} (P : Table -> Prop) (m : M State A)
    (f : A -> M State B) (g : B -> M State C) Q (R : Table -> Prop) :
  hoare P (bind m (λ a, bind (f a) g)) Q R -> hoare P (bind (bind m f) g) Q R.
Proof.
  intros Hm t Ht. specialize (Hm t Ht). unfold bind in *.
  destruct (m t) as [t1 [a|code msg|w|]]; exact Hm.
Qed.

Lemma hoare_bind_ret {A B} (P : Table -> Prop) (a : A) (k : A -> M State B)
    Q (R : Table -> Prop) :
  hoare P (k a) Q R -> hoare P (bind (ret a) k) Q R.
Proof. intros Hk t Ht. exact (Hk t Ht). Qed.

Lemma hoare_bind_run {A B} (P : Table -> Prop) (m : M State A)
    (k : A -> M State B) Q (R : Table -> Prop) :
  keeps P R m ->
  (∀ a, (∃ t t', m t = (t', Returned a)) -> hoare P (k a) Q R) ->
  hoare P (bind m k) Q R.
Proof.
  intros Hm Hk t Ht. specialize (Hm t Ht). unfold bind.
  destruct (m t) as [t1 [a|code msg|w|]] eqn:E; try exact Hm.
  apply (Hk a); [eauto|exact Hm].
Qed.

Lemma hoare_bind_keep {A B} (P : Table -> Prop) (m : M State A)
    (k : A -> M State B) Q (R : Table -> Prop) :
  keeps P R m -> (∀ a, hoare P (k a) Q R) -> hoare P (bind m k) Q R.
Proof. intros Hm Hk. eapply hoare_bind; [exact Hm|exact Hk]. Qed.

(** The ordering loop changes nothing. *)
Lemma order_seats_keeps (I R : Table -> Prop) fuel active n ordered cursor :
  keeps I R (order_seats fuel active n ordered cursor).
Proof.
  revert ordered cursor. induction fuel as [|fuel IH]; intros ordered cursor;
    cbn [order_seats]; destruct (decide _);
    try apply keeps_diverge; try apply keeps_ret.
  apply keeps_bind; [apply keeps_from_option|]. intros seat. apply IH.
Qed.

End Walking.

(** Through the reads of a computation, keeping what they give. *)
Ltac walking_step :=
  lazymatch goal with
  | |- hoare _ (bind get_table _) _ _ => apply hoare_bind_table; intros ? ?
  | |- hoare _ (bind (from_option _ _) _) _ _ =>
      apply hoare_bind_option; intros ? ?
  | |- hoare _ (bind (next_active _ _ _) _) _ _ =>
      apply hoare_bind_option; intros ? ?
  | |- hoare _ (bind (bind _ _) _) _ _ => apply hoare_bind_assoc
  | |- hoare _ (bind (ret _) _) _ _ => apply hoare_bind_ret; cbv beta iota
  | |- hoare _ (bind (if decide ?c then _ else _) _) _ _ =>
      destruct (decide c)
  | |- hoare _ (bind (order_seats _ _ _ _ _) _) _ _ =>
      apply hoare_bind_run;
        [apply order_seats_keeps | intros ? (? & ? & ?)]
  | |- hoare _ (if decide ?c then _ else _) _ _ => destruct (decide c)
  | |- hoare _ (let _ := _ in _) _ _ => cbv zeta
  end.

Ltac walking := repeat walking_step.

Ltac idle_side :=
  try solve
    [ intros; assumption
    | intros ? ((Hc & Hn & Hh & Hd) & E & Hs);
      split; [split; [exact Hc|]; split; [exact Hn|];
              split; [exact Hh|exact Hd]|];
      split; [exact E|exact Hs] ].

Ltac never := keeps_auto ltac:(try (intros; exact Logic.I)).

Section Starting.
Context {State : Type} `{!Provider State} `{!Environment} `{!ProviderLaws}.

Abbreviation Table := (TableRuntime.t State).
Abbreviation weak := (balanced (State:=State) false).
Abbreviation strict := (balanced (State:=State) true).

Lemma mapM_starting_stacks (seats : list Seat.t) (p2s : list nat) m starting :
  mapM (λ i, p2s !! i ≫= λ seat, Seat.stack <$> seats !! seat) (seq 0 m)
  = Some starting ->
  length p2s = m ->
  starting = stack_of seats <$> p2s.
Proof.
  intros Hm%mapM_Some_1 Hlen.
  pose proof (Forall2_length _ _ _ Hm) as Hl. rewrite length_seq in Hl.
  apply list_eq. intros i. rewrite list_lookup_fmap.
  destruct (decide (i < m)%nat) as [Hi|Hi].
  - destruct (Forall2_lookup_l _ _ _ i i Hm (lookup_seq_lt 0 m i Hi))
      as (stack & Hstack & Hf).
    rewrite Hstack. destruct (p2s !! i) as [seat|]; [|discriminate]. cbn in *.
    unfold stack_of. rewrite Hf. reflexivity.
  - rewrite (proj2 (lookup_ge_None _ _)) by lia.
    rewrite (proj2 (lookup_ge_None p2s i)) by lia. reflexivity.
Qed.

Lemma mapM_start_stacks (seats : list Seat.t) n start :
  mapM (λ seat, (λ raw, (seat, Seat.stack raw)) <$> seats !! seat) (seq 0 n)
  = Some start ->
  length seats = n ->
  start = imap (λ seat raw, (seat, Seat.stack raw)) seats.
Proof.
  intros Hm%mapM_Some_1 Hlen.
  pose proof (Forall2_length _ _ _ Hm) as Hl. rewrite length_seq in Hl.
  apply list_eq. intros i. rewrite list_lookup_imap.
  destruct (decide (i < n)%nat) as [Hi|Hi].
  - destruct (Forall2_lookup_l _ _ _ i i Hm (lookup_seq_lt 0 n i Hi))
      as (item & Hitem & Hf).
    rewrite Hitem. destruct (seats !! i); [|discriminate]. cbn in *.
    congruence.
  - rewrite (proj2 (lookup_ge_None _ _)) by lia.
    rewrite (proj2 (lookup_ge_None seats i)) by lia. reflexivity.
Qed.

Lemma start_facts_of_seats c (seats : list Seat.t) :
  length seats = TableConfig.num_seats c ->
  sumZ (Seat.stack <$> seats) = chips_target c ->
  start_facts c
    (list_to_map (imap (λ seat raw, (seat, Seat.stack raw)) seats)).
Proof.
  intros Hlen Hsum. split.
  - rewrite sum_values_list_to_map
      by (rewrite fst_imap_pair; apply NoDup_seq).
    rewrite snd_imap_pair. exact Hsum.
  - intros seat. rewrite <- not_eq_None_Some, <- not_elem_of_list_to_map.
    rewrite fst_imap_pair, Hlen. split.
    + intros Hin. apply dec_stable in Hin. apply elem_of_seq in Hin. lia.
    + intros Hlt Hout. apply Hout. apply elem_of_seq. lia.
Qed.

Lemma created_hand_facts c (seats : list Seat.t) p2s m starting start
    ante small_blind big_blind min_bet :
  length seats = TableConfig.num_seats c ->
  sumZ (Seat.stack <$> seats) = chips_target c ->
  NoDup p2s ->
  (∀ seat, seat ∈ p2s -> (seat < TableConfig.num_seats c)%nat) ->
  length p2s = m ->
  mapM (λ i, p2s !! i ≫= λ seat, Seat.stack <$> seats !! seat) (seq 0 m)
  = Some starting ->
  mapM (λ seat, (λ raw, (seat, Seat.stack raw)) <$> seats !! seat)
       (seq 0 (TableConfig.num_seats c))
  = Some start ->
  hand_facts c seats p2s
    (create_state ante small_blind big_blind min_bet starting m) false
    (list_to_map start).
Proof.
  intros Hlen Hsum Hnd Hin Hm Hstarting Hstart.
  apply mapM_starting_stacks in Hstarting; [|exact Hm].
  apply mapM_start_stacks in Hstart; [|exact Hlen].
  destruct (created_chips ante small_blind big_blind min_bet starting m)
    as (Hstacks & Hbets & Hpots).
  cbv zeta in Hstacks, Hbets, Hpots.
  split; [exact Hnd|]. split; [exact Hin|].
  split; [rewrite Hstacks, Hstarting, length_fmap; reflexivity|].
  split; [unfold chips; rewrite Hstacks, Hbets, Hpots, <- Hstarting; lia|].
  split; [discriminate|].
  rewrite Hstart. apply start_facts_of_seats; assumption.
Qed.

Lemma refresh_outcome_idle c seats (R : Table -> Prop) :
  keeps (idle c seats) R _refresh_outcome.
Proof. knowing ltac:(idle_side). Qed.

Lemma post_blinds_unrejected fuel :
  keeps (λ _ : Table, True) (λ _, False) (_post_blinds_locked fuel).
Proof.
  induction fuel; cbn [_post_blinds_locked]; never;
    apply emit_event_unrejected.
Qed.

Lemma deal_hole_cards_unrejected fuel :
  keeps (λ _ : Table, True) (λ _, False) (_deal_hole_cards_locked fuel).
Proof.
  induction fuel; cbn [_deal_hole_cards_locked]; never;
    apply emit_event_unrejected.
Qed.

(** What [_start_hand_locked] does once the hand is in place. *)
Lemma deal_in_strict c (R : Table -> Prop) event_type payload fuel :
  hoare (weak c)
    (bind (_emit_event event_type payload) (λ _,
     bind (_post_blinds_locked fuel) (λ _,
     bind (_deal_hole_cards_locked fuel) (λ _,
       _sync_table_stacks_from_state))))
    (λ _, strict c) R.
Proof.
  apply (hoare_unrejected _ _ _ (weak c)).
  { apply keeps_bind; [apply emit_event_unrejected|intros _].
    apply keeps_bind; [apply post_blinds_unrejected|intros _].
    apply keeps_bind; [apply deal_hole_cards_unrejected|intros _].
    apply sync_unrejected. }
  apply hoare_bind_keep; [apply emit_event_balanced|intros _].
  apply hoare_bind_keep; [apply post_blinds_weak|intros _].
  apply hoare_bind_keep; [apply deal_hole_cards_weak|intros _].
  apply sync_balanced.
Qed.

Lemma heads_up_seated n dealer active bb :
  dealer ∈ active ->
  (∀ a, a ∈ active -> (a < n)%nat) ->
  length active = 2%nat ->
  head (filter (λ seat, seat ≠ dealer) active) = Some bb ->
  seated n active [bb; dealer].
Proof.
  intros Hdealer Hbound Hlen [Hne Hin]%head_Some_elem_of%list_elem_of_filter.
  split; [|split; [|cbn; lia]].
  - apply NoDup_cons. split; [|apply NoDup_singleton].
    intros ->%list_elem_of_singleton. contradiction.
  - intros seat [->|[->|[]%elem_of_nil]%elem_of_cons]%elem_of_cons; auto.
Qed.

Lemma ring_seated n dealer active fuel sb bb (t t' : Table) ordered :
  dealer ∈ active ->
  NoDup active ->
  (∀ a, a ∈ active -> (a < n)%nat) ->
  ¬ (length active < 2)%nat ->
  _next_active_after dealer active n = Some sb ->
  _next_active_after sb active n = Some bb ->
  order_seats fuel active n [sb; bb] bb t = (t', Returned ordered) ->
  seated n active ordered.
Proof.
  intros Hdealer Hnd Hbound Hlen Hsb Hbb Hrun.
  destruct (order_seats_clockwise n dealer active (Hbound _ Hdealer) Hdealer
              Hnd Hbound fuel [sb; bb] bb t t' ordered)
    as (_ & Hcw & Hlength & Hin); [|exact Hrun|].
  - apply visited_blinds; auto. lia.
  - split; [exact (clockwise_from_NoDup n dealer _ Hcw)|].
    split; [|exact Hlength]. intros seat Hseat. auto.
Qed.

Lemma start_hand_strict c seats fuel :
  hoare (idle c seats) (_start_hand_locked fuel) (λ _, strict c) (strict c).
Proof.
  unfold _start_hand_locked. walking.
  { apply hoare_bind_keep; [apply refresh_outcome_idle|intros _].
    apply hoare_reject. intros t Ht. apply Ht. }
  all: apply hoare_bind_keep; [apply keeps_modify_table; idle_side|intros _].
  all: walking.
  all: apply hoare_bind_keep; [apply keeps_modify_table; idle_side|intros _].
  all: walking.
  all: eapply hoare_bind with (I := λ _, weak c);
         [apply hoare_modify_table|intros _; apply deal_in_strict].
  all: intros t ((Hc & Hn & Hh & Hd) & E & Hseats);
       (split; [exact Hc|]); (split; [exact Hn|]); (split; [|exact Hd]);
       cbn; (split; [|discriminate]); rewrite E in Hh.
  all: lazymatch goal with
       | Htable : idle _ _ ?table |- _ =>
           destruct (active_seats_spec table) as [Hdistinct Hbound];
           destruct Htable as ((Hconfig & Hlen & _) & _ & Hsame);
           rewrite Hlen, <- Hconfig in Hbound;
           rewrite Hconfig, Hsame, <- Hseats in *
       end.
  all: lazymatch goal with
       | |- hand_facts _ _ ?p2s _ _ _ =>
           assert (Hseated : seated (TableConfig.num_seats c)
                               (_active_seats table) p2s);
           [| destruct Hseated as (Hnd & Hin & Hlength);
              eapply created_hand_facts; eauto ]
       end.
  all: lazymatch goal with
       | Hrun : order_seats _ ?active ?n [?sb; ?bb] _ _ = _,
         Hsb : _next_active_after ?dealer ?active ?n = Some ?sb
         |- seated _ _ _ =>
           assert (Hdealer : dealer ∈ active);
           [| eapply (ring_seated n dealer active); [..|exact Hrun]; eauto ]
       | |- seated _ ?active [_; ?dealer] =>
           assert (Hdealer : dealer ∈ active);
           [| eapply heads_up_seated; eauto ]
       end.
  all: first
         [ match goal with
           | Hd : _next_active_after _ _ _ = Some ?dealer
             |- ?dealer ∈ _ =>
               apply next_active_scan_spec in Hd as (? & ? & ? & ? & ?);
               assumption
           end
         | match goal with
           | Hn : ¬ (_ ∉ _) |- _ => exact (dec_stable Hn)
           end ].
Qed.

End Starting.

Section PublicOperations.
Context {State : Type} `{!Provider State} `{!Environment} `{!ProviderLaws}.

Abbreviation Table := (TableRuntime.t State).
Abbreviation weak := (balanced (State:=State) false).
Abbreviation strict := (balanced (State:=State) true).

#[local] Hint Resolve emit_event_balanced commit_balanced next_card_balanced
  refresh_outcome_balanced draw_cards_balanced build_view_balanced : keeps.

Lemma advance_keeps_strict c :
  keeps (strict c) (strict c) _advance_locked.
Proof.
  eapply hoare_pre; [apply advance_strict|].
  intros t Ht. exact (balanced_weaken _ _ _ Ht).
Qed.

(** An applied action leaves the stacks of the table up to date; a
    refused one leaves the table as it was. *)
Lemma apply_player_action_strict c seat action amount_to think_delay_ms :
  keeps (strict c) (strict c)
    (_apply_player_action seat action amount_to think_delay_ms).
Proof.
  assert (Hweak : hoare (weak c)
            (_apply_player_action seat action amount_to think_delay_ms)
            (λ _, strict c) (weak c)).
  { unfold _apply_player_action.
    apply hoare_bind_keep; [balancing|intros actor_seat].
    destruct (decide _); [apply hoare_reject; auto|].
    apply hoare_bind_keep; [apply perform_action_weak|intros [logged amount]].
    apply hoare_bind_keep; [balancing|intros _].
    apply hoare_bind_keep; [balancing|intros hand].
    cbv zeta.
    apply hoare_bind_keep; [balancing|intros _].
    apply hoare_bind_keep; [balancing|intros _].
    eapply hoare_bind with (I := λ _, strict c); [apply sync_balanced|].
    intros _. apply hoare_weaken with (P' := strict c) (Q' := λ _, strict c)
                                      (R' := strict c);
      [apply emit_event_balanced|auto..].
    intros t Ht. exact (balanced_weaken _ _ _ Ht). }
  intros t Ht. specialize (Hweak t (balanced_weaken _ _ _ Ht)).
  pose proof (apply_player_action_clean seat action amount_to think_delay_ms t)
    as Hclean.
  destruct (_apply_player_action _ _ _ _ t) as [t' [[]|code msg|w|]];
    try exact Hweak.
  rewrite (Hclean t' code msg eq_refl). exact Ht.
Qed.

#[local] Hint Resolve advance_keeps_strict apply_player_action_strict : keeps.

Lemma retire_hand_strict c :
  hoare (closed c) retire_hand (λ _, strict c) (strict c).
Proof.
  unfold retire_hand.
  eapply hoare_bind with (I := λ _, closed c);
    [apply hoare_the_hand; auto|intros hand].
  eapply hoare_bind with (I := λ _, strict c).
  - apply hoare_modify_table. intros t Ht.
    pose proof (closed_total c t Ht) as Htotal.
    destruct Ht as [(Hc & Hn & _ & Hd) _].
    split; [exact Hc|]. split; [exact Hn|]. split; [exact Htotal|exact Hd].
  - intros _. apply hoare_bind_keep; [apply refresh_outcome_balanced|].
    intros _. apply hoare_ret. auto.
Qed.

(** [if hand.ended: table.current_hand = None; ...; break] after
    [_advance_locked]. *)
Lemma retire_or_go_on {A} c (ended_exit : M State A) (go_on : M State A) :
  hoare (closed c) ended_exit (λ _, strict c) (strict c) ->
  keeps (strict c) (strict c) go_on ->
  keeps (strict c) (strict c)
    (bind the_hand (λ hand,
       if HandRuntime.ended hand then ended_exit else go_on)).
Proof.
  intros Hexit Hgo.
  eapply hoare_bind with
    (I := λ hand t, strict c t ∧ TableRuntime.current_hand t = Some hand).
  { apply hoare_the_hand. auto. }
  intros hand. destruct (HandRuntime.ended hand) eqn:Eended.
  - eapply hoare_pre; [exact Hexit|]. intros t [Ht E]. split; [exact Ht|].
    eauto.
  - eapply hoare_pre; [exact Hgo|]. intros t [Ht _]. exact Ht.
Qed.

Lemma run_bots_loop_strict c passes :
  keeps (strict c) (strict c) (run_bots_loop passes).
Proof.
  induction passes as [|passes IH]; cbn [run_bots_loop];
    [apply keeps_crash|].
  apply keeps_bind; [balancing|intros [actor_seat|]].
  - destruct (decide _); [balancing|].
    apply keeps_bind; [apply keeps_get_table|intros table].
    apply keeps_bind; [apply keeps_the_hand|intros hand].
    apply keeps_bind; [apply keeps_from_option|intros allowed].
    apply keeps_bind; [apply keeps_from_option|intros raw].
    cbv zeta.
    apply keeps_bind; [apply apply_player_action_strict|intros _].
    apply keeps_bind; [apply advance_keeps_strict|intros _].
    apply retire_or_go_on; [apply retire_hand_strict|exact IH].
  - apply keeps_bind; [apply advance_keeps_strict|intros _].
    apply retire_or_go_on; [apply retire_hand_strict|exact IH].
Qed.

#[local] Hint Resolve run_bots_loop_strict : keeps.

Lemma idle_strict c seats (t : Table) : idle c seats t -> strict c t.
Proof. intros [Ht _]. exact Ht. Qed.

(** [start_new_hand] past its first test, and [restart_session] past
    its resets. *)
Lemma start_and_advance c seats fuel :
  hoare (idle c seats)
    (bind (_start_hand_locked fuel) (λ _,
     bind _advance_locked (λ _,
     bind (build_view "human") (λ view,
     bind the_hand (λ hand,
       ret (StartHandResponse.mk view (HandRuntime.event_log hand)))))))
    (λ _, strict c) (strict c).
Proof.
  eapply hoare_bind with (I := λ _, strict c); [apply start_hand_strict|].
  intros _.
  lazymatch goal with |- hoare ?P ?m _ ?R => change (keeps P R m) end.
  balancing.
Qed.

Lemma start_new_hand_strict c fuel :
  keeps (strict c) (strict c) (start_new_hand fuel).
Proof.
  intros t Ht. unfold start_new_hand. unfold bind at 1, get_table.
  destruct (decide (TableRuntime.current_hand t ≠ None)) as [|Hfree];
    [exact Ht|].
  apply dec_stable in Hfree.
  assert (Hrest : hoare (idle c (TableRuntime.seats t))
            (bind _refresh_outcome (λ _,
             bind get_table (λ table,
               if decide (TableRuntime.outcome table ≠ RUNNING) then
                 bind (build_view "human") (λ view,
                   ret (StartHandResponse.mk view []))
               else
                 bind (_start_hand_locked fuel) (λ _,
                 bind _advance_locked (λ _,
                 bind (build_view "human") (λ view,
                 bind the_hand (λ hand,
                   ret (StartHandResponse.mk view
                          (HandRuntime.event_log hand)))))))))
            (λ _, strict c) (strict c)).
  { apply hoare_bind_keep; [apply refresh_outcome_idle|].
    intros _. walking.
    - eapply hoare_pre; [|apply idle_strict].
      lazymatch goal with |- hoare ?P ?m _ ?R => change (keeps P R m) end.
      balancing.
    - apply start_and_advance. }
  apply (Hrest t). split; [exact Ht|]. split; [exact Hfree|reflexivity].
Qed.

Lemma submit_action_strict c viewer_id action action_seq key amount_to :
  keeps (strict c) (strict c)
    (submit_action viewer_id action action_seq key amount_to).
Proof. balancing. Qed.

Lemma advance_call_strict c : keeps (strict c) (strict c) advance.
Proof. balancing. Qed.

Lemma run_bots_strict c :
  keeps (strict c) (strict c) run_bots_until_human_turn.
Proof. balancing. Qed.

Lemma get_view_state_strict c viewer_id :
  keeps (strict c) (strict c) (get_view_state viewer_id).
Proof. balancing. Qed.

Lemma export_hand_history_strict c hand_id mode :
  keeps (strict c) (strict c) (export_hand_history hand_id mode).
Proof. balancing. Qed.

Lemma sumZ_constant {A} (f : A -> Z) (l : list A) v :
  (∀ x, f x = v) -> sumZ (f <$> l) = v * Z.of_nat (length l).
Proof.
  intros Hf. induction l as [|x l IH]; [cbn; lia|].
  rewrite fmap_cons, sumZ_cons, IH, Hf. cbn [length]. lia.
Qed.

Lemma restart_session_strict c fuel :
  keeps (strict c) (strict c) (restart_session fuel).
Proof.
  intros t Ht. unfold restart_session.
  unfold bind at 1, bind at 1, bind at 1, bind at 1, modify_table.
  set (seats' := Seat.set_stack
                   (TableConfig.starting_stack (TableRuntime.config t))
                 <$> TableRuntime.seats t).
  assert (Hrest : hoare (idle c seats')
            (bind (modify_table (λ table,
                     TableRuntime.set_dealer_button_seat
                       (TableConfig.num_seats (TableRuntime.config table) - 1)
                       table)) (λ _,
             bind (modify_table (TableRuntime.set_next_hand_id 1%nat)) (λ _,
             bind (_start_hand_locked fuel) (λ _,
             bind _advance_locked (λ _,
             bind (build_view "human") (λ view,
             bind the_hand (λ hand,
               ret (StartHandResponse.mk view
                      (HandRuntime.event_log hand)))))))))
            (λ _, strict c) (strict c)).
  { apply hoare_bind_keep; [apply keeps_modify_table; idle_side|intros _].
    apply hoare_bind_keep; [apply keeps_modify_table; idle_side|intros _].
    apply start_and_advance. }
  apply Hrest. destruct Ht as (Hc & Hn & _ & _).
  split; [|split; reflexivity].
  split; [exact Hc|]. split; [cbn; unfold seats'; rewrite length_fmap; exact Hn|].
  split; [|intros hand_id history Hempty; cbn in Hempty;
           rewrite lookup_empty in Hempty; discriminate Hempty].
  cbn. unfold seats'. rewrite <- list_fmap_compose.
  rewrite (sumZ_constant _ _ (TableConfig.starting_stack c)), Hn;
    [reflexivity|]. intros raw. cbn. rewrite Hc. reflexivity.
Qed.

#[local] Hint Resolve start_new_hand_strict submit_action_strict
  advance_call_strict run_bots_strict get_view_state_strict
  export_hand_history_strict restart_session_strict : keeps.

Lemma perform_call_strict c call :
  keeps (strict c) (strict c) (perform_call call).
Proof.
  destruct call; unfold perform_call, forget;
    (apply keeps_bind; [eauto with keeps|intros ?; apply keeps_ret]).
Qed.

Lemma reachable_strict (t : Table) :
  reachable t -> strict (TableRuntime.config t) t.
Proof.
  induction 1 as [table_id random_seed config | call t Ht IH Hback].
  - split; [reflexivity|].
    split; [cbn; rewrite length_fmap, length_seq; reflexivity|].
    split.
    + unfold create_table. cbv zeta.
      cbn [TableRuntime.current_hand TableRuntime.seats].
      rewrite <- list_fmap_compose.
      rewrite (sumZ_constant _ _ (TableConfig.starting_stack config));
        [rewrite length_seq; reflexivity|]. reflexivity.
    + intros hand_id history Hempty. cbn in Hempty.
      rewrite lookup_empty in Hempty. discriminate Hempty.
  - pose proof (perform_call_strict _ call t IH) as Hcall.
    destruct (perform_call call t) as [t' [[]|code msg|w|]]; cbn in *;
      try discriminate Hback;
      destruct Hcall as (Hc & Hrest); rewrite Hc; split; auto.
Qed.

End PublicOperations.

(** *** The reference provider keeps the chips *)

Module ReferenceLaws.
Import Reference ReferenceChips.

Lemma sumZ_plus {A} (f g : A -> Z) (l : list A) :
  sumZ ((λ x, f x + g x) <$> l) = sumZ (f <$> l) + sumZ (g <$> l).
Proof.
  induction l as [|x l IH]; [reflexivity|].
  rewrite !fmap_cons, !sumZ_cons, IH. lia.
Qed.

Lemma sumZ_alter {A} (f : A -> Z) (g : A -> A) (l : list A) i x :
  l !! i = Some x ->
  sumZ (f <$> alter g i l) = sumZ (f <$> l) - f x + f (g x).
Proof.
  intros Hi.
  assert (alter g i l = <[i := g x]> l) as ->.
  { apply list_eq. intros j. destruct (decide (i = j)) as [<-|Hne].
    - rewrite list_lookup_alter_eq, Hi.
      rewrite list_lookup_insert_eq by (eapply lookup_lt_Some; exact Hi).
      reflexivity.
    - rewrite list_lookup_alter_ne, list_lookup_insert_ne by exact Hne.
      reflexivity. }
  apply sumZ_insert. exact Hi.
Qed.

Lemma holding_alter (g : Player -> Player) (l : list Player) i :
  (∀ p, holding (g p) = holding p) ->
  sumZ (holding <$> alter g i l) = sumZ (holding <$> l).
Proof.
  intros Hg. destruct (l !! i) as [p|] eqn:Hi.
  - rewrite (sumZ_alter holding g l i p Hi), Hg. lia.
  - replace (alter g i l) with l; [reflexivity|].
    apply list_eq. intros j. destruct (decide (i = j)) as [<-|Hne].
    + rewrite list_lookup_alter_eq, Hi. reflexivity.
    + rewrite list_lookup_alter_ne by exact Hne. reflexivity.
Qed.

Lemma holding_collected (l : list Player) :
  sumZ (holding <$> (collected <$> l)) + sumZ (bet <$> l)
  = sumZ (holding <$> l).
Proof.
  induction l as [|p l IH]; [reflexivity|].
  rewrite !fmap_cons, !sumZ_cons. unfold holding at 1 3. cbn. lia.
Qed.

Lemma award_total s share extra ps ps' amounts :
  award s share extra ps = (ps', amounts) ->
  sumZ (holding <$> ps') = sumZ (holding <$> ps) + sumZ amounts
  ∧ length ps' = length ps.
Proof.
  revert extra ps' amounts.
  induction ps as [|p ps IH]; intros extra ps' amounts; cbn [award].
  - intros [= <- <-]. split; reflexivity.
  - destruct (wins s p).
    + destruct (award s share 0 ps) as [ps'' amounts'] eqn:E.
      intros [= <- <-]. destruct (IH _ _ _ E) as [Hsum Hlen].
      rewrite !fmap_cons, !sumZ_cons, Hsum. unfold holding at 1 3. cbn.
      split; [lia|congruence].
    + destruct (award s share extra ps) as [ps'' amounts'] eqn:E.
      intros [= <- <-]. destruct (IH _ _ _ E) as [Hsum Hlen].
      rewrite !fmap_cons, !sumZ_cons, Hsum. cbn. split; [lia|congruence].
Qed.

Lemma close_round_same s :
  players (close_round s) = players s ∧ pot (close_round s) = pot s.
Proof. unfold close_round. destruct (to_act s); split; reflexivity. Qed.

Lemma total_close_round s : total (close_round s) = total s.
Proof.
  unfold total. destruct (close_round_same s) as [-> ->]. reflexivity.
Qed.

Lemma length_close_round s :
  length (players (close_round s)) = length (players s).
Proof. destruct (close_round_same s) as [-> _]. reflexivity. Qed.

Lemma holding_put_in amount p : holding (put_in amount p) = holding p.
Proof. unfold holding. cbn. lia. Qed.

Lemma holding_pulled p : holding (pulled p) = holding p.
Proof. unfold holding. cbn. lia. Qed.

Ltac open_step H :=
  repeat
    match type of H with
    | (?o ≫= _) = _ =>
        destruct o as [?|] eqn:?; [cbn [mbind option_bind] in H|discriminate H]
    | (let '(_, _) := ?x in _) = _ => destruct x eqn:?
    | (if ?c then _ else _) = _ => destruct c eqn:?; try discriminate H
    | (match ?x with _ => _ end) = _ => destruct x eqn:?; try discriminate H
    end;
  injection H as <- <-.

Ltac close_step :=
  repeat match goal with
         | |- context [if ?c then _ else _] => destruct c
         | |- context [match ?x with Some _ => _ | None => _ end] => destruct x
         end;
  rewrite ?total_close_round, ?length_close_round;
  unfold total;
  cbn [players pot with_players with_pot with_phase with_posted with_to_act
       with_board with_burned with_dealt];
  rewrite ?length_alter, ?length_fmap;
  rewrite ?holding_alter
    by first [ apply holding_put_in | apply holding_pulled
             | intros; reflexivity ].

Lemma step_kept s request s' op :
  step s request = Some (s', op) -> phase s ≠ Finished ∧ kept s s'.
Proof.
  unfold step, kept.
  destruct request, (phase s) eqn:Ephase; try discriminate;
    intros Hstep; (split; [discriminate|]).
  all: open_step Hstep.
  all: close_step.
  all: try (split; reflexivity).
  all: try (pose proof (holding_collected (players s)); split; [lia|reflexivity]).
  all: match goal with
       | E : award _ _ _ _ = _ |- _ =>
           apply award_total in E as [Hsum Hlen]; split; [lia|exact Hlen]
       end.
Qed.

Lemma chips_total (s : t) :
  @chips t provider s = total s.
Proof.
  unfold chips, total. cbn [stacks bets pots provider].
  assert (Hpots : sumZ (Pot.amount <$> pot_list s) = pot s).
  { unfold pot_list. destruct (decide (pot s = 0)) as [->|]; [reflexivity|].
    cbn. lia. }
  rewrite Hpots. unfold holding. rewrite sumZ_plus. lia.
Qed.

Lemma no_bets_sum (s : t) : no_bets s = true -> sumZ (bet <$> players s) = 0.
Proof.
  unfold no_bets. induction (players s) as [|p l IH]; [reflexivity|].
  cbn [forallb]. intros [Hp Hl]%andb_true_iff.
  apply bool_decide_eq_true in Hp.
  rewrite fmap_cons, sumZ_cons, Hp, (IH Hl). reflexivity.
Qed.

Lemma laws : @ProviderLaws t provider.
Proof.
  split.
  - intros ante small_blind big_blind min_bet starting player_count.
    cbn [create_state stacks bets pots provider]. unfold create, pot_list.
    cbn [players pot]. destruct (decide (0 = 0)); [|contradiction].
    rewrite <- !list_fmap_compose. split; [apply list_fmap_id|].
    split; [|reflexivity].
    rewrite (sumZ_constant _ _ 0) by reflexivity. lia.
  - intros s request s' op Hstep. cbn [perform provider] in Hstep.
    apply step_kept in Hstep as [Hphase [Htotal Hlen]].
    split; [|split].
    + cbn [status provider]. unfold running.
      rewrite bool_decide_eq_false_2 by exact Hphase. reflexivity.
    + rewrite !chips_total. exact Htotal.
    + cbn [stacks provider]. rewrite !length_fmap. exact Hlen.
  - intros s Hstopped. cbn [status bets pots provider] in *.
    unfold running in Hstopped. apply negb_false_iff in Hstopped.
    apply andb_true_iff in Hstopped as [[_ Hpot]%andb_true_iff Hbets].
    apply bool_decide_eq_true in Hpot.
    split; [apply no_bets_sum; exact Hbets|].
    unfold pot_list. rewrite Hpot. reflexivity.
Qed.

End ReferenceLaws.

(** *** The chips of a replay *)

Section ReplayChips.
Context {State : Type} `{!Provider State} `{!Environment} `{!ProviderLaws}.

Lemma same_chips_refl s : same_chips s s.
Proof. split; reflexivity. Qed.

Lemma same_chips_trans s1 s2 s3 :
  same_chips s1 s2 -> same_chips s2 s3 -> same_chips s1 s3.
Proof. intros [H1 L1] [H2 L2]. split; congruence. Qed.

Lemma obind_returned {A B} (o : Outcome A) (k : A -> Outcome B) b :
  obind o k = Returned b -> ∃ a, o = Returned a ∧ k a = Returned b.
Proof. destruct o; try discriminate. eauto. Qed.

Lemma call_same_chips s request s' :
  call s request = Returned s' -> same_chips s s'.
Proof.
  unfold call. destruct (perform s request) as [[s0 op]|] eqn:E;
    [|discriminate].
  intros [= <-]. apply performed_chips in E as (_ & Hchips & Hlen).
  split; assumption.
Qed.

Ltac replayed H :=
  repeat
    match type of H with
    | obind _ _ = Returned _ =>
        let a := fresh "a" in
        let Ha := fresh "Ha" in
        apply obind_returned in H as (a & Ha & H)
    end.

Lemma replay_forced_step_same s deck deck_idx out s' deck_idx' :
  replay_forced_step s deck deck_idx = Some out ->
  out = Returned (s', deck_idx') ->
  same_chips s s'.
Proof.
  unfold replay_forced_step. cbv zeta. intros Hstep Hout.
  repeat match type of Hstep with
         | (if ?b then _ else _) = _ => destruct b
         end;
    try discriminate Hstep; injection Hstep as <-;
    replayed Hout; injection Hout as <- _;
    match goal with
    | Hcall : call s _ = Returned _ |- _ => exact (call_same_chips _ _ _ Hcall)
    end.
Qed.

Lemma replay_advance_loop_same passes : ∀ s deck deck_idx s',
  replay_advance_loop passes s deck deck_idx = Returned s' ->
  same_chips s s'.
Proof.
  induction passes as [|passes IH]; intros s deck deck_idx s';
    cbn [replay_advance_loop]; destruct (_ && _);
    try discriminate; try (intros [= <-]; apply same_chips_refl).
  destruct (replay_forced_step s deck deck_idx) as [out|] eqn:Estep;
    [|intros [= <-]; apply same_chips_refl].
  intros Hrun. apply obind_returned in Hrun as ([s1 idx1] & -> & Hrun).
  eapply same_chips_trans;
    [eapply replay_forced_step_same; [exact Estep|reflexivity]|].
  exact (IH _ _ _ _ Hrun).
Qed.

Lemma replay_post_blinds_same fuel : ∀ s s',
  replay_post_blinds fuel s = Returned s' -> same_chips s s'.
Proof.
  induction fuel as [|fuel IH]; intros s s'; cbn [replay_post_blinds];
    destruct (can_post_blind_or_straddle s);
    try discriminate; try (intros [= <-]; apply same_chips_refl).
  intros (s1 & Hcall & Hrun)%obind_returned.
  eapply same_chips_trans; [exact (call_same_chips _ _ _ Hcall)|].
  exact (IH _ _ Hrun).
Qed.

Lemma replay_deal_hole_same fuel : ∀ s deck deck_idx s' deck_idx',
  replay_deal_hole fuel s deck deck_idx = Returned (s', deck_idx') ->
  same_chips s s'.
Proof.
  induction fuel as [|fuel IH]; intros s deck deck_idx s' deck_idx';
    cbn [replay_deal_hole]; destruct (can_deal_hole s);
    try discriminate; try (intros [= <- _]; apply same_chips_refl).
  intros (card & _ & Hrun)%obind_returned.
  apply obind_returned in Hrun as (s1 & Hcall & Hrun).
  eapply same_chips_trans; [exact (call_same_chips _ _ _ Hcall)|].
  exact (IH _ _ _ _ _ Hrun).
Qed.

Lemma replay_row_same s row s' :
  replay_row s row = Returned s' -> same_chips s s'.
Proof.
  unfold replay_row.
  destruct (ActionHistoryRow.action row);
    repeat match goal with
           | |- context [match ?x with _ => _ end] => destruct x
           end;
    try discriminate; apply call_same_chips.
Qed.

Lemma replay_rows_same rows : ∀ p2s deck s deck_idx s' deck_idx',
  replay_rows rows p2s deck s deck_idx = Returned (s', deck_idx') ->
  same_chips s s'.
Proof.
  induction rows as [|row rows IH]; intros p2s deck s deck_idx s' deck_idx';
    cbn [replay_rows]; [intros [= <- _]; apply same_chips_refl|].
  intros ([s1 idx1] & Hadvance & Hrun)%obind_returned.
  assert (H1 : same_chips s s1).
  { destruct (bool_decide _).
    - apply obind_returned in Hadvance as (s0 & Hloop & [= <- _]).
      exact (replay_advance_loop_same _ _ _ _ _ Hloop).
    - injection Hadvance as <- _. apply same_chips_refl. }
  apply (same_chips_trans _ _ _ H1).
  destruct (actor_index s1); [|exact (IH _ _ _ _ _ _ Hrun)].
  apply obind_returned in Hrun as (seat & _ & Hrun).
  destruct (decide _); [discriminate|].
  apply obind_returned in Hrun as (s2 & Hrow & Hrun).
  eapply same_chips_trans; [exact (replay_row_same _ _ _ Hrow)|].
  exact (IH _ _ _ _ _ _ Hrun).
Qed.

Lemma replay_finish_same passes : ∀ s deck deck_idx s',
  replay_finish passes s deck deck_idx = Returned s' -> same_chips s s'.
Proof.
  induction passes as [|passes IH]; intros s deck deck_idx s';
    cbn [replay_finish]; destruct (status s);
    try discriminate; try (intros [= <-]; apply same_chips_refl).
  destruct (bool_decide _).
  - intros (s1 & Hcall & Hrun)%obind_returned.
    eapply same_chips_trans; [exact (call_same_chips _ _ _ Hcall)|].
    exact (IH _ _ _ _ Hrun).
  - destruct (replay_forced_step s deck deck_idx) as [out|] eqn:Estep;
      [|intros [= <-]; apply same_chips_refl].
    intros Hrun. apply obind_returned in Hrun as ([s1 idx1] & -> & Hrun).
    eapply same_chips_trans;
      [eapply replay_forced_step_same; [exact Estep|reflexivity]|].
    exact (IH _ _ _ _ Hrun).
Qed.

End ReplayChips.

Section DictFolds.

Lemma sum_values_empty : sum_values ∅ = 0.
Proof. unfold sum_values. rewrite map_to_list_empty. reflexivity. Qed.

Lemma sum_values_insert (d : gmap nat Z) k v :
  d !! k = None -> sum_values (<[k := v]> d) = v + sum_values d.
Proof.
  intros Hk. unfold sum_values.
  rewrite (sumZ_Permutation _ (((k, v) :: map_to_list d).*2)).
  - reflexivity.
  - rewrite (map_to_list_insert d k v Hk). reflexivity.
Qed.

(** [{seat: stack for ...}] built by successive assignments to
    different keys. *)
Lemma foldl_insert_sum (played : list (nat * Z)) : ∀ d : gmap nat Z,
  NoDup played.*1 ->
  (∀ k, k ∈ played.*1 -> d !! k = None) ->
  let d' := foldl (λ (d : gmap nat Z) '(seat, stack), <[seat := stack]> d)
              d played in
  sum_values d' = sum_values d + sumZ played.*2
  ∧ ∀ k, is_Some (d' !! k) ↔ is_Some (d !! k) ∨ k ∈ played.*1.
Proof.
  induction played as [|[seat stack] played IH]; intros d Hnd Hfree;
    cbn [foldl]; cbv zeta.
  - split; [cbn; lia|]. intros k. split; [auto|].
    intros [Hk|[]%elem_of_nil]. exact Hk.
  - rewrite !fmap_cons in *. cbn [fst snd] in *.
    apply NoDup_cons in Hnd as [Hseat Hnd].
    destruct (IH (<[seat := stack]> d) Hnd) as [Hsum Hdom].
    { intros k Hk. rewrite lookup_insert_ne; [apply Hfree; right; exact Hk|].
      intros ->. contradiction. }
    cbv zeta in Hsum, Hdom. split.
    + rewrite Hsum, sum_values_insert by (apply Hfree; left).
      rewrite sumZ_cons. lia.
    + intros k. rewrite Hdom, elem_of_cons.
      destruct (decide (seat = k)) as [->|Hne].
      * rewrite lookup_insert_eq. split; [auto|]. intros _. left. eauto.
      * rewrite lookup_insert_ne by exact Hne. split.
        -- intros [?|?]; auto.
        -- intros [?|[?|?]]; auto. congruence.
Qed.

(** [for seat in range(n): if seat not in d: d[seat] = g(seat)] *)
Lemma foldl_fill_sum (g : nat -> Z) (l : list nat) : ∀ d : gmap nat Z,
  NoDup l ->
  sum_values
    (foldl (λ (d : gmap nat Z) seat,
              match d !! seat with
              | Some _ => d
              | None => <[seat := g seat]> d
              end) d l)
  = sum_values d
    + sumZ ((λ seat, match d !! seat with Some _ => 0 | None => g seat end)
            <$> l).
Proof.
  induction l as [|a l IH]; intros d Hnd; cbn [foldl]; [cbn; lia|].
  apply NoDup_cons in Hnd as [Ha Hnd].
  rewrite IH by exact Hnd. rewrite fmap_cons, sumZ_cons.
  destruct (d !! a) as [v|] eqn:Hda.
  - lia.
  - rewrite sum_values_insert by exact Hda.
    rewrite (sumZ_fmap_same
               (λ seat, match d !! seat with Some _ => 0 | None => g seat end)
               (λ seat, match <[a := g a]> d !! seat with
                        | Some _ => 0 | None => g seat end) l).
    + lia.
    + intros seat Hseat. rewrite lookup_insert_ne; [reflexivity|].
      intros ->. contradiction.
Qed.

(** A sum over the seats of the table, split into the seats of a list
    and the others. *)
Lemma sumZ_split_members (g : nat -> Z) n (l : list nat) :
  NoDup l -> (∀ a, a ∈ l -> (a < n)%nat) ->
  sumZ (g <$> seq 0 n)
  = sumZ (g <$> l)
    + sumZ ((λ a, if decide (a ∈ l) then 0 else g a) <$> seq 0 n).
Proof.
  induction 1 as [|a l Ha Hnd IH]; intros Hbound.
  - cbn [fmap list_fmap].
    rewrite (sumZ_fmap_same g (λ a, if decide (a ∈ []) then 0 else g a)).
    + unfold sumZ at 2. cbn. lia.
    + intros a _. destruct (decide _) as [[]%elem_of_nil|]; reflexivity.
  - rewrite fmap_cons, sumZ_cons.
    rewrite IH by (intros b Hb; apply Hbound; right; exact Hb).
    rewrite (sumZ_fmap_update
               (λ b, if decide (b ∈ l) then 0 else g b)
               (λ b, if decide (b ∈ a :: l) then 0 else g b)
               (seq 0 n) a).
    + destruct (decide (a ∈ l)); [contradiction|].
      destruct (decide (a ∈ a :: l)) as [|Hout]; [lia|].
      exfalso. apply Hout. left.
    + apply NoDup_seq.
    + apply elem_of_seq. pose proof (Hbound a ltac:(left)). lia.
    + intros b Hb. destruct (decide (b ∈ l)), (decide (b ∈ a :: l));
        try reflexivity.
      * exfalso. apply n0. right. assumption.
      * apply elem_of_cons in e as [->|]; contradiction.
Qed.

(** The sum of a dictionary whose keys are the seats of the table. *)
Lemma sum_values_seats (d : gmap nat Z) n :
  (∀ seat, is_Some (d !! seat) ↔ (seat < n)%nat) ->
  sum_values d = sumZ ((λ seat, default 0 (d !! seat)) <$> seq 0 n).
Proof.
  intros Hdom.
  set (l := (λ seat, (seat, default 0 (d !! seat))) <$> seq 0 n).
  assert (Hkeys : l.*1 = seq 0 n).
  { unfold l. rewrite <- list_fmap_compose. apply list_fmap_id. }
  assert (Hvalues : l.*2 = (λ seat, default 0 (d !! seat)) <$> seq 0 n).
  { unfold l. rewrite <- list_fmap_compose. reflexivity. }
  assert (Hd : d = list_to_map l).
  { apply map_eq. intros k. destruct (decide (k < n)%nat) as [Hk|Hk].
    - destruct (proj2 (Hdom k) Hk) as [v Hv]. rewrite Hv. symmetry.
      apply elem_of_list_to_map_1; [rewrite Hkeys; apply NoDup_seq|].
      unfold l. apply list_elem_of_fmap. exists k.
      split; [rewrite Hv; reflexivity|]. apply elem_of_seq. lia.
    - rewrite (proj1 (not_elem_of_list_to_map l k)).
      + destruct (d !! k) eqn:Hv; [|reflexivity].
        exfalso. apply Hk, Hdom. eauto.
      + rewrite Hkeys. intros Hin%elem_of_seq. lia. }
  rewrite Hd at 1. rewrite sum_values_list_to_map
    by (rewrite Hkeys; apply NoDup_seq).
  exact (f_equal sumZ Hvalues).
Qed.

End DictFolds.

Section ReplayConservation.
Context {State : Type} `{!Provider State} `{!Environment} `{!ProviderLaws}.

Lemma mapM_played (stacks0 : list Z) (p2s : list nat) played :
  mapM (λ '(player_index, seat),
          (λ stack, (seat, stack)) <$> stacks0 !! player_index)
       (imap pair p2s)
  = Some played ->
  (length p2s <= length stacks0)%nat
  ∧ played.*1 = p2s
  ∧ played.*2 = take (length p2s) stacks0.
Proof.
  intros Hm%mapM_Some_1.
  pose proof (Forall2_length _ _ _ Hm) as Hl. rewrite length_imap in Hl.
  assert (Hat : ∀ i seat, p2s !! i = Some seat ->
            ∃ stack, stacks0 !! i = Some stack
                     ∧ played !! i = Some (seat, stack)).
  { intros i seat Hi.
    destruct (Forall2_lookup_l _ _ _ i (i, seat) Hm) as (item & Hitem & Hf).
    { rewrite list_lookup_imap, Hi. reflexivity. }
    cbn in Hf. destruct (stacks0 !! i) as [stack|]; [|discriminate].
    injection Hf as <-. eauto. }
  split; [|split].
  - destruct (decide (length p2s <= length stacks0)%nat) as [|Hover];
      [assumption|]. exfalso.
    destruct (lookup_lt_is_Some_2 p2s (length stacks0)) as [seat Hseat];
      [lia|].
    destruct (Hat _ _ Hseat) as (stack & Hstack & _).
    apply lookup_lt_Some in Hstack. lia.
  - apply list_eq. intros i. rewrite list_lookup_fmap.
    destruct (p2s !! i) as [seat|] eqn:Hi.
    + destruct (Hat _ _ Hi) as (stack & _ & ->). reflexivity.
    + rewrite (proj2 (lookup_ge_None played i)); [reflexivity|].
      apply lookup_ge_None in Hi. lia.
  - apply list_eq. intros i. rewrite list_lookup_fmap.
    destruct (p2s !! i) as [seat|] eqn:Hi.
    + destruct (Hat _ _ Hi) as (stack & Hstack & ->).
      rewrite lookup_take_lt by (eapply lookup_lt_Some; exact Hi).
      rewrite Hstack. reflexivity.
    + apply lookup_ge_None in Hi.
      rewrite (proj2 (lookup_ge_None played i)) by lia.
      rewrite lookup_take_ge by lia. reflexivity.
Qed.

Lemma mapM_replay_stacks (initial : gmap nat Z) (p2s : list nat) m starting :
  mapM (λ i, p2s !! i ≫= λ seat, initial !! seat) (seq 0 m) = Some starting ->
  (m <= length p2s)%nat
  ∧ length starting = m
  ∧ starting = (λ seat, default 0 (initial !! seat)) <$> take m p2s.
Proof.
  intros Hm%mapM_Some_1.
  pose proof (Forall2_length _ _ _ Hm) as Hl. rewrite length_seq in Hl.
  assert (Hat : ∀ i, (i < m)%nat ->
            ∃ seat stack, p2s !! i = Some seat ∧ initial !! seat = Some stack
                          ∧ starting !! i = Some stack).
  { intros i Hi.
    destruct (Forall2_lookup_l _ _ _ i i Hm (lookup_seq_lt 0 m i Hi))
      as (stack & Hstack & Hf).
    destruct (p2s !! i) as [seat|]; [|discriminate]. cbn in Hf. eauto. }
  split; [|split; [lia|]].
  - destruct m as [|m]; [lia|].
    destruct (Hat m ltac:(lia)) as (seat & _ & Hseat & _).
    apply lookup_lt_Some in Hseat. lia.
  - apply list_eq. intros i. rewrite list_lookup_fmap.
    destruct (decide (i < m)%nat) as [Hi|Hi].
    + destruct (Hat i Hi) as (seat & stack & Hseat & Hstack & ->).
      rewrite lookup_take_lt by exact Hi. rewrite Hseat. cbn.
      rewrite Hstack. reflexivity.
    + rewrite (proj2 (lookup_ge_None starting i)) by lia.
      rewrite lookup_take_ge by lia. reflexivity.
Qed.

(** The final stacks of a replay that ended on a state that has
    stopped: the seats of the hand have the stacks of the state, every
    other seat of the table its initial stack, and their sum is the sum
    of the initial stacks. *)
Lemma replay_final_stacks_sum history (state0 state : State) starting
    final :
  NoDup (HandHistory.player_index_to_seat history) ->
  (∀ seat, seat ∈ HandHistory.player_index_to_seat history ->
           (seat < TableConfig.num_seats (HandHistory.config history))%nat) ->
  (∀ seat, is_Some (HandHistory.initial_stacks_by_seat history !! seat)
           ↔ (seat < TableConfig.num_seats (HandHistory.config history))%nat)
  ->
  mapM (λ i, HandHistory.player_index_to_seat history !! i ≫= λ seat,
             HandHistory.initial_stacks_by_seat history !! seat)
       (seq 0 (length (HandHistory.active_seats history)))
  = Some starting ->
  stacks state0 = starting ->
  sumZ (bets state0) = 0 ->
  sumZ (Pot.amount <$> pots state0) = 0 ->
  same_chips state0 state ->
  status state = false ->
  replay_final_stacks history state = Some final ->
  sum_values final = sum_values (HandHistory.initial_stacks_by_seat history).
Proof.
  intros Hnd Hbound Hdom Hstarting Hstacks0 Hbets0 Hpots0 [Hchips Hlength]
    Hstopped Hfinal.
  set (p2s := HandHistory.player_index_to_seat history) in *.
  set (initial := HandHistory.initial_stacks_by_seat history) in *.
  set (g := λ seat, default 0 (initial !! seat)).
  apply mapM_replay_stacks in Hstarting as (Hm & Hlen & Hstart).
  unfold replay_final_stacks in Hfinal. fold p2s initial in Hfinal.
  destruct (mapM _ (imap pair p2s)) as [played|] eqn:Hplayed;
    [|discriminate]. cbn [mbind option_bind] in Hfinal.
  injection Hfinal as <-.
  apply mapM_played in Hplayed as (Hp & Hkeys & Hvalues).
  assert (Hsame : length p2s = length (stacks state)).
  { rewrite Hlength, Hstacks0, Hlen in *. lia. }
  rewrite Hsame, firstn_all in Hvalues.
  assert (Htake : take (length (HandHistory.active_seats history)) p2s = p2s).
  { apply take_ge. rewrite Hlength, Hstacks0, Hlen in Hsame. lia. }
  rewrite Htake in Hstart.
  destruct (finished_chips state Hstopped) as [Hbets Hpots].
  assert (Hstate : sumZ (stacks state) = sumZ (g <$> p2s)).
  { unfold chips in Hchips. rewrite Hbets, Hpots, Hbets0, Hpots0 in Hchips.
    rewrite Hstacks0, Hstart in Hchips. unfold g. lia. }
  rewrite (foldl_fill_sum g) by apply NoDup_seq.
  destruct (foldl_insert_sum played ∅) as [Hsum Hin].
  { rewrite Hkeys. exact Hnd. }
  { intros k _. apply lookup_empty. }
  cbv zeta in Hsum, Hin.
  rewrite Hsum, sum_values_empty, Hvalues, Hstate.
  rewrite (sumZ_fmap_same
             (λ a, if decide (a ∈ p2s) then 0 else g a) _
             (seq 0 (TableConfig.num_seats (HandHistory.config history)))).
  - pose proof (sumZ_split_members g _ p2s Hnd Hbound) as Hsplit.
    rewrite (sum_values_seats _ _ Hdom). fold g. lia.
  - intros seat _. specialize (Hin seat). rewrite Hkeys in Hin.
    destruct (foldl _ ∅ played !! seat) as [v|] eqn:Hv.
    + destruct (decide (seat ∈ p2s)) as [|Hout]; [reflexivity|].
      exfalso. apply Hout.
      destruct (proj1 Hin ltac:(eauto)) as [[x Hx]|]; [|assumption].
      rewrite lookup_empty in Hx. discriminate Hx.
    + destruct (decide (seat ∈ p2s)) as [Hseat|]; [|reflexivity].
      exfalso. destruct (proj2 Hin (or_intror Hseat)) as [x Hx].
      discriminate Hx.
Qed.

Lemma item_returned {A} what (o : option A) a :
  item what o = Returned a -> o = Some a.
Proof. destruct o; [intros [= ->]; reflexivity|discriminate]. Qed.

(** The runs of the replay, one after the other. *)
Lemma replay_returned fuel history result :
  replay_hand_history fuel history = Returned result ->
  ∃ starting state final,
    mapM (λ i, HandHistory.player_index_to_seat history !! i ≫= λ seat,
               HandHistory.initial_stacks_by_seat history !! seat)
         (seq 0 (length (HandHistory.active_seats history)))
    = Some starting
    ∧ same_chips
        (create_state
           (TableConfig.ante (HandHistory.config history))
           (TableConfig.small_blind (HandHistory.config history))
           (TableConfig.big_blind (HandHistory.config history))
           (TableConfig.big_blind (HandHistory.config history))
           starting (length (HandHistory.active_seats history)))
        state
    ∧ replay_final_stacks history state = Some final
    ∧ ReplayResult.final_stacks_by_seat result = final
    ∧ ReplayResult.hand_terminated result = negb (status state)
    ∧ ReplayResult.chip_conservation result
      = bool_decide
          (sum_values final
           = sum_values (HandHistory.initial_stacks_by_seat history))
    ∧ ReplayResult.action_replay_match result
      = bool_decide (final = HandHistory.final_stacks_by_seat history).
Proof.
  intros Hrun.
  unfold replay_hand_history, _replay_from_history in Hrun.
  cbv zeta in Hrun.
  apply obind_returned in Hrun as (starting & Hstarting & Hrun).
  apply item_returned in Hstarting.
  apply obind_returned in Hrun as (s1 & Hblinds & Hrun).
  apply obind_returned in Hrun as ([s2 idx2] & Hdeal & Hrun).
  apply obind_returned in Hrun as ([s3 idx3] & Hrows & Hrun).
  apply obind_returned in Hrun as (s4 & Hfinish & Hrun).
  apply obind_returned in Hrun as (final & Hfinal & Hrun).
  apply item_returned in Hfinal.
  injection Hrun as <-.
  exists starting, s4, final.
  split; [exact Hstarting|]. split; [|auto].
  eapply same_chips_trans; [exact (replay_post_blinds_same _ _ _ Hblinds)|].
  eapply same_chips_trans;
    [exact (replay_deal_hole_same _ _ _ _ _ _ Hdeal)|].
  eapply same_chips_trans;
    [exact (replay_rows_same _ _ _ _ _ _ _ Hrows)|].
  exact (replay_finish_same _ _ _ _ _ Hfinish).
Qed.

End ReplayConservation.

(** *** Chip conservation *)

Section ChipConservation.
Context {State : Type} `{!Provider State} `{!Environment} `{!ProviderLaws}.

(** On every reachable table the stacks of all seats, the chips bet in
    front of the players and the amounts of the pots sum to the
    starting stack times the number of seats, and [_invariant_payload]
    reports [chip_conservation].  The rules engine is taken to satisfy
    [ProviderLaws]. *)
Theorem table_chips_conserved (t : TableRuntime.t State) :
  reachable t ->
  sumZ (Seat.stack <$> TableRuntime.seats t)
  + match TableRuntime.current_hand t with
    | Some hand =>
        sumZ (bets (HandRuntime.pokerkit_state hand))
        + sumZ (Pot.amount <$> pots (HandRuntime.pokerkit_state hand))
    | None => 0
    end
  = TableConfig.starting_stack (TableRuntime.config t)
    * Z.of_nat (TableConfig.num_seats (TableRuntime.config t))
  ∧ InvariantPayload.chip_conservation (_invariant_payload t) = true.
Proof.
  intros Hreach.
  destruct (reachable_strict t Hreach) as (_ & _ & Hhand & _).
  set (c := TableRuntime.config t) in *.
  assert (Htotal :
            sumZ (Seat.stack <$> TableRuntime.seats t)
            + match TableRuntime.current_hand t with
              | Some hand =>
                  sumZ (bets (HandRuntime.pokerkit_state hand))
                  + sumZ (Pot.amount
                            <$> pots (HandRuntime.pokerkit_state hand))
              | None => 0
              end
            = chips_target c).
  { destruct (TableRuntime.current_hand t) as [hand|].
    - destruct Hhand as [(_ & _ & _ & Hsum & _) Hsynced].
      specialize (Hsynced eq_refl). unfold synced in Hsynced.
      rewrite Hsynced in Hsum. unfold chips in Hsum. lia.
    - lia. }
  split; [exact Htotal|].
  unfold _invariant_payload. cbv zeta. fold c.
  destruct (TableRuntime.current_hand t) as [hand|];
    cbn [InvariantPayload.chip_conservation];
    apply bool_decide_eq_true; unfold chips_target in Htotal; lia.
Qed.



(** The replay of a hand history whose players sit in different seats
    of its table, and whose initial stacks are given for exactly the
    seats of the table: when it returns a result that reports the hand
    terminated, the result reports [chip_conservation], the final
    stacks of the replay summing to the initial stacks. *)
Theorem replay_conserves_chips fuel history result :
  NoDup (HandHistory.player_index_to_seat history) ->
  (∀ seat, seat ∈ HandHistory.player_index_to_seat history ->
           (seat < TableConfig.num_seats (HandHistory.config history))%nat) ->
  (∀ seat, is_Some (HandHistory.initial_stacks_by_seat history !! seat)
           ↔ (seat < TableConfig.num_seats (HandHistory.config history))%nat)
  ->
  replay_hand_history fuel history = Returned result ->
  ReplayResult.hand_terminated result = true ->
  ReplayResult.chip_conservation result = true
  ∧ sum_values (ReplayResult.final_stacks_by_seat result)
    = sum_values (HandHistory.initial_stacks_by_seat history).
Proof.
  intros Hnd Hbound Hdom Hrun Hstopped.
  apply replay_returned in Hrun
    as (starting & state & final & Hstarting & Hsame & Hfinal & Hresult
        & Hterminated & Hchips & _).
  rewrite Hterminated in Hstopped. apply negb_true_iff in Hstopped.
  destruct (created_chips
              (TableConfig.ante (HandHistory.config history))
              (TableConfig.small_blind (HandHistory.config history))
              (TableConfig.big_blind (HandHistory.config history))
              (TableConfig.big_blind (HandHistory.config history))
              starting (length (HandHistory.active_seats history)))
    as (Hstacks0 & Hbets0 & Hpots0).
  cbv zeta in Hstacks0, Hbets0, Hpots0.
  pose proof (replay_final_stacks_sum history _ state starting final
                Hnd Hbound Hdom Hstarting Hstacks0 Hbets0 Hpots0 Hsame
                Hstopped Hfinal) as Hsum.
  rewrite Hchips, Hresult. split; [|exact Hsum].
  apply bool_decide_eq_true. exact Hsum.
Qed.

End ChipConservation.

(** The run of a computation on the value found, when a projection of
    its result is known. *)
Lemma first_run {A B} (o : option A) (k : A -> Outcome B) (f : B -> bool) a :
  o = Some a ->
  (o ≫= λ x, f <$> value_of (k x)) = Some true ->
  ∃ b, k a = Returned b ∧ f b = true.
Proof.
  intros -> Hrun. cbn in Hrun.
  destruct (k a) as [b| | |]; try discriminate Hrun.
  injection Hrun as Hb. eauto.
Qed.

Section ChipSamples.
#[local] Existing Instance Reference.provider.
#[local] Existing Instance Reference.environment.
#[local] Existing Instance ReferenceLaws.laws.

(** The heads-up table in its second hand: the seats hold 77 and 80,
    and the blinds of 2 and 1 are in front of the two players. *)
Example heads_up_table_chips :
  (Seat.stack <$> TableRuntime.seats heads_up_table,
   (λ hand, (bets (HandRuntime.pokerkit_state hand),
             Pot.amount <$> pots (HandRuntime.pokerkit_state hand)))
   <$> TableRuntime.current_hand heads_up_table)
  = ([77; 80], Some ([2; 1], [])).
Proof. vm_compute. reflexivity. Qed.

Lemma table_chips_conserved_witness :
  reachable heads_up_table
  ∧ sumZ (Seat.stack <$> TableRuntime.seats heads_up_table)
    + match TableRuntime.current_hand heads_up_table with
      | Some hand =>
          sumZ (bets (HandRuntime.pokerkit_state hand))
          + sumZ (Pot.amount <$> pots (HandRuntime.pokerkit_state hand))
      | None => 0
      end
    = TableConfig.starting_stack (TableRuntime.config heads_up_table)
      * Z.of_nat (TableConfig.num_seats (TableRuntime.config heads_up_table))
  ∧ InvariantPayload.chip_conservation (_invariant_payload heads_up_table)
    = true.
Proof.
  split; [exact heads_up_table_reachable|].
  exact (table_chips_conserved heads_up_table heads_up_table_reachable).
Defined.



(** The first hand of the heads-up table replays to its end. *)
Lemma replay_conserves_chips_witness :
  ∃ history result,
    TableRuntime.completed_hands heads_up_table !! 1%nat = Some history
    ∧ replay_hand_history 100 history = Returned result
    ∧ ReplayResult.hand_terminated result = true
    ∧ ReplayResult.chip_conservation result = true
    ∧ sum_values (ReplayResult.final_stacks_by_seat result)
      = sum_values (HandHistory.initial_stacks_by_seat history).
Proof.
  destruct (TableRuntime.completed_hands heads_up_table !! 1%nat)
    as [history|] eqn:Hhistory; [|vm_compute in Hhistory; discriminate Hhistory].
  assert (Hreplay :
            (TableRuntime.completed_hands heads_up_table !! 1%nat
             ≫= λ history, ReplayResult.hand_terminated
                             <$> value_of (replay_hand_history 100 history))
            = Some true)
    by (vm_compute; reflexivity).
  destruct (first_run _ (replay_hand_history 100)
              ReplayResult.hand_terminated history Hhistory Hreplay)
    as (result & Hrun & Hstopped).
  destruct (reachable_strict heads_up_table heads_up_table_reachable)
    as (_ & _ & _ & Hhistories).
  destruct (Hhistories 1%nat history Hhistory)
    as (Hconfig & _ & [_ Hdom] & Hnd & Hbound).
  rewrite <- Hconfig in Hdom, Hbound.
  exists history, result.
  split; [reflexivity|]. split; [exact Hrun|]. split; [exact Hstopped|].
  exact (replay_conserves_chips 100 history result Hnd Hbound Hdom Hrun
           Hstopped).
Defined.

End ChipSamples.

(** ** The next seat with chips *)

Section NextActive.
Local Open Scope nat_scope.

(** A scan that finds nothing has met no active seat. *)
Lemma next_active_scan_none active n cursor rounds :
  next_active_scan active n cursor rounds = None ->
  ∀ j, 1 <= j <= rounds -> (cursor + j) mod n ∉ active.
Proof.
  revert cursor.
  induction rounds as [|rounds IH]; intros cursor Hscan j Hj; [lia|].
  cbn [next_active_scan] in Hscan.
  destruct (decide _) as [|Hout]; [discriminate|].
  destruct (decide (j = 1)) as [->|Hne]; [exact Hout|].
  replace ((cursor + j) mod n) with (((cursor + 1) mod n + (j - 1)) mod n).
  - apply IH; [exact Hscan|lia].
  - rewrite Nat.Div0.add_mod_idemp_l. f_equal. lia.
Qed.

(** Every seat of the table is met within [n] steps from any seat. *)
Lemma reached_within n cursor a :
  a < n -> ∃ j, 1 <= j <= n ∧ (cursor + j) mod n = a.
Proof.
  intros Ha.
  set (r := cursor mod n).
  assert (Hr : r < n) by (apply Nat.mod_upper_bound; lia).
  assert (Hshift : ∀ j, (cursor + j) mod n = (r + j) mod n).
  { intros j. unfold r. rewrite Nat.Div0.add_mod_idemp_l. reflexivity. }
  destruct (decide (r < a)) as [Hlt|Hge].
  - exists (a - r). split; [lia|]. rewrite Hshift.
    replace (r + (a - r)) with a by lia. apply Nat.mod_small. exact Ha.
  - exists (n + a - r). split; [lia|]. rewrite Hshift.
    replace (r + (n + a - r)) with (a + 1 * n) by lia.
    rewrite Nat.Div0.mod_add. apply Nat.mod_small. exact Ha.
Qed.

(** [_next_active_after] returns the first seat with chips on the way
    round the table from the seat after [seat_id]: the seat [k] steps
    on, none of the seats before it being active. *)
Theorem next_active_after_first seat_id active total_seats found :
  _next_active_after seat_id active total_seats = Some found ->
  found ∈ active
  ∧ ∃ k, 1 <= k <= total_seats
         ∧ found = (seat_id + k) mod total_seats
         ∧ ∀ j, 1 <= j < k -> (seat_id + j) mod total_seats ∉ active.
Proof.
  intros Hnext. unfold _next_active_after in Hnext.
  apply next_active_scan_spec in Hnext as (k & Hk & Hfound & Hin & Hfree).
  split; [exact Hin|]. exists k. auto.
Qed.

(** [_next_active_after] fails (with its [RuntimeError]) exactly when
    none of the seats [0 .. total_seats - 1] is active. *)
Theorem next_active_after_fails seat_id active total_seats :
  _next_active_after seat_id active total_seats = None
  ↔ ∀ a, a ∈ active -> total_seats <= a.
Proof.
  unfold _next_active_after. split.
  - intros Hscan a Ha.
    destruct (decide (total_seats <= a)) as [|Hlt]; [assumption|]. exfalso.
    destruct (reached_within total_seats seat_id a ltac:(lia))
      as (j & Hj & Hmod).
    apply (next_active_scan_none _ _ _ _ Hscan j Hj).
    rewrite Hmod. exact Ha.
  - intros Hnone.
    destruct (next_active_scan active total_seats seat_id total_seats)
      as [found|] eqn:Hscan; [|reflexivity]. exfalso.
    apply next_active_scan_spec in Hscan as (k & Hk & -> & Hin & _).
    apply Hnone in Hin.
    assert ((seat_id + k) mod total_seats < total_seats)
      by (apply Nat.mod_upper_bound; lia).
    lia.
Qed.

(** From seat 4 of six seats, seats 1 and 3 being active, the next is
    seat 1, three steps on. *)
Lemma next_active_after_first_witness :
  _next_active_after 4 [1; 3] 6 = Some 1
  ∧ 1 ∈ [1; 3]
  ∧ ∃ k, 1 <= k <= 6 ∧ 1 = (4 + k) mod 6
         ∧ ∀ j, 1 <= j < k -> (4 + j) mod 6 ∉ [1; 3].
Proof.
  split; [reflexivity|].
  exact (next_active_after_first 4 [1; 3] 6 1 eq_refl).
Defined.

End NextActive.

(** ** What a view shows *)

Section Views.
Context {State : Type} `{!Provider State} `{!Environment}.

Abbreviation Table := (TableRuntime.t State).
Abbreviation Hand := (HandRuntime.t State).

(** The seats of a view whose cards are hidden: every seat but seat 0
    that has not shown its cards. *)
Lemma view_seat_hidden (table : Table) (hand : Hand) acc item acc' :
  (∀ i s, acc.2 !! i = Some s -> i ≠ 0%nat ->
          i ∉ HandRuntime.showdown_revealed_seats hand ->
          SeatState.cards s = [None; None]) ->
  view_seat table hand acc item = Some acc' ->
  ∀ i s, acc'.2 !! i = Some s -> i ≠ 0%nat ->
         i ∉ HandRuntime.showdown_revealed_seats hand ->
         SeatState.cards s = [None; None].
Proof.
  destruct acc as [chips seats], item as [player_index seat_id].
  intros Hhidden Hview i s Hi Hne Hout. unfold view_seat in Hview.
  destruct (bets _ !! player_index) as [bet|]; [|discriminate].
  destruct (seats !! seat_id) as [seat|] eqn:Hseat; [|discriminate].
  destruct (TableRuntime.seats table !! seat_id) as [raw|]; [|discriminate].
  cbn [mbind option_bind] in Hview. injection Hview as <-.
  cbn [snd] in Hi.
  destruct (decide (i = seat_id)) as [->|Hother].
  - rewrite list_lookup_insert_eq in Hi
      by (eapply lookup_lt_Some; exact Hseat).
    injection Hi as <-. cbn [SeatState.cards].
    destruct (decide (seat_id = 0%nat)); [contradiction|].
    destruct (decide (seat_id ∈ _)); [contradiction|]. reflexivity.
  - rewrite list_lookup_insert_ne in Hi by (intros ->; contradiction).
    exact (Hhidden i s Hi Hne Hout).
Qed.

Lemma view_seats_hidden (table : Table) (hand : Hand) items : ∀ acc acc',
  (∀ i s, acc.2 !! i = Some s -> i ≠ 0%nat ->
          i ∉ HandRuntime.showdown_revealed_seats hand ->
          SeatState.cards s = [None; None]) ->
  view_seats table hand acc items = Some acc' ->
  ∀ i s, acc'.2 !! i = Some s -> i ≠ 0%nat ->
         i ∉ HandRuntime.showdown_revealed_seats hand ->
         SeatState.cards s = [None; None].
Proof.
  induction items as [|item items IH]; intros acc acc' Hhidden Hview;
    cbn [view_seats] in Hview.
  - injection Hview as <-. exact Hhidden.
  - destruct (view_seat table hand acc item) as [acc1|] eqn:Hstep;
      [|discriminate].
    cbn [mbind option_bind] in Hview.
    exact (IH acc1 acc' (view_seat_hidden _ _ _ _ _ Hhidden Hstep) Hview).
Qed.

(** A view never shows the hole cards of a seat other than seat 0
    unless the seat has shown them at the showdown of the current
    hand: such a seat has the two unknown cards, whoever the viewer
    is. *)
Theorem view_hides_unrevealed_cards (table : Table) viewer_id view seat_id
    seat :
  _build_view_state table viewer_id = Some view ->
  ViewState.seats view !! seat_id = Some seat ->
  seat_id ≠ 0%nat ->
  (∀ hand, TableRuntime.current_hand table = Some hand ->
           seat_id ∉ HandRuntime.showdown_revealed_seats hand) ->
  SeatState.cards seat = [None; None].
Proof.
  intros Hview Hseat Hne Hout. unfold _build_view_state in Hview.
  cbv zeta in Hview.
  assert (Hblank :
            ∀ i s,
              imap (λ seat_id raw,
                      SeatState.mk seat_id (Seat.player_type raw)
                        (Seat.display_name raw) (Seat.stack raw) false false
                        (bool_decide (Seat.stack raw <= 0)) None false
                        [None; None])
                   (TableRuntime.seats table) !! i = Some s ->
              SeatState.cards s = [None; None]).
  { intros i s Hi. rewrite list_lookup_imap in Hi.
    destruct (TableRuntime.seats table !! i); [|discriminate].
    injection Hi as <-. reflexivity. }
  destruct (TableRuntime.current_hand table) as [hand|] eqn:Hhand.
  - destruct (view_seats table hand _ _) as [[chips seats]|] eqn:Hseats;
      [|discriminate].
    cbn [mbind option_bind] in Hview.
    destruct (pot_views hand); [|discriminate].
    cbn [mbind option_bind] in Hview.
    destruct (actor_seat_of hand); [|discriminate].
    cbn [mbind option_bind] in Hview.
    destruct (_build_showdown_payload hand); [|discriminate].
    cbn [mbind option_bind] in Hview.
    destruct (_allowed_actions_for_viewer table viewer_id); [|discriminate].
    cbn [mbind option_bind] in Hview. injection Hview as <-.
    cbn [ViewState.seats] in Hseat.
    refine (view_seats_hidden table hand _ _ _ _ Hseats seat_id seat Hseat
              Hne (Hout hand eq_refl)).
    intros i s Hi _ _. exact (Hblank i s Hi).
  - cbn [mbind option_bind] in Hview.
    destruct (_allowed_actions_for_viewer table viewer_id); [|discriminate].
    cbn [mbind option_bind] in Hview. injection Hview as <-.
    cbn [ViewState.seats] in Hseat. exact (Hblank seat_id seat Hseat).
Qed.


(** [_normalize_hole_cards] always gives two cards: the first two of
    the list it is given, an unknown card standing for each one that is
    missing. *)
Theorem normalized_hole_cards_pair (cards : list (option Card)) :
  _normalize_hole_cards cards
  = [mjoin (cards !! 0%nat); mjoin (cards !! 1%nat)].
Proof.
  destruct cards as [|a [|b cards]]; reflexivity.
Qed.

(** The action log of a view holds the latest rows of the action log
    of the hand, twelve at most, in their order, numbered from 1. *)
Theorem view_action_log_recent (table : Table) viewer_id view hand :
  _build_view_state table viewer_id = Some view ->
  TableRuntime.current_hand table = Some hand ->
  let rows := HandRuntime.action_log_internal hand in
  let log := ViewState.action_log view in
  length log = (length rows `min` 12)%nat
  ∧ ∀ i entry,
      log !! i = Some entry ->
      ActionLogEntry.event_seq entry = (i + 1)%nat
      ∧ ∃ row,
          rows !! (length rows - length log + i)%nat = Some row
          ∧ ActionLogEntry.seat_id entry = ActionHistoryRow.seat_id row
          ∧ ActionLogEntry.action entry = ActionHistoryRow.action row
          ∧ ActionLogEntry.amount_to entry = ActionHistoryRow.amount_to row
          ∧ ActionLogEntry.street entry = ActionHistoryRow.street row.
Proof.
  intros Hview Hhand rows log.
  assert (Hlog : log = recent_actions hand).
  { unfold log. unfold _build_view_state in Hview. cbv zeta in Hview.
    rewrite Hhand in Hview.
    destruct (view_seats table hand _ _) as [[chips seats]|];
      [|discriminate].
    cbn [mbind option_bind] in Hview.
    destruct (pot_views hand); [|discriminate].
    cbn [mbind option_bind] in Hview.
    destruct (actor_seat_of hand); [|discriminate].
    cbn [mbind option_bind] in Hview.
    destruct (_build_showdown_payload hand); [|discriminate].
    cbn [mbind option_bind] in Hview.
    destruct (_allowed_actions_for_viewer table viewer_id); [|discriminate].
    cbn [mbind option_bind] in Hview. injection Hview as <-. reflexivity. }
  assert (Hlength : length log = (length rows `min` 12)%nat).
  { rewrite Hlog. unfold recent_actions. cbv zeta. fold rows.
    rewrite length_imap, length_drop. lia. }
  split; [exact Hlength|].
  intros i entry Hentry. rewrite Hlog in Hentry.
  unfold recent_actions in Hentry. cbv zeta in Hentry. fold rows in Hentry.
  rewrite list_lookup_imap in Hentry.
  rewrite lookup_drop in Hentry.
  replace (length rows - length log + i)%nat
    with (length rows - 12 + i)%nat by lia.
  destruct (rows !! (length rows - 12 + i)%nat) as [row|]; [|discriminate].
  injection Hentry as <-. split; [reflexivity|]. exists row. auto.
Qed.

(** The actions [_allowed_actions_for_seat] allows do not contradict
    each other: a check and a call are never both allowed (a check
    goes with a call amount of 0, a call with a positive one), nor a
    bet and a raise; the least bet and the least raise are never both
    given; going all-in is allowed to a seat with chips only; and a
    seat that is not the one to act is allowed nothing. *)
Theorem allowed_actions_consistent (table : Table) (hand : Hand) seat
    allowed :
  _allowed_actions_for_seat table hand seat = Some allowed ->
  (AllowedActions.can_check allowed = true ->
   AllowedActions.can_call allowed = false
   ∧ AllowedActions.call_amount allowed = 0)
  ∧ (AllowedActions.can_call allowed = true ->
     0 < AllowedActions.call_amount allowed)
  ∧ (AllowedActions.can_bet allowed = true ->
     AllowedActions.can_raise allowed = false
     ∧ AllowedActions.min_raise_to allowed = None)
  ∧ (AllowedActions.can_raise allowed = true ->
     AllowedActions.min_bet_to allowed = None)
  ∧ (AllowedActions.can_all_in allowed = true ->
     0 < AllowedActions.effective_stack allowed)
  ∧ (actor_seat_of hand ≠ Some (Some seat) ->
     AllowedActions.can_fold allowed = false
     ∧ AllowedActions.can_check allowed = false
     ∧ AllowedActions.can_call allowed = false
     ∧ AllowedActions.can_bet allowed = false
     ∧ AllowedActions.can_raise allowed = false
     ∧ AllowedActions.can_all_in allowed = false).
Proof.
  unfold _allowed_actions_for_seat. cbv zeta.
  destruct (actor_seat_of hand) as [actor_seat|]; [|discriminate].
  cbn [mbind option_bind].
  destruct (TableRuntime.seats table !! seat) as [raw|]; [|discriminate].
  cbn [mbind option_bind].
  destruct (decide (actor_seat ≠ Some seat)) as [Hother|Hactor].
  - intros [= <-]. cbn.
    refine (conj _ (conj _ (conj _ (conj _ (conj _ _)))));
      try discriminate.
    intros _. repeat split.
  - destruct (max_of _) as [highest|]; [|discriminate].
    cbn [mbind option_bind]. intros [= <-].
    cbn [AllowedActions.can_fold AllowedActions.can_check
         AllowedActions.can_call AllowedActions.can_bet
         AllowedActions.can_raise AllowedActions.can_all_in
         AllowedActions.call_amount AllowedActions.min_bet_to
         AllowedActions.min_raise_to AllowedActions.effective_stack].
    refine (conj _ (conj _ (conj _ (conj _ (conj _ _))))).
    + intros [_ Hzero%bool_decide_eq_true]%andb_true_iff.
      split; [|exact Hzero].
      apply andb_false_iff. right. apply bool_decide_eq_false. lia.
    + intros [_ Hpos%bool_decide_eq_true]%andb_true_iff. exact Hpos.
    + intros [_ Hlive%negb_true_iff]%andb_true_iff. rewrite Hlive.
      split; [apply andb_false_r|reflexivity].
    + intros [_ Hlive]%andb_true_iff. rewrite Hlive. reflexivity.
    + intros [_ Hpos%bool_decide_eq_true]%andb_true_iff. exact Hpos.
    + intros Hc. exfalso. apply Hactor. intros ->. apply Hc. reflexivity.
Qed.

(** The questions the service answers leave the table as it is. *)
Theorem queries_leave_table (table : Table) viewer_id hand_id mode :
  (get_view_state viewer_id table).1 = table
  ∧ (get_allowed_actions viewer_id table).1 = table
  ∧ (get_server_action_seq table).1 = table
  ∧ (export_hand_history hand_id mode table).1 = table.
Proof.
  split; [apply read_only_build_view|]. split; [|split].
  - unfold get_allowed_actions, bind, get_table. apply read_only_from_option.
  - unfold get_server_action_seq, bind, get_table.
    destruct (TableRuntime.current_hand table); reflexivity.
  - unfold export_hand_history, bind, get_table.
    destruct (TableRuntime.completed_hands table !! hand_id);
      [destruct (decide _)|]; reflexivity.
Qed.


End Views.

(** ** The rows of a showdown *)

Section SortedDescending.
Context {A : Type} (key : A -> Z).

Lemma insert_desc_perm x l : insert_desc key x l ≡ₚ x :: l.
Proof.
  induction l as [|y l IH]; [reflexivity|]. cbn [insert_desc].
  destruct (key y <=? key x); [reflexivity|].
  rewrite IH. apply Permutation_swap.
Qed.

Lemma sorted_desc_perm l : sorted_desc key l ≡ₚ l.
Proof.
  induction l as [|x l IH]; [reflexivity|].
  unfold sorted_desc in *. cbn [foldr].
  rewrite insert_desc_perm, IH. reflexivity.
Qed.

Lemma insert_desc_sorted x l :
  StronglySorted (λ a b, key b <= key a) l ->
  StronglySorted (λ a b, key b <= key a) (insert_desc key x l).
Proof.
  induction 1 as [|y l Hsorted IH Hall]; cbn [insert_desc].
  - repeat constructor.
  - destruct (key y <=? key x) eqn:Hle.
    + apply Z.leb_le in Hle. constructor; [constructor; assumption|].
      constructor; [exact Hle|].
      eapply Forall_impl; [exact Hall|]. intros z Hz. cbn in Hz. lia.
    + apply Z.leb_gt in Hle. constructor; [exact IH|].
      rewrite insert_desc_perm. constructor; [lia|exact Hall].
Qed.

Lemma sorted_desc_sorted l :
  StronglySorted (λ a b, key b <= key a) (sorted_desc key l).
Proof.
  induction l as [|x l IH]; [constructor|].
  unfold sorted_desc in *. cbn [foldr]. apply insert_desc_sorted, IH.
Qed.

End SortedDescending.

Lemma concat_at_most_one {A K} (key : A -> K) (keys : list K)
    (found : list (list A)) :
  Forall2 (at_most_one key) keys found ->
  (∀ k, k ∈ key <$> concat found -> k ∈ keys)
  ∧ (NoDup keys -> NoDup (key <$> concat found)).
Proof.
  induction 1 as [|k items keys found Hone _ [IHin IHnd]].
  - split; [intros k Hk; exact Hk|intros _; constructor].
  - cbn [concat]. rewrite fmap_app. split.
    + intros k' [Hk|Hk]%elem_of_app; [|right; apply IHin, Hk].
      destruct Hone as [->|(item & -> & <-)].
      * apply elem_of_nil in Hk. destruct Hk.
      * apply list_elem_of_singleton in Hk. subst. left.
    + intros [Hfresh Hnd]%NoDup_cons.
      destruct Hone as [->|(item & -> & <-)]; [exact (IHnd Hnd)|].
      cbn. apply NoDup_cons. split; [|exact (IHnd Hnd)].
      intros Hk. apply Hfresh, IHin, Hk.
Qed.

Section Showdown.
Context {State : Type} `{!Provider State}.


End Showdown.

(** What is found in a value that is there. *)
Lemma found_in {A B} (o : option A) (f : A -> option B) a :
  o = Some a -> is_Some (o ≫= f) -> ∃ b, f a = Some b.
Proof. intros -> [b Hb]. exists b. exact Hb. Qed.

Lemma found_true {A} (o : option A) (f : A -> bool) a :
  o = Some a -> f <$> o = Some true -> f a = true.
Proof. intros -> [= Hf]. exact Hf. Qed.

Section ViewSamples.
#[local] Existing Instance Reference.provider.
#[local] Existing Instance Reference.environment.

(** In the first hand of the heads-up table, the human to act, the
    view has the cards of seat 0 and hides those of seat 1. *)
Example heads_up_turn_view_cards :
  (λ view, SeatState.cards <$> ViewState.seats view)
  <$> _build_view_state heads_up_turn_table "human"
  = Some [[Some "4d"; Some "4s"]; [None; None]].
Proof. vm_compute. reflexivity. Qed.

Lemma view_hides_unrevealed_cards_witness :
  ∃ view seat,
    _build_view_state heads_up_turn_table "human" = Some view
    ∧ ViewState.seats view !! 1%nat = Some seat
    ∧ SeatState.cards seat = [None; None].
Proof.
  destruct (_build_view_state heads_up_turn_table "human") as [view|]
    eqn:Hview; [|vm_compute in Hview; discriminate Hview].
  assert (Hsome : is_Some (_build_view_state heads_up_turn_table "human"
                           ≫= λ view, ViewState.seats view !! 1%nat))
    by (vm_compute; eauto).
  destruct (found_in _ _ view Hview Hsome) as [seat Hseat].
  assert (Hhidden :
            (λ hand, bool_decide
                       (1%nat ∉ HandRuntime.showdown_revealed_seats hand))
            <$> TableRuntime.current_hand heads_up_turn_table = Some true)
    by (vm_compute; reflexivity).
  exists view, seat. split; [reflexivity|]. split; [exact Hseat|].
  apply (view_hides_unrevealed_cards heads_up_turn_table "human" view
           1%nat seat Hview Hseat); [discriminate|].
  intros hand Hhand. eapply bool_decide_eq_true.
  exact (found_true _ _ hand Hhand Hhidden).
Defined.

Lemma view_action_log_recent_witness :
  ∃ view hand,
    _build_view_state heads_up_checked_table "human" = Some view
    ∧ TableRuntime.current_hand heads_up_checked_table = Some hand
    ∧ length (ViewState.action_log view)
      = (length (HandRuntime.action_log_internal hand) `min` 12)%nat.
Proof.
  destruct (_build_view_state heads_up_checked_table "human") as [view|]
    eqn:Hview; [|vm_compute in Hview; discriminate Hview].
  destruct (TableRuntime.current_hand heads_up_checked_table) as [hand|]
    eqn:Hhand; [|vm_compute in Hhand; discriminate Hhand].
  exists view, hand. split; [reflexivity|]. split; [reflexivity|].
  exact (proj1 (view_action_log_recent heads_up_checked_table "human" view
                  hand Hview Hhand)).
Defined.

Lemma allowed_actions_consistent_witness :
  ∃ hand allowed,
    TableRuntime.current_hand heads_up_turn_table = Some hand
    ∧ _allowed_actions_for_seat heads_up_turn_table hand 0 = Some allowed
    ∧ (AllowedActions.can_check allowed = true ->
       AllowedActions.can_call allowed = false
       ∧ AllowedActions.call_amount allowed = 0).
Proof.
  destruct (TableRuntime.current_hand heads_up_turn_table) as [hand|]
    eqn:Hhand; [|vm_compute in Hhand; discriminate Hhand].
  assert (Hsome : is_Some (TableRuntime.current_hand heads_up_turn_table
                           ≫= λ hand, _allowed_actions_for_seat
                                        heads_up_turn_table hand 0))
    by (vm_compute; eauto).
  destruct (found_in _ _ hand Hhand Hsome) as [allowed Hallowed].
  exists hand, allowed. split; [reflexivity|]. split; [exact Hallowed|].
  exact (proj1 (allowed_actions_consistent heads_up_turn_table hand 0%nat
                  allowed Hallowed)).
Defined.

(** The hand of the heads-up table after the human's check has gone to
    its showdown: seat 1 won 4, seat 0 nothing. *)
Example heads_up_showdown_rows :
  (TableRuntime.current_hand heads_up_checked_table
   ≫= λ hand, _build_showdown_payload hand
   ≫= λ payload : option ShowdownPayload.t, payload
   ≫= λ rows : ShowdownPayload.t,
     Some ((λ row, (ShowdownRow.seat_id row, ShowdownRow.amount_won row))
           <$> ShowdownPayload.winners rows,
           (λ row, (ShowdownRow.seat_id row, ShowdownRow.amount_won row))
           <$> ShowdownPayload.losers rows))
  = Some ([(1%nat, 4)], [(0%nat, 0)]).
Proof. vm_compute. reflexivity. Qed.


End ViewSamples.

(** ** The event logs *)

Ltac chronicle_side :=
  try solve
    [ intros; assumption
    | intros ? (Hid & Hfeed & Hhand & Hdone); split; [exact Hid|];
      split; [exact Hfeed|];
      split; [first [exact Hhand
                    | cbn; intros ? Enone; discriminate Enone
                    | cbn; intros ? [= <-]; unfold log_of; cbn;
                      repeat constructor ]
             | first [ exact Hdone
                     | cbn; intros ? ? Hempty; rewrite lookup_empty in Hempty;
                       discriminate Hempty ] ]
    | intros ? ? (Hid & Hfeed & Hhand & Hdone) E; split; [exact Hid|];
      split; [exact Hfeed|]; split; [|exact Hdone];
      cbn; intros ? [= <-]; exact (Hhand _ E) ].

Ltac chronicling := knowing ltac:(chronicle_side).

Lemma StronglySorted_snoc_lt (l : list nat) bound :
  StronglySorted lt l -> Forall (λ n, (n <= bound)%nat) l ->
  StronglySorted lt (l ++ [S bound]).
Proof.
  induction 1 as [|a l Hsorted IH Hall]; intros Hbound; cbn.
  - repeat constructor.
  - apply Forall_cons in Hbound as [Ha Hbound].
    constructor; [exact (IH Hbound)|].
    apply Forall_app. split; [exact Hall|]. constructor; [lia|constructor].
Qed.

Lemma strictly_increasing_sorted (l : list nat) :
  StronglySorted lt l -> strictly_increasing l = true.
Proof.
  induction 1 as [|a l Hsorted IH Hall]; [reflexivity|].
  destruct l as [|b l]; [reflexivity|]. cbn [strictly_increasing].
  apply Forall_cons in Hall as [Hab _].
  rewrite bool_decide_eq_true_2 by exact Hab. exact IH.
Qed.

Section Chronicle.
Context {State : Type} `{!Provider State} `{!Environment}.

Abbreviation Table := (TableRuntime.t State).
Abbreviation told := (chronicled (State:=State)).

Lemma emit_event_chronicled tid event_type payload :
  payload_hides_cards payload ->
  keeps (told tid) (told tid) (_emit_event event_type payload).
Proof.
  intros Hpayload t (Hid & Hfeed & Hhand & Hdone).
  unfold _emit_event, bind, modify_table, get_table, modify_hand, the_hand.
  cbn.
  destruct (TableRuntime.current_hand t) as [hand|] eqn:E; cbn;
    [|exact Logic.I].
  destruct (Hhand hand eq_refl) as [[Hall Hsorted] Hbound].
  split; [exact Hid|]. split.
  { cbn. apply Forall_app. split; [exact Hfeed|].
    constructor; [exact Hpayload|constructor]. }
  split; [|exact Hdone].
  cbn. intros hand' [= <-]. cbn. split; [split|].
  - apply Forall_app. split; [exact Hall|].
    constructor; [|constructor]. split; [exact Hpayload|]. split;
      [exact Hid|reflexivity].
  - rewrite fmap_app. cbn. apply StronglySorted_snoc_lt; [exact Hsorted|].
    apply Forall_fmap. exact Hbound.
  - apply Forall_app. split.
    + eapply Forall_impl; [exact Hbound|]. intros e He. cbn in He. lia.
    + constructor; [cbn; lia|constructor].
Qed.


#[local] Hint Resolve emit_event_chronicled : keeps.
#[local] Hint Extern 1 (payload_hides_cards _) =>
  cbn;
  repeat match goal with
         | |- context [decide ?c] => destruct (decide c)
         end;
  first [assumption | exact Logic.I] : keeps.

Lemma sync_chronicled tid :
  keeps (told tid) (told tid) _sync_table_stacks_from_state.
Proof. chronicling. Qed.

Lemma post_blinds_chronicled tid fuel :
  keeps (told tid) (told tid) (_post_blinds_locked fuel).
Proof. induction fuel; cbn [_post_blinds_locked]; chronicling. Qed.

Lemma deal_hole_cards_chronicled tid fuel :
  keeps (told tid) (told tid) (_deal_hole_cards_locked fuel).
Proof. induction fuel; cbn [_deal_hole_cards_locked]; chronicling. Qed.

Lemma draw_cards_chronicled tid count :
  keeps (told tid) (told tid) (draw_cards count).
Proof. induction count; cbn [draw_cards]; chronicling. Qed.

Lemma order_seats_chronicled tid fuel active n ordered cursor :
  keeps (told tid) (told tid) (order_seats fuel active n ordered cursor).
Proof.
  revert ordered cursor.
  induction fuel; intros; cbn [order_seats]; chronicling.
Qed.

Lemma tally_winners_chronicled tid items tally :
  keeps (told tid) (told tid) (tally_winners items tally).
Proof.
  revert tally.
  induction items as [|[i a] items IH]; intros; cbn [tally_winners];
    chronicling.
Qed.

#[local] Hint Resolve sync_chronicled post_blinds_chronicled
  deal_hole_cards_chronicled draw_cards_chronicled order_seats_chronicled
  tally_winners_chronicled : keeps.

Lemma refresh_outcome_chronicled tid :
  keeps (told tid) (told tid) _refresh_outcome.
Proof. chronicling. Qed.

Lemma perform_action_chronicled tid seat action amount_to :
  keeps (told tid) (told tid) (perform_action seat action amount_to).
Proof. chronicling. Qed.

Lemma apply_player_action_chronicled tid seat action amount_to delay :
  keeps (told tid) (told tid)
    (_apply_player_action seat action amount_to delay).
Proof. chronicling. Qed.

Lemma award_pot_chronicled tid :
  keeps (told tid) (told tid) award_pot.
Proof. chronicling. Qed.

#[local] Hint Resolve refresh_outcome_chronicled perform_action_chronicled
  apply_player_action_chronicled award_pot_chronicled : keeps.

Lemma complete_hand_chronicled tid :
  keeps (told tid) (told tid) _complete_hand_locked.
Proof.
  chronicling.
  lazymatch goal with
  | Htable : told tid ?table,
    Hsource : told tid ?source,
    Hhand : TableRuntime.current_hand ?source = Some ?hand
    |- context [history_of ?table ?hand] =>
      destruct Htable as (Hid' & _ & _ & Hcompleted);
      destruct Hsource as (_ & _ & Hcurrent & _);
      destruct (Hcurrent _ Hhand) as [Hlog _]
  end.
  intros t (Hid & Hfeed & Hh & Hd). split; [exact Hid|].
  split; [exact Hfeed|]. split; [exact Hh|]. cbn. intros hand_id history.
  intros [[<- <-]|[_ Hold]]%lookup_insert_Some.
  - cbn. auto.
  - exact (Hcompleted _ _ Hold).
Qed.

#[local] Hint Resolve complete_hand_chronicled : keeps.

Lemma forced_step_chronicled tid hand :
  keeps (told tid) (told tid) (forced_step hand).
Proof. chronicling. Qed.

#[local] Hint Resolve forced_step_chronicled : keeps.

Lemma advance_loop_chronicled tid passes :
  keeps (told tid) (told tid) (advance_loop passes).
Proof. induction passes; cbn [advance_loop]; chronicling. Qed.

#[local] Hint Resolve advance_loop_chronicled : keeps.

Lemma advance_chronicled tid : keeps (told tid) (told tid) _advance_locked.
Proof. chronicling. Qed.

Lemma start_hand_chronicled tid fuel :
  keeps (told tid) (told tid) (_start_hand_locked fuel).
Proof. chronicling. Qed.

#[local] Hint Resolve advance_chronicled start_hand_chronicled : keeps.

Lemma run_bots_loop_chronicled tid passes :
  keeps (told tid) (told tid) (run_bots_loop passes).
Proof. induction passes; cbn [run_bots_loop]; chronicling. Qed.

#[local] Hint Resolve run_bots_loop_chronicled : keeps.

Lemma perform_call_chronicled tid call :
  keeps (told tid) (told tid) (perform_call call).
Proof. destruct call; chronicling. Qed.

Lemma reachable_chronicled (t : Table) :
  reachable t -> told (TableRuntime.table_id t) t.
Proof.
  induction 1 as [table_id random_seed config | call t Ht IH Hback].
  - split; [reflexivity|]. split; [constructor|].
    split; [intros hand [=]|]. intros hand_id history Hnone.
    cbn in Hnone. rewrite lookup_empty in Hnone. discriminate Hnone.
  - pose proof (perform_call_chronicled _ call t IH) as Hcall.
    destruct (perform_call call t) as [t' [[]|code msg|w|]]; cbn in *;
      try discriminate Hback;
      destruct Hcall as (Hc & Hrest); rewrite Hc; split; auto.
Qed.

End Chronicle.

Lemma StronglySorted_lt_lookup (l : list nat) i j a b :
  StronglySorted lt l -> (i < j)%nat ->
  l !! i = Some a -> l !! j = Some b -> (a < b)%nat.
Proof.
  intros Hsorted Hij Hi Hj.
  rewrite <- (take_drop j l) in Hsorted.
  apply (StronglySorted_app_1_elem_of _ _ _ a b Hsorted).
  - apply (list_elem_of_lookup_2 _ i). rewrite lookup_take_lt by exact Hij.
    exact Hi.
  - apply (list_elem_of_lookup_2 _ 0). rewrite lookup_drop, Nat.add_0_r.
    exact Hj.
Qed.

(** What is found in what is found in a value that is there. *)
Lemma found_both {A B C} (o : option A) (f : A -> option B) (g : B -> C)
    a b c :
  o = Some a -> f a = Some b -> g <$> (o ≫= f) = Some c -> g b = c.
Proof. intros -> Hb. cbn. rewrite Hb. intros [= Hc]. exact Hc. Qed.

Section EventLogs.
Context {State : Type} `{!Provider State} `{!Environment}.

Abbreviation Table := (TableRuntime.t State).

(** No envelope of a reachable table, whether offered to the
    subscribers, in the event log of the current hand or in the events
    of a recorded history, carries a card dealt to a seat other than
    seat 0: a [DEAL_CARD] payload that names its card is to seat 0. *)
Theorem deal_card_events_hide_cards (t : Table) envelope to_seat index card :
  reachable t ->
  envelope ∈ TableRuntime.subscriber_feed t
  ∨ (∃ hand, TableRuntime.current_hand t = Some hand
             ∧ envelope ∈ HandRuntime.event_log hand)
  ∨ (∃ hand_id history,
       TableRuntime.completed_hands t !! hand_id = Some history
       ∧ envelope ∈ HandHistory.events history) ->
  EventEnvelope.payload envelope = PDealCard to_seat index (Some card) ->
  to_seat = 0%nat.
Proof.
  intros Hreach Hwhere Hpayload.
  destruct (reachable_chronicled t Hreach) as (_ & Hfeed & Hhand & Hdone).
  assert (Hhides : payload_hides_cards (EventEnvelope.payload envelope)).
  { destruct Hwhere as [Hin|[(hand & Hcurrent & Hin)|(id & h & Hh & Hin)]].
    - rewrite Forall_forall in Hfeed. exact (Hfeed _ Hin).
    - destruct (Hhand hand Hcurrent) as [[Hall _] _].
      rewrite Forall_forall in Hall. exact (proj1 (Hall _ Hin)).
    - destruct (Hdone id h Hh) as (_ & _ & _ & [Hall _]).
      rewrite Forall_forall in Hall. exact (proj1 (Hall _ Hin)). }
  rewrite Hpayload in Hhides. exact Hhides.
Qed.

(** The envelopes in the event log of the current hand of a reachable
    table carry the identifier of the table and the number of the
    hand; their sequence numbers grow along the log and are at most the
    counter of the table. *)
Theorem hand_events_belong (t : Table) hand i envelope :
  reachable t ->
  TableRuntime.current_hand t = Some hand ->
  HandRuntime.event_log hand !! i = Some envelope ->
  EventEnvelope.table_id envelope = TableRuntime.table_id t
  ∧ EventEnvelope.hand_id envelope = HandRuntime.hand_id hand
  ∧ (EventEnvelope.event_seq envelope <= TableRuntime.event_seq t)%nat
  ∧ ∀ j later,
      (i < j)%nat -> HandRuntime.event_log hand !! j = Some later ->
      (EventEnvelope.event_seq envelope < EventEnvelope.event_seq later)%nat.
Proof.
  intros Hreach Hhand Hi.
  destruct (reachable_chronicled t Hreach) as (_ & _ & Hcurrent & _).
  destruct (Hcurrent hand Hhand) as [[Hall Hsorted] Hbound].
  rewrite Forall_forall in Hall, Hbound.
  pose proof (list_elem_of_lookup_2 _ _ _ Hi) as Hin.
  destruct (Hall _ Hin) as (_ & Htable & Hid).
  split; [exact Htable|]. split; [exact Hid|].
  split; [exact (Hbound _ Hin)|].
  intros j later Hij Hj.
  apply (StronglySorted_lt_lookup _ i j _ _ Hsorted Hij);
    rewrite list_lookup_fmap; [rewrite Hi|rewrite Hj]; reflexivity.
Qed.

(** The history of a completed hand of a reachable table is filed
    under its own hand number, names the table, counts its events, and
    holds envelopes of that hand of that table only. *)
Theorem history_events_recorded (t : Table) hand_id history :
  reachable t ->
  TableRuntime.completed_hands t !! hand_id = Some history ->
  HandHistory.hand_id history = hand_id
  ∧ HandHistory.table_id history = TableRuntime.table_id t
  ∧ HandHistory.event_count history = length (HandHistory.events history)
  ∧ ∀ envelope,
      envelope ∈ HandHistory.events history ->
      EventEnvelope.table_id envelope = TableRuntime.table_id t
      ∧ EventEnvelope.hand_id envelope = hand_id.
Proof.
  intros Hreach Hhistory.
  destruct (reachable_chronicled t Hreach) as (_ & _ & _ & Hdone).
  destruct (Hdone hand_id history Hhistory)
    as (Hid & Htable & Hcount & [Hall _]).
  split; [exact Hid|]. split; [exact Htable|]. split; [exact Hcount|].
  intros envelope Hin. rewrite Forall_forall in Hall.
  destruct (Hall _ Hin) as (_ & Ht & Hh). auto.
Qed.

(** The replay of the history of a completed hand of a reachable
    table, when it returns, reports [event_seq_monotonic]: the sequence
    numbers of the recorded events grow. *)
Theorem replay_event_seq_monotonic (t : Table) hand_id history fuel result :
  reachable t ->
  TableRuntime.completed_hands t !! hand_id = Some history ->
  replay_hand_history fuel history = Returned result ->
  ReplayResult.event_seq_monotonic result = true.
Proof.
  intros Hreach Hhistory Hrun.
  destruct (reachable_chronicled t Hreach) as (_ & _ & _ & Hdone).
  destruct (Hdone hand_id history Hhistory) as (_ & _ & _ & [_ Hsorted]).
  unfold replay_hand_history, _replay_from_history in Hrun.
  cbv zeta in Hrun.
  apply obind_returned in Hrun as (starting & _ & Hrun).
  apply obind_returned in Hrun as (s1 & _ & Hrun).
  apply obind_returned in Hrun as ([s2 idx2] & _ & Hrun).
  apply obind_returned in Hrun as ([s3 idx3] & _ & Hrun).
  apply obind_returned in Hrun as (s4 & _ & Hrun).
  apply obind_returned in Hrun as (final & _ & Hrun).
  injection Hrun as <-. cbn [ReplayResult.event_seq_monotonic].
  apply strictly_increasing_sorted, Hsorted.
Qed.

End EventLogs.

Section EventSamples.
#[local] Existing Instance Reference.provider.
#[local] Existing Instance Reference.environment.

(** The fifth envelope of the first hand of the heads-up table deals
    the first card of seat 1, and does not name it; the fourth names
    the card it deals to seat 0. *)
Example heads_up_turn_deal :
  (λ envelope, (EventEnvelope.event_seq envelope,
                EventEnvelope.payload envelope))
  <$> (TableRuntime.current_hand heads_up_turn_table
       ≫= λ hand, HandRuntime.event_log hand !! 4%nat)
  = Some (5%nat, PDealCard 1 0 None).
Proof. vm_compute. reflexivity. Qed.

Lemma deal_card_events_hide_cards_witness :
  ∃ hand envelope,
    TableRuntime.current_hand heads_up_turn_table = Some hand
    ∧ HandRuntime.event_log hand !! 3%nat = Some envelope
    ∧ EventEnvelope.payload envelope = PDealCard 0 0 (Some "4d")
    ∧ 0%nat = 0%nat.
Proof.
  destruct (TableRuntime.current_hand heads_up_turn_table) as [hand|]
    eqn:Hhand; [|vm_compute in Hhand; discriminate Hhand].
  assert (Hsome : is_Some (TableRuntime.current_hand heads_up_turn_table
                           ≫= λ hand, HandRuntime.event_log hand !! 3%nat))
    by (vm_compute; eauto).
  destruct (found_in _ _ hand Hhand Hsome) as [envelope Henvelope].
  assert (Hpayload :
            EventEnvelope.payload
            <$> (TableRuntime.current_hand heads_up_turn_table
                 ≫= λ hand, HandRuntime.event_log hand !! 3%nat)
            = Some (PDealCard 0 0 (Some "4d")))
    by (vm_compute; reflexivity).
  apply (found_both _ _ _ hand envelope _ Hhand Henvelope) in Hpayload.
  exists hand, envelope. split; [reflexivity|]. split; [exact Henvelope|].
  split; [exact Hpayload|].
  apply (deal_card_events_hide_cards heads_up_turn_table envelope 0%nat
           0%nat "4d" heads_up_turn_table_reachable); [|exact Hpayload].
  right. left. exists hand. split; [exact Hhand|].
  eapply list_elem_of_lookup_2. exact Henvelope.
Defined.

Lemma hand_events_belong_witness :
  ∃ hand envelope,
    TableRuntime.current_hand heads_up_turn_table = Some hand
    ∧ HandRuntime.event_log hand !! 3%nat = Some envelope
    ∧ EventEnvelope.table_id envelope
      = TableRuntime.table_id heads_up_turn_table
    ∧ EventEnvelope.hand_id envelope = HandRuntime.hand_id hand.
Proof.
  destruct (TableRuntime.current_hand heads_up_turn_table) as [hand|]
    eqn:Hhand; [|vm_compute in Hhand; discriminate Hhand].
  assert (Hsome : is_Some (TableRuntime.current_hand heads_up_turn_table
                           ≫= λ hand, HandRuntime.event_log hand !! 3%nat))
    by (vm_compute; eauto).
  destruct (found_in _ _ hand Hhand Hsome) as [envelope Henvelope].
  destruct (hand_events_belong heads_up_turn_table hand 3%nat envelope
              heads_up_turn_table_reachable Hhand Henvelope)
    as (Htable & Hid & _).
  exists hand, envelope. split; [reflexivity|]. split; [exact Henvelope|].
  split; [exact Htable|exact Hid].
Defined.

Lemma history_events_recorded_witness :
  ∃ history,
    TableRuntime.completed_hands heads_up_table !! 1%nat = Some history
    ∧ HandHistory.hand_id history = 1%nat
    ∧ HandHistory.table_id history = TableRuntime.table_id heads_up_table
    ∧ HandHistory.event_count history
      = length (HandHistory.events history).
Proof.
  destruct (TableRuntime.completed_hands heads_up_table !! 1%nat)
    as [history|] eqn:Hhistory; [|vm_compute in Hhistory; discriminate Hhistory].
  destruct (history_events_recorded heads_up_table 1%nat history
              heads_up_table_reachable Hhistory)
    as (Hid & Htable & Hcount & _).
  exists history. split; [reflexivity|]. split; [exact Hid|].
  split; [exact Htable|exact Hcount].
Defined.

Lemma replay_event_seq_monotonic_witness :
  ∃ history result,
    TableRuntime.completed_hands heads_up_table !! 1%nat = Some history
    ∧ replay_hand_history 100 history = Returned result
    ∧ ReplayResult.event_seq_monotonic result = true.
Proof.
  destruct (TableRuntime.completed_hands heads_up_table !! 1%nat)
    as [history|] eqn:Hhistory; [|vm_compute in Hhistory; discriminate Hhistory].
  assert (Hreplay :
            (TableRuntime.completed_hands heads_up_table !! 1%nat
             ≫= λ history, (λ _, true)
                             <$> value_of (replay_hand_history 100 history))
            = Some true)
    by (vm_compute; reflexivity).
  destruct (first_run _ (replay_hand_history 100) (λ _, true) history
              Hhistory Hreplay) as (result & Hrun & _).
  exists history, result. split; [reflexivity|]. split; [exact Hrun|].
  exact (replay_event_seq_monotonic heads_up_table 1%nat history 100 result
           heads_up_table_reachable Hhistory Hrun).
Defined.

End EventSamples.

(** ** Starting a hand, and a session that is over *)

Section Sessions.
Context {State : Type} `{!Provider State} `{!Environment}.

Abbreviation Table := (TableRuntime.t State).
Abbreviation anything := (λ _ : Table, True).
Abbreviation nothing := (λ _ : Table, False).

Lemma some_active (l : list Seat.t) : ∀ g : nat -> Seat.t -> nat * Seat.t,
  (∀ i x, (g i x).2 = x) ->
  forallb (λ stack, stack <=? 0) (Seat.stack <$> l) = false ->
  (1 <= length (filter (λ p : nat * Seat.t, (0 < Seat.stack p.2)%Z)
                  (imap g l)))%nat.
Proof.
  induction l as [|x l IH]; intros g Hg Hsome; [discriminate|].
  cbn [imap]. rewrite fmap_cons in Hsome. cbn [forallb] in Hsome.
  destruct (decide (0 < Seat.stack x)) as [Hpos|Hbroke].
  - rewrite filter_cons_True by (rewrite Hg; exact Hpos). cbn. lia.
  - rewrite filter_cons_False by (rewrite Hg; exact Hbroke).
    apply IH; [intros i y; apply Hg|].
    apply andb_false_iff in Hsome as [Hx|Hl]; [|exact Hl].
    apply Z.leb_gt in Hx. contradiction.
Qed.

(** When seat 0 and one more seat have chips, two seats are active. *)
Lemma two_active (t : Table) seat0 :
  TableRuntime.seats t !! 0%nat = Some seat0 ->
  ¬ Seat.stack seat0 <= 0 ->
  forallb (λ stack, stack <=? 0)
    (Seat.stack <$> drop 1 (TableRuntime.seats t)) = false ->
  (2 <= length (_active_seats t))%nat.
Proof.
  intros Hseat Hhuman Hbots. unfold _active_seats. rewrite length_fmap.
  destruct (TableRuntime.seats t) as [|x rest]; [discriminate|].
  injection Hseat as ->. cbn [imap].
  rewrite filter_cons_True by (cbn; lia). cbn [length drop] in *.
  pose proof (some_active rest (pair ∘ S) (λ _ _, eq_refl) Hbots). lia.
Qed.

(** [_refresh_outcome] leaves a running session with two active seats
    at least. *)
Lemma refresh_outcome_running :
  hoare anything _refresh_outcome
    (λ _ t, TableRuntime.outcome t = RUNNING ->
            (2 <= length (_active_seats t))%nat)
    nothing.
Proof.
  intros t _. unfold _refresh_outcome, bind, get_table, from_option, ret.
  destruct (TableRuntime.seats t !! 0%nat) as [seat0|] eqn:Hseat;
    [|exact Logic.I].
  cbv beta iota zeta.
  case_decide as Hhuman.
  - cbn. discriminate.
  - destruct (forallb _ _) eqn:Hbots; cbn; [discriminate|].
    intros _. exact (two_active t seat0 Hseat Hhuman Hbots).
Qed.

#[local] Hint Resolve emit_event_unrejected sync_unrejected
  advance_unrejected build_view_unrejected post_blinds_unrejected
  deal_hole_cards_unrejected : keeps.

(** With two active seats, [_start_hand_locked] is not rejected. *)
Lemma start_hand_unrejected fuel :
  hoare (λ t : Table, (2 <= length (_active_seats t))%nat)
    (_start_hand_locked fuel) (λ _, anything) nothing.
Proof.
  unfold _start_hand_locked. apply hoare_bind_table. intros table Htable.
  cbv zeta. destruct (decide (length (_active_seats table) < 2)%nat);
    [lia|].
  eapply hoare_weaken with (P' := anything) (Q' := λ _, anything)
                           (R' := nothing); auto.
  lazymatch goal with
  | |- hoare ?P ?m _ ?R => change (keeps P R m)
  end.
  keeps_auto ltac:(try (intros; exact Logic.I)).
  all: apply order_seats_keeps.
Qed.


Lemma bind_get_table {B} (k : Table -> M State B) t :
  bind get_table k t = k t t.
Proof. reflexivity. Qed.

Lemma bind_step {A B} (m : M State A) (k : A -> M State B) t t1 a :
  m t = (t1, Returned a) -> bind m k t = k a t1.
Proof. intros Hm. unfold bind. rewrite Hm. reflexivity. Qed.

(** The view of a table without a hand. *)
Lemma build_view_idle viewer_id (t : Table) :
  TableRuntime.current_hand t = None ->
  ∃ view,
    build_view viewer_id t = (t, Returned view)
    ∧ ViewState.hand_id view = None
    ∧ ViewState.session_outcome view = TableRuntime.outcome t.
Proof.
  intros Hnone. unfold build_view. rewrite bind_get_table.
  unfold _build_view_state, _allowed_actions_for_viewer. cbv zeta.
  rewrite Hnone. cbn [mbind option_bind].
  destruct (decide (viewer_id ≠ "human")); cbn [mbind option_bind];
    eexists; (split; [reflexivity|split; reflexivity]).
Qed.

(** [start_new_hand] raises [EngineRejectedAction] exactly when a hand
    is current: the code is then [HAND_ALREADY_RUNNING] and the table
    is left as it was.  The [NOT_ENOUGH_PLAYERS] of [_start_hand_locked]
    never leaves it: a session that [_refresh_outcome] finds running has
    two seats with chips. *)
Theorem start_new_hand_rejected fuel (t : Table) :
  (TableRuntime.current_hand t ≠ None ->
   start_new_hand fuel t
   = (t, Rejected "HAND_ALREADY_RUNNING" "A hand is already in progress."))
  ∧ ∀ t' code message,
      start_new_hand fuel t = (t', Rejected code message) ->
      TableRuntime.current_hand t ≠ None.
Proof.
  split.
  - intros Hsome. unfold start_new_hand, bind, get_table.
    destruct (decide (TableRuntime.current_hand t ≠ None));
      [reflexivity|contradiction].
  - intros t' code message Hrun.
    destruct (decide (TableRuntime.current_hand t = None)) as [Hnone|Hsome];
      [exfalso|exact Hsome].
    assert (Hnever : hoare (λ t0 : Table, TableRuntime.current_hand t0 = None)
                       (start_new_hand fuel) (λ _, anything) nothing).
    { unfold start_new_hand. apply hoare_bind_table. intros table Htable.
      destruct (decide (TableRuntime.current_hand table ≠ None));
        [contradiction|].
      eapply hoare_bind
        with (I := λ _ t1, TableRuntime.outcome t1 = RUNNING ->
                           (2 <= length (_active_seats t1))%nat).
      { eapply hoare_pre; [apply refresh_outcome_running|].
        intros; exact Logic.I. }
      intros _.
      eapply hoare_bind
        with (I := λ table1 t1,
                table1 = t1
                ∧ (TableRuntime.outcome t1 = RUNNING ->
                   (2 <= length (_active_seats t1))%nat)).
      { apply hoare_get_table. auto. }
      intros table1.
      destruct (decide (TableRuntime.outcome table1 ≠ RUNNING))
        as [Hover|Hrunning].
      - eapply hoare_weaken with (P' := anything) (Q' := λ _, anything)
                                 (R' := nothing); auto.
        lazymatch goal with
        | |- hoare ?P ?m _ ?R => change (keeps P R m)
        end.
        keeps_auto ltac:(try (intros; exact Logic.I)).
      - eapply hoare_bind with (I := λ _, anything).
        + eapply hoare_pre; [apply start_hand_unrejected|].
          intros t1 [<- Hactive]. apply Hactive.
          destruct (decide (TableRuntime.outcome table1 = RUNNING));
            [assumption|contradiction].
        + intros _.
          lazymatch goal with
          | |- hoare ?P ?m _ ?R => change (keeps P R m)
          end.
          keeps_auto ltac:(try (intros; exact Logic.I)). }
    specialize (Hnever t Hnone). rewrite Hrun in Hnever. exact Hnever.
Qed.

(** A session that is over starts no hand.  When no hand is current
    and seat 0 has no chips, or no other seat has any, [start_new_hand]
    sets the outcome ([HUMAN_LOST] in the first case, [HUMAN_WON]
    otherwise), leaves the table without a hand, and returns the view
    of that table with an empty event queue. *)
Theorem finished_session_starts_no_hand fuel (t : Table) seat0 :
  TableRuntime.current_hand t = None ->
  TableRuntime.seats t !! 0%nat = Some seat0 ->
  Seat.stack seat0 <= 0
  ∨ (∀ i raw, i ≠ 0%nat -> TableRuntime.seats t !! i = Some raw ->
              Seat.stack raw <= 0) ->
  let outcome :=
    if decide (Seat.stack seat0 <= 0) then HUMAN_LOST else HUMAN_WON in
  ∃ view,
    start_new_hand fuel t
    = (TableRuntime.set_outcome outcome t,
       Returned (StartHandResponse.mk view []))
    ∧ ViewState.hand_id view = None
    ∧ ViewState.session_outcome view = outcome.
Proof.
  intros Hnone Hseat Hover outcome.
  assert (Hrefresh : _refresh_outcome t
                     = (TableRuntime.set_outcome outcome t, Returned tt)).
  { unfold _refresh_outcome, bind, get_table, from_option, ret.
    rewrite Hseat. cbv beta iota zeta. unfold outcome.
    case_decide as Hhuman; [reflexivity|].
    destruct Hover as [Hlost|Hbots]; [contradiction|].
    rewrite (proj2 (forallb_forall _ _)); [reflexivity|].
    intros stack Hstack. apply Z.leb_le.
    apply list_elem_of_In, list_elem_of_fmap in Hstack as (raw & -> & Hraw).
    apply list_elem_of_lookup in Hraw as [i Hi]. rewrite lookup_drop in Hi.
    exact (Hbots (1 + i)%nat raw ltac:(lia) Hi). }
  assert (Hout : outcome ≠ RUNNING).
  { unfold outcome. case_decide; discriminate. }
  destruct (build_view_idle "human" (TableRuntime.set_outcome outcome t) Hnone)
    as (view & Hview & Hid & Houtcome).
  exists view. split; [|split; [exact Hid|exact Houtcome]].
  unfold start_new_hand. rewrite bind_get_table.
  destruct (decide (TableRuntime.current_hand t ≠ None)); [contradiction|].
  rewrite (bind_step _ _ _ _ _ Hrefresh), bind_get_table.
  destruct (decide (TableRuntime.outcome
                      (TableRuntime.set_outcome outcome t) ≠ RUNNING))
    as [_|Hrunning]; [|exfalso; apply Hrunning; exact Hout].
  rewrite (bind_step _ _ _ _ _ Hview). reflexivity.
Qed.


(** *** Running the bots *)

Lemma hoare_trivial {A} (P : Table -> Prop) (m : M State A) :
  hoare P m (λ _, anything) anything.
Proof. intros t _. destruct (m t) as [t' [a|code msg|w|]]; exact Logic.I. Qed.

Lemma actor_seat_known (R : Table -> Prop) :
  hoare anything _actor_seat
    (λ actor_seat t,
       ∃ hand, TableRuntime.current_hand t = Some hand
               ∧ actor_seat_of hand = Some actor_seat)
    R.
Proof.
  intros t _. unfold _actor_seat, bind, the_hand, from_option.
  destruct (TableRuntime.current_hand t) as [hand|] eqn:Hhand;
    [|exact Logic.I].
  destruct (actor_seat_of hand) as [actor_seat|] eqn:Hactor;
    [|exact Logic.I].
  cbn. eauto.
Qed.

Lemma refresh_outcome_no_hand (R : Table -> Prop) :
  keeps (λ t : Table, TableRuntime.current_hand t = None) R _refresh_outcome.
Proof. keeps_auto ltac:(try (intros; cbn; assumption)). Qed.

Lemma retire_hand_no_hand (R : Table -> Prop) :
  hoare anything retire_hand
    (λ _ t, TableRuntime.current_hand t = None) R.
Proof.
  unfold retire_hand.
  eapply hoare_bind with (I := λ _, anything); [apply hoare_the_hand; auto|].
  intros hand.
  eapply hoare_bind
    with (I := λ _ t, TableRuntime.current_hand t = None).
  { apply hoare_modify_table. reflexivity. }
  intros _.
  eapply hoare_bind
    with (I := λ _ t, TableRuntime.current_hand t = None).
  { apply refresh_outcome_no_hand. }
  intros _. apply hoare_ret. auto.
Qed.

(** The loop of [run_bots_until_human_turn] is left with no hand, or
    with the hand waiting for seat 0. *)
Lemma run_bots_loop_stops passes :
  hoare anything (run_bots_loop passes)
    (λ _ t,
       TableRuntime.current_hand t = None
       ∨ ∃ hand, TableRuntime.current_hand t = Some hand
                 ∧ actor_seat_of hand = Some (Some 0%nat))
    anything.
Proof.
  induction passes as [|passes IH]; cbn [run_bots_loop];
    [apply hoare_crash|].
  eapply hoare_bind; [apply actor_seat_known|].
  assert (Hend : ∀ hand : HandRuntime.t State,
            hoare anything
              (if HandRuntime.ended hand then retire_hand
               else run_bots_loop passes)
              (λ _ t,
                 TableRuntime.current_hand t = None
                 ∨ ∃ hand, TableRuntime.current_hand t = Some hand
                           ∧ actor_seat_of hand = Some (Some 0%nat))
              anything).
  { intros hand. destruct (HandRuntime.ended hand); [|exact IH].
    eapply hoare_weaken; [apply (retire_hand_no_hand anything)|auto..]. }
  intros [seat|].
  - destruct (decide (seat = 0%nat)) as [->|Hbot].
    + intros t (hand & Hhand & Hactor). unfold bind, the_hand, ret.
      rewrite Hhand. right. eauto.
    + eapply hoare_pre with (P' := anything); [|auto].
      do 4 (eapply hoare_bind with (I := λ _, anything);
            [apply hoare_trivial|intros ?]).
      cbv zeta.
      do 3 (eapply hoare_bind with (I := λ _, anything);
            [apply hoare_trivial|intros ?]).
      apply Hend.
  - eapply hoare_pre with (P' := anything); [|auto].
    do 2 (eapply hoare_bind with (I := λ _, anything);
          [apply hoare_trivial|intros ?]).
    apply Hend.
Qed.

(** When [run_bots_until_human_turn] returns, no hand is current (the
    hand, if there was one, has ended and has been retired) or the
    current hand waits for seat 0, the human; and the view it returns
    is the view of the table as it leaves it. *)
Theorem run_bots_stops_at_human (t t' : Table) view events :
  run_bots_until_human_turn t = (t', Returned (view, events)) ->
  (TableRuntime.current_hand t' = None
   ∨ ∃ hand, TableRuntime.current_hand t' = Some hand
             ∧ actor_seat_of hand = Some (Some 0%nat))
  ∧ _build_view_state t' "human" = Some view.
Proof.
  intros Hrun. unfold run_bots_until_human_turn in Hrun.
  rewrite bind_get_table in Hrun.
  assert (Hview : ∀ (t1 : Table) (rest : ViewState.t -> M State _),
            (∀ view0, ∃ events0, rest view0 = ret (view0, events0)) ->
            bind (build_view "human") rest t1
            = (t', Returned (view, events)) ->
            t1 = t' ∧ _build_view_state t' "human" = Some view).
  { intros t1 rest Hrest Hbuilt.
    apply bind_returned in Hbuilt as (view0 & t2 & Hbuilt & Hret).
    unfold build_view in Hbuilt. rewrite bind_get_table in Hbuilt.
    apply from_option_returned in Hbuilt as [-> Hsome].
    destruct (Hrest view0) as [events0 Hr]. rewrite Hr in Hret.
    apply ret_returned in Hret as [-> [= -> _]]. auto. }
  destruct (TableRuntime.current_hand t) as [hand|] eqn:Hhand.
  - cbv zeta in Hrun.
    apply bind_returned in Hrun as (event_log & t1 & Hloop & Hrun).
    apply Hview in Hrun as [-> Hbuilt]; [|eauto].
    split; [|exact Hbuilt].
    pose proof (run_bots_loop_stops 2000 t Logic.I) as Hstop.
    rewrite Hloop in Hstop. exact Hstop.
  - apply Hview in Hrun as [<- Hbuilt]; [|eauto].
    split; [left; exact Hhand|exact Hbuilt].
Qed.

End Sessions.

Lemma returned_value {T A} (r : T * Outcome A) :
  has_returned r.2 = true -> ∃ t' a, r = (t', Returned a).
Proof. destruct r as [t' [a| | |]]; try discriminate. eauto. Qed.

Section SessionSamples.
#[local] Existing Instance Reference.provider.
#[local] Existing Instance Reference.environment.

(** A table of one seat: no other seat has chips, and the session is
    won before a hand is played. *)
Lemma finished_session_starts_no_hand_witness :
  ∃ view,
    start_new_hand 100
      (create_table "tbl_9" 7 (TableConfig.mk 1 1 2 80 0 true (Some 5)))
    = (TableRuntime.set_outcome HUMAN_WON
         (create_table "tbl_9" 7 (TableConfig.mk 1 1 2 80 0 true (Some 5))),
       Returned (StartHandResponse.mk view []))
    ∧ ViewState.hand_id view = None
    ∧ ViewState.session_outcome view = HUMAN_WON.
Proof.
  apply (finished_session_starts_no_hand 100
           (create_table "tbl_9" 7 (TableConfig.mk 1 1 2 80 0 true (Some 5)))
           (Seat.mk 0 HUMAN "You" 80)); [reflexivity|reflexivity|].
  right. intros [|[|i]] raw Hne Hraw; [contradiction|discriminate..].
Defined.

(** From the start of the first hand of the heads-up table the bot on
    the button calls, and the human is to act. *)
Lemma run_bots_stops_at_human_witness :
  ∃ t' view events,
    run_bots_until_human_turn
      (after_calls [StartNewHand 100] heads_up_new_table)
    = (t', Returned (view, events))
    ∧ (TableRuntime.current_hand t' = None
       ∨ ∃ hand, TableRuntime.current_hand t' = Some hand
                 ∧ actor_seat_of hand = Some (Some 0%nat)).
Proof.
  assert (Hback : has_returned
                    (run_bots_until_human_turn
                       (after_calls [StartNewHand 100] heads_up_new_table)).2
                  = true) by (vm_compute; reflexivity).
  apply returned_value in Hback as (t' & [view events] & Hrun).
  exists t', view, events. split; [exact Hrun|].
  exact (proj1 (run_bots_stops_at_human _ t' view events Hrun)).
Defined.

Example heads_up_turn_actor :
  (TableRuntime.current_hand heads_up_turn_table ≫= actor_seat_of)
  = Some (Some 0%nat).
Proof. vm_compute. reflexivity. Qed.

End SessionSamples.

(** ** The policy of the bots *)

Section BotDecisions.
Context {G : Type} `{!RandomSource G}.

(** Goes through the branches of [choose_action_with]. *)
Ltac decided H :=
  repeat match type of H with
         | (let '(_, _) := (if ?c then _ else _) in _) = _ =>
             destruct c eqn:?
         | (let '(_, _) := ?d in _) = _ => destruct d as [? ?] eqn:?
         | (if ?c then _ else _) = _ => destruct c eqn:?
         | (_ ≫= _) = _ =>
             let E := fresh "Htarget" in
             destruct (_sample_raise_target _ _) as [[? ?]|] eqn:E;
             cbn [mbind option_bind] in H
         | None = Some _ => discriminate H
         | Some _ = Some _ => injection H as <- <-
         end.

(** The branches of [choose_action_with] test what they decide on. *)
Lemma choose_action_allowed (allowed : AllowedActions.t) stack (rng rng' : G)
    decision :
  choose_action_with allowed stack rng = Some (decision, rng') ->
  match BotDecision.action decision with
  | RAISE => AllowedActions.can_raise allowed = true
  | BET => AllowedActions.can_bet allowed = true
  | CALL => AllowedActions.can_call allowed = true
  | FOLD => AllowedActions.can_fold allowed = true
  | ALL_IN => AllowedActions.can_all_in allowed = true
  | CHECK =>
      AllowedActions.can_check allowed = true
      ∨ (AllowedActions.can_call allowed = false
         ∧ AllowedActions.can_fold allowed = false
         ∧ AllowedActions.can_all_in allowed = false)
  end.
Proof.
  intros Hchoice. unfold choose_action_with, decide_after in Hchoice.
  cbv zeta in Hchoice.
  decided Hchoice; cbn [BotDecision.action];
    repeat match goal with
           | E : _ && _ = true |- _ => apply andb_true_iff in E as [? ?]
           end;
    auto.
Qed.


(** The anchors of [_sample_raise_target] lie between the two bounds. *)
Lemma sample_raise_target_bounds (allowed : AllowedActions.t)
    (rng rng' : G) target :
  (∀ a b g, a < b -> a <= (randrange a b g).1 < b) ->
  _sample_raise_target allowed rng = Some (target, rng') ->
  ∃ min_to max_to,
    or_else (AllowedActions.min_raise_to allowed)
      (AllowedActions.min_bet_to allowed) = Some min_to
    ∧ AllowedActions.max_raise_to allowed = Some max_to
    ∧ target <= max_to
    ∧ (min_to <= max_to -> min_to <= target)
    ∧ (max_to <= min_to -> target = max_to ∧ rng' = rng).
Proof.
  intros Hrange Htarget. unfold _sample_raise_target in Htarget.
  cbv zeta in Htarget.
  destruct (or_else _ _) as [min_to|]; [|discriminate].
  destruct (AllowedActions.max_raise_to allowed) as [max_to|];
    [|discriminate].
  exists min_to, max_to. split; [reflexivity|]. split; [reflexivity|].
  destruct (decide (max_to <= min_to)) as [Hle|Hlt].
  - injection Htarget as <- <-. repeat split; lia.
  - pose proof (Hrange 0 4 rng ltac:(lia)) as Hindex.
    change (Z.of_nat (length [_; _; _; _])) with 4 in Htarget.
    destruct (randrange 0 4 rng) as [index rng1]. cbn [fst] in Hindex.
    assert (Hthird : 0 <= (max_to - min_to) `div` 3 <= max_to - min_to).
    { split; [apply Z.div_pos; lia|].
      apply Z.div_le_upper_bound; lia. }
    assert (Hhalf : 0 <= (max_to - min_to) `div` 2 <= max_to - min_to).
    { split; [apply Z.div_pos; lia|].
      apply Z.div_le_upper_bound; lia. }
    unfold list_item in Htarget.
    rewrite (proj2 (Z.leb_le 0 index)) in Htarget by lia.
    assert (Hcases : index = 0 ∨ index = 1 ∨ index = 2 ∨ index = 3) by lia.
    destruct Hcases as [-> | [-> | [-> | ->]]]; cbn in Htarget;
      injection Htarget as <- <-; repeat split; lia.
Qed.

(** The target [_sample_raise_target] returns is at most the largest
    raise allowed, and at least the least one when the least is not
    above the largest; when the least is not below the largest it is
    the largest, and no number is drawn.  [randrange(a, b)] is taken to
    draw from [a .. b - 1]. *)
Theorem raise_target_within_bounds (allowed : AllowedActions.t)
    (rng rng' : G) target :
  (∀ a b g, a < b -> a <= (randrange a b g).1 < b) ->
  _sample_raise_target allowed rng = Some (target, rng') ->
  ∃ min_to max_to,
    or_else (AllowedActions.min_raise_to allowed)
      (AllowedActions.min_bet_to allowed) = Some min_to
    ∧ AllowedActions.max_raise_to allowed = Some max_to
    ∧ target <= max_to
    ∧ (min_to <= max_to -> min_to <= target)
    ∧ (max_to <= min_to -> target = max_to ∧ rng' = rng).
Proof. exact (sample_raise_target_bounds allowed rng rng' target). Qed.

(** The amounts the branches of [choose_action_with] name. *)
Lemma choose_action_sizing (allowed : AllowedActions.t) stack
    (rng rng' : G) decision :
  (∀ a b g, a < b -> a <= (randrange a b g).1 < b) ->
  choose_action_with allowed stack rng = Some (decision, rng') ->
  match BotDecision.action decision with
  | RAISE | BET =>
      ∃ target min_to max_to,
        BotDecision.amount_to decision = Some target
        ∧ or_else (AllowedActions.min_raise_to allowed)
            (AllowedActions.min_bet_to allowed) = Some min_to
        ∧ AllowedActions.max_raise_to allowed = Some max_to
        ∧ target <= max_to
        ∧ (min_to <= max_to -> min_to <= target)
  | ALL_IN =>
      BotDecision.amount_to decision = AllowedActions.max_raise_to allowed
  | FOLD | CHECK | CALL => BotDecision.amount_to decision = None
  end.
Proof.
  intros Hrange Hchoice. unfold choose_action_with, decide_after in Hchoice.
  cbv zeta in Hchoice.
  decided Hchoice; cbn [BotDecision.action BotDecision.amount_to];
    try reflexivity;
    match goal with
    | E : _sample_raise_target _ _ = Some _ |- _ =>
        destruct (sample_raise_target_bounds _ _ _ _ Hrange E)
          as (min_to & max_to & Hmin & Hmax & Hupper & Hlower & _);
        eauto 10
    end.
Qed.

(** The action a bot decides on is one its [AllowedActions] allow;
    only when no check, call, fold and all-in is allowed does the
    policy fall back on a check that is not allowed. *)
Theorem bot_action_is_allowed (allowed : AllowedActions.t) stack (rng rng' : G)
    decision :
  choose_action_with allowed stack rng = Some (decision, rng') ->
  match BotDecision.action decision with
  | RAISE => AllowedActions.can_raise allowed = true
  | BET => AllowedActions.can_bet allowed = true
  | CALL => AllowedActions.can_call allowed = true
  | FOLD => AllowedActions.can_fold allowed = true
  | ALL_IN => AllowedActions.can_all_in allowed = true
  | CHECK =>
      AllowedActions.can_check allowed = true
      ∨ (AllowedActions.can_call allowed = false
         ∧ AllowedActions.can_fold allowed = false
         ∧ AllowedActions.can_all_in allowed = false)
  end.
Proof. exact (choose_action_allowed allowed stack rng rng' decision). Qed.

(** The amount of a decision: a raise or a bet names a target within
    the bounds of [_sample_raise_target]; an all-in names the largest
    raise allowed, if there is one; a fold, a check and a call name no
    amount. *)
Theorem bot_sizing_within_bounds (allowed : AllowedActions.t) stack
    (rng rng' : G) decision :
  (∀ a b g, a < b -> a <= (randrange a b g).1 < b) ->
  choose_action_with allowed stack rng = Some (decision, rng') ->
  match BotDecision.action decision with
  | RAISE | BET =>
      ∃ target min_to max_to,
        BotDecision.amount_to decision = Some target
        ∧ or_else (AllowedActions.min_raise_to allowed)
            (AllowedActions.min_bet_to allowed) = Some min_to
        ∧ AllowedActions.max_raise_to allowed = Some max_to
        ∧ target <= max_to
        ∧ (min_to <= max_to -> min_to <= target)
  | ALL_IN =>
      BotDecision.amount_to decision = AllowedActions.max_raise_to allowed
  | FOLD | CHECK | CALL => BotDecision.amount_to decision = None
  end.
Proof. exact (choose_action_sizing allowed stack rng rng' decision). Qed.

(** The delay of a decision: between 650 and 1400 milliseconds, and 900
    at least for a raise, a bet and an all-in.  [randint(a, b)] is
    taken to draw from [a .. b]. *)
Theorem bot_think_delay_range (allowed : AllowedActions.t) stack
    (rng rng' : G) decision :
  (∀ a b g, a <= b -> a <= (randint a b g).1 <= b) ->
  choose_action_with allowed stack rng = Some (decision, rng') ->
  650 <= BotDecision.think_delay_ms decision <= 1400
  ∧ match BotDecision.action decision with
    | RAISE | BET | ALL_IN => 900 <= BotDecision.think_delay_ms decision
    | FOLD | CHECK | CALL => BotDecision.think_delay_ms decision <= 1100
    end.
Proof.
  intros Hrange Hchoice. unfold choose_action_with, decide_after in Hchoice.
  cbv zeta in Hchoice.
  decided Hchoice; cbn [BotDecision.action BotDecision.think_delay_ms];
    try lia;
    match goal with
    | E : randint ?a ?b ?g = (?z, _) |- _ =>
        pose proof (Hrange a b g ltac:(lia)) as Hdelay;
        rewrite E in Hdelay; cbn [fst] in Hdelay; lia
    end.
Qed.

End BotDecisions.

Section BotSamples.
#[local] Existing Instance least_draws.

(** A bot that may raise from 4 to 80 for a call of 1: with the least
    draws it raises to 4 after 900 milliseconds. *)
Example least_raise :
  choose_action_with
    (AllowedActions.mk true false true false true true 1 None (Some 4)
       (Some 80) 3 78) 78 0%nat
  = Some (BotDecision.mk RAISE (Some 4) 900, 3%nat).
Proof. reflexivity. Qed.

Lemma bot_action_is_allowed_witness :
  choose_action_with
    (AllowedActions.mk true false true false true true 1 None (Some 4)
       (Some 80) 3 78) 78 0%nat
  = Some (BotDecision.mk RAISE (Some 4) 900, 3%nat)
  ∧ AllowedActions.can_raise
      (AllowedActions.mk true false true false true true 1 None (Some 4)
         (Some 80) 3 78) = true.
Proof.
  split; [reflexivity|].
  exact (bot_action_is_allowed
           (AllowedActions.mk true false true false true true 1 None (Some 4)
              (Some 80) 3 78) 78 0%nat 3%nat
           (BotDecision.mk RAISE (Some 4) 900) eq_refl).
Defined.

Lemma least_draws_in_range :
  (∀ a b (g : nat), a < b -> a <= (randrange a b g).1 < b)
  ∧ (∀ a b (g : nat), a <= b -> a <= (randint a b g).1 <= b).
Proof. split; intros a b g Hab; cbn; lia. Qed.

Lemma raise_target_within_bounds_witness :
  _sample_raise_target
    (AllowedActions.mk true false true false true true 1 None (Some 4)
       (Some 80) 3 78) 1%nat
  = Some (4, 2%nat)
  ∧ 4 <= 80.
Proof.
  split; [reflexivity|].
  destruct (raise_target_within_bounds
              (AllowedActions.mk true false true false true true 1 None
                 (Some 4) (Some 80) 3 78) 1%nat 2%nat 4
              (proj1 least_draws_in_range) eq_refl)
    as (min_to & max_to & _ & Hmax & Hupper & _).
  injection Hmax as <-. exact Hupper.
Defined.

Lemma bot_sizing_within_bounds_witness :
  ∃ target min_to max_to,
    Some 4 = Some target
    ∧ or_else (Some 4) None = Some min_to
    ∧ Some 80 = Some max_to
    ∧ target <= max_to
    ∧ (min_to <= max_to -> min_to <= target).
Proof.
  exact (bot_sizing_within_bounds
           (AllowedActions.mk true false true false true true 1 None (Some 4)
              (Some 80) 3 78) 78 0%nat 3%nat
           (BotDecision.mk RAISE (Some 4) 900)
           (proj1 least_draws_in_range) eq_refl).
Defined.

Lemma bot_think_delay_range_witness :
  650 <= 900 <= 1400 ∧ 900 <= 900.
Proof.
  exact (bot_think_delay_range
           (AllowedActions.mk true false true false true true 1 None (Some 4)
              (Some 80) 3 78) 78 0%nat 3%nat
           (BotDecision.mk RAISE (Some 4) 900)
           (proj2 least_draws_in_range) eq_refl).
Defined.

End BotSamples.

(** *** The bots at the table *)

Section BotsAtTable.
Context {State : Type} `{!Provider State} `{!Environment}.
Context {G : Type} `{!RandomSource G}.

Abbreviation Table := (TableRuntime.t State).
Abbreviation anything := (λ _ : Table, True).
Abbreviation nothing := (λ _ : Table, False).

Lemma bind_the_hand {B} (k : HandRuntime.t State -> M State B) (t : Table)
    hand :
  TableRuntime.current_hand t = Some hand -> bind the_hand k t = k hand t.
Proof. intros Hhand. unfold bind, the_hand. rewrite Hhand. reflexivity. Qed.

Lemma bind_actor_seat {B} (k : option nat -> M State B) (t : Table) hand
    actor_seat :
  TableRuntime.current_hand t = Some hand ->
  actor_seat_of hand = Some actor_seat ->
  bind _actor_seat k t = k actor_seat t.
Proof.
  intros Hhand Hactor. unfold _actor_seat, bind, the_hand, from_option.
  rewrite Hhand, Hactor. reflexivity.
Qed.

Lemma bind_rejected {A B} (m : M State A) (k : A -> M State B) t t' code
    message :
  bind m k t = (t', Rejected code message) ->
  m t = (t', Rejected code message)
  ∨ ∃ a t1, m t = (t1, Returned a) ∧ k a t1 = (t', Rejected code message).
Proof.
  unfold bind. destruct (m t) as [t1 [a|c msg|w|]]; try discriminate.
  - intros Hk. right. exists a, t1. split; [reflexivity|exact Hk].
  - intros [= <- <- <-]. left. reflexivity.
Qed.

Lemma never_rejected {A} (m : M State A) t t' code message :
  keeps anything nothing m -> m t = (t', Rejected code message) -> False.
Proof. intros Hm Hrun. specialize (Hm t Logic.I). rewrite Hrun in Hm. exact Hm. Qed.

#[local] Hint Resolve emit_event_unrejected sync_unrejected : keeps.

Ltac settled_run H :=
  exfalso;
  lazymatch type of H with
  | ?m ?t = _ =>
      refine (never_rejected m t _ _ _ _ H);
      keeps_auto ltac:(try (intros; exact Logic.I))
  end.

(** What [perform_action] rejects, from the rules state of the hand. *)
Lemma perform_action_rejected (t t' : Table) hand seat action amount_to code
    message :
  TableRuntime.current_hand t = Some hand ->
  perform_action seat action amount_to t = (t', Rejected code message) ->
  let state := HandRuntime.pokerkit_state hand in
  match action with
  | FOLD => can_fold state = false
  | CHECK | CALL => can_check_or_call state = false
  | BET | RAISE =>
      match amount_to with
      | None => True
      | Some amount =>
          can_complete_bet_or_raise_to state = false
          ∨ min_completion_betting_or_raising_to_amount state = None
          ∨ max_completion_betting_or_raising_to_amount state = None
          ∨ ∃ min_to max_to,
              min_completion_betting_or_raising_to_amount state = Some min_to
              ∧ max_completion_betting_or_raising_to_amount state
                = Some max_to
              ∧ (amount < min_to ∨ max_to < amount)
      end
  | ALL_IN =>
      can_check_or_call state = false
      ∧ (can_complete_bet_or_raise_to state = false
         ∨ max_completion_betting_or_raising_to_amount state = None)
  end.
Proof.
  intros Hhand Hrun state. unfold perform_action in Hrun.
  rewrite (bind_the_hand _ _ _ Hhand) in Hrun. cbv zeta in Hrun.
  fold state in Hrun.
  destruct action.
  - destruct (can_fold state); [|reflexivity]. cbn [negb] in Hrun.
    settled_run Hrun.
  - destruct (can_check_or_call state); [|reflexivity]. cbn [negb] in Hrun.
    settled_run Hrun.
  - destruct (can_check_or_call state); [|reflexivity]. cbn [negb] in Hrun.
    settled_run Hrun.
  - destruct amount_to as [amount|]; [|exact Logic.I].
    destruct (can_complete_bet_or_raise_to state); [|auto].
    cbn [negb] in Hrun.
    destruct (min_completion_betting_or_raising_to_amount state)
      as [min_to|]; [|auto].
    destruct (max_completion_betting_or_raising_to_amount state)
      as [max_to|]; [|auto].
    destruct (decide (amount < min_to ∨ max_to < amount)) as [Hout|Hin];
      [eauto 10|].
    settled_run Hrun.
  - destruct amount_to as [amount|]; [|exact Logic.I].
    destruct (can_complete_bet_or_raise_to state); [|auto].
    cbn [negb] in Hrun.
    destruct (min_completion_betting_or_raising_to_amount state)
      as [min_to|]; [|auto].
    destruct (max_completion_betting_or_raising_to_amount state)
      as [max_to|]; [|auto].
    destruct (decide (amount < min_to ∨ max_to < amount)) as [Hout|Hin];
      [eauto 10|].
    settled_run Hrun.
  - apply bind_rejected in Hrun as [Hrun|(logged & t1 & _ & Hrun)];
      [|settled_run Hrun].
    destruct (can_check_or_call state).
    + destruct (can_complete_bet_or_raise_to state);
        [destruct (max_completion_betting_or_raising_to_amount state)|];
        settled_run Hrun.
    + split; [reflexivity|].
      destruct (can_complete_bet_or_raise_to state); [|auto].
      destruct (max_completion_betting_or_raising_to_amount state); [|auto].
      settled_run Hrun.
Qed.


(** The reason of a rejection by [_apply_player_action]. *)
Lemma apply_player_action_why (t t' : Table) hand actor_seat seat
    action amount_to think_delay_ms code message :
  TableRuntime.current_hand t = Some hand ->
  actor_seat_of hand = Some actor_seat ->
  _apply_player_action seat action amount_to think_delay_ms t
  = (t', Rejected code message) ->
  let state := HandRuntime.pokerkit_state hand in
  actor_seat ≠ Some seat
  ∨ match action with
    | FOLD => can_fold state = false
    | CHECK | CALL => can_check_or_call state = false
    | BET | RAISE =>
        match amount_to with
        | None => True
        | Some amount =>
            can_complete_bet_or_raise_to state = false
            ∨ min_completion_betting_or_raising_to_amount state = None
            ∨ max_completion_betting_or_raising_to_amount state = None
            ∨ ∃ min_to max_to,
                min_completion_betting_or_raising_to_amount state
                = Some min_to
                ∧ max_completion_betting_or_raising_to_amount state
                  = Some max_to
                ∧ (amount < min_to ∨ max_to < amount)
        end
    | ALL_IN =>
        can_check_or_call state = false
        ∧ (can_complete_bet_or_raise_to state = false
           ∨ max_completion_betting_or_raising_to_amount state = None)
    end.
Proof.
  intros Hhand Hactor Hrun state.
  unfold _apply_player_action in Hrun.
  rewrite (bind_actor_seat _ _ _ _ Hhand Hactor) in Hrun.
  destruct (decide (actor_seat ≠ Some seat)) as [Hother|_]; [left; exact Hother|].
  right.
  apply bind_rejected in Hrun as [Hrun|([logged amount] & t1 & _ & Hrun)].
  - exact (perform_action_rejected _ _ _ _ _ _ _ _ Hhand Hrun).
  - settled_run Hrun.
Qed.

(** What [_apply_player_action] rejects: the action of a seat that is
    not the one to act, and the action that the rules state of the hand
    does not allow: a fold, check or call it cannot take, a bet or raise
    without an amount, that it cannot complete, or whose amount is
    outside the least and the largest it names, an all-in when it can
    neither check or call nor complete a bet.  A rejection leaves the
    table as it was. *)
Theorem apply_player_action_rejections (t t' : Table) hand actor_seat seat
    action amount_to think_delay_ms code message :
  TableRuntime.current_hand t = Some hand ->
  actor_seat_of hand = Some actor_seat ->
  _apply_player_action seat action amount_to think_delay_ms t
  = (t', Rejected code message) ->
  let state := HandRuntime.pokerkit_state hand in
  t' = t
  ∧ (actor_seat ≠ Some seat
     ∨ match action with
       | FOLD => can_fold state = false
       | CHECK | CALL => can_check_or_call state = false
       | BET | RAISE =>
           match amount_to with
           | None => True
           | Some amount =>
               can_complete_bet_or_raise_to state = false
               ∨ min_completion_betting_or_raising_to_amount state = None
               ∨ max_completion_betting_or_raising_to_amount state = None
               ∨ ∃ min_to max_to,
                   min_completion_betting_or_raising_to_amount state
                   = Some min_to
                   ∧ max_completion_betting_or_raising_to_amount state
                     = Some max_to
                   ∧ (amount < min_to ∨ max_to < amount)
           end
       | ALL_IN =>
           can_check_or_call state = false
           ∧ (can_complete_bet_or_raise_to state = false
              ∨ max_completion_betting_or_raising_to_amount state = None)
       end).
Proof.
  intros Hhand Hactor Hrun state.
  split; [exact (apply_player_action_clean _ _ _ _ _ _ _ _ Hrun)|].
  exact (apply_player_action_why _ _ _ _ _ _ _ _ _ _ Hhand Hactor Hrun).
Qed.

(** A bot is not rejected for what it decides.  When it is the turn of
    a seat, the decision that [choose_action_with] takes on the actions
    [_allowed_actions_for_seat] allows to the seat passes
    [_apply_player_action], unless it is the check the policy falls
    back on when nothing is allowed.  The rules state is taken to name
    a least amount not above its largest when it can complete a bet or
    raise, and [randrange(a, b)] to draw from [a .. b - 1]. *)
Theorem bot_decision_not_rejected (t : Table) hand seat allowed stack
    (rng rng' : G) decision think_delay_ms :
  TableRuntime.current_hand t = Some hand ->
  actor_seat_of hand = Some (Some seat) ->
  _allowed_actions_for_seat t hand seat = Some allowed ->
  (∀ a b g, a < b -> a <= (randrange a b g).1 < b) ->
  (can_complete_bet_or_raise_to (HandRuntime.pokerkit_state hand) = true ->
   ∃ min_to max_to,
     min_completion_betting_or_raising_to_amount
       (HandRuntime.pokerkit_state hand) = Some min_to
     ∧ max_completion_betting_or_raising_to_amount
         (HandRuntime.pokerkit_state hand) = Some max_to
     ∧ min_to <= max_to) ->
  choose_action_with allowed stack rng = Some (decision, rng') ->
  BotDecision.action decision ≠ CHECK
  ∨ AllowedActions.can_check allowed = true ->
  ∀ t' code message,
    _apply_player_action seat (BotDecision.action decision)
      (BotDecision.amount_to decision) think_delay_ms t
    ≠ (t', Rejected code message).
Proof.
  intros Hhand Hactor Hallowed Hrange Hstate Hchoice Hmeant t' code message
    Hrun.
  pose proof (choose_action_allowed _ _ _ _ _ Hchoice) as Hlegal.
  pose proof (choose_action_sizing _ _ _ _ _ Hrange Hchoice) as Hsizing.
  destruct (apply_player_action_why _ _ _ _ _ _ _ _ _ _ Hhand Hactor
              Hrun) as [Hother|Hwhy];
    [exfalso; apply Hother; reflexivity|].
  unfold _allowed_actions_for_seat in Hallowed. cbv zeta in Hallowed.
  rewrite Hactor in Hallowed. cbn [mbind option_bind] in Hallowed.
  destruct (TableRuntime.seats t !! seat) as [raw|]; [|discriminate].
  cbn [mbind option_bind] in Hallowed.
  destruct (decide (Some seat ≠ Some seat)) as [Hne|_];
    [exfalso; apply Hne; reflexivity|].
  destruct (max_of _) as [highest|]; [|discriminate].
  cbn [mbind option_bind] in Hallowed. injection Hallowed as <-.
  set (state := HandRuntime.pokerkit_state hand) in *.
  cbn [AllowedActions.can_fold AllowedActions.can_check
       AllowedActions.can_call AllowedActions.can_bet
       AllowedActions.can_raise AllowedActions.can_all_in
       AllowedActions.min_bet_to AllowedActions.min_raise_to
       AllowedActions.max_raise_to] in *.
  assert (Hsized : ∀ target min_to max_to,
            can_complete_bet_or_raise_to state = true ->
            or_else
              (if bool_decide (0 < highest)
               then min_completion_betting_or_raising_to_amount state
               else None)
              (if negb (bool_decide (0 < highest))
               then min_completion_betting_or_raising_to_amount state
               else None) = Some min_to ->
            max_completion_betting_or_raising_to_amount state = Some max_to ->
            target <= max_to -> (min_to <= max_to -> min_to <= target) ->
            ¬ (can_complete_bet_or_raise_to state = false
               ∨ min_completion_betting_or_raising_to_amount state = None
               ∨ max_completion_betting_or_raising_to_amount state = None
               ∨ ∃ least largest,
                   min_completion_betting_or_raising_to_amount state
                   = Some least
                   ∧ max_completion_betting_or_raising_to_amount state
                     = Some largest
                   ∧ (target < least ∨ largest < target))).
  { intros target min_to max_to Hcan Hmin Hmax Hupper Hlower.
    destruct (Hstate Hcan) as (least & largest & Hleast & Hlargest & Hle).
    rewrite Hleast in Hmin. rewrite Hlargest in Hmax.
    injection Hmax as <-.
    assert (min_to = least) as ->.
    { unfold or_else in Hmin.
      destruct (bool_decide (0 < highest)); cbn [negb] in Hmin;
        [destruct (decide (least = 0))|]; congruence. }
    rewrite Hcan, Hleast, Hlargest.
    intros [Hno|[Hno|[Hno|(a & b & [= <-] & [= <-] & Hout)]]];
      try discriminate Hno.
    specialize (Hlower Hle). lia. }
  destruct decision as [action amount delay].
  cbn [BotDecision.action BotDecision.amount_to] in *.
  destruct action.
  - rewrite Hlegal in Hwhy. discriminate Hwhy.
  - destruct Hmeant as [Hne|Hcheck]; [apply Hne; reflexivity|].
    apply andb_true_iff in Hcheck as [Hcan _].
    rewrite Hcan in Hwhy. discriminate Hwhy.
  - apply andb_true_iff in Hlegal as [Hcan _].
    rewrite Hcan in Hwhy. discriminate Hwhy.
  - apply andb_true_iff in Hlegal as [Hcan _].
    destruct Hsizing as (target & min_to & max_to & -> & Hmin & Hmax & Hu & Hl).
    rewrite Hcan in Hmin, Hmax.
    exact (Hsized target min_to max_to Hcan Hmin Hmax Hu Hl Hwhy).
  - apply andb_true_iff in Hlegal as [Hcan _].
    destruct Hsizing as (target & min_to & max_to & -> & Hmin & Hmax & Hu & Hl).
    rewrite Hcan in Hmin, Hmax.
    exact (Hsized target min_to max_to Hcan Hmin Hmax Hu Hl Hwhy).
  - destruct Hwhy as [Hno Hwhy].
    apply andb_true_iff in Hlegal as [Hcan _]. rewrite Hno in Hcan.
    cbn [orb] in Hcan.
    destruct (Hstate Hcan) as (least & largest & _ & Hlargest & _).
    rewrite Hcan, Hlargest in Hwhy. destruct Hwhy; discriminate.
Qed.

End BotsAtTable.

Lemma found_eq {A B} (o : option A) (f : A -> B) a b :
  o = Some a -> f <$> o = Some b -> f a = b.
Proof. intros -> [= Hf]. exact Hf. Qed.

Lemma rejected_value {T A} (r : T * Outcome A) :
  match r.2 with Rejected _ _ => true | _ => false end = true ->
  ∃ t' code message, r = (t', Rejected code message).
Proof. destruct r as [t' [a|code message|w|]]; try discriminate. eauto. Qed.

Section BotTableSamples.
#[local] Existing Instance Reference.provider.
#[local] Existing Instance Reference.environment.
#[local] Existing Instance least_draws.

(** The human cannot fold when the bot has only called: its fold is
    rejected, and the table is left as it was. *)
Lemma apply_player_action_rejections_witness :
  ∃ hand t' code message,
    TableRuntime.current_hand heads_up_turn_table = Some hand
    ∧ _apply_player_action 0 FOLD None None heads_up_turn_table
      = (t', Rejected code message)
    ∧ t' = heads_up_turn_table
    ∧ (Some 0%nat ≠ Some 0%nat
       ∨ can_fold (HandRuntime.pokerkit_state hand) = false).
Proof.
  destruct (TableRuntime.current_hand heads_up_turn_table) as [hand|]
    eqn:Hhand; [|vm_compute in Hhand; discriminate Hhand].
  assert (Hactor : actor_seat_of hand = Some (Some 0%nat)).
  { apply (found_eq _ actor_seat_of hand _ Hhand). vm_compute. reflexivity. }
  assert (Hrejected :
            match (_apply_player_action 0 FOLD None None
                     heads_up_turn_table).2
            with Rejected _ _ => true | _ => false end = true)
    by (vm_compute; reflexivity).
  apply rejected_value in Hrejected as (t' & code & message & Hrun).
  exists hand, t', code, message. split; [reflexivity|].
  split; [exact Hrun|].
  exact (apply_player_action_rejections heads_up_turn_table t' hand
           (Some 0%nat) 0%nat FOLD None None code message Hhand Hactor Hrun).
Defined.

(** On the button of the first hand of the heads-up table the bot may
    raise from 4 to 80; with the least draws it raises to 4, and the
    raise is not rejected. *)
Lemma bot_decision_not_rejected_witness :
  match (_apply_player_action 1 RAISE (Some 4) (Some 900)
           (after_calls [StartNewHand 100] heads_up_new_table)).2
  with
  | Rejected _ _ => False
  | _ => True
  end.
Proof.
  destruct (TableRuntime.current_hand
              (after_calls [StartNewHand 100] heads_up_new_table))
    as [hand|] eqn:Hhand; [|vm_compute in Hhand; discriminate Hhand].
  assert (Hactor : actor_seat_of hand = Some (Some 1%nat)).
  { apply (found_eq _ actor_seat_of hand _ Hhand). vm_compute. reflexivity. }
  assert (Hallowed :
            _allowed_actions_for_seat
              (after_calls [StartNewHand 100] heads_up_new_table) hand 1
            = Some (AllowedActions.mk true false true false true true 1 None
                      (Some 4) (Some 80) 3 79)).
  { apply (found_eq _ (λ hand, _allowed_actions_for_seat
                                 (after_calls [StartNewHand 100]
                                    heads_up_new_table) hand 1)
             hand _ Hhand). vm_compute. reflexivity. }
  assert (Hstate :
            (min_completion_betting_or_raising_to_amount
               (HandRuntime.pokerkit_state hand),
             max_completion_betting_or_raising_to_amount
               (HandRuntime.pokerkit_state hand))
            = (Some 4, Some 80)).
  { apply (found_eq _ (λ hand,
                         (min_completion_betting_or_raising_to_amount
                            (HandRuntime.pokerkit_state hand),
                          max_completion_betting_or_raising_to_amount
                            (HandRuntime.pokerkit_state hand)))
             hand _ Hhand). vm_compute. reflexivity. }
  injection Hstate as Hmin Hmax.
  destruct (_apply_player_action 1 RAISE (Some 4) (Some 900)
              (after_calls [StartNewHand 100] heads_up_new_table))
    as [t' [done|code message|w|]] eqn:Hrun; cbn [snd];
    [exact Logic.I| |exact Logic.I|exact Logic.I].
  apply (bot_decision_not_rejected
           (after_calls [StartNewHand 100] heads_up_new_table) hand 1%nat
           (AllowedActions.mk true false true false true true 1 None
              (Some 4) (Some 80) 3 79) 79 0%nat 3%nat
           (BotDecision.mk RAISE (Some 4) 900) (Some 900) Hhand Hactor
           Hallowed (proj1 least_draws_in_range)) with t' code message.
  - intros _. exists 4, 80. split; [exact Hmin|]. split; [exact Hmax|lia].
  - reflexivity.
  - left. discriminate.
  - exact Hrun.
Defined.

End BotTableSamples.
(** ** The numbers of the hands *)

(** Closes the conditions of [knowing] at the assignments that leave
    the numbers of the hands alone. *)
Ltac numbers_side :=
  try solve
    [ intros; assumption
    | intros ? Hnumbers; exact Hnumbers
    | intros ? ? Hnumbers E; unfold on_numbers, hand_numbers in *;
      cbn; rewrite E in Hnumbers; exact Hnumbers ].

Ltac numbering := knowing ltac:(numbers_side).

Section HandNumbering.
Context {State : Type} `{!Provider State} `{!Environment}.

Abbreviation Table := (TableRuntime.t State).

Section Frame.
Variable P : HandNumbers -> Prop.

Abbreviation same := (on_numbers (State:=State) P).

Lemma emit_event_numbers event_type payload :
  keeps same same (_emit_event event_type payload).
Proof. numbering. Qed.

#[local] Hint Resolve emit_event_numbers : keeps.

Lemma sync_numbers : keeps same same _sync_table_stacks_from_state.
Proof. numbering. Qed.

Lemma post_blinds_numbers fuel : keeps same same (_post_blinds_locked fuel).
Proof. induction fuel; cbn [_post_blinds_locked]; numbering. Qed.

Lemma deal_hole_cards_numbers fuel :
  keeps same same (_deal_hole_cards_locked fuel).
Proof. induction fuel; cbn [_deal_hole_cards_locked]; numbering. Qed.

Lemma draw_cards_numbers count : keeps same same (draw_cards count).
Proof. induction count; cbn [draw_cards]; numbering. Qed.

Lemma tally_winners_numbers items tally :
  keeps same same (tally_winners items tally).
Proof.
  revert tally.
  induction items as [|[i a] items IH]; intros; cbn [tally_winners];
    numbering.
Qed.

#[local] Hint Resolve sync_numbers post_blinds_numbers deal_hole_cards_numbers
  draw_cards_numbers tally_winners_numbers : keeps.

Lemma refresh_outcome_numbers : keeps same same _refresh_outcome.
Proof. numbering. Qed.

Lemma perform_action_numbers seat action amount_to :
  keeps same same (perform_action seat action amount_to).
Proof. numbering. Qed.

Lemma apply_player_action_numbers seat action amount_to delay :
  keeps same same (_apply_player_action seat action amount_to delay).
Proof. numbering. Qed.

Lemma award_pot_numbers : keeps same same award_pot.
Proof. numbering. Qed.

#[local] Hint Resolve refresh_outcome_numbers perform_action_numbers
  apply_player_action_numbers award_pot_numbers : keeps.

Lemma forced_step_numbers hand : keeps same same (forced_step hand).
Proof. numbering. Qed.

#[local] Hint Resolve forced_step_numbers : keeps.

Lemma advance_loop_numbers passes : keeps same same (advance_loop passes).
Proof. induction passes; cbn [advance_loop]; numbering. Qed.

Lemma build_view_numbers viewer_id : keeps same same (build_view viewer_id).
Proof. numbering. Qed.

End Frame.

#[local] Hint Resolve emit_event_numbers sync_numbers post_blinds_numbers
  deal_hole_cards_numbers refresh_outcome_numbers apply_player_action_numbers
  advance_loop_numbers build_view_numbers : keeps.

Abbreviation ordered kept :=
  (on_numbers (State:=State) (numbers_in_order kept)).
Abbreviation pinned numbers := (on_numbers (State:=State) (eq numbers)).

(** A property of the numbers is shown at each value of the numbers. *)
Lemma hoare_pinned {A} (P : HandNumbers -> Prop) (m : M State A)
    (Q : A -> Table -> Prop) (R : Table -> Prop) :
  (∀ numbers, P numbers -> hoare (pinned numbers) m Q R) ->
  hoare (on_numbers P) m Q R.
Proof. intros Hm t Ht. exact (Hm (hand_numbers t) Ht t eq_refl). Qed.

(** [_complete_hand_locked] files the history of the current hand under
    its number. *)
Lemma complete_hand_files (P Q : HandNumbers -> Prop) (R : Table -> Prop) :
  (∀ next_hand_id filed hand_id history,
     P (next_hand_id, filed, Some (hand_id, false)) ->
     Q (next_hand_id, <[hand_id := history]> filed, Some (hand_id, true))) ->
  hoare (on_numbers (λ numbers,
           P numbers ∧ ∃ hand_id, numbers.2 = Some (hand_id, false)))
    _complete_hand_locked (λ _, on_numbers Q) R.
Proof.
  intros Hfiling.
  apply hoare_pinned. intros [[next_hand_id filed] current].
  intros [Horder (hand_id & Hcurrent)]. cbn in Hcurrent. subst current.
  apply (hoare_unrejected _ _ _ (λ _, False));
    [apply complete_hand_unrejected|].
  unfold _complete_hand_locked.
  eapply hoare_bind with
    (I := λ _, pinned (next_hand_id, filed, Some (hand_id, true))).
  { apply hoare_modify_hand. intros t hand Ht E.
    unfold on_numbers, hand_numbers in *. rewrite E in Ht. cbn in *.
    injection Ht as -> -> -> _. reflexivity. }
  intros _.
  apply hoare_bind_keep; [numbering|intros _].
  apply hoare_bind_keep; [numbering|intros hand0].
  apply hoare_bind_keep; [numbering|intros showdown].
  apply hoare_bind_keep; [numbering|intros _].
  apply hoare_bind_keep; [numbering|intros table0].
  apply hoare_bind_keep; [numbering|intros _].
  apply hoare_bind_table. intros table Htable.
  eapply hoare_bind with
    (I := λ hand t,
            pinned (next_hand_id, filed, Some (hand_id, true)) t
            ∧ TableRuntime.current_hand t = Some hand).
  { apply hoare_the_hand. auto. }
  intros hand. cbv zeta.
  eapply hoare_bind with (I := λ _, on_numbers Q).
  { apply hoare_modify_table. intros t [Ht E].
    unfold on_numbers, hand_numbers in Ht, Htable |- *.
    rewrite E in Ht. cbn in Ht, Htable |- *. rewrite E. cbn.
    injection Htable as _ Hfiled _. injection Ht as Hnext _ Hid Hended.
    rewrite <- Hfiled, <- Hnext, <- Hid, <- Hended.
    apply Hfiling. exact Horder. }
  intros _.
  lazymatch goal with |- hoare ?P ?m _ ?R => change (keeps P R m) end.
  numbering.
Qed.

(** [_advance_locked] keeps what the filing of the current hand
    keeps. *)
Lemma advance_files (P : HandNumbers -> Prop) :
  (∀ next_hand_id filed hand_id history,
     P (next_hand_id, filed, Some (hand_id, false)) ->
     P (next_hand_id, <[hand_id := history]> filed, Some (hand_id, true))) ->
  keeps (on_numbers P) (on_numbers P) _advance_locked.
Proof.
  intros Hfiling. unfold _advance_locked.
  apply keeps_bind; [apply advance_loop_numbers|intros exit].
  assert (Hend : keeps (on_numbers P) (on_numbers P)
            (bind _sync_table_stacks_from_state (λ _,
             bind the_hand (λ hand,
               if negb (status (HandRuntime.pokerkit_state hand))
                  && negb (HandRuntime.ended hand)
               then _complete_hand_locked else ret tt)))).
  { apply keeps_bind; [apply sync_numbers|intros _].
    eapply hoare_bind with
      (I := λ hand t,
              on_numbers P t ∧ TableRuntime.current_hand t = Some hand).
    { apply hoare_the_hand. auto. }
    intros hand.
    destruct (negb (status (HandRuntime.pokerkit_state hand))); cbn [andb];
      [destruct (negb (HandRuntime.ended hand)) eqn:Eended|].
    - eapply hoare_pre; [apply (complete_hand_files P P _ Hfiling)|].
      intros t [Ht E]. split; [exact Ht|].
      exists (HandRuntime.hand_id hand). cbn. rewrite E. cbn.
      apply negb_true_iff in Eended. rewrite Eended. reflexivity.
    - apply hoare_ret. intros t [Ht _]. exact Ht.
    - apply hoare_ret. intros t [Ht _]. exact Ht. }
  destruct exit; [exact Hend|exact Hend|apply keeps_ret].
Qed.

(** [_start_hand_locked] gives the new hand the next number. *)
Lemma start_hand_takes (P Q : HandNumbers -> Prop) fuel :
  (∀ next_hand_id filed,
     P (next_hand_id, filed, None) ->
     Q (S next_hand_id, filed, Some (next_hand_id, false))) ->
  hoare (on_numbers (λ numbers, P numbers ∧ numbers.2 = None))
    (_start_hand_locked fuel) (λ _, on_numbers Q) (on_numbers P).
Proof.
  intros Htaking.
  apply hoare_pinned. intros [[next_hand_id filed] current].
  intros [Horder Hcurrent]. cbn in Hcurrent. subst current.
  assert (Hleft : ∀ t : Table,
            pinned (next_hand_id, filed, None) t -> on_numbers P t).
  { intros t Ht. unfold on_numbers in Ht |- *.
    rewrite <- Ht. exact Horder. }
  unfold _start_hand_locked. walking.
  { eapply hoare_bind with (I := λ _, pinned (next_hand_id, filed, None));
      [|intros _; apply hoare_reject; exact Hleft].
    apply hoare_weaken with
      (P' := pinned (next_hand_id, filed, None))
      (Q' := λ _, pinned (next_hand_id, filed, None))
      (R' := pinned (next_hand_id, filed, None));
      [apply refresh_outcome_numbers|auto|auto|exact Hleft]. }
  all: eapply hoare_bind with
         (I := λ _, pinned (S next_hand_id, filed, None));
         [apply hoare_modify_table|intros _].
  all: try (lazymatch goal with
            | Htable : on_numbers (eq _) ?table |- _ =>
                intros t Ht;
                unfold on_numbers, hand_numbers in Ht, Htable |- *;
                cbn in Ht, Htable |- *;
                injection Htable as Hnext _ _; injection Ht as _ Hfiled Hnone;
                rewrite <- Hnext, <- Hfiled, <- Hnone; reflexivity
            end).
  all: walking.
  all: apply hoare_bind_keep; [apply keeps_modify_table; numbers_side|
                               intros _].
  all: walking.
  all: eapply hoare_bind with (I := λ _, on_numbers Q);
         [apply hoare_modify_table|
          intros _; apply (hoare_unrejected _ _ _ (on_numbers Q));
          [apply keeps_bind; [apply emit_event_unrejected|intros _];
           apply keeps_bind; [apply post_blinds_unrejected|intros _];
           apply keeps_bind; [apply deal_hole_cards_unrejected|intros _];
           apply sync_unrejected
          |lazymatch goal with
           | |- hoare ?P ?m _ ?R => change (keeps P R m)
           end; numbering]].
  all: lazymatch goal with
       | Htable : on_numbers (eq _) ?table |- _ =>
           intros t Ht;
           unfold on_numbers, hand_numbers in Ht, Htable |- *;
           cbn in Ht, Htable |- *;
           injection Htable as Hnext _ _; injection Ht as Hnext' Hfiled _;
           rewrite <- Hnext, <- Hnext', <- Hfiled
       end.
  all: apply Htaking; exact Horder.
Qed.


Lemma numbers_filed kept next_hand_id filed hand_id history :
  numbers_in_order kept (next_hand_id, filed, Some (hand_id, false)) ->
  numbers_in_order kept
    (next_hand_id, <[hand_id := history]> filed, Some (hand_id, true)).
Proof.
  intros (Hnext & Hkept & Hfiled & Hcurrent).
  destruct (Hcurrent hand_id false eq_refl) as (Hone & <- & Hfree).
  apply proj2 in Hfree. specialize (Hfree eq_refl).
  split; [exact Hnext|]. split.
  { etrans; [exact Hkept|]. apply insert_subseteq. exact Hfree. }
  split.
  - intros k h [[<- _]|[_ Hold]]%lookup_insert_Some; [lia|].
    exact (Hfiled _ _ Hold).
  - intros k ended [= <- <-]. split; [exact Hone|].
    split; [reflexivity|]. rewrite lookup_insert_eq.
    split; discriminate.
Qed.

Lemma numbers_taken kept next_hand_id filed :
  numbers_in_order kept (next_hand_id, filed, None) ->
  numbers_in_order kept
    (S next_hand_id, filed, Some (next_hand_id, false)).
Proof.
  intros (Hone & Hkept & Hfiled & _).
  split; [lia|]. split; [exact Hkept|]. split.
  - intros k h Hk. specialize (Hfiled k h Hk). lia.
  - intros k ended [= <- <-]. split; [exact Hone|].
    split; [reflexivity|]. split; [reflexivity|intros _].
    destruct (filed !! next_hand_id) as [h|] eqn:Hk; [|reflexivity].
    specialize (Hfiled _ _ Hk). lia.
Qed.

Lemma advance_ordered kept :
  keeps (ordered kept) (ordered kept) _advance_locked.
Proof. apply advance_files. apply numbers_filed. Qed.

Lemma retire_hand_ordered kept :
  keeps (ordered kept) (ordered kept) retire_hand.
Proof.
  unfold retire_hand.
  apply keeps_bind; [apply keeps_the_hand|intros hand].
  apply keeps_bind; [|intros _; numbering].
  apply keeps_modify_table. intros t (Hnext & Hkept & Hfiled & _).
  split; [exact Hnext|]. split; [exact Hkept|]. split; [exact Hfiled|].
  intros hand_id ended [=].
Qed.

#[local] Hint Resolve advance_ordered retire_hand_ordered : keeps.

Lemma run_bots_loop_ordered kept passes :
  keeps (ordered kept) (ordered kept) (run_bots_loop passes).
Proof. induction passes; cbn [run_bots_loop]; numbering. Qed.

#[local] Hint Resolve run_bots_loop_ordered : keeps.

(** [start_new_hand] past its tests, and [restart_session] past its
    resets. *)
Lemma start_and_advance_takes (P Q : HandNumbers -> Prop) fuel :
  (∀ next_hand_id filed,
     P (next_hand_id, filed, None) ->
     Q (S next_hand_id, filed, Some (next_hand_id, false))) ->
  (∀ next_hand_id filed hand_id history,
     Q (next_hand_id, filed, Some (hand_id, false)) ->
     Q (next_hand_id, <[hand_id := history]> filed, Some (hand_id, true))) ->
  hoare (on_numbers (λ numbers, P numbers ∧ numbers.2 = None))
    (bind (_start_hand_locked fuel) (λ _,
     bind _advance_locked (λ _,
     bind (build_view "human") (λ view,
     bind the_hand (λ hand,
       ret (StartHandResponse.mk view (HandRuntime.event_log hand)))))))
    (λ _, on_numbers Q) (on_numbers P).
Proof.
  intros Htaking Hfiling.
  eapply hoare_bind with (I := λ _, on_numbers Q);
    [apply start_hand_takes; exact Htaking|intros _].
  apply (hoare_unrejected _ _ _ (on_numbers Q)).
  { apply keeps_bind; [apply advance_unrejected|intros _].
    apply keeps_bind; [apply build_view_unrejected|intros view].
    apply keeps_bind; [apply keeps_the_hand|intros hand].
    apply keeps_ret. }
  apply hoare_bind_keep; [apply advance_files; exact Hfiling|intros _].
  lazymatch goal with |- hoare ?P ?m _ ?R => change (keeps P R m) end.
  numbering.
Qed.

Lemma start_new_hand_ordered kept fuel :
  keeps (ordered kept) (ordered kept) (start_new_hand fuel).
Proof.
  unfold start_new_hand.
  eapply hoare_bind with (I := λ table t, ordered kept t ∧ t = table);
    [apply hoare_get_table; auto|intros table].
  destruct (decide _) as [Hsome|Hnone];
    [apply hoare_reject; intros t [Ht _]; exact Ht|].
  apply hoare_pre with
    (P' := on_numbers (λ numbers,
             numbers_in_order kept numbers ∧ numbers.2 = None)).
  2: { intros t [Ht ->]. split; [exact Ht|]. cbn.
       destruct (TableRuntime.current_hand table); [|reflexivity].
       exfalso. apply Hnone. discriminate. }
  assert (Hleft : ∀ t : Table,
            on_numbers (λ numbers,
              numbers_in_order kept numbers ∧ numbers.2 = None) t ->
            ordered kept t).
  { intros t [Ht _]. exact Ht. }
  eapply hoare_bind with
    (I := λ _, on_numbers (λ numbers,
                 numbers_in_order kept numbers ∧ numbers.2 = None)).
  { eapply hoare_weaken with (R' := on_numbers _);
      [apply refresh_outcome_numbers|
       intros t Ht; exact Ht|intros ? t Ht; exact Ht|exact Hleft]. }
  intros _. apply hoare_bind_table. intros table1 _.
  destruct (decide _).
  - eapply hoare_weaken with (Q' := λ _, _);
      [|intros t Ht; exact Ht|intros ? t Ht; exact (Hleft t Ht)|exact Hleft].
    lazymatch goal with |- hoare ?P ?m _ ?R => change (keeps P R m) end.
    numbering.
  - apply start_and_advance_takes;
      [apply numbers_taken|apply numbers_filed].
Qed.

(** [restart_session] starts the numbers again. *)
Lemma restart_session_numbers fuel :
  hoare (λ _, True) (restart_session fuel)
    (λ _, on_numbers (λ numbers,
            numbers_in_order ∅ numbers
            ∧ numbers.1.1 = 2%nat ∧ numbers.2 ≠ None))
    (pinned (1%nat, ∅, None)).
Proof.
  unfold restart_session.
  eapply hoare_bind with (I := λ _ _, True);
    [apply hoare_modify_table; auto|intros _].
  eapply hoare_bind with (I := λ _ _, True);
    [apply hoare_modify_table; auto|intros _].
  eapply hoare_bind with (I := λ _ t, TableRuntime.current_hand t = None);
    [apply hoare_modify_table; auto|intros _].
  eapply hoare_bind with
    (I := λ _ t, TableRuntime.current_hand t = None
                 ∧ TableRuntime.completed_hands t = ∅);
    [apply hoare_modify_table; auto|intros _].
  eapply hoare_bind with
    (I := λ _ t, TableRuntime.current_hand t = None
                 ∧ TableRuntime.completed_hands t = ∅);
    [apply hoare_modify_table; auto|intros _].
  eapply hoare_bind with
    (I := λ _, on_numbers (λ numbers,
                 numbers = (1%nat, ∅, None) ∧ numbers.2 = None)).
  { apply hoare_modify_table. intros t [Hnone Hempty].
    unfold on_numbers, hand_numbers. cbn. rewrite Hnone, Hempty. cbn. auto. }
  intros _.
  eapply hoare_weaken;
    [apply (start_and_advance_takes
              (λ numbers, numbers = (1%nat, ∅, None))
              (λ numbers, numbers_in_order ∅ numbers
                          ∧ numbers.1.1 = 2%nat ∧ numbers.2 ≠ None))|..].
  - intros next_hand_id filed [= -> ->]. split; [|split; [reflexivity|]].
    + apply numbers_taken. split; [lia|]. split; [reflexivity|]. split.
      * intros k h Hk. rewrite lookup_empty in Hk. discriminate Hk.
      * intros k ended [=].
    + discriminate.
  - intros next_hand_id filed hand_id history (Horder & Hnext & _).
    split; [apply numbers_filed; exact Horder|]. split; [exact Hnext|].
    discriminate.
  - intros t Ht. exact Ht.
  - intros ? t Ht. exact Ht.
  - intros t Ht. unfold on_numbers in Ht |- *. symmetry. exact Ht.
Qed.

Lemma restart_session_ordered fuel :
  keeps (ordered ∅) (ordered ∅) (restart_session fuel).
Proof.
  eapply hoare_weaken; [apply restart_session_numbers|..].
  - intros t _. exact Logic.I.
  - intros ? t [Ht _]. exact Ht.
  - intros t Ht. unfold on_numbers in Ht |- *. rewrite <- Ht.
    split; [lia|]. split; [reflexivity|]. split.
    + intros k h Hk. rewrite lookup_empty in Hk. discriminate Hk.
    + intros k ended [=].
Qed.

Lemma submit_action_ordered kept viewer_id action action_seq key amount_to :
  keeps (ordered kept) (ordered kept)
    (submit_action viewer_id action action_seq key amount_to).
Proof. numbering. Qed.

#[local] Hint Resolve start_new_hand_ordered submit_action_ordered : keeps.

Lemma perform_call_ordered kept call :
  (∀ fuel, call ≠ RestartSession fuel) ∨ kept = ∅ ->
  keeps (ordered kept) (ordered kept) (perform_call call).
Proof.
  intros Hcall. destruct call; try solve [numbering].
  unfold perform_call, forget.
  destruct Hcall as [Hother| ->]; [destruct (Hother fuel eq_refl)|].
  apply keeps_bind; [apply restart_session_ordered|intros ?; apply keeps_ret].
Qed.

Lemma reachable_ordered (t : Table) : reachable t -> ordered ∅ t.
Proof.
  induction 1 as [table_id random_seed config | call t Ht IH Hback].
  - split; [cbn; lia|]. split; [reflexivity|]. split.
    + intros k h Hk. cbn in Hk. rewrite lookup_empty in Hk. discriminate Hk.
    + intros k ended [=].
  - pose proof (perform_call_ordered ∅ call (or_intror eq_refl) t IH)
      as Hcall.
    destruct (perform_call call t) as [t' [[]|code msg|w|]]; cbn in *;
      try discriminate Hback; exact Hcall.
Qed.

(** The numbers of the hands of a reachable table are in order.  The
    histories are filed under numbers from 1 up to [next_hand_id], so
    that the hand started next takes a number under which nothing is
    filed.  The current hand has the number [next_hand_id - 1], and its
    history is filed when it has ended and not before. *)
Theorem hand_numbers_in_order (t : Table) :
  reachable t ->
  (1 <= TableRuntime.next_hand_id t)%nat
  ∧ TableRuntime.completed_hands t !! TableRuntime.next_hand_id t = None
  ∧ (∀ hand_id history,
       TableRuntime.completed_hands t !! hand_id = Some history ->
       (1 <= hand_id < TableRuntime.next_hand_id t)%nat)
  ∧ ∀ hand,
      TableRuntime.current_hand t = Some hand ->
      (1 <= HandRuntime.hand_id hand)%nat
      ∧ S (HandRuntime.hand_id hand) = TableRuntime.next_hand_id t
      ∧ (TableRuntime.completed_hands t !! HandRuntime.hand_id hand = None
         <-> HandRuntime.ended hand = false).
Proof.
  intros Hreach.
  destruct (reachable_ordered t Hreach) as (Hone & _ & Hfiled & Hcurrent).
  split; [exact Hone|]. split.
  { destruct (TableRuntime.completed_hands t !! TableRuntime.next_hand_id t)
      as [h|] eqn:Hk; [|reflexivity].
    specialize (Hfiled _ _ Hk). lia. }
  split; [exact Hfiled|].
  intros hand Hhand. apply Hcurrent. rewrite Hhand. reflexivity.
Qed.

(** A history once filed stays as it is: a call other than
    [restart_session] that comes back leaves every history of a
    completed hand under its number, unchanged. *)
Theorem completed_history_kept (t : Table) call hand_id history :
  reachable t ->
  (∀ fuel, call ≠ RestartSession fuel) ->
  came_back (perform_call call t).2 = true ->
  TableRuntime.completed_hands t !! hand_id = Some history ->
  TableRuntime.completed_hands (perform_call call t).1 !! hand_id
  = Some history.
Proof.
  intros Hreach Hcall Hback Hfiled.
  destruct (reachable_ordered t Hreach) as (Hone & _ & Hbound & Hcurrent).
  assert (Ht : ordered (TableRuntime.completed_hands t) t).
  { split; [exact Hone|]. split; [reflexivity|].
    split; [exact Hbound|exact Hcurrent]. }
  pose proof (perform_call_ordered _ call (or_introl Hcall) t Ht) as Hrun.
  destruct (perform_call call t) as [t' [[]|code msg|w|]]; cbn in *;
    try discriminate Hback;
    destruct Hrun as (_ & Hkept & _);
    exact (lookup_weaken _ _ _ _ Hfiled Hkept).
Qed.

(** [restart_session] starts over, whatever the table was: when it
    returns, the hand it started has the number 1 and is the current
    hand, the next hand takes the number 2, and the histories of the
    hands played before are gone: nothing is filed but the history of
    hand 1, and that only when the hand has ended already. *)
Theorem restart_session_starts_over (t t' : Table) fuel response :
  restart_session fuel t = (t', Returned response) ->
  TableRuntime.next_hand_id t' = 2%nat
  ∧ (∃ hand,
       TableRuntime.current_hand t' = Some hand
       ∧ HandRuntime.hand_id hand = 1%nat
       ∧ (TableRuntime.completed_hands t' !! 1%nat = None
          <-> HandRuntime.ended hand = false))
  ∧ ∀ hand_id history,
      TableRuntime.completed_hands t' !! hand_id = Some history ->
      hand_id = 1%nat.
Proof.
  intros Hrun. pose proof (restart_session_numbers fuel t Logic.I) as Hpost.
  rewrite Hrun in Hpost.
  destruct Hpost as ((_ & _ & Hfiled & Hcurrent) & Hnext & Hsome).
  cbn in Hnext, Hsome, Hfiled, Hcurrent.
  split; [exact Hnext|]. split.
  - destruct (TableRuntime.current_hand t') as [hand|]; [|destruct Hsome;
                                                           reflexivity].
    exists hand. split; [reflexivity|].
    destruct (Hcurrent _ _ eq_refl) as (_ & Hid & Hended).
    assert (HandRuntime.hand_id hand = 1%nat) as Hone by lia.
    rewrite Hone in Hended. auto.
  - intros hand_id history Hk. specialize (Hfiled _ _ Hk). lia.
Qed.

End HandNumbering.

Section HandNumberSamples.
#[local] Existing Instance Reference.provider.
#[local] Existing Instance Reference.environment.

(** The heads-up table is in its second hand: the history of the first
    is filed, the next hand takes the number 3. *)
Example heads_up_hand_numbers :
  hand_numbers heads_up_table
  = (3%nat, TableRuntime.completed_hands heads_up_table, Some (2%nat, false))
  ∧ dom (TableRuntime.completed_hands heads_up_table) = {[1%nat]}.
Proof. split; vm_compute; reflexivity. Qed.

Lemma hand_numbers_in_order_witness :
  ∃ hand,
    TableRuntime.current_hand heads_up_table = Some hand
    ∧ S (HandRuntime.hand_id hand) = TableRuntime.next_hand_id heads_up_table
    ∧ TableRuntime.completed_hands heads_up_table
      !! TableRuntime.next_hand_id heads_up_table = None.
Proof.
  destruct (hand_numbers_in_order heads_up_table heads_up_table_reachable)
    as (_ & Hfree & _ & Hcurrent).
  destruct (TableRuntime.current_hand heads_up_table) as [hand|] eqn:Hhand;
    [|vm_compute in Hhand; discriminate Hhand].
  exists hand. split; [reflexivity|].
  split; [exact (proj1 (proj2 (Hcurrent hand eq_refl)))|exact Hfree].
Defined.

(** The bots play on in the second hand of the heads-up table: the
    history of the first hand stays. *)
Lemma completed_history_kept_witness :
  ∃ history,
    TableRuntime.completed_hands heads_up_table !! 1%nat = Some history
    ∧ TableRuntime.completed_hands
        (perform_call RunBotsUntilHumanTurn heads_up_table).1 !! 1%nat
      = Some history.
Proof.
  destruct (TableRuntime.completed_hands heads_up_table !! 1%nat)
    as [history|] eqn:Hhistory;
    [|vm_compute in Hhistory; discriminate Hhistory].
  exists history. split; [reflexivity|].
  apply (completed_history_kept heads_up_table RunBotsUntilHumanTurn 1%nat
           history heads_up_table_reachable).
  - intros fuel. discriminate.
  - vm_compute. reflexivity.
  - exact Hhistory.
Defined.


(** The heads-up table is restarted in its second hand. *)
Lemma restart_session_starts_over_witness :
  ∃ (t' : TableRuntime.t Reference.t) response,
    restart_session 100 heads_up_table = (t', Returned response)
    ∧ TableRuntime.next_hand_id t' = 2%nat
    ∧ ∃ hand, TableRuntime.current_hand t' = Some hand
              ∧ HandRuntime.hand_id hand = 1%nat.
Proof.
  assert (Hback : has_returned (restart_session 100 heads_up_table).2 = true)
    by (vm_compute; reflexivity).
  apply returned_value in Hback as (t' & response & Hrun).
  exists t', response. split; [exact Hrun|].
  destruct (restart_session_starts_over heads_up_table t' 100 response Hrun)
    as (Hnext & (hand & Hhand & Hid & _) & _).
  split; [exact Hnext|]. exists hand. split; [exact Hhand|exact Hid].
Defined.

End HandNumberSamples.

(** ** The numbers of the actions *)

(** Closes the conditions of [knowing] at the assignments that leave
    the numbers of the actions alone, at the one that puts a new hand
    in place and at those that take the current hand or the histories
    away. *)
Ltac actions_side :=
  try solve
    [ intros; assumption
    | intros ? Hnumbers; exact Hnumbers
    | intros ? ? Hnumbers E; unfold on_actions, action_numbers in *;
      cbn; rewrite E in Hnumbers; exact Hnumbers
    | intros ? [Hfiled _]; split; [exact Hfiled|];
      cbn; intros ? ? ? [= <- <- <-];
      split; [reflexivity|]; split; [reflexivity|];
      intros ? ? Hrow; rewrite lookup_nil in Hrow; discriminate Hrow
    | intros ? [Hfiled _]; split; [exact Hfiled|];
      cbn; intros ? ? ? Hnone; discriminate Hnone
    | intros ? [_ Hcurrent]; split; [|exact Hcurrent];
      cbn; intros ? ? Hrows; rewrite fmap_empty, lookup_empty in Hrows;
      discriminate Hrows ].

Ltac acting := knowing ltac:(actions_side).

Section ActionNumbering.
Context {State : Type} `{!Provider State} `{!Environment}.

Abbreviation Table := (TableRuntime.t State).

Section Frame.
Variable P : ActionNumbers -> Prop.

Abbreviation same := (on_actions (State:=State) P).

Lemma emit_event_actions event_type payload :
  keeps same same (_emit_event event_type payload).
Proof. acting. Qed.

#[local] Hint Resolve emit_event_actions : keeps.

Lemma sync_actions : keeps same same _sync_table_stacks_from_state.
Proof. acting. Qed.

Lemma post_blinds_actions fuel : keeps same same (_post_blinds_locked fuel).
Proof. induction fuel; cbn [_post_blinds_locked]; acting. Qed.

Lemma deal_hole_cards_actions fuel :
  keeps same same (_deal_hole_cards_locked fuel).
Proof. induction fuel; cbn [_deal_hole_cards_locked]; acting. Qed.

Lemma draw_cards_actions count : keeps same same (draw_cards count).
Proof. induction count; cbn [draw_cards]; acting. Qed.

Lemma tally_winners_actions items tally :
  keeps same same (tally_winners items tally).
Proof.
  revert tally.
  induction items as [|[i a] items IH]; intros; cbn [tally_winners];
    acting.
Qed.

#[local] Hint Resolve sync_actions post_blinds_actions deal_hole_cards_actions
  draw_cards_actions tally_winners_actions : keeps.

Lemma refresh_outcome_actions : keeps same same _refresh_outcome.
Proof. acting. Qed.

Lemma perform_action_actions seat action amount_to :
  keeps same same (perform_action seat action amount_to).
Proof. acting. Qed.

Lemma award_pot_actions : keeps same same award_pot.
Proof. acting. Qed.

#[local] Hint Resolve refresh_outcome_actions perform_action_actions
  award_pot_actions : keeps.

Lemma forced_step_actions hand : keeps same same (forced_step hand).
Proof. acting. Qed.

#[local] Hint Resolve forced_step_actions : keeps.

Lemma advance_loop_actions passes : keeps same same (advance_loop passes).
Proof. induction passes; cbn [advance_loop]; acting. Qed.

Lemma build_view_actions viewer_id : keeps same same (build_view viewer_id).
Proof. acting. Qed.

End Frame.

#[local] Hint Resolve emit_event_actions sync_actions post_blinds_actions
  deal_hole_cards_actions refresh_outcome_actions perform_action_actions
  advance_loop_actions build_view_actions order_seats_keeps : keeps.

Abbreviation logged := (on_actions (State:=State) actions_in_order).

Lemma rows_in_order_snoc rows row :
  rows_in_order rows ->
  ActionHistoryRow.step_index row = S (length rows) ->
  ActionHistoryRow.action_seq row = Z.of_nat (S (length rows)) ->
  rows_in_order (rows ++ [row]).
Proof.
  intros Hrows Hstep Hseq i r Hi.
  apply lookup_app_Some in Hi as [Hi|[Hlen Hi]]; [exact (Hrows i r Hi)|].
  apply list_lookup_singleton_Some in Hi as [Hzero <-].
  assert (i = length rows) as -> by lia. auto.
Qed.

(** [_apply_player_action] gives the action the next numbers. *)
Lemma apply_player_action_logged seat action amount_to delay :
  keeps logged logged (_apply_player_action seat action amount_to delay).
Proof.
  unfold _apply_player_action.
  apply keeps_bind; [acting|intros actor_seat].
  destruct (decide _); [apply keeps_reject; auto|].
  apply keeps_bind; [apply perform_action_actions|].
  intros [action_to_log amount_logged].
  eapply hoare_bind with
    (I := λ _, on_actions (λ numbers,
                 (∀ hand_id rows,
                    numbers.1 !! hand_id = Some rows -> rows_in_order rows)
                 ∧ ∃ rows,
                     numbers.2
                     = Some (Z.of_nat (S (length rows)), S (length rows),
                             rows)
                     ∧ rows_in_order rows)).
  { apply hoare_modify_hand. intros t hand [Hfiled Hcurrent] E.
    unfold on_actions, action_numbers in Hcurrent |- *.
    rewrite E in Hcurrent. cbn in Hcurrent |- *.
    split; [exact Hfiled|].
    destruct (Hcurrent _ _ _ eq_refl) as (Hseq & Hnext & Hrows).
    exists (HandRuntime.action_log_internal hand).
    split; [|exact Hrows]. rewrite Hseq, Hnext. do 3 f_equal. lia. }
  intros _.
  eapply hoare_bind with
    (I := λ hand t,
            (∀ hand_id rows,
               (action_numbers t).1 !! hand_id = Some rows ->
               rows_in_order rows)
            ∧ TableRuntime.current_hand t = Some hand
            ∧ HandRuntime.action_seq hand
              = Z.of_nat (S (length (HandRuntime.action_log_internal hand)))
            ∧ HandRuntime.next_step_index hand
              = S (length (HandRuntime.action_log_internal hand))
            ∧ rows_in_order (HandRuntime.action_log_internal hand)).
  { apply hoare_the_hand. intros t hand [Hfiled (rows & Hcurrent & Hrows)] E.
    unfold action_numbers in Hcurrent. rewrite E in Hcurrent.
    cbn in Hcurrent. injection Hcurrent as Hseq Hnext <-.
    split; [exact Hfiled|]. split; [exact E|]. auto. }
  intros hand. cbv zeta.
  eapply hoare_bind with
    (I := λ _ t,
            (∀ hand_id rows,
               (action_numbers t).1 !! hand_id = Some rows ->
               rows_in_order rows)
            ∧ (∃ hand',
                 TableRuntime.current_hand t = Some hand'
                 ∧ HandRuntime.action_seq hand' = HandRuntime.action_seq hand
                 ∧ HandRuntime.next_step_index hand'
                   = S (HandRuntime.next_step_index hand)
                 ∧ HandRuntime.action_log_internal hand'
                   = HandRuntime.action_log_internal hand)
            ∧ HandRuntime.action_seq hand
              = Z.of_nat (S (length (HandRuntime.action_log_internal hand)))
            ∧ HandRuntime.next_step_index hand
              = S (length (HandRuntime.action_log_internal hand))
            ∧ rows_in_order (HandRuntime.action_log_internal hand)).
  { apply hoare_modify_hand.
    intros t hand' (Hfiled & Hhand & Hseq & Hnext & Hrows) E.
    rewrite E in Hhand. injection Hhand as ->.
    split; [exact Hfiled|]. split; [|auto].
    eexists. split; [reflexivity|]. cbn. auto. }
  intros _.
  eapply hoare_bind with (I := λ _, logged).
  2: { intros _.
       lazymatch goal with |- hoare ?P ?m _ ?R => change (keeps P R m) end.
       acting. }
  apply hoare_modify_hand.
  intros t hand'
    (Hfiled & (h & Hhand & Hseq' & Hnext' & Hlog') & Hseq & Hnext & Hrows) E.
  rewrite E in Hhand. injection Hhand as <-.
  split; [exact Hfiled|]. cbn. intros ? ? ? [= <- <- <-].
  rewrite Hlog', Hseq', Hnext', Hseq, Hnext, length_app. cbn.
  split; [f_equal; lia|]. split; [lia|].
  apply rows_in_order_snoc; [exact Hrows|reflexivity|reflexivity].
Qed.

#[local] Hint Resolve apply_player_action_logged : keeps.

Lemma complete_hand_logged : keeps logged logged _complete_hand_locked.
Proof.
  acting.
  lazymatch goal with
  | Htable : logged ?table,
    Hsource : logged ?source,
    Hhand : TableRuntime.current_hand ?source = Some ?hand
    |- context [history_of ?table ?hand] =>
      destruct Htable as [Hcompleted _];
      destruct Hsource as [_ Hcurrent];
      unfold action_numbers in Hcurrent; rewrite Hhand in Hcurrent;
      destruct (Hcurrent _ _ _ eq_refl) as (_ & _ & Hrows)
  end.
  intros t [_ Hkept]. split; [|exact Hkept].
  cbn. intros hand_id rows. rewrite fmap_insert.
  intros [[_ <-]|[_ Hold]]%lookup_insert_Some; [exact Hrows|].
  exact (Hcompleted _ _ Hold).
Qed.

#[local] Hint Resolve complete_hand_logged : keeps.

Lemma advance_logged : keeps logged logged _advance_locked.
Proof. acting. Qed.

Lemma start_hand_logged fuel : keeps logged logged (_start_hand_locked fuel).
Proof. acting. Qed.

#[local] Hint Resolve advance_logged start_hand_logged : keeps.

Lemma run_bots_loop_logged passes :
  keeps logged logged (run_bots_loop passes).
Proof. induction passes; cbn [run_bots_loop]; acting. Qed.

#[local] Hint Resolve run_bots_loop_logged : keeps.

Lemma perform_call_logged call : keeps logged logged (perform_call call).
Proof. destruct call; acting. Qed.

Lemma reachable_logged (t : Table) : reachable t -> logged t.
Proof.
  induction 1 as [table_id random_seed config | call t Ht IH Hback].
  - split.
    + intros k rows Hk. cbn in Hk. rewrite fmap_empty, lookup_empty in Hk.
      discriminate Hk.
    + intros ? ? ? [=].
  - pose proof (perform_call_logged call t IH) as Hcall.
    destruct (perform_call call t) as [t' [[]|code msg|w|]]; cbn in *;
      try discriminate Hback; exact Hcall.
Qed.

(** The actions of a reachable table are numbered in order.  The action
    log of the current hand has as many rows as [action_seq] says, the
    next step index is one more, and its row at index [i] has the step
    index and the action sequence number [i + 1]; so have the rows of
    the actions of the history of a completed hand. *)
Theorem action_log_in_order (t : Table) :
  reachable t ->
  (∀ hand,
     TableRuntime.current_hand t = Some hand ->
     HandRuntime.action_seq hand
     = Z.of_nat (length (HandRuntime.action_log_internal hand))
     ∧ HandRuntime.next_step_index hand
       = S (length (HandRuntime.action_log_internal hand))
     ∧ ∀ i row,
         HandRuntime.action_log_internal hand !! i = Some row ->
         ActionHistoryRow.step_index row = S i
         ∧ ActionHistoryRow.action_seq row = Z.of_nat (S i))
  ∧ ∀ hand_id history i row,
      TableRuntime.completed_hands t !! hand_id = Some history ->
      HandHistory.actions history !! i = Some row ->
      ActionHistoryRow.step_index row = S i
      ∧ ActionHistoryRow.action_seq row = Z.of_nat (S i).
Proof.
  intros Hreach. destruct (reachable_logged t Hreach) as [Hfiled Hcurrent].
  split.
  - intros hand Hhand. apply Hcurrent. unfold action_numbers.
    rewrite Hhand. reflexivity.
  - intros hand_id history i row Hhistory Hrow.
    apply (Hfiled hand_id (HandHistory.actions history)); [|exact Hrow].
    cbn. rewrite lookup_fmap, Hhistory. reflexivity.
Qed.

End ActionNumbering.

Section ActionNumberSamples.
#[local] Existing Instance Reference.provider.
#[local] Existing Instance Reference.environment.

(** The second hand of the three-seat table: a raise, a fold and a
    call, numbered 1, 2 and 3. *)
Example three_seat_action_numbers :
  (TableRuntime.completed_hands three_seat_table !! 2%nat
   ≫= λ history : HandHistory.t,
        Some ((λ row, (ActionHistoryRow.step_index row,
                       ActionHistoryRow.action_seq row,
                       ActionHistoryRow.action row))
              <$> HandHistory.actions history))
  = Some [(1%nat, 1, RAISE); (2%nat, 2, FOLD); (3%nat, 3, CALL)].
Proof. vm_compute. reflexivity. Qed.

Lemma action_log_in_order_witness :
  ∃ hand,
    TableRuntime.current_hand heads_up_turn_table = Some hand
    ∧ HandRuntime.action_seq hand
      = Z.of_nat (length (HandRuntime.action_log_internal hand)).
Proof.
  destruct (action_log_in_order heads_up_turn_table
              heads_up_turn_table_reachable) as [Hcurrent _].
  destruct (TableRuntime.current_hand heads_up_turn_table) as [hand|]
    eqn:Hhand; [|vm_compute in Hhand; discriminate Hhand].
  exists hand. split; [reflexivity|].
  exact (proj1 (Hcurrent hand eq_refl)).
Defined.

End ActionNumberSamples.

Section Submissions.
Context {State : Type} `{!Provider State} `{!Environment}.

Abbreviation Table := (TableRuntime.t State).

#[local] Hint Resolve emit_event_actions sync_actions post_blinds_actions
  deal_hole_cards_actions refresh_outcome_actions perform_action_actions
  advance_loop_actions build_view_actions order_seats_keeps : keeps.

(** The filing of the current hand leaves its action log alone. *)
Lemma complete_hand_acts (P : ActionNumbers -> Prop) :
  (∀ filed filed' current, P (filed, current) -> P (filed', current)) ->
  keeps (on_actions P) (on_actions P) _complete_hand_locked.
Proof.
  intros Hstable. acting.
  intros t Ht. unfold on_actions, action_numbers in Ht |- *. cbn.
  eapply Hstable. exact Ht.
Qed.

Lemma advance_acts (P : ActionNumbers -> Prop) :
  (∀ filed filed' current, P (filed, current) -> P (filed', current)) ->
  keeps (on_actions P) (on_actions P) _advance_locked.
Proof.
  intros Hstable. pose proof (complete_hand_acts P Hstable) as Hcomplete.
  acting.
Qed.

(** [_apply_player_action] adds the row of the action to the log. *)
Lemma apply_player_action_row seat action amount_to delay seq :
  hoare (on_actions (λ numbers,
           ∃ next_step_index rows,
             numbers.2 = Some (seq, next_step_index, rows)))
    (_apply_player_action seat action amount_to delay)
    (λ _, on_actions (last_action seat (seq + 1))) (λ _, True).
Proof.
  unfold _apply_player_action.
  apply hoare_bind_keep;
    [unfold _actor_seat; acting|intros actor_seat].
  destruct (decide _); [apply hoare_reject; auto|].
  eapply hoare_bind;
    [eapply hoare_weaken with (R' := on_actions _);
     [apply perform_action_actions|
      intros t Ht; exact Ht|intros ? t Ht; exact Ht|auto]|].
  intros [action_to_log amount_logged].
  eapply hoare_bind with
    (I := λ _ t, ∃ hand,
            TableRuntime.current_hand t = Some hand
            ∧ HandRuntime.action_seq hand = seq + 1).
  { apply hoare_modify_hand. intros t hand (next & rows & Hcurrent) E.
    unfold action_numbers in Hcurrent. rewrite E in Hcurrent.
    cbn in Hcurrent. injection Hcurrent as Hseq _ _.
    eexists. split; [reflexivity|]. cbn. rewrite Hseq. reflexivity. }
  intros _.
  eapply hoare_bind with
    (I := λ hand t, TableRuntime.current_hand t = Some hand
                    ∧ HandRuntime.action_seq hand = seq + 1).
  { apply hoare_the_hand. intros t hand (h & Hhand & Hseq) E.
    rewrite E in Hhand. injection Hhand as <-. auto. }
  intros hand. cbv zeta.
  eapply hoare_bind with
    (I := λ _ t, (∃ hand', TableRuntime.current_hand t = Some hand'
                           ∧ HandRuntime.action_seq hand' = seq + 1)
                 ∧ HandRuntime.action_seq hand = seq + 1).
  { apply hoare_modify_hand. intros t hand' [Hhand Hseq] E.
    rewrite E in Hhand. injection Hhand as ->.
    split; [|exact Hseq]. eexists. split; [reflexivity|]. exact Hseq. }
  intros _.
  eapply hoare_bind with (I := λ _, on_actions (last_action seat (seq + 1))).
  { apply hoare_modify_hand. intros t hand' [(h & Hhand & Hseq') Hseq] E.
    rewrite E in Hhand. injection Hhand as <-.
    unfold on_actions, action_numbers. cbn.
    eexists _, _, _. split; [rewrite Hseq'; reflexivity|].
    split; [reflexivity|exact Hseq]. }
  intros _.
  apply hoare_weaken with
    (P' := on_actions (last_action seat (seq + 1)))
    (Q' := λ _, on_actions (last_action seat (seq + 1)))
    (R' := on_actions (last_action seat (seq + 1))); [|auto..].
  lazymatch goal with |- hoare ?P ?m _ ?R => change (keeps P R m) end.
  acting.
Qed.

(** An accepted submission is applied under the number it names.  When
    [submit_action] answers a key it has not seen with an accepted
    response, the action sequence number it was given is the number
    after that of the hand, the response carries it as
    [server_action_seq], the current hand has it as its [action_seq],
    and the last row of the action log is an action of seat 0 with that
    number. *)
Theorem accepted_submission_numbered (t t' : Table) hand viewer_id action
    action_seq idempotency_key amount_to response :
  TableRuntime.current_hand t = Some hand ->
  HandRuntime.idempotency_cache hand !! idempotency_key = None ->
  submit_action viewer_id action action_seq idempotency_key amount_to t
  = (t', Returned response) ->
  SubmitActionResponse.accepted response = true ->
  action_seq = HandRuntime.action_seq hand + 1
  ∧ SubmitActionResponse.server_action_seq response = action_seq
  ∧ ∃ hand' rows row,
      TableRuntime.current_hand t' = Some hand'
      ∧ HandRuntime.action_seq hand' = action_seq
      ∧ HandRuntime.action_log_internal hand' = rows ++ [row]
      ∧ ActionHistoryRow.seat_id row = 0%nat
      ∧ ActionHistoryRow.action_seq row = action_seq.
Proof.
  intros Ehand Hfresh Hrun Haccepted.
  unfold submit_action in Hrun. unfold bind at 1 in Hrun.
  unfold get_table in Hrun. rewrite Ehand, Hfresh in Hrun.
  destruct (decide (viewer_id ≠ "human")); [discriminate Hrun|].
  destruct (decide (action_seq ≠ HandRuntime.action_seq hand + 1))
    as [|Hseq%dec_stable]; [discriminate Hrun|].
  split; [exact Hseq|].
  unfold bind at 1 in Hrun. rewrite actor_seat_run, Ehand in Hrun.
  destruct (actor_seat_of hand) as [actor_seat|]; [|discriminate Hrun].
  destruct (decide (actor_seat ≠ Some 0%nat)); [discriminate Hrun|].
  unfold bind at 1 in Hrun. unfold try_except in Hrun.
  unfold bind at 1 in Hrun.
  pose proof (apply_player_action_row 0 action amount_to None
                (HandRuntime.action_seq hand) t) as Hrow.
  destruct (_apply_player_action 0 action amount_to None t)
    as [t1 [[]|code message|w|]]; try discriminate Hrun.
  2: { (* refused *)
       unfold bind at 1 in Hrun. rewrite build_view_run in Hrun.
       destruct (_build_view_state t1 viewer_id) as [view|];
         [|discriminate Hrun].
       unfold bind at 1 in Hrun. unfold the_hand in Hrun.
       destruct (TableRuntime.current_hand t1) as [hand1|];
         [|discriminate Hrun].
       cbn in Hrun. injection Hrun as _ <-. discriminate Haccepted. }
  assert (Hlast : on_actions (last_action 0 action_seq) t1).
  { rewrite Hseq. apply Hrow. unfold on_actions, action_numbers.
    rewrite Ehand. cbn. eauto. }
  clear Hrow. cbn [ret] in Hrun. unfold bind at 1 in Hrun.
  pose proof (advance_acts (last_action 0 action_seq)) as Hadvance.
  specialize (Hadvance ltac:(intros ? ? ? Hl; exact Hl) t1 Hlast).
  destruct (_advance_locked t1) as [t2 [[]|code message|w|]];
    try discriminate Hrun.
  unfold bind at 1 in Hrun. rewrite build_view_run in Hrun.
  destruct (_build_view_state t2 viewer_id) as [view|]; [|discriminate Hrun].
  unfold bind at 1 in Hrun. unfold the_hand in Hrun.
  destruct (TableRuntime.current_hand t2) as [hand2|] eqn:Ehand2;
    [|discriminate Hrun].
  unfold bind, modify_hand in Hrun. rewrite Ehand2 in Hrun. cbn [ret] in Hrun.
  injection Hrun as <- <-. cbn.
  destruct Hadvance as (next & rows & row & Hcurrent & Hseat & Hnumber).
  unfold action_numbers in Hcurrent. rewrite Ehand2 in Hcurrent.
  cbn in Hcurrent. injection Hcurrent as Hseq2 _ Hlog.
  split; [exact Hseq2|].
  eexists _, rows, row. split; [reflexivity|]. cbn. auto.
Qed.

End Submissions.

Section SubmissionSamples.
#[local] Existing Instance Reference.provider.
#[local] Existing Instance Reference.environment.

(** The check of the human at the heads-up table is the second action
    of the hand. *)
Lemma accepted_submission_numbered_witness :
  ∃ (t' : TableRuntime.t Reference.t) response,
    submit_action "human" CHECK 2 "k1" None heads_up_turn_table
    = (t', Returned response)
    ∧ SubmitActionResponse.server_action_seq response = 2.
Proof.
  destruct (TableRuntime.current_hand heads_up_turn_table) as [hand|]
    eqn:Hhand; [|vm_compute in Hhand; discriminate Hhand].
  assert (Hfresh : HandRuntime.idempotency_cache hand !! "k1" = None).
  { apply (found_eq _ (λ hand, HandRuntime.idempotency_cache hand !! "k1")
             hand _ Hhand). vm_compute. reflexivity. }
  assert (Haccepted :
            match (submit_action "human" CHECK 2 "k1" None
                     heads_up_turn_table).2
            with
            | Returned response => SubmitActionResponse.accepted response
            | _ => false
            end = true) by (vm_compute; reflexivity).
  destruct (submit_action "human" CHECK 2 "k1" None heads_up_turn_table)
    as [t' [response| | |]] eqn:Hrun; try discriminate Haccepted.
  exists t', response. split; [reflexivity|].
  exact (proj1 (proj2 (accepted_submission_numbered heads_up_turn_table t'
                         hand "human" CHECK 2 "k1" None response Hhand Hfresh
                         Hrun Haccepted))).
Defined.

End SubmissionSamples.
